(** * Ranger: a shallow embedding of the range orchestrator

    The development follows the Go sources package by package.  Part I holds
    the embedded definitions, Part II the theorems about them.

    Conventions used throughout:
    - a Go pointer to a range or a placement is an index into the slice that
      owns it, so that two names for the same object stay the same object;
    - a Go function that returns [error] returns its error next to the state
      it leaves behind, because the state it leaves behind on failure is
      what several properties are about;
    - a Go [panic] is a result of its own, never an error value. *)

From stdpp Require Import base strings list gmap.
From Stdlib Require Import ZArith Lia.

Open Scope string_scope.
Open Scope list_scope.

(* ================================================================= *)
(** * Part I: definitions                                              *)
(* ================================================================= *)

(* ----------------------------------------------------------------- *)
(** ** package ranje: the durable placement (placement.go)             *)
(* ----------------------------------------------------------------- *)

Module Durable.

(** Controller-side placement states, as the transition function names
    them. *)
Inductive StatePlacement :=
| SpUnknown | SpPending | SpFetching | SpFetched | SpFetchFailed
| SpReady | SpTaken | SpDropped.

#[global] Instance StatePlacement_eq_dec : EqDecision StatePlacement.
Proof. solve_decision. Defined.

(** [DurablePlacement]: the node the range is placed on and the state.  The
    back pointer [rang] is used for one thing only, [p.rang.Put()], which is
    the [Put] argument of [ToState] below. *)
Record DurablePlacement := mkDurablePlacement {
  NodeID : string;
  State : StatePlacement;
}.

#[global] Instance DurablePlacement_eq_dec : EqDecision DurablePlacement.
Proof. solve_decision. Defined.

Inductive error :=
| ErrIntoUnknown
| ErrOutOfDropped
| ErrInvalidTransition (old new : StatePlacement)
| ErrPersisting (cause : string).

(** What a call leaves behind: the placement as it is in memory afterwards,
    and either the returned error ([None] is Go's [nil]) or a panic. *)
Inductive result :=
| Returned (p : DurablePlacement) (err : option error)
| Panicked (p : DurablePlacement) (msg : string).

Definition setState (p : DurablePlacement) (s : StatePlacement) : DurablePlacement :=
  {| NodeID := NodeID p; State := s |}.

Definition setNodeID (p : DurablePlacement) (n : string) : DurablePlacement :=
  {| NodeID := n; State := State p |}.

(** The if/else-if ladder of [ToState]: it yields the placement as mutated
    so far and the [ok] flag, or panics.  Entering [SpDropped] from
    [SpTaken] clears the node id at this point, before anything is
    persisted. *)
Inductive ladder :=
| Ladder (p : DurablePlacement) (ok : bool)
| LadderPanic (p : DurablePlacement) (msg : string).

Definition transition (p : DurablePlacement) (old new : StatePlacement) : ladder :=
  match old with
  | SpPending =>
      match new with
      | SpFetching => Ladder p true
      | SpReady => Ladder p true
      | _ => Ladder p false
      end
  | SpFetching =>
      match new with
      | SpFetched => Ladder p true
      | SpFetchFailed =>
          LadderPanic p "placement state transition not implemented: fetching -> fetch_failed"
      | _ => Ladder p false
      end
  | SpFetched =>
      match new with
      | SpReady => Ladder p true
      | _ => Ladder p false
      end
  | SpFetchFailed =>
      match new with
      | SpPending =>
          LadderPanic p "placement state transition not implemented: fetch_failed -> pending"
      | _ => Ladder p false
      end
  | SpReady =>
      match new with
      | SpTaken => Ladder p true
      | _ => Ladder p false
      end
  | SpTaken =>
      match new with
      | SpDropped => Ladder (setNodeID p "") true
      | SpReady => Ladder p true
      | _ => Ladder p false
      end
  | _ => Ladder p false
  end.

(** [ToState].  [Put] is [p.rang.Put()]: it is handed the placement as it
    stands in memory when the range is written and answers [None] on
    success and [Some cause] when the write fails. *)
Definition ToState (Put : DurablePlacement -> option string)
  (p : DurablePlacement) (new : StatePlacement) : result :=
  let old := State p in
  if decide (new = SpUnknown) then Returned p (Some ErrIntoUnknown)
  else if decide (old = SpDropped) then Returned p (Some ErrOutOfDropped)
  else
    match transition p old new with
    | LadderPanic p1 msg => Panicked p1 msg
    | Ladder p1 false => Returned p1 (Some (ErrInvalidTransition old new))
    | Ladder p1 true =>
        let p2 := setState p1 new in
        match Put p2 with
        | Some cause => Returned (setState p2 old) (Some (ErrPersisting cause))
        | None => Returned p2 None
        end
    end.

(** The placement a call leaves in memory, whatever way it ended. *)
Definition after (r : result) : DurablePlacement :=
  match r with
  | Returned p _ => p
  | Panicked p _ => p
  end.

Definition failed (r : result) : bool :=
  match r with
  | Returned _ (Some _) => true
  | _ => false
  end.

End Durable.

(* ----------------------------------------------------------------- *)
(** ** package ranje: the keyspace (keyspace.go)                       *)
(* ----------------------------------------------------------------- *)

Module Ranje.

Definition Key := string.

(** [ZeroKey] stands for minus infinity as a start and plus infinity as an
    end. *)
Definition ZeroKey : Key := "".

(** Range identifiers: [Ident{Scope, Key}], the key a [uint64]. *)
Record Ident := mkIdent {
  Scope : string;
  IdentKey : Z;
}.

#[global] Instance Ident_eq_dec : EqDecision Ident.
Proof. solve_decision. Defined.

Definition uint64_max : Z := 2 ^ 64.

(** [x += 1] on a [uint64]. *)
Definition incr64 (x : Z) : Z := (x + 1) mod uint64_max.

Record Meta := mkMeta {
  MetaIdent : Ident;
  Start : Key;
  End : Key;
}.

(** The states of a range that the keyspace mentions. *)
Inductive StateLocal :=
| Pending | Ready | Splitting | Joining | Obsolete | Quarantined.

#[global] Instance StateLocal_eq_dec : EqDecision StateLocal.
Proof. solve_decision. Defined.

(** A pointer to a range is its address in the heap [Mem]. *)
Abbreviation ptr := nat (only parsing).

Record Range := mkRange {
  meta : Meta;
  state : StateLocal;
  parents : list ptr;
  children : list ptr;
  placements : list Durable.DurablePlacement;
}.

Abbreviation Mem := (list Range) (only parsing).

Record Keyspace := mkKeyspace {
  ranges : list ptr;
  nextIdent : Z;
}.

Inductive error :=
| ErrZeroKey
| ErrNotReady
| ErrHasChildren (r : ptr) (n : nat)
| ErrNotContained (r : ptr) (k : Key)
| ErrStartsWith (r : ptr) (k : Key)
| ErrNotAdjacent (one two : ptr)
| ErrInvalidRangeTransition (old new : StateLocal)
| ErrPersistingRange (cause : string).

Definition with_state (r : Range) (s : StateLocal) : Range :=
  {| meta := meta r; state := s; parents := parents r;
     children := children r; placements := placements r |}.

Definition with_children (r : Range) (cs : list ptr) : Range :=
  {| meta := meta r; state := state r; parents := parents r;
     children := cs; placements := placements r |}.

(** [Range.Contains] is not among the sources.  The node package compares
    keys against a range with
    [(start == ZeroKey || k >= start) && (end == ZeroKey || k < end)]
    ([RangeMeta.Contains]), and this is that test on the keyspace's keys. *)
Definition Contains (r : Range) (k : Key) : bool :=
  (bool_decide (Start (meta r) = ZeroKey) || String.leb (Start (meta r)) k)
  && (bool_decide (End (meta r) = ZeroKey) || String.ltb k (End (meta r))).

(** Modelled from the spec: [Range.ToState], which is not among the sources.
    The spec gives the range state machine ("Active -> Subsuming on
    split/join", "Subsuming -> Obsolete") and says that a mutation is
    written through and rolled back in memory when the write fails.  [Ready]
    is the active state here, [Splitting] and [Joining] the two subsuming
    ones.  [Put] answers for the store, as in [Durable.ToState]. *)
Definition valid_transition (old new : StateLocal) : bool :=
  match old, new with
  | Ready, Splitting | Ready, Joining => true
  | Splitting, Obsolete | Joining, Obsolete => true
  | _, _ => false
  end.

Definition Range_ToState (Put : Range -> option string)
  (r : Range) (new : StateLocal) : Range * option error :=
  if valid_transition (state r) new then
    match Put (with_state r new) with
    | None => (with_state r new, None)
    | Some cause => (r, Some (ErrPersistingRange cause))
    end
  else (r, Some (ErrInvalidRangeTransition (state r) new)).

(** The keyspace functions take [ToState] as an argument: they only rely on
    it returning the range it leaves in memory and an optional error.
    [zeroState] is Go's zero value of [StateLocal], the state of a range
    fresh from [ks.Range()]; the declaration of the enumeration is not among
    the sources, and nothing below depends on which state it is. *)
Section Keyspace.
Variable ToState : Range -> StateLocal -> Range * option error.
Variable zeroState : StateLocal.

(** [ks.Range()]: a fresh range with the next identifier.  The range is
    allocated at the end of the heap; it is not yet in [ks.ranges]. *)
Definition NewRange (m : Mem) (ks : Keyspace) : Mem * Keyspace * ptr :=
  let r := {| meta := {| MetaIdent := mkIdent "" (nextIdent ks);
                         Start := ZeroKey; End := ZeroKey |};
              state := zeroState; parents := []; children := [];
              placements := [] |} in
  (m ++ [r], {| ranges := ranges ks; nextIdent := incr64 (nextIdent ks) |},
   length m).

Definition with_bounds (r : Range) (s e : Key) (ps : list ptr) : Range :=
  {| meta := {| MetaIdent := MetaIdent (meta r); Start := s; End := e |};
     state := state r; parents := ps; children := children r;
     placements := placements r |}.

Definition append_range (ks : Keyspace) (p : ptr) : Keyspace :=
  {| ranges := ranges ks ++ [p]; nextIdent := nextIdent ks |}.

(** What a keyspace call leaves behind: heap, keyspace, and the value or the
    error it returned.  The functions answer [None] when they are handed a
    pointer that is not in the heap, where Go dereferences a bad pointer. *)
Inductive ret (A : Type) :=
| Ok (a : A)
| Err (e : error).
Arguments Ok {A} a.
Arguments Err {A} e.

(** [DoSplit]. *)
Definition DoSplit (m : Mem) (ks : Keyspace) (rp : ptr) (k : Key)
  : option (Mem * Keyspace * ret unit) :=
  r ← m !! rp;
  if bool_decide (k = ZeroKey) then Some (m, ks, Err ErrZeroKey)
  else if bool_decide (state r ≠ Ready) then Some (m, ks, Err ErrNotReady)
  else if bool_decide (0 < length (children r))%nat
    then Some (m, ks, Err (ErrHasChildren rp (length (children r))))
  else if negb (Contains r k) then Some (m, ks, Err (ErrNotContained rp k))
  else if bool_decide (k = Start (meta r)) then Some (m, ks, Err (ErrStartsWith rp k))
  else
    match ToState r Splitting with
    | (r1, Some e) => Some (<[rp := r1]> m, ks, Err e)
    | (r1, None) =>
        let m1 := <[rp := r1]> m in
        let '(m2, ks2, one) := NewRange m1 ks in
        let m3 := alter (fun x => with_bounds x (Start (meta r1)) k [rp]) one m2 in
        let '(m4, ks4, two) := NewRange m3 ks2 in
        let m5 := alter (fun x => with_bounds x k (End (meta r1)) [rp]) two m4 in
        let ks5 := append_range (append_range ks4 one) two in
        let m6 := alter (fun x => with_children x [one; two]) rp m5 in
        Some (m6, ks5, Ok ())
    end.

(** The first loop of [JoinTwo]: both ranges ready and childless. *)
Fixpoint join_checks (m : Mem) (rs : list ptr) : option (option error) :=
  match rs with
  | [] => Some None
  | rp :: rest =>
      r ← m !! rp;
      if bool_decide (state r ≠ Ready) then Some (Some ErrNotReady)
      else if bool_decide (0 < length (children r))%nat
        then Some (Some (ErrHasChildren rp (length (children r))))
      else join_checks m rest
  end.

(** The second loop of [JoinTwo]: each range in turn is taken to [Joining],
    and the first error ends the call with the heap as it is by then. *)
Fixpoint join_transitions (m : Mem) (rs : list ptr) : option (Mem * option error) :=
  match rs with
  | [] => Some (m, None)
  | rp :: rest =>
      r ← m !! rp;
      match ToState r Joining with
      | (r1, Some e) => Some (<[rp := r1]> m, Some e)
      | (r1, None) => join_transitions (<[rp := r1]> m) rest
      end
  end.

(** [JoinTwo]. *)
Definition JoinTwo (m : Mem) (ks : Keyspace) (one two : ptr)
  : option (Mem * Keyspace * ret ptr) :=
  chk ← join_checks m [one; two];
  match chk with
  | Some e => Some (m, ks, Err e)
  | None =>
      r1 ← m !! one;
      r2 ← m !! two;
      if bool_decide (End (meta r1) ≠ Start (meta r2))
      then Some (m, ks, Err (ErrNotAdjacent one two))
      else
        '(m1, terr) ← join_transitions m [one; two];
        match terr with
        | Some e => Some (m1, ks, Err e)
        | None =>
            o1 ← m1 !! one;
            o2 ← m1 !! two;
            let '(m2, ks2, three) := NewRange m1 ks in
            let m3 := alter (fun x => with_bounds x (Start (meta o1)) (End (meta o2))
                                        [one; two]) three m2 in
            let ks3 := append_range ks2 three in
            let m4 := alter (fun x => with_children x [three]) one m3 in
            let m5 := alter (fun x => with_children x [three]) two m4 in
            Some (m5, ks3, Ok three)
        end
  end.

End Keyspace.

Arguments Ok {A} a.
Arguments Err {A} e.

(** *** What a split and a join are to do, in the words of their contract *)

Definition key_lt (a b : Key) : Prop := String.ltb a b = true.

(** [r.start < k < r.end], an empty bound standing for infinity. *)
Definition strictly_inside (r : Range) (k : Key) : Prop :=
  (Start (meta r) = ZeroKey \/ key_lt (Start (meta r)) k)
  /\ (End (meta r) = ZeroKey \/ key_lt k (End (meta r))).

(** What [DoSplit] asks for before it changes anything, the store accepting
    the parent's new state included. *)
Definition split_pre (Put : Range -> option string) (r : Range) (k : Key) : Prop :=
  k <> ZeroKey /\ state r = Ready /\ children r = [] /\ strictly_inside r k
  /\ Put (with_state r Splitting) = None.

Definition child_range (zeroState : StateLocal) (id : Z) (s e : Key)
  (ps : list ptr) : Range :=
  {| meta := {| MetaIdent := mkIdent "" id; Start := s; End := e |};
     state := zeroState; parents := ps; children := []; placements := [] |}.

(** The heap and the keyspace after a split of the range [r] at address [rp]:
    the parent is [Splitting] and points at two new ranges, which sit at the
    end of the heap and of the keyspace. *)
Definition split_result (zeroState : StateLocal) (m : Mem) (ks : Keyspace)
  (rp : ptr) (r : Range) (k : Key) : Mem * Keyspace :=
  let one := length m in
  let two := S (length m) in
  (<[rp := with_children (with_state r Splitting) [one; two]]> m
     ++ [child_range zeroState (nextIdent ks) (Start (meta r)) k [rp];
         child_range zeroState (incr64 (nextIdent ks)) k (End (meta r)) [rp]],
   {| ranges := ranges ks ++ [one; two];
      nextIdent := incr64 (incr64 (nextIdent ks)) |}).

(** What [JoinTwo] asks for, the store accepting both new states included. *)
Definition join_pre (Put : Range -> option string) (r1 r2 : Range) : Prop :=
  state r1 = Ready /\ children r1 = [] /\ state r2 = Ready /\ children r2 = []
  /\ End (meta r1) = Start (meta r2)
  /\ Put (with_state r1 Joining) = None /\ Put (with_state r2 Joining) = None.

(** The heap and the keyspace after joining two different ranges. *)
Definition join_result (zeroState : StateLocal) (m : Mem) (ks : Keyspace)
  (one two : ptr) (r1 r2 : Range) : Mem * Keyspace :=
  let three := length m in
  (<[two := with_children (with_state r2 Joining) [three]]>
     (<[one := with_children (with_state r1 Joining) [three]]> m)
     ++ [child_range zeroState (nextIdent ks) (Start (meta r1)) (End (meta r2))
           [one; two]],
   {| ranges := ranges ks ++ [three]; nextIdent := incr64 (nextIdent ks) |}).

(** The state of the range at an address. *)
Definition state_at (m : Mem) (p : ptr) : option StateLocal := state <$> m !! p.

End Ranje.

(* ----------------------------------------------------------------- *)
(** ** package api: identifiers and states of the current sources      *)
(* ----------------------------------------------------------------- *)

Module Api.

Abbreviation Key := string (only parsing).
Definition ZeroKey : Key := "".

(** [RangeID] is a [uint64], [NodeID] a string. *)
Abbreviation RangeID := Z (only parsing).
Abbreviation NodeID := string (only parsing).

Inductive RangeState := RsUnknown | RsActive | RsSubsuming | RsObsolete.

Inductive PlacementState :=
| PsUnknown | PsPending | PsInactive | PsActive | PsMissing | PsDropped.

Inductive RemoteState :=
| NsUnknown | NsPreparing | NsInactive | NsActivating | NsActive
| NsDeactivating | NsDropping | NsNotFound.

Inductive Action := Prepare | Activate | Deactivate | Drop.

#[global] Instance RangeState_eq_dec : EqDecision RangeState.
Proof. solve_decision. Defined.
#[global] Instance PlacementState_eq_dec : EqDecision PlacementState.
Proof. solve_decision. Defined.
#[global] Instance RemoteState_eq_dec : EqDecision RemoteState.
Proof. solve_decision. Defined.
#[global] Instance Action_eq_dec : EqDecision Action.
Proof. solve_decision. Defined.

Record Meta := mkMeta {
  Ident : RangeID;
  Start : Key;
  End : Key;
}.

#[global] Instance Meta_eq_dec : EqDecision Meta.
Proof. solve_decision. Defined.

(** The [String] methods come from a generator and are not among the
    sources; they print the name of the constant, which is what the
    persister's two parse functions and the tests read back. *)
Definition RangeState_String (s : RangeState) : string :=
  match s with
  | RsUnknown => "RsUnknown"
  | RsActive => "RsActive"
  | RsSubsuming => "RsSubsuming"
  | RsObsolete => "RsObsolete"
  end.

Definition PlacementState_String (s : PlacementState) : string :=
  match s with
  | PsUnknown => "PsUnknown"
  | PsPending => "PsPending"
  | PsInactive => "PsInactive"
  | PsActive => "PsActive"
  | PsMissing => "PsMissing"
  | PsDropped => "PsDropped"
  end.

End Api.

(* ----------------------------------------------------------------- *)
(** ** package ranje: ranges and placements of the current sources     *)
(* ----------------------------------------------------------------- *)

Module Catalog.
Import Api.

(** [ranje.Placement].  Next to the three persisted fields it carries the
    node it is replacing (empty when none) and, for each action, how often
    the action has failed. *)
Record Placement := mkPlacement {
  NodeID : NodeID;
  StateCurrent : PlacementState;
  StateDesired : PlacementState;
  IsReplacing : Api.NodeID;
  FailedPrepare : nat;
  FailedActivate : nat;
  FailedDeactivate : nat;
  FailedDrop : nat;
}.

#[global] Instance Placement_eq_dec : EqDecision Placement.
Proof. solve_decision. Defined.

(** [ranje.Range]: parents and children are range identifiers. *)
Record Range := mkRange {
  Meta : Api.Meta;
  State : RangeState;
  Parents : list RangeID;
  Children : list RangeID;
  Placements : list Placement;
}.

#[global] Instance Range_eq_dec : EqDecision Range.
Proof. solve_decision. Defined.

(** A placement as a struct literal with the three persisted fields gives
    it: everything else is Go's zero value. *)
Definition bare_placement (n : Api.NodeID) (cur des : PlacementState) : Placement :=
  {| NodeID := n; StateCurrent := cur; StateDesired := des; IsReplacing := "";
     FailedPrepare := 0; FailedActivate := 0; FailedDeactivate := 0;
     FailedDrop := 0 |}.

End Catalog.

(* ----------------------------------------------------------------- *)
(** ** package persister/sql                                           *)
(* ----------------------------------------------------------------- *)

Module Sql.
Import Api Catalog.

(** The three tables, as the schema in the package's comment and in its
    test declares them:
    [range (id INTEGER PRIMARY KEY, start, end, state)],
    [child (parentId, childId, PRIMARY KEY (parentId, childId))],
    [placement (rangeId, nodeId, stateCurrent, stateDesired,
                PRIMARY KEY (rangeId, nodeId))].
    A table is the list of its rows in the order they were inserted, and a
    query answers in that order. *)
Record RangeRow := mkRangeRow {
  row_id : Z;
  row_start : string;
  row_end : string;
  row_state : string;
}.

Record PlacementRow := mkPlacementRow {
  prow_rangeId : Z;
  prow_nodeId : string;
  prow_stateCurrent : string;
  prow_stateDesired : string;
}.

Record DB := mkDB {
  range_table : list RangeRow;
  child_table : list (Z * Z);
  placement_table : list PlacementRow;
}.

Definition empty_db : DB := mkDB [] [] [].

#[global] Instance RangeRow_eq_dec : EqDecision RangeRow.
Proof. solve_decision. Defined.
#[global] Instance PlacementRow_eq_dec : EqDecision PlacementRow.
Proof. solve_decision. Defined.
#[global] Instance DB_eq_dec : EqDecision DB.
Proof. solve_decision. Defined.

(** An [INSERT] fails when the row's primary key is already in the table. *)
Inductive error :=
| UniqueRange (id : Z)
| UniqueChild (parentId childId : Z)
| UniquePlacement (rangeId : Z) (nodeId : string).

Definition insertRange (db : DB) (row : RangeRow) : error + DB :=
  if bool_decide (row_id row ∈ row_id <$> range_table db)
  then inl (UniqueRange (row_id row))
  else inr (mkDB (range_table db ++ [row]) (child_table db) (placement_table db)).

Definition insertChild (db : DB) (parentId childId : Z) : error + DB :=
  if bool_decide ((parentId, childId) ∈ child_table db)
  then inl (UniqueChild parentId childId)
  else inr (mkDB (range_table db) (child_table db ++ [(parentId, childId)])
              (placement_table db)).

Definition insertPlacement (db : DB) (row : PlacementRow) : error + DB :=
  if bool_decide ((prow_rangeId row, prow_nodeId row)
                    ∈ (fun x => (prow_rangeId x, prow_nodeId x)) <$> placement_table db)
  then inl (UniquePlacement (prow_rangeId row) (prow_nodeId row))
  else inr (mkDB (range_table db) (child_table db) (placement_table db ++ [row])).

(** A loop of statements that returns at the first error. *)
Fixpoint each {A : Type} (stmt : DB -> A -> error + DB) (db : DB) (l : list A)
  : error + DB :=
  match l with
  | [] => inr db
  | x :: rest =>
      match stmt db x with
      | inl e => inl e
      | inr db' => each stmt db' rest
      end
  end.

(** The body of the loop of [PutRanges] for one range: its row, a link row
    for each of its parents, a link row for each of its children, and a row
    for each placement. *)
Definition put_range (tx : DB) (r : Range) : error + DB :=
  let id := Ident (Meta r) in
  match insertRange tx (mkRangeRow id (Start (Meta r)) (End (Meta r))
                          (RangeState_String (State r))) with
  | inl e => inl e
  | inr tx1 =>
      match each (fun tx parentId => insertChild tx parentId id) tx1 (Parents r) with
      | inl e => inl e
      | inr tx2 =>
          match each (fun tx childId => insertChild tx id childId) tx2 (Children r) with
          | inl e => inl e
          | inr tx3 =>
              each (fun tx p =>
                      insertPlacement tx
                        (mkPlacementRow id (NodeID p)
                           (PlacementState_String (StateCurrent p))
                           (PlacementState_String (StateDesired p))))
                   tx3 (Placements r)
          end
      end
  end.

(** [PutRanges]: everything happens in one transaction, which is committed
    at the end and rolled back by the deferred call when a statement fails.
    Beginning and committing are taken to succeed. *)
Definition PutRanges (db : DB) (ranges : list Range) : DB * option error :=
  match each put_range db ranges with
  | inl e => (db, Some e)
  | inr tx => (tx, None)
  end.

Definition parsePlacementStateString (s : string) : PlacementState :=
  if bool_decide (s = "PsPending") then PsPending
  else if bool_decide (s = "PsInactive") then PsInactive
  else if bool_decide (s = "PsActive") then PsActive
  else if bool_decide (s = "PsMissing") then PsMissing
  else if bool_decide (s = "PsDropped") then PsDropped
  else PsUnknown.

Definition parseRangeStateString (s : string) : RangeState :=
  if bool_decide (s = "RsActive") then RsActive
  else if bool_decide (s = "RsSubsuming") then RsSubsuming
  else if bool_decide (s = "RsObsolete") then RsObsolete
  else RsUnknown.

(** [SELECT parentId FROM child WHERE childId = ?] *)
Definition GetParents (db : DB) (childId : RangeID) : list RangeID :=
  fst <$> filter (fun row => snd row = childId) (child_table db).

(** [SELECT childId FROM child WHERE parentId = ?] *)
Definition GetChildren (db : DB) (parentId : RangeID) : list RangeID :=
  snd <$> filter (fun row => fst row = parentId) (child_table db).

(** [SELECT nodeId, stateCurrent, stateDesired FROM placement WHERE rangeId = ?] *)
Definition GetPlacements (db : DB) (rangeId : RangeID) : list Placement :=
  (fun row => bare_placement (prow_nodeId row)
                (parsePlacementStateString (prow_stateCurrent row))
                (parsePlacementStateString (prow_stateDesired row)))
  <$> filter (fun row => prow_rangeId row = rangeId) (placement_table db).

(** [GetRanges]: the ranges first, then for each of them its parents, its
    children and its placements.  The queries are taken to succeed. *)
Definition GetRanges (db : DB) : list Range :=
  (fun row =>
     let id := row_id row in
     {| Meta := mkMeta id (row_start row) (row_end row);
        State := parseRangeStateString (row_state row);
        Parents := GetParents db id;
        Children := GetChildren db id;
        Placements := GetPlacements db id |})
  <$> range_table db.

(** Persist into a fresh database, then load. *)
Definition reload (ranges : list Range) : list Range * option error :=
  let '(db, err) := PutRanges empty_db ranges in (GetRanges db, err).

(** The part of a range that the tables have columns for. *)
Definition persisted_placement (p : Placement) : Placement :=
  bare_placement (NodeID p) (StateCurrent p) (StateDesired p).


(** The link rows that [put_range] inserts for a range: one per parent,
    then one per child. *)
Definition links (r : Range) : list (Z * Z) :=
  ((fun p => (p, Ident (Meta r))) <$> Parents r)
  ++ ((fun c => (Ident (Meta r), c)) <$> Children r).

End Sql.

(* ----------------------------------------------------------------- *)
(** ** package reconciler                                              *)
(* ----------------------------------------------------------------- *)

Module Reconciler.

(** Placement states of the keyspace the reconciler works on: those of the
    durable placement and [SpGone]. *)
Inductive StatePlacement :=
| SpUnknown | SpPending | SpFetching | SpFetched | SpFetchFailed
| SpReady | SpTaken | SpDropped | SpGone.

(** States a node reports. *)
Inductive StateRemote :=
| StateUnknown | StateFetching | StateFetched | StateFetchFailed
| StateReady | StateTaken.

#[global] Instance StatePlacement_eq_dec : EqDecision StatePlacement.
Proof. solve_decision. Defined.
#[global] Instance StateRemote_eq_dec : EqDecision StateRemote.
Proof. solve_decision. Defined.

(** [ranje.PBNID]: a placement found by node id, with the range it belongs
    to and its position among the placements of that range (0 is the
    current placement, 1 the next).  The placement is a pointer into the
    heap of placement states. *)
Record PBNID := mkPBNID {
  Range : Z;
  Placement : nat;
  Position : nat;
}.

Record RangeInfo := mkRangeInfo {
  Ident : Z;
  State : StateRemote;
}.

Record NodeInfo := mkNodeInfo {
  NodeID : string;
  Expired : bool;
  Ranges : list RangeInfo;
}.

(** The two [for ... range] loops that fill [states] store the address of
    their loop variable ([r.expected = &pbnid], [r.actual = &rInfo]).  What
    that address holds once the loops are over depends on the language
    version the module is built with: one variable for the whole loop, which
    ends up holding the last element (Go before 1.22), or a new variable in
    each iteration (Go 1.22 and later). *)
Inductive LoopVar := PerLoop | PerIteration.

(** Reading, after the loop, through the pointer taken in iteration [i]. *)
Definition deref {A : Type} (sem : LoopVar) (l : list A) (i : nat) : option A :=
  match sem with
  | PerIteration => l !! i
  | PerLoop => last l
  end.

(** The [states] struct: the two pointers, each the number of the iteration
    that took it. *)
Record states := mkStates {
  expected : option nat;
  actual : option nat;
}.

Definition hasExpected (s : states) : bool := bool_decide (expected s <> None).
Definition hasActual (s : states) : bool := bool_decide (actual s <> None).

Definition zero_states : states := mkStates None None.

(** [r := states[rID]; r.expected = &pbnid; states[rID] = r] *)
Definition collect_expected (E : list PBNID) (st : gmap Z states) : gmap Z states :=
  foldl (fun st ie =>
           let r := default zero_states (st !! Range ie.2) in
           <[Range ie.2 := mkStates (Some ie.1) (actual r)]> st)
        st (imap pair E).

Definition collect_actual (R : list RangeInfo) (st : gmap Z states) : gmap Z states :=
  foldl (fun st ir =>
           let r := default zero_states (st !! Ident ir.2) in
           <[Ident ir.2 := mkStates (expected r) (Some ir.1)]> st)
        st (imap pair R).

(** What a run leaves behind: the heap of placement states, and the calls of
    [PlacementToState] it made, oldest first. *)
Record run := mkRun {
  heap : list StatePlacement;
  calls : list (nat * StatePlacement);
}.

Section NodeInfo.
(** Neither the conversion of a remote state nor the keyspace's
    [PlacementToState] and [PlacementsByNodeID] are among the sources; the
    reconciler is embedded over them.  [PlacementToState] answers with the
    heap it leaves; its error is only logged by the caller. *)
Variable ToStatePlacement : StateRemote -> StatePlacement.
Variable PlacementToState : list StatePlacement -> nat -> StatePlacement -> list StatePlacement.
Variable PlacementsByNodeID : string -> list PBNID.
Variable sem : LoopVar.

Definition call (r : run) (p : nat) (s : StatePlacement) : run :=
  mkRun (PlacementToState (heap r) p s) (calls r ++ [(p, s)]).

(** The body of [for rID, pair := range states].  [None] is a panic, which
    covers reading through a pointer that holds nothing. *)
Definition reconcile (E : list PBNID) (R : list RangeInfo)
  (pr : states) (r : run) : option run :=
  match expected pr with
  | Some ie =>
      e ← deref sem E ie;
      match actual pr with
      | Some ia =>
          a ← deref sem R ia;
          exp ← heap r !! Placement e;
          let act := ToStatePlacement (State a) in
          if bool_decide (exp <> act) then Some (call r (Placement e) act)
          else Some r
      | None =>
          if bool_decide (Position e = 0%nat) then
            exp ← heap r !! Placement e;
            if bool_decide (exp <> SpPending) then Some (call r (Placement e) SpGone)
            else Some r
          else Some r
      end
  | None =>
      match actual pr with
      | Some _ => Some r
      | None => None
      end
  end.

Fixpoint reconcile_all (E : list PBNID) (R : list RangeInfo)
  (pairs : list (Z * states)) (r : run) : option run :=
  match pairs with
  | [] => Some r
  | (_, pr) :: rest =>
      r' ← reconcile E R pr r;
      reconcile_all E R rest r'
  end.

(** [nodeInfo].  The map is walked in the order of [map_to_list]; Go leaves
    the order open. *)
Definition nodeInfo (h : list StatePlacement) (nInfo : NodeInfo) : option run :=
  let E := PlacementsByNodeID (NodeID nInfo) in
  let st := collect_expected E ∅ in
  if Expired nInfo && negb (bool_decide (length (Ranges nInfo) = 0%nat)) then None
  else
    let st := collect_actual (Ranges nInfo) st in
    reconcile_all E (Ranges nInfo) (map_to_list st) (mkRun h []).

End NodeInfo.

(** The conversion of a remote state that the names suggest, and a keyspace
    that takes every transition, for the examples. *)
Definition ToStatePlacement_by_name (s : StateRemote) : StatePlacement :=
  match s with
  | StateUnknown => SpUnknown
  | StateFetching => SpFetching
  | StateFetched => SpFetched
  | StateFetchFailed => SpFetchFailed
  | StateReady => SpReady
  | StateTaken => SpTaken
  end.

Definition PlacementToState_always (h : list StatePlacement) (p : nat)
  (s : StatePlacement) : list StatePlacement := <[p := s]> h.

End Reconciler.

(* ----------------------------------------------------------------- *)
(** ** package orchestrator                                            *)
(* ----------------------------------------------------------------- *)

Module Orchestrator.
Import Api Catalog.

(** *** The roster, as the orchestrator reads it *)

(** A node of the roster: the remote state it has reported for each range
    ([n.Get]), and whether it wants to be drained. *)
Record Node := mkNode {
  node_ranges : gmap Z RemoteState;
  node_wantDrain : bool;
}.

(** *** Operator requests, operations, channels *)

(** An error channel is a number; [None] is a nil channel. *)
Record OpMove := mkOpMove {
  move_Range : RangeID;
  move_Src : Api.NodeID;
  move_Dest : Api.NodeID;
  move_Err : option nat;
}.

Record OpSplit := mkOpSplit {
  split_Range : RangeID;
  split_Key : Key;
  split_Left : Api.NodeID;
  split_Right : Api.NodeID;
  split_Err : option nat;
}.

Record OpJoin := mkOpJoin {
  join_Left : RangeID;
  join_Right : RangeID;
  join_Dest : Api.NodeID;
  join_Err : option nat;
}.

(** [keyspace.Operation]: the ranges a split or join goes from and to. *)
Record Operation := mkOperation {
  op_parents : list RangeID;
  op_children : list RangeID;
}.

Inductive Error :=
| ErrJoinLeft (rID : RangeID)
| ErrJoinRight (rID : RangeID)
| ErrJoinCandidate
| ErrJoinFailed (left right : RangeID)
| ErrSrcNotFound (rID : RangeID) (nID : Api.NodeID)
| ErrNoActivePlacement (rID : RangeID)
| ErrAlreadyReplaced (src dest : Api.NodeID)
| ErrNoCandidate
| ErrSplitFailed (rID : RangeID).

(** What a tick does besides changing the catalog: it sends on and closes
    error channels, registers callbacks that will close one, and writes
    desired states.  [EnterJoin] and [EnterRange] are put down where the
    body of the join loop and [tickRange] begin. *)
Inductive Event :=
| Send (ch : nat) (e : Error)
| Close (ch : nat)
| CloseOnReady (ch : nat) (rID : RangeID) (nID : Api.NodeID)
| CloseOnObsolete (ch : nat) (rID : RangeID)
| CloseOnMoved (ch : nat) (rID : RangeID) (nID : Api.NodeID)
| Wanted (rID : RangeID) (nID : Api.NodeID) (s : PlacementState)
| EnterJoin (left right : RangeID)
| EnterRange (rID : RangeID).

#[global] Instance Error_eq_dec : EqDecision Error.
Proof. solve_decision. Defined.
#[global] Instance Event_eq_dec : EqDecision Event.
Proof. solve_decision. Defined.

(** *** The orchestrator and what it holds *)

(** The keyspace is the slice of its ranges, a pointer to a range its index
    there (ranges are only ever appended); a pointer to a placement is a
    range index and an index into that range's placements. *)
Record World := mkWorld {
  ks : list Range;
  rost : gmap string Node;
  opMoves : list OpMove;
  opSplits : gmap Z OpSplit;
  opJoins : list OpJoin;
  trace : list Event;
}.

Definition with_ks (w : World) (k : list Range) : World :=
  mkWorld k (rost w) (opMoves w) (opSplits w) (opJoins w) (trace w).

Definition emit (w : World) (es : list Event) : World :=
  mkWorld (ks w) (rost w) (opMoves w) (opSplits w) (opJoins w) (trace w ++ es).

Definition with_opMoves (w : World) (ms : list OpMove) : World :=
  mkWorld (ks w) (rost w) ms (opSplits w) (opJoins w) (trace w).

Definition with_opSplits (w : World) (ss : gmap Z OpSplit) : World :=
  mkWorld (ks w) (rost w) (opMoves w) ss (opJoins w) (trace w).

Definition with_opJoins (w : World) (js : list OpJoin) : World :=
  mkWorld (ks w) (rost w) (opMoves w) (opSplits w) js (trace w).

Definition with_Placements (r : Range) (ps : list Placement) : Range :=
  {| Meta := Meta r; State := State r; Parents := Parents r;
     Children := Children r; Placements := ps |}.

Definition with_State (r : Range) (s : RangeState) : Range :=
  {| Meta := Meta r; State := s; Parents := Parents r;
     Children := Children r; Placements := Placements r |}.

Definition with_Children (r : Range) (cs : list RangeID) : Range :=
  {| Meta := Meta r; State := State r; Parents := Parents r;
     Children := cs; Placements := Placements r |}.

Definition placement_at (w : World) (ri pi : nat) : option Placement :=
  r ← ks w !! ri; Placements r !! pi.

(** A method call on the placement [pi] of the range [ri]: the placement is
    changed where it lives. *)
Definition on_placement (f : RangeID -> Placement -> Placement)
  (w : World) (ri pi : nat) : World :=
  with_ks w (alter (fun r => with_Placements r
                               (alter (f (Ident (Meta r))) pi (Placements r)))
                   ri (ks w)).

(** *** Methods of the placement *)

Definition set_current (p : Placement) (s : PlacementState) : Placement :=
  {| NodeID := NodeID p; StateCurrent := s; StateDesired := StateDesired p;
     IsReplacing := IsReplacing p; FailedPrepare := FailedPrepare p;
     FailedActivate := FailedActivate p; FailedDeactivate := FailedDeactivate p;
     FailedDrop := FailedDrop p |}.

Definition set_desired (p : Placement) (s : PlacementState) : Placement :=
  {| NodeID := NodeID p; StateCurrent := StateCurrent p; StateDesired := s;
     IsReplacing := IsReplacing p; FailedPrepare := FailedPrepare p;
     FailedActivate := FailedActivate p; FailedDeactivate := FailedDeactivate p;
     FailedDrop := FailedDrop p |}.

(** [p.DoneReplacing()] *)
Definition DoneReplacing (p : Placement) : Placement :=
  {| NodeID := NodeID p; StateCurrent := StateCurrent p;
     StateDesired := StateDesired p; IsReplacing := "";
     FailedPrepare := FailedPrepare p; FailedActivate := FailedActivate p;
     FailedDeactivate := FailedDeactivate p; FailedDrop := FailedDrop p |}.

Definition failures (p : Placement) (a : Action) : nat :=
  match a with
  | Prepare => FailedPrepare p
  | Activate => FailedActivate p
  | Deactivate => FailedDeactivate p
  | Drop => FailedDrop p
  end.

(** Modelled from the spec: the number of failures after which an action is
    given up, which the sources use but do not declare ("[maxFailures] per
    action ... is three"). *)
Definition maxFailures : nat := 3.

(** Modelled from the spec: [p.Failed(action)], which is not among the
    sources ("after [maxFailures], the placement is marked
    [Failed(action)]"). *)
Definition Failed (p : Placement) (a : Action) : bool :=
  bool_decide (maxFailures <= failures p a)%nat.

(** Modelled from the spec: the transitions of the placement state machine
    that [PlacementToState] validates (section 4.3: pending to inactive,
    inactive to active and back, inactive to dropped, any live state to
    missing, missing to dropped). *)
Definition valid_transition (old new : PlacementState) : bool :=
  match old, new with
  | PsPending, PsInactive => true
  | PsInactive, PsActive => true
  | PsActive, PsInactive => true
  | PsInactive, PsDropped => true
  | PsMissing, PsDropped => true
  | PsPending, PsMissing | PsInactive, PsMissing | PsActive, PsMissing => true
  | _, _ => false
  end.

(** *** What the orchestrator calls and the sources do not hold

    The orchestrator is embedded over the functions of the keyspace, the
    roster and the operation that are not among the sources.  For the three
    gates [true] is a [nil] error.  [Put] says whether the store takes the
    write of a placement of a range.  [SplitCheck] and [JoinCheck] are the
    decisions of [ks.Split] and [ks.JoinTwo], [Complete] that of
    [op.CheckComplete]; what these calls then do to the keyspace is modelled
    from the spec further down. *)
Section Helpers.
Variable MinPlacements : Range -> nat.
Variable Candidate :
  gmap string Node -> list Range -> option Range -> Api.NodeID -> option Api.NodeID.
Variable MayActivate MayDeactivate MayDrop :
  option Operation -> list Range -> Placement -> Range -> bool.
Variable Put : RangeID -> Placement -> bool.
Variable SplitCheck : list Range -> Range -> Key -> bool.
Variable JoinCheck : list Range -> Range -> Range -> bool.
Variable Operations : list Range -> option (list Operation).
Variable Complete : Operation -> list Range -> bool.

(** Modelled from the spec: [ks.PlacementToState], which is not among the
    sources ("validated placement state transition, persisted"; "if
    persistence fails, the mutation is rolled back in memory").  Its error
    is dropped by every caller in the orchestrator. *)
Definition place_to_state (new : PlacementState) (rID : RangeID) (p : Placement)
  : Placement :=
  if valid_transition (StateCurrent p) new && Put rID (set_current p new)
  then set_current p new else p.

Definition PlacementToState (w : World) (ri pi : nat) (new : PlacementState) : World :=
  on_placement (place_to_state new) w ri pi.

(** [p.Want(s)]: the desired state is written onto the placement. *)
Definition Want (w : World) (ri pi : nat) (s : PlacementState) : World :=
  match ks w !! ri, placement_at w ri pi with
  | Some r, Some p =>
      emit (on_placement (fun _ p => set_desired p s) w ri pi)
           [Wanted (Ident (Meta r)) (NodeID p) s]
  | _, _ => w
  end.

(** The gates see the placement and the range as they are when called. *)
Definition gate (g : option Operation -> list Range -> Placement -> Range -> bool)
  (op : option Operation) (w : World) (ri pi : nat) : bool :=
  match ks w !! ri, placement_at w ri pi with
  | Some r, Some p => g op (ks w) p r
  | _, _ => false
  end.

(** The reasons for which the switch of [tickPlacement] writes a desired
    state: the state of the placement, what its node reports, and what the
    gates have said. *)
Inductive wanted_by_switch (op : option Operation) (w : World) (ri pi : nat)
  (c : Placement) (rs : option RemoteState) : PlacementState -> Prop :=
| want_prepare :
    StateCurrent c = PsPending ->
    rs = None \/ rs = Some NsPreparing \/ rs = Some NsNotFound ->
    wanted_by_switch op w ri pi c rs PsInactive
| want_activate :
    StateCurrent c = PsInactive -> rs = Some NsInactive ->
    gate MayActivate op w ri pi = true ->
    wanted_by_switch op w ri pi c rs PsActive
| want_activate_again :
    StateCurrent c = PsInactive -> rs = Some NsActivating ->
    wanted_by_switch op w ri pi c rs PsActive
| want_drop :
    StateCurrent c = PsInactive -> rs = Some NsInactive ->
    gate MayActivate op w ri pi = false -> gate MayDrop op w ri pi = true ->
    wanted_by_switch op w ri pi c rs PsDropped
| want_drop_again :
    StateCurrent c = PsInactive -> rs = Some NsDropping ->
    wanted_by_switch op w ri pi c rs PsDropped
| want_deactivate :
    StateCurrent c = PsActive -> rs = Some NsActive ->
    gate MayDeactivate op w ri pi = true ->
    wanted_by_switch op w ri pi c rs PsInactive
| want_deactivate_again :
    StateCurrent c = PsActive -> rs = Some NsDeactivating ->
    wanted_by_switch op w ri pi c rs PsInactive.

(** [tickPlacement], the part after the node has been looked up, the
    replacement annotation cleaned and the drain noted: the switch on the
    current state.  [n] is the node, which is there in the first three
    cases; [None] is a panic. *)
Definition tickPlacement_switch (w : World) (ri pi : nat) (op : option Operation)
  (rID : RangeID) (p : Placement) (n : option Node) : option (World * bool) :=
  match StateCurrent p with
  | PsPending =>
      n ← n;
      let '(w1, doPlace) :=
        match node_ranges n !! rID with
        | Some NsPreparing => (Want w ri pi PsInactive, false)
        | Some NsInactive => (PlacementToState w ri pi PsInactive, false)
        | Some NsNotFound => (w, true)
        | Some _ => (PlacementToState w ri pi PsMissing, false)
        | None => (w, true)
        end in
      if doPlace then
        let w2 := Want w1 ri pi PsInactive in
        Some (w2, Failed p Prepare)
      else Some (w1, false)
  | PsInactive =>
      n ← n;
      match node_ranges n !! rID with
      | None =>
          if Failed p Activate then Some (w, true)
          else if gate MayDrop op w ri pi
               then Some (PlacementToState w ri pi PsDropped, false)
          else Some (PlacementToState w ri pi PsMissing, false)
      | Some NsInactive =>
          if gate MayActivate op w ri pi then Some (Want w ri pi PsActive, false)
          else if gate MayDrop op w ri pi then Some (Want w ri pi PsDropped, false)
          else Some (w, false)
      | Some NsActivating => Some (Want w ri pi PsActive, false)
      | Some NsDropping => Some (Want w ri pi PsDropped, false)
      | Some NsActive => Some (PlacementToState w ri pi PsActive, false)
      | Some _ => Some (PlacementToState w ri pi PsMissing, false)
      end
  | PsActive =>
      n ← n;
      match node_ranges n !! rID with
      | None => Some (PlacementToState w ri pi PsMissing, false)
      | Some NsActive =>
          if gate MayDeactivate op w ri pi then Some (Want w ri pi PsInactive, false)
          else Some (w, false)
      | Some NsDeactivating => Some (Want w ri pi PsInactive, false)
      | Some NsInactive => Some (PlacementToState w ri pi PsInactive, false)
      | Some _ => Some (PlacementToState w ri pi PsMissing, false)
      end
  | PsMissing => Some (PlacementToState w ri pi PsDropped, false)
  | PsDropped => Some (w, true)
  | PsUnknown => None
  end.

(** The head of [tickPlacement].  A placement that is replacing another
    placement which is no longer among those of its range loses the
    annotation; a placement on a node that wants to be drained has a move
    filed for it. *)
Definition cleaned (r : Range) (p : Placement) : Placement :=
  if bool_decide (IsReplacing p <> "")
     && negb (bool_decide (IsReplacing p ∈ NodeID <$> Placements r))
  then DoneReplacing p else p.

Definition clean_annotation (w : World) (ri pi : nat) (r : Range) : World :=
  on_placement (fun _ => cleaned r) w ri pi.

Definition note_drain (w : World) (rID : RangeID) (p : Placement)
  (n : option Node) : World :=
  match n with
  | Some nd =>
      if node_wantDrain nd
      then with_opMoves w (opMoves w ++ [mkOpMove rID (NodeID p) "" None])
      else w
  | None => w
  end.

(** [tickPlacement]: the world it leaves and the [destroy] flag. *)
Definition tickPlacement (w : World) (ri pi : nat) (op : option Operation)
  : option (World * bool) :=
  r ← ks w !! ri;
  p ← Placements r !! pi;
  let rID := Ident (Meta r) in
  let n := rost w !! NodeID p in
  if bool_decide (n = None)
     && bool_decide (StateCurrent p <> PsMissing)
     && bool_decide (StateCurrent p <> PsDropped)
  then Some (PlacementToState w ri pi PsMissing, false)
  else
    let w1 := clean_annotation w ri pi r in
    let w2 := note_drain w1 rID p n in
    tickPlacement_switch w2 ri pi op rID (cleaned r p) n.

(** *** Methods of the range and of the keyspace *)

(** Modelled from the spec: [r.NewPlacement(nID)], which is not among the
    sources ("create a new [Pending] placement"). *)
Definition new_placement (nID replacing : Api.NodeID) : Placement :=
  {| NodeID := nID; StateCurrent := PsPending; StateDesired := PsPending;
     IsReplacing := replacing; FailedPrepare := 0; FailedActivate := 0;
     FailedDeactivate := 0; FailedDrop := 0 |}.

Definition NewPlacement (w : World) (ri : nat) (nID : Api.NodeID) : World :=
  with_ks w (alter (fun r => with_Placements r (Placements r ++ [new_placement nID ""]))
                   ri (ks w)).

(** Modelled from the spec: [r.NewReplacement(dest, src, cb)] ("create a
    replacement placement annotated with [is_replacing = source_node]"). *)
Definition NewReplacement (w : World) (ri : nat) (dest src : Api.NodeID)
  (cb : option nat) : World :=
  let w1 := with_ks w (alter (fun r => with_Placements r
                                         (Placements r ++ [new_placement dest src]))
                             ri (ks w)) in
  match cb, ks w !! ri with
  | Some ch, Some r => emit w1 [CloseOnMoved ch (Ident (Meta r)) dest]
  | _, _ => w1
  end.

(** [ks.GetRange(id)]: the range with that identifier. *)
Fixpoint index_of (id : RangeID) (rs : list Range) : option nat :=
  match rs with
  | [] => None
  | r :: rest =>
      if bool_decide (Ident (Meta r) = id) then Some 0%nat
      else S <$> index_of id rest
  end.

Definition GetRange (w : World) (id : RangeID) : option nat := index_of id (ks w).

(** Modelled from the spec: identifiers are "monotonic integers"; a new
    range takes the one after the largest in the keyspace. *)
Definition fresh_ident (rs : list Range) : RangeID :=
  (1 + foldr Z.max 0 ((fun r => Ident (Meta r)) <$> rs))%Z.

Definition new_range (id : RangeID) (s e : Key) (ps : list RangeID) : Range :=
  {| Meta := mkMeta id s e; State := RsActive; Parents := ps; Children := [];
     Placements := [] |}.

(** Modelled from the spec: [ks.Split(r, key)], which is not among the
    sources ("atomically transitions [r] to [Subsuming], allocates two
    children with [Active] state ..., returns new ranges. Failure leaves
    state unchanged").  The two children are returned as pointers. *)
Definition Split (w : World) (ri : nat) (k : Key) : option (World * nat * nat) :=
  r ← ks w !! ri;
  if SplitCheck (ks w) r k then
    let idL := fresh_ident (ks w) in
    let idR := (idL + 1)%Z in
    let rL := new_range idL (Start (Meta r)) k [Ident (Meta r)] in
    let rR := new_range idR k (End (Meta r)) [Ident (Meta r)] in
    let parent := with_Children (with_State r RsSubsuming) [idL; idR] in
    Some (with_ks w (<[ri := parent]> (ks w) ++ [rL; rR]),
          length (ks w), S (length (ks w)))
  else None.

(** Modelled from the spec: [ks.JoinTwo(r1, r2)] ("atomically transitions
    both to [Subsuming], allocates one child"). *)
Definition JoinTwo (w : World) (i1 i2 : nat) : option (World * nat) :=
  r1 ← ks w !! i1;
  r2 ← ks w !! i2;
  if JoinCheck (ks w) r1 r2 then
    let id3 := fresh_ident (ks w) in
    let r3 := new_range id3 (Start (Meta r1)) (End (Meta r2))
                [Ident (Meta r1); Ident (Meta r2)] in
    let sub := fun r => with_Children (with_State r RsSubsuming) [id3] in
    Some (with_ks w (alter sub i2 (alter sub i1 (ks w)) ++ [r3]), length (ks w))
  else None.

(** Modelled from the spec: [op.CheckComplete(ks)] ("transition parents to
    [Obsolete]" when the operation is complete). *)
Definition CheckComplete (w : World) (op : Operation) : World :=
  if Complete op (ks w) then
    with_ks w ((fun r => if bool_decide (Ident (Meta r) ∈ op_parents op)
                         then with_State r RsObsolete else r) <$> ks w)
  else w.

(** [op.Ranges()]: the participants, as pointers. *)
Definition op_Ranges (w : World) (op : Operation) : list nat :=
  omap (GetRange w) (op_parents op ++ op_children op).

(** *** [moveOp] and [doMove] *)

(** [moveOp]: the first pending move for the range, taken off the list. *)
Fixpoint take_move (rID : RangeID) (ms : list OpMove) : option (OpMove * list OpMove) :=
  match ms with
  | [] => None
  | m :: rest =>
      if bool_decide (move_Range m = rID) then Some (m, rest)
      else '(x, rest') ← take_move rID rest; Some (x, m :: rest')
  end.

Definition first_where (P : Placement -> bool) (ps : list Placement) : option Placement :=
  head (filter (fun p => P p = true) ps).

(** [doMove]: the world it leaves and the error it returns. *)
Definition doMove (w : World) (ri : nat) (opMove : OpMove) : World * option Error :=
  match ks w !! ri with
  | None => (w, None)
  | Some r =>
      let rID := Ident (Meta r) in
      let src :=
        if bool_decide (move_Src opMove <> "")
        then first_where (fun p => bool_decide (NodeID p = move_Src opMove)) (Placements r)
        else first_where (fun p => bool_decide (StateCurrent p = PsActive)) (Placements r) in
      match src with
      | None =>
          (w, Some (if bool_decide (move_Src opMove <> "")
                    then ErrSrcNotFound rID (move_Src opMove)
                    else ErrNoActivePlacement rID))
      | Some src =>
          match first_where (fun p => bool_decide (IsReplacing p = NodeID src))
                  (Placements r) with
          | Some p => (w, Some (ErrAlreadyReplaced (NodeID src) (NodeID p)))
          | None =>
              match Candidate (rost w) (ks w) (Some r) (move_Dest opMove) with
              | None => (w, Some ErrNoCandidate)
              | Some dest =>
                  (NewReplacement w ri dest (NodeID src) (move_Err opMove), None)
              end
          end
      end
  end.

(** An error goes to the operator when there is a channel: it is sent, and
    the channel is closed. *)
Definition fail (w : World) (ch : option nat) (e : Error) : World :=
  match ch with
  | Some c => emit w [Send c e; Close c]
  | None => w
  end.

(** *** [tickRange] *)

(** The [RsActive] case of the switch at the head of [tickRange].  The flag
    says whether the function goes on to tick the placements ([true]) or
    has returned ([false]). *)
Definition tickRange_active (w : World) (ri : nat) : World * bool :=
  match ks w !! ri with
  | None => (w, false)
  | Some r =>
      let rID := Ident (Meta r) in
      let placed :=
        if bool_decide (length (Placements r) < MinPlacements r)%nat then
          match Candidate (rost w) (ks w) (Some r) "" with
          | None => None
          | Some nID => Some (NewPlacement w ri nID)
          end
        else Some w in
      match placed with
      | None => (w, false)
      | Some w1 =>
          let moved :=
            match take_move rID (opMoves w1) with
            | Some (opMove, rest) =>
                match doMove (with_opMoves w1 rest) ri opMove with
                | (w2, Some err) => inl (fail w2 (move_Err opMove) err)
                | (w2, None) => inr w2
                end
            | None => inr w1
            end in
          match moved with
          | inl w2 => (w2, false)
          | inr w2 =>
              match opSplits w2 !! rID with
              | None => (w2, true)
              | Some os =>
                  let w3 := with_opSplits w2 (delete rID (opSplits w2)) in
                  match Candidate (rost w3) (ks w3) None (split_Left os) with
                  | None => (fail w3 (split_Err os) ErrNoCandidate, false)
                  | Some nIDL =>
                      match Candidate (rost w3) (ks w3) None (split_Right os) with
                      | None => (fail w3 (split_Err os) ErrNoCandidate, false)
                      | Some nIDR =>
                          match Split w3 ri (split_Key os) with
                          | None => (fail w3 (split_Err os) (ErrSplitFailed rID), false)
                          | Some (w4, iL, iR) =>
                              let w5 := NewPlacement (NewPlacement w4 iL nIDL) iR nIDR in
                              (match split_Err os with
                               | Some ch => emit w5 [CloseOnObsolete ch rID]
                               | None => w5
                               end, true)
                          end
                      end
                  end
              end
          end
      end
  end.

(** [for i, p := range r.Placements]: every placement is ticked in turn, and
    the indices of those to destroy are collected. *)
Fixpoint tick_placements (w : World) (ri : nat) (op : option Operation)
  (indices : list nat) (toDestroy : list nat) : option (World * list nat) :=
  match indices with
  | [] => Some (w, toDestroy)
  | i :: rest =>
      '(w', destroy) ← tickPlacement w ri i op;
      tick_placements w' ri op rest
        (if destroy : bool then toDestroy ++ [i] else toDestroy)
  end.

(** [r.Placements = append(r.Placements[:idx], r.Placements[idx+1:]...)]:
    the slice expression [r.Placements[idx+1:]] panics when [idx] is not an
    index of the slice. *)
Definition remove_at (idx : nat) (ps : list Placement) : option (list Placement) :=
  if bool_decide (idx < length ps)%nat then Some (take idx ps ++ drop (S idx) ps)
  else None.

(** [for _, idx := range toDestroy]: the collected indices are used one after
    the other on the slice as it is by then. *)
Fixpoint destroy_all (toDestroy : list nat) (ps : list Placement)
  : option (list Placement) :=
  match toDestroy with
  | [] => Some ps
  | idx :: rest => ps' ← remove_at idx ps; destroy_all rest ps'
  end.

(** The second half of [tickRange]. *)
Definition tickRange_placements (w : World) (ri : nat) (op : option Operation)
  : option World :=
  r ← ks w !! ri;
  '(w1, toDestroy) ← tick_placements w ri op (seq 0 (length (Placements r))) [];
  r1 ← ks w1 !! ri;
  ps ← destroy_all toDestroy (Placements r1);
  Some (with_ks w1 (<[ri := with_Placements r1 ps]> (ks w1))).

(** [tickRange]; [None] is a panic. *)
Definition tickRange (w : World) (ri : nat) (op : option Operation) : option World :=
  r ← ks w !! ri;
  let w0 := emit w [EnterRange (Ident (Meta r))] in
  '(w1, goon) ← match State r with
                | RsActive => Some (tickRange_active w0 ri)
                | RsSubsuming | RsObsolete => Some (w0, true)
                | RsUnknown => None
                end;
  if goon : bool then tickRange_placements w1 ri op else Some w1.

(** *** [Tick] *)

(** The body of the loop over the pending joins.  The callback registered on
    the new placement closes [opJoin.Err] when it runs; callbacks are not run
    here, and the registration is noted with the channel of the join that
    makes it. *)
Definition apply_join (w : World) (opJoin : OpJoin) : World :=
  let w := emit w [EnterJoin (join_Left opJoin) (join_Right opJoin)] in
  match GetRange w (join_Left opJoin) with
  | None => fail w (join_Err opJoin) (ErrJoinLeft (join_Left opJoin))
  | Some i1 =>
      match GetRange w (join_Right opJoin) with
      | None => fail w (join_Err opJoin) (ErrJoinRight (join_Right opJoin))
      | Some i2 =>
          match Candidate (rost w) (ks w) None (join_Dest opJoin) with
          | None => fail w (join_Err opJoin) ErrJoinCandidate
          | Some nIDr3 =>
              match JoinTwo w i1 i2 with
              | None => fail w (join_Err opJoin)
                          (ErrJoinFailed (join_Left opJoin) (join_Right opJoin))
              | Some (w1, i3) =>
                  let w2 := NewPlacement w1 i3 nIDr3 in
                  match join_Err opJoin, ks w2 !! i3 with
                  | Some ch, Some r3 => emit w2 [CloseOnReady ch (Ident (Meta r3)) nIDr3]
                  | _, _ => w2
                  end
              end
          end
      end
  end.

(** The first part of [Tick]: every pending join is applied, and the list
    is emptied. *)
Definition apply_joins (w : World) : World :=
  with_opJoins (foldl apply_join w (opJoins w)) [].



(** The error a join is rejected with in the body of the loop, if it is. *)
Definition join_error (w : World) (opJoin : OpJoin) : option Error :=
  match GetRange w (join_Left opJoin) with
  | None => Some (ErrJoinLeft (join_Left opJoin))
  | Some i1 =>
      match GetRange w (join_Right opJoin) with
      | None => Some (ErrJoinRight (join_Right opJoin))
      | Some i2 =>
          match Candidate (rost w) (ks w) None (join_Dest opJoin) with
          | None => Some ErrJoinCandidate
          | Some _ =>
              match JoinTwo w i1 i2 with
              | None => Some (ErrJoinFailed (join_Left opJoin) (join_Right opJoin))
              | Some _ => None
              end
          end
      end
  end.

Fixpoint tick_ranges_of (w : World) (op : Operation) (ris : list nat)
  (visited : gset Z) : option (World * gset Z) :=
  match ris with
  | [] => Some (w, visited)
  | ri :: rest =>
      r ← ks w !! ri;
      w' ← tickRange w ri (Some op);
      tick_ranges_of w' op rest ({[Ident (Meta r)]} ∪ visited)
  end.

(** The loop over the operations in flight. *)
Fixpoint tick_operations (w : World) (ops : list Operation) (visited : gset Z)
  : option (World * gset Z) :=
  match ops with
  | [] => Some (w, visited)
  | op :: rest =>
      let w1 := CheckComplete w op in
      '(w2, visited') ← tick_ranges_of w1 op (op_Ranges w1 op) visited;
      tick_operations w2 rest visited'
  end.

(** The loop over the ranges that existed when the tick began. *)
Fixpoint tick_remaining (w : World) (ris : list nat) (visited : gset Z)
  : option World :=
  match ris with
  | [] => Some w
  | ri :: rest =>
      r ← ks w !! ri;
      if bool_decide (State r = RsObsolete) then tick_remaining w rest visited
      else if bool_decide (Ident (Meta r) ∈ visited) then tick_remaining w rest visited
      else w' ← tickRange w ri None; tick_remaining w' rest visited
  end.

(** What follows the joins: the operations, then the remaining ranges.
    [rs] are the ranges that [ks.Ranges()] returned when the tick began. *)
Definition tick_rest (rs : list nat) (w : World) : option World :=
  '(w1, visited) ← match Operations (ks w) with
                   | Some ops => tick_operations w ops ∅
                   | None => Some (w, ∅)
                   end;
  tick_remaining w1 rs visited.

(** [Tick]; [None] is a panic. *)
Definition Tick (w : World) : option World :=
  let rs := seq 0 (length (ks w)) in
  tick_rest rs (apply_joins w).

End Helpers.

(** *** What is counted in the catalog *)

(** The remote state the roster holds for a range on a node. *)
Definition remote (ro : gmap string Node) (nID : Api.NodeID) (rID : RangeID)
  : option RemoteState :=
  n ← ro !! nID; node_ranges n !! rID.

(** [Meta.Contains]: the keys of a range, an empty bound standing for
    infinity (as the node package's [RangeMeta.Contains] has it). *)
Definition covers (r : Range) (k : Key) : bool :=
  (bool_decide (Start (Meta r) = ZeroKey) || String.leb (Start (Meta r)) k)
  && (bool_decide (End (Meta r) = ZeroKey) || String.ltb k (End (Meta r))).

Definition is_active (p : Placement) : bool :=
  bool_decide (StateCurrent p = PsActive).

(** A placement that is active, or inactive on a node that reports the range
    active: the next tick will find it active or make it so. *)
Definition active_or_reported (ro : gmap string Node) (rID : RangeID)
  (p : Placement) : bool :=
  is_active p
  || (bool_decide (StateCurrent p = PsInactive)
      && bool_decide (remote ro (NodeID p) rID = Some NsActive)).

Definition count (P : Placement -> bool) (ps : list Placement) : nat :=
  length (filter (fun p => P p = true) ps).

(** The number of placements, over all ranges that cover the key, that are
    active; and the number that are active or reported active. *)
Definition count_active (rs : list Range) (k : Key) : nat :=
  sum_list ((fun r => if covers r k then count is_active (Placements r) else 0%nat)
            <$> rs).

Definition reported_count (ro : gmap string Node) (r : Range) : nat :=
  count (active_or_reported ro (Ident (Meta r))) (Placements r).

Definition count_active_or_reported (ro : gmap string Node) (rs : list Range)
  (k : Key) : nat :=
  sum_list ((fun r => if covers r k then reported_count ro r else 0%nat) <$> rs).

(** Invariant 2 of the spec, for a world. *)
Definition at_most_one_active (w : World) : Prop :=
  forall k : Key, (count_active (ks w) k <= 1)%nat.

(** One catalog against an earlier one: the ranges of the earlier one are
    still where they were and cover the keys they covered, none of them has
    more placements that are active or reported active, and the ranges that
    have been added have no such placement. *)
Definition no_more_active (ro : gmap string Node) (rs rs' : list Range) : Prop :=
  (length rs <= length rs')%nat
  /\ (forall i r, rs !! i = Some r ->
        exists r', rs' !! i = Some r' /\ Meta r' = Meta r
                   /\ (reported_count ro r' <= reported_count ro r)%nat)
  /\ (forall i r', (length rs <= i)%nat -> rs' !! i = Some r' ->
        reported_count ro r' = 0%nat).

Definition calmer (w w' : World) : Prop :=
  rost w' = rost w /\ no_more_active (rost w) (ks w) (ks w').

(** The events a step has added to the trace, and a placement being
    directed to a state: [p.Want(s)] is among them. *)
Definition new_events (w w' : World) : list Event :=
  drop (length (trace w)) (trace w').

Definition directed (w w' : World) (r : Range) (p : Placement)
  (s : PlacementState) : Prop :=
  Wanted (Ident (Meta r)) (NodeID p) s ∈ new_events w w'.

(** The catalog with one placement replaced. *)
Definition put_placement (rs : list Range) (ri pi : nat) (r : Range) (q : Placement)
  : list Range :=
  <[ri := with_Placements r (<[pi := q]> (Placements r))]> rs.

(** *** What a tick writes to the trace *)

(** The events of the loop over the joins, and those of the rest of the
    tick. *)
Definition of_join (e : Event) : bool :=
  match e with
  | EnterJoin _ _ | Send _ _ | Close _ | CloseOnReady _ _ _ => true
  | _ => false
  end.


(** A step that only adds events of one kind to the trace. *)
Definition grows (P : Event -> bool) (w w' : World) : Prop :=
  exists es, trace w' = trace w ++ es /\ Forall (fun e => P e = true) es.


(** *** The orderings of an operation *)

(** "Inactive or further": the placement serves no longer, or not yet. *)
Definition inactive_or_further (s : PlacementState) : bool :=
  match s with
  | PsInactive | PsMissing | PsDropped => true
  | _ => false
  end.

(** Every placement of the ranges with one of the given identifiers is in a
    state with the property. *)
Definition all_states (P : PlacementState -> Prop) (ids : list RangeID)
  (rs : list Range) : Prop :=
  forall r q, r ∈ rs -> Ident (Meta r) ∈ ids -> q ∈ Placements r ->
    P (StateCurrent q).

(** The two orderings of an operation, said of a catalog. *)
Definition parents_inactive_or_further (op : Operation) (rs : list Range) : Prop :=
  all_states (fun s => inactive_or_further s = true) (op_parents op) rs.

Definition children_active (op : Operation) (rs : list Range) : Prop :=
  all_states (fun s => s = PsActive) (op_children op) rs.

(** What section 4.4 of the spec says of the two gates, as far as they let a
    placement through: [may_activate] only a placement of a child range, all
    placements of the parents being inactive or further; [may_drop] only a
    placement of a parent range, all placements of the children being
    active. *)
Definition activates_as_specified
  (MayActivate : option Operation -> list Range -> Placement -> Range -> bool) : Prop :=
  forall op rs p r, MayActivate (Some op) rs p r = true ->
    Ident (Meta r) ∈ op_children op /\ parents_inactive_or_further op rs.

Definition drops_as_specified
  (MayDrop : option Operation -> list Range -> Placement -> Range -> bool) : Prop :=
  forall op rs p r, MayDrop (Some op) rs p r = true ->
    Ident (Meta r) ∈ op_parents op /\ children_active op rs.

(** *** The orchestrator and its surroundings *)

(** Between ticks a node's answer or a probe stores a remote state in the
    roster ([n.UpdateRangeState]), and the operator files a request. *)
Definition observe (w : World) (nID : Api.NodeID) (rID : RangeID)
  (s : RemoteState) : World :=
  mkWorld (ks w)
    (alter (fun n => mkNode (<[rID := s]> (node_ranges n)) (node_wantDrain n))
           nID (rost w))
    (opMoves w) (opSplits w) (opJoins w) (trace w).

Definition request_move (w : World) (m : OpMove) : World :=
  with_opMoves w (opMoves w ++ [m]).

Definition request_split (w : World) (os : OpSplit) : World :=
  with_opSplits w (<[split_Range os := os]> (opSplits w)).

Definition request_join (w : World) (oj : OpJoin) : World :=
  with_opJoins w (opJoins w ++ [oj]).

End Orchestrator.

(* ----------------------------------------------------------------- *)
(** ** The collaborators of the orchestrator, from the spec            *)
(* ----------------------------------------------------------------- *)

(** One choice for each function the orchestrator is embedded over, for the
    runs on concrete catalogs below. *)
Module Modelled.
Import Api Catalog Orchestrator.

(** Modelled from the spec: the replication policy, which is not among the
    sources; one placement per range, as in the end-to-end scenarios. *)
Definition MinPlacements (r : Range) : nat := 1.

Definition placement_count (rs : list Range) (nID : Api.NodeID) : nat :=
  length (filter (fun p => NodeID p = nID) (concat (Placements <$> rs))).

(** Modelled from the spec: [rost.Candidate], which is not among the sources
    (section 4.2: nodes that are not draining, that do not already hold a
    placement of the given range and that satisfy the optional [NodeID]
    constraint; fewest placements first, then the smaller node id). *)
Definition eligible (rs : list Range) (r : option Range) (c : Api.NodeID)
  (nID : Api.NodeID) (n : Node) : bool :=
  negb (node_wantDrain n)
  && (bool_decide (c = "") || bool_decide (c = nID))
  && match r with
     | Some r => negb (bool_decide (nID ∈ NodeID <$> Placements r))
     | None => true
     end.

Definition better (rs : list Range) (a b : Api.NodeID) : bool :=
  (placement_count rs a <? placement_count rs b)%nat
  || ((placement_count rs a =? placement_count rs b)%nat && String.ltb a b).

Definition Candidate (ro : gmap string Node) (rs : list Range) (r : option Range)
  (c : Api.NodeID) : option Api.NodeID :=
  foldr (fun '(nID, n) best =>
           if eligible rs r c nID n then
             match best with
             | Some b => if better rs nID b then Some nID else Some b
             | None => Some nID
             end
           else best)
        None (map_to_list ro).

Definition reached_inactive (s : PlacementState) : bool :=
  match s with
  | PsInactive | PsActive => true
  | _ => false
  end.

Definition reached_active (s : PlacementState) : bool :=
  bool_decide (s = PsActive).

Definition ranges_of (ids : list RangeID) (rs : list Range) : list Range :=
  filter (fun r => Ident (Meta r) ∈ ids) rs.

Definition all_placements (P : PlacementState -> bool) (rs : list Range) : bool :=
  forallb (fun r => forallb (fun p => P (StateCurrent p)) (Placements r)) rs.

(** The placement of the range on a node, and the placements that are
    replacing the placement on a node. *)
Definition on_node (r : Range) (nID : Api.NodeID) : list Placement :=
  filter (fun p => NodeID p = nID) (Placements r).

Definition replacing (r : Range) (nID : Api.NodeID) : list Placement :=
  filter (fun p => IsReplacing p = nID) (Placements r).

(** Modelled from the spec: the gates of the operation coordinator, which
    are not among the sources (section 4.4).  Inside an operation:
    "[may_activate] returns OK iff, for a child range placement, every
    parent-range placement is already [Inactive] or further";
    "[may_deactivate] ... iff, for a parent-range placement, every child-range
    placement has reached at least [Inactive]"; "[may_drop] ... iff the
    placement is a parent and every child-range placement has reached
    [Active]".

    Outside an operation the spec has the replacement rule of section 4.3
    and the orchestrator's tests show the order of a move: a placement is
    activated once the one it replaces is inactive, and not while it is
    being replaced itself, unless its replacement has failed to activate;
    it is deactivated once a replacement is inactive, and dropped once a
    replacement is active or once its own activation has failed. *)
Definition MayActivate (op : option Operation) (rs : list Range) (p : Placement)
  (r : Range) : bool :=
  match op with
  | Some op =>
      bool_decide (Ident (Meta r) ∈ op_children op)
      && all_placements inactive_or_further (ranges_of (op_parents op) rs)
  | None =>
      negb (Failed p Activate)
      && forallb (fun q => Failed q Activate) (replacing r (NodeID p))
      && (bool_decide (IsReplacing p = "")
          || forallb (fun q => inactive_or_further (StateCurrent q))
               (on_node r (IsReplacing p)))
  end.

Definition MayDeactivate (op : option Operation) (rs : list Range) (p : Placement)
  (r : Range) : bool :=
  match op with
  | Some op =>
      bool_decide (Ident (Meta r) ∈ op_parents op)
      && all_placements reached_inactive (ranges_of (op_children op) rs)
  | None =>
      negb (Failed p Deactivate)
      && existsb (fun q => reached_inactive (StateCurrent q) && negb (Failed q Activate))
           (replacing r (NodeID p))
  end.

Definition MayDrop (op : option Operation) (rs : list Range) (p : Placement)
  (r : Range) : bool :=
  match op with
  | Some op =>
      bool_decide (Ident (Meta r) ∈ op_parents op)
      && all_placements reached_active (ranges_of (op_children op) rs)
  | None =>
      Failed p Activate
      || existsb (fun q => reached_active (StateCurrent q)) (replacing r (NodeID p))
      || existsb (fun q => Failed q Deactivate) (on_node r (IsReplacing p))
  end.

(** The store takes every write. *)
Definition Put (rID : RangeID) (p : Placement) : bool := true.

(** Modelled from the spec: what [split] and [join] require (section 4.1). *)
Definition SplitCheck (rs : list Range) (r : Range) (k : Key) : bool :=
  bool_decide (State r = RsActive)
  && forallb is_active (Placements r)
  && negb (bool_decide (k = ZeroKey))
  && covers r k && negb (bool_decide (k = Start (Meta r))).

Definition JoinCheck (rs : list Range) (r1 r2 : Range) : bool :=
  bool_decide (State r1 = RsActive) && bool_decide (State r2 = RsActive)
  && bool_decide (End (Meta r1) = Start (Meta r2)).

(** Modelled from the spec: [ks.Operations()] "reconstructs active
    operations from parent/child links": the subsuming ranges, grouped by the
    children they lead to. *)
Definition add_parent (r : Range) (ops : list Operation) : list Operation :=
  if existsb (fun op => bool_decide (op_children op = Children r)) ops
  then (fun op => if bool_decide (op_children op = Children r)
                  then mkOperation (op_parents op ++ [Ident (Meta r)]) (op_children op)
                  else op) <$> ops
  else ops ++ [mkOperation [Ident (Meta r)] (Children r)].

Definition Operations (rs : list Range) : option (list Operation) :=
  Some (foldl (fun ops r => if bool_decide (State r = RsSubsuming)
                            then add_parent r ops else ops) [] rs).

(** Modelled from the spec: [check_complete], "every parent placement is
    [Dropped] and every child range has at least one [Active] placement". *)
Definition Complete (op : Operation) (rs : list Range) : bool :=
  all_placements (fun s => bool_decide (s = PsDropped)) (ranges_of (op_parents op) rs)
  && forallb (fun r => existsb is_active (Placements r)) (ranges_of (op_children op) rs).

(** The orchestrator over these collaborators, any three gates given. *)
Definition tickPlacement_with (mayActivate mayDeactivate mayDrop :
    option Operation -> list Range -> Placement -> Range -> bool) :=
  Orchestrator.tickPlacement mayActivate mayDeactivate mayDrop Put.

Definition Tick_with (mayActivate mayDeactivate mayDrop :
    option Operation -> list Range -> Placement -> Range -> bool) :=
  Orchestrator.Tick MinPlacements Candidate mayActivate mayDeactivate mayDrop Put
    SplitCheck JoinCheck Operations Complete.

Definition tickPlacement := tickPlacement_with MayActivate MayDeactivate MayDrop.

Definition tickRange :=
  Orchestrator.tickRange MinPlacements Candidate MayActivate MayDeactivate MayDrop
    Put SplitCheck.

Definition Tick := Tick_with MayActivate MayDeactivate MayDrop.


(** What happens to the orchestrator, one thing after the other; [run] is
    the state a list of such inputs leads to. *)
Inductive input :=
| DoTick
| Move (m : OpMove)
| SplitAt (os : OpSplit)
| Join (oj : OpJoin)
| Observe (nID : Api.NodeID) (rID : RangeID) (s : RemoteState).

Definition step (mayActivate mayDeactivate mayDrop :
    option Operation -> list Range -> Placement -> Range -> bool)
  (w : World) (i : input) : option World :=
  match i with
  | DoTick => Tick_with mayActivate mayDeactivate mayDrop w
  | Move m => Some (request_move w m)
  | SplitAt os => Some (request_split w os)
  | Join oj => Some (request_join w oj)
  | Observe nID rID s => Some (observe w nID rID s)
  end.

Fixpoint run (mayActivate mayDeactivate mayDrop :
    option Operation -> list Range -> Placement -> Range -> bool)
  (inputs : list input) (w : World) : option World :=
  match inputs with
  | [] => Some w
  | i :: rest =>
      w' ← step mayActivate mayDeactivate mayDrop w i;
      run mayActivate mayDeactivate mayDrop rest w'
  end.

(** [n] ticks in a row. *)
Fixpoint ticks (n : nat) (w : World) : option World :=
  match n with
  | O => Some w
  | S n' => w' ← Tick w; ticks n' w'
  end.

End Modelled.

(* ----------------------------------------------------------------- *)
(** ** The orchestrator and its nodes: which placements may serve      *)
(* ----------------------------------------------------------------- *)

Module Serving.
Import Api Catalog Orchestrator.

(** A placement that is active, or that has not been active yet and has
    been told to become active: its node serves the range, or may start to
    at any time. *)
Definition directed_active (p : Placement) : bool :=
  is_active p
  || (bool_decide (StateDesired p = PsActive)
      && (bool_decide (StateCurrent p = PsInactive)
          || bool_decide (StateCurrent p = PsPending))).

Definition serving (r : Range) : nat := count directed_active (Placements r).

(** The number of such placements, over all ranges that cover the key. *)
Definition count_serving (rs : list Range) (k : Key) : nat :=
  sum_list ((fun r => if covers r k then serving r else 0%nat) <$> rs).

(** What the activation gate has to ensure for the invariant: it lets a
    placement through only when no other placement that covers a key of its
    range is active or has been told to become active. *)
Definition exclusive
  (MayActivate : option Operation -> list Range -> Placement -> Range -> bool) : Prop :=
  forall op rs r p k,
    r ∈ rs -> p ∈ Placements r ->
    MayActivate op rs p r = true -> covers r k = true ->
    (count_serving rs k <= if directed_active p then 1 else 0)%nat.

(** A node is not ahead of the orchestrator: it reports the range of an
    inactive placement as activating or active only if the placement has
    been told to become active. *)
Definition not_ahead (ro : gmap string Node) (rID : RangeID) (p : Placement) : bool :=
  negb (bool_decide (StateCurrent p = PsInactive)
        && (bool_decide (remote ro (NodeID p) rID = Some NsActive)
            || bool_decide (remote ro (NodeID p) rID = Some NsActivating)))
  || bool_decide (StateDesired p = PsActive).

Definition range_in_step (ro : gmap string Node) (r : Range) : bool :=
  forallb (not_ahead ro (Ident (Meta r))) (Placements r).

Definition in_step (w : World) : bool := forallb (range_in_step (rost w)) (ks w).

(** The invariant: no node is ahead, and no key is covered by more than one
    placement that is active or has been told to become active. *)
Definition safe (w : World) : Prop :=
  in_step w = true /\ forall k : Key, (count_serving (ks w) k <= 1)%nat.

(** One catalog against an earlier one, under a roster: the ranges of the
    earlier one are still where they were and cover the keys they covered;
    where no node was ahead none is now, and no more placements serve; the
    ranges that have been added have no placement that serves. *)
Definition benign (ro : gmap string Node) (rs rs' : list Range) : Prop :=
  (length rs <= length rs')%nat
  /\ (forall i r, rs !! i = Some r ->
        exists r', rs' !! i = Some r' /\ Meta r' = Meta r
                   /\ (range_in_step ro r = true ->
                       range_in_step ro r' = true
                       /\ (serving r' <= serving r)%nat))
  /\ (forall i r', (length rs <= i)%nat -> rs' !! i = Some r' ->
        range_in_step ro r' = true /\ serving r' = 0%nat).

(** A step that keeps the roster and the invariant. *)
Definition steady (w w' : World) : Prop :=
  rost w' = rost w /\ (safe w -> safe w').

(** What happens to the orchestrator, one thing after the other: ticks,
    operator requests, and node responses as they are observed.  A response
    is let in only if it leaves no node ahead of the orchestrator. *)
Definition step (tick : World -> option World) (w : World) (i : Modelled.input)
  : option World :=
  match i with
  | Modelled.DoTick => tick w
  | Modelled.Move m => Some (request_move w m)
  | Modelled.SplitAt os => Some (request_split w os)
  | Modelled.Join oj => Some (request_join w oj)
  | Modelled.Observe nID rID s =>
      if in_step (observe w nID rID s) then Some (observe w nID rID s) else None
  end.

Fixpoint run (tick : World -> option World) (inputs : list Modelled.input)
  (w : World) : option World :=
  match inputs with
  | [] => Some w
  | i :: rest => w' ← step tick w i; run tick rest w'
  end.

(** Two ranges that meet at a key, the one ending where the other starts:
    no key is covered by both. *)
Definition adjacent (r r' : Range) : bool :=
  (negb (bool_decide (End (Meta r) = ZeroKey))
   && bool_decide (End (Meta r) = Start (Meta r')))
  || (negb (bool_decide (End (Meta r') = ZeroKey))
      && bool_decide (End (Meta r') = Start (Meta r))).

(** A gate that is exclusive: the gate of the spec, asked only when no
    other placement is active or has been told to become active, the
    placements of the ranges that meet the range of the placement apart. *)
Definition alone (rs : list Range) (p : Placement) (r : Range) : bool :=
  bool_decide
    (sum_list ((fun r' => if adjacent r r' then 0%nat else serving r') <$> rs)
     <= if directed_active p then 1 else 0)%nat.

Definition exclusive_gate (op : option Operation) (rs : list Range) (p : Placement)
  (r : Range) : bool :=
  Modelled.MayActivate op rs p r && alone rs p r.

Definition exclusive_Tick : World -> option World :=
  Modelled.Tick_with exclusive_gate Modelled.MayDeactivate Modelled.MayDrop.

End Serving.

(* ----------------------------------------------------------------- *)
(** ** The actuator, from the spec                                     *)
(* ----------------------------------------------------------------- *)

Module Actuator.
Import Api Catalog Orchestrator.

(** A command sent to a node. *)
Record Command := mkCommand {
  cmd_action : Action;
  cmd_range : RangeID;
  cmd_node : Api.NodeID;
}.

#[global] Instance Command_eq_dec : EqDecision Command.
Proof. solve_decision. Defined.

(** Modelled from the spec: the action for a desired state that differs from
    the current one (the table of section 4.6). *)
Definition action_for (current desired : PlacementState) : option Action :=
  match current, desired with
  | PsPending, PsInactive => Some Prepare
  | PsInactive, PsActive => Some Activate
  | PsActive, PsInactive => Some Deactivate
  | PsInactive, PsDropped => Some Drop
  | _, _ => None
  end.

Definition add_failure (p : Placement) (a : Action) : Placement :=
  {| NodeID := NodeID p; StateCurrent := StateCurrent p;
     StateDesired := StateDesired p; IsReplacing := IsReplacing p;
     FailedPrepare := FailedPrepare p + (if bool_decide (a = Prepare) then 1 else 0);
     FailedActivate := FailedActivate p + (if bool_decide (a = Activate) then 1 else 0);
     FailedDeactivate :=
       FailedDeactivate p + (if bool_decide (a = Deactivate) then 1 else 0);
     FailedDrop := FailedDrop p + (if bool_decide (a = Drop) then 1 else 0) |}.

(** The limits of the actuator.  For [Prepare], [Activate] and
    [Deactivate] the limit is [maxFailures], modelled from the spec
    ("[Prepare], [Activate], [Deactivate] abort after [maxFailures]").  For
    [Drop] the spec has no limit ("a [Drop] RPC is retried indefinitely"),
    while two tests of the orchestrator let a drop fail and expect the
    cluster to come to rest; the limit for [Drop] is therefore left open:
    [None] is no limit, as the spec has it, [Some d] gives the drop up after
    [d] failures. *)
Definition gives_up (dropLimit : option nat) (p : Placement) (a : Action) : bool :=
  match a with
  | Drop =>
      match dropLimit with
      | Some d => bool_decide (d <= FailedDrop p)%nat
      | None => false
      end
  | _ => Failed p a
  end.

(** The node's answer to a command: the remote state it is in afterwards,
    or [None] for an error or a timeout. *)
Definition Respond := Command -> option RemoteState.

(** [n.UpdateRangeState]: a range the node no longer has is taken off its
    list, as the rosters printed in the orchestrator's tests show. *)
Definition UpdateRangeState (ro : gmap string Node) (nID : Api.NodeID)
  (rID : RangeID) (s : RemoteState) : gmap string Node :=
  alter (fun n => mkNode (if bool_decide (s = NsNotFound)
                          then delete rID (node_ranges n)
                          else <[rID := s]> (node_ranges n))
                    (node_wantDrain n))
        nID ro.

(** Modelled from the spec: the actuator's turn for one placement (section
    4.6).  It answers with the placement, the roster and the command it
    sent, if any. *)
Definition actuate (dropLimit : option nat) (respond : Respond) (rID : RangeID)
  (ro : gmap string Node) (p : Placement)
  : Placement * gmap string Node * list Command :=
  if bool_decide (StateDesired p = StateCurrent p) then (p, ro, [])
  else
    match action_for (StateCurrent p) (StateDesired p) with
    | None => (p, ro, [])
    | Some a =>
        if gives_up dropLimit p a then (p, ro, [])
        else
          let c := mkCommand a rID (NodeID p) in
          match respond c with
          | Some s => (p, UpdateRangeState ro (NodeID p) rID s, [c])
          | None => (add_failure p a, ro, [c])
          end
    end.

Fixpoint actuate_placements (dropLimit : option nat) (respond : Respond)
  (rID : RangeID) (ro : gmap string Node) (ps : list Placement)
  : list Placement * gmap string Node * list Command :=
  match ps with
  | [] => ([], ro, [])
  | p :: rest =>
      let '(p', ro1, c1) := actuate dropLimit respond rID ro p in
      let '(rest', ro2, c2) := actuate_placements dropLimit respond rID ro1 rest in
      (p' :: rest', ro2, c1 ++ c2)
  end.

Fixpoint actuate_ranges (dropLimit : option nat) (respond : Respond)
  (ro : gmap string Node) (rs : list Range)
  : list Range * gmap string Node * list Command :=
  match rs with
  | [] => ([], ro, [])
  | r :: rest =>
      let '(ps, ro1, c1) :=
        actuate_placements dropLimit respond (Ident (Meta r)) ro (Placements r) in
      let '(rest', ro2, c2) := actuate_ranges dropLimit respond ro1 rest in
      (with_Placements r ps :: rest', ro2, c1 ++ c2)
  end.

(** The actuator's tick: the world it leaves and the commands it sent. *)
Definition Tick (dropLimit : option nat) (respond : Respond) (w : World)
  : World * list Command :=
  let '(rs, ro, cs) := actuate_ranges dropLimit respond (rost w) (ks w) in
  (mkWorld rs ro (opMoves w) (opSplits w) (opJoins w) (trace w), cs).

(** The answers of a node on which nothing goes wrong (the defaults of the
    mock actuator), and of one on which every command for a given action
    fails. *)
Definition default_state (a : Action) : RemoteState :=
  match a with
  | Prepare => NsInactive
  | Activate => NsActive
  | Deactivate => NsInactive
  | Drop => NsNotFound
  end.

Definition always_ok : Respond := fun c => Some (default_state (cmd_action c)).

Definition failing (a : Action) (nID : Api.NodeID) : Respond :=
  fun c => if bool_decide (cmd_action c = a) && bool_decide (cmd_node c = nID)
           then None else Some (default_state (cmd_action c)).


(** The limit of an action, if it has one, and the number of commands the
    actuator sends for an action that fails every time, in [n] turns, to a
    placement that has [f] failures of the action behind it. *)
Definition limit (dropLimit : option nat) (a : Action) : option nat :=
  match a with
  | Drop => dropLimit
  | _ => Some maxFailures
  end.

Definition sent (dropLimit : option nat) (a : Action) (f n : nat) : nat :=
  match limit dropLimit a with
  | Some d => n `min` (d - f)
  | None => n
  end.

(** A round is a tick of the orchestrator followed by a tick of the
    actuator; [rounds] collects the commands of [n] rounds. *)
Fixpoint rounds (dropLimit : option nat) (respond : Respond) (n : nat) (w : World)
  : option (World * list Command) :=
  match n with
  | O => Some (w, [])
  | S n' =>
      w1 ← Modelled.Tick w;
      let '(w2, c1) := Tick dropLimit respond w1 in
      '(w3, c2) ← rounds dropLimit respond n' w2;
      Some (w3, c1 ++ c2)
  end.

End Actuator.

(* ----------------------------------------------------------------- *)
(** ** package ranje: new placements and runs of transitions           *)
(* ----------------------------------------------------------------- *)

Module DurableCalls.
Import Durable.

Inductive new_error :=
| ErrHasNextPlacement (nodeID : string).

(** [NewPlacement].  [next] is [r.NextPlacement]; the function answers with
    what the field holds afterwards and with the placement or the error. *)
Definition NewPlacement (next : option DurablePlacement) (nodeID : string)
  : option DurablePlacement * (new_error + DurablePlacement) :=
  let p := {| NodeID := nodeID; State := SpPending |} in
  match next with
  | Some q => (next, inl (ErrHasNextPlacement (NodeID q)))
  | None => (Some p, inr p)
  end.

(** Calls of [ToState] on one placement, one after the other, each with the
    store as it answers at the time.  Errors are returned to the callers and
    the placement lives on; a panic ends the run. *)
Fixpoint ToStates (p : DurablePlacement)
  (calls : list (StatePlacement * (DurablePlacement -> option string))) : result :=
  match calls with
  | [] => Returned p None
  | (new, Put) :: rest =>
      match ToState Put p new with
      | Returned p' _ => ToStates p' rest
      | Panicked p' msg => Panicked p' msg
      end
  end.

End DurableCalls.

(* ----------------------------------------------------------------- *)
(** ** package node of the key-value example                           *)
(* ----------------------------------------------------------------- *)

(** A Go string and a byte slice are both a [string] here: a sequence of
    bytes, each an [ascii]. *)
Module Node.

Definition NUL : Ascii.ascii := Ascii.zero.

(** [rangeIdent] is a [[40]byte]: the scope, padded with zero bytes to 32,
    and the key in eight bytes, the least significant first. *)
Abbreviation rangeIdent := string (only parsing).

(** [n] zero bytes, [s[:n]] and [s[n:]]. *)
Fixpoint zeros (n : nat) : string :=
  match n with
  | O => ""
  | S n' => String NUL (zeros n')
  end.

Fixpoint take_bytes (n : nat) (s : string) : string :=
  match n, s with
  | S n', String c s' => String c (take_bytes n' s')
  | _, _ => ""
  end.

Fixpoint drop_bytes (n : nat) (s : string) : string :=
  match n, s with
  | S n', String _ s' => drop_bytes n' s'
  | _, _ => s
  end.

(** [byte(v)] and [uint64(b)]. *)
Definition byte_of (v : Z) : Ascii.ascii :=
  Ascii.ascii_of_N (Z.to_N (Z.land v 255)).

Definition of_byte (c : Ascii.ascii) : Z := Z.of_N (Ascii.N_of_ascii c).

(** [b[i]] of a slice that is long enough; Go panics where it is not. *)
Definition at_byte (b : string) (i : nat) : Z :=
  match String.get i b with
  | Some c => of_byte c
  | None => 0
  end.

(** [binary.LittleEndian.PutUint64] and [binary.LittleEndian.Uint64]. *)
Definition PutUint64 (v : Z) : string :=
  String (byte_of v)
 (String (byte_of (Z.shiftr v 8))
 (String (byte_of (Z.shiftr v 16))
 (String (byte_of (Z.shiftr v 24))
 (String (byte_of (Z.shiftr v 32))
 (String (byte_of (Z.shiftr v 40))
 (String (byte_of (Z.shiftr v 48))
 (String (byte_of (Z.shiftr v 56)) ""))))))).

Definition Uint64 (b : string) : Z :=
  Z.lor (at_byte b 0)
 (Z.lor (Z.shiftl (at_byte b 1) 8)
 (Z.lor (Z.shiftl (at_byte b 2) 16)
 (Z.lor (Z.shiftl (at_byte b 3) 24)
 (Z.lor (Z.shiftl (at_byte b 4) 32)
 (Z.lor (Z.shiftl (at_byte b 5) 40)
 (Z.lor (Z.shiftl (at_byte b 6) 48)
        (Z.shiftl (at_byte b 7) 56))))))).

(** [bytes.TrimRight(s, "\x00")]: the trailing zero bytes go. *)
Fixpoint TrimRight_NUL (s : string) : string :=
  match s with
  | "" => ""
  | String c s' =>
      let t := TrimRight_NUL s' in
      if bool_decide (t = "") && bool_decide (c = NUL) then "" else String c t
  end.

(** A [*pbr.Ident]; [None] is a nil pointer, whose getters answer with the
    zero values. *)
Abbreviation pbIdent := (option (string * Z)) (only parsing).

Definition GetScope (pbid : pbIdent) : string := default "" (fst <$> pbid).
Definition GetKey (pbid : pbIdent) : Z := default 0%Z (snd <$> pbid).

Inductive code :=
| InvalidArgument | Aborted | FailedPrecondition | Unimplemented | NotFound.

(** An error is a gRPC status or a plain error; parts of a message that are
    formatted in are arguments. *)
Inductive error :=
| Plain (msg : string)
| Status (c : code) (msg : string)
| AlreadyHave (ident : rangeIdent).

#[global] Instance code_eq_dec : EqDecision code.
Proof. solve_decision. Defined.
#[global] Instance error_eq_dec : EqDecision error.
Proof. solve_decision. Defined.

(** [parseIdent] *)
Definition parseIdent (pbid : pbIdent) : error + rangeIdent :=
  let s := GetScope pbid in
  if bool_decide (32 < String.length s)%nat then inl (Plain "invalid range ident: scope too long")
  else inr (String.append s
              (String.append (zeros (32 - String.length s))
                 (PutUint64 (GetKey pbid)))).

(** [rangeIdent.Decode] *)
Definition Decode (i : rangeIdent) : string * Z :=
  (TrimRight_NUL (take_bytes 32 i), Uint64 (drop_bytes 32 i)).

(** [RangeMeta] and the [*pbr.RangeMeta] it is parsed from. *)
Record RangeMeta := mkRangeMeta {
  ident : rangeIdent;
  start : string;
  end_ : string;
}.

#[global] Instance RangeMeta_eq_dec : EqDecision RangeMeta.
Proof. solve_decision. Defined.

Record pbRangeMeta := mkPbRangeMeta {
  pb_Ident : pbIdent;
  pb_Start : string;
  pb_End : string;
}.

Definition parseRangeMeta (r : pbRangeMeta) : error + RangeMeta :=
  match parseIdent (pb_Ident r) with
  | inl e => inl e
  | inr id => inr (mkRangeMeta id (pb_Start r) (pb_End r))
  end.

(** [RangeMeta.Contains]: [bytes.Compare(k, start) >= 0] is
    [start <= k], [bytes.Compare(k, end) < 0] is [k < end]. *)
Definition Contains (rm : RangeMeta) (k : string) : bool :=
  (bool_decide (start rm = Ranje.ZeroKey) || String.leb (start rm) k)
  && (bool_decide (end_ rm = Ranje.ZeroKey) || String.ltb k (end_ rm)).

(** *** [Ranges]: the slice of range metadata *)

Definition NewRanges : list RangeMeta := [].

Definition Add (rs : list RangeMeta) (r : RangeMeta) : list RangeMeta := rs ++ [r].

Fixpoint index_of (id : rangeIdent) (rs : list RangeMeta) : option nat :=
  match rs with
  | [] => None
  | r :: rest => if bool_decide (ident r = id) then Some 0%nat
                 else S <$> index_of id rest
  end.

(** [Remove]: the last element is written over the first one with the
    identifier and the slice is cut by one.  [None] is the panic for an
    identifier that is not there. *)
Definition Remove (rs : list RangeMeta) (id : rangeIdent) : option (list RangeMeta) :=
  idx ← index_of id rs;
  lst ← last rs;
  Some (take (length rs - 1) (<[idx := lst]> rs)).

(** [Find]: the identifier of the first range that contains the key. *)
Definition Find (rs : list RangeMeta) (k : string) : option rangeIdent :=
  ident <$> head (filter (fun rm => Contains rm k = true) rs).

(** *** The node: data and ranges *)

Inductive StateRemote :=
| StateUnknown | StateFetching | StateFetched | StateFetchFailed
| StateReady | StateTaken.

#[global] Instance StateRemote_eq_dec : EqDecision StateRemote.
Proof. solve_decision. Defined.

Record RangeData := mkRangeData {
  data : gmap string string;
  state : StateRemote;
}.

(** The part of [Node] that the handlers read and write. *)
Record Node := mkNode {
  node_data : gmap string RangeData;
  node_ranges : list RangeMeta;
}.

(** [New], without the server and the discovery. *)
Definition New : Node := mkNode ∅ NewRanges.

(** The loop of [fetchOne] over the pairs of a dump: a pair goes into the
    data if the destination contains its key. *)
Definition load_pairs (dest : RangeMeta) (pairs : list (string * string))
  (d : gmap string string) : gmap string string :=
  foldl (fun d pair => if Contains dest pair.1 then <[pair.1 := pair.2]> d else d)
        d pairs.

(** A [*pbr.Placement]; the range may be a nil pointer. *)
Record pbPlacement := mkPbPlacement {
  pl_Range : option pbRangeMeta;
  pl_Node : string;
}.

(** [None] is the panic of [parseRangeMeta] on the nil range of a parent;
    [Some None] is the first parent whose identifier does not parse. *)
Fixpoint parse_parents (parents : list pbPlacement)
  : option (option (list RangeMeta)) :=
  match parents with
  | [] => Some (Some [])
  | p :: rest =>
      match pl_Range p with
      | None => None
      | Some r =>
          match parseRangeMeta r with
          | inl _ => Some None
          | inr rm =>
              match parse_parents rest with
              | None => None
              | Some None => Some None
              | Some (Some rms) => Some (Some (rm :: rms))
              end
          end
      end
  end.

(** What the network does to one [fetchOne]: the dial fails, the dump
    fails, or the pairs of the dump arrive. *)
Inductive answer :=
| DialFails
| DumpFails
| Dumps (pairs : list (string * string)).

(** [fetchOne], on the data of the range: the data it leaves and whether it
    returns an error; [None] is [log.Fatalf], the end of the process. *)
Definition fetchOne (d : gmap string string) (dest : RangeMeta)
  (addr : string) (src : RangeMeta) (a : answer)
  : option (gmap string string * bool) :=
  if bool_decide (addr = "") then Some (d, false)
  else
    match a with
    | DialFails => None
    | DumpFails => Some (d, true)
    | Dumps pairs => Some (load_pairs dest pairs d, false)
    end.

(** The goroutines of [fetchMany] take the lock one after the other, in an
    order that the scheduler chooses: [sched] lists the index of each
    goroutine with the answer it got, in that order.  [g.Wait()] returns an
    error if one of them did. *)
Fixpoint fetch_all (dest : RangeMeta) (parents : list pbPlacement)
  (rms : list RangeMeta) (sched : list (nat * answer))
  (d : gmap string string) (failed : bool)
  : option (gmap string string * bool) :=
  match sched with
  | [] => Some (d, failed)
  | (i, a) :: rest =>
      match parents !! i, rms !! i with
      | Some p, Some src =>
          match fetchOne d dest (pl_Node p) src a with
          | None => None
          | Some (d', e) => fetch_all dest parents rms rest d' (failed || e)
          end
      | _, _ => fetch_all dest parents rms rest d failed
      end
  end.

(** [fetchMany]: the parents are parsed first, then fetched. *)
Definition fetchMany (rd : RangeData) (dest : RangeMeta)
  (parents : list pbPlacement) (sched : list (nat * answer))
  : option RangeData :=
  match parse_parents parents with
  | None => None
  | Some None => Some (mkRangeData (data rd) StateFetchFailed)
  | Some (Some rms) =>
      match fetch_all dest parents rms sched (data rd) false with
      | None => None
      | Some (d, failed) =>
          Some (mkRangeData d
                  (if failed : bool then StateFetchFailed else StateFetched))
      end
  end.

(** A handler answers with the node it leaves and its response or error;
    [None] is a panic. *)
Record GiveRequest := mkGiveRequest {
  give_Range : option pbRangeMeta;
  give_Parents : list pbPlacement;
}.

Definition Give (n : Node) (req : GiveRequest) (sched : list (nat * answer))
  : option (Node * (error + StateRemote)) :=
  match give_Range req with
  | None => Some (n, inl (Status InvalidArgument "missing: range"))
  | Some r =>
      match parseRangeMeta r with
      | inl _ => Some (n, inl (Status InvalidArgument
                                 "invalid range ident: scope too long"))
      | inr rm =>
          cleared ←
            match node_data n !! ident rm with
            | Some rd =>
                if bool_decide (state rd = StateFetchFailed) then
                  rs ← Remove (node_ranges n) (ident rm);
                  Some (inr (mkNode (delete (ident rm) (node_data n)) rs))
                else Some (inl (AlreadyHave (ident rm)))
            | None => Some (inr n)
            end;
          match cleared with
          | inl e => Some (n, inl e)
          | inr n1 =>
              rd ←
                match give_Parents req with
                | [] => Some (mkRangeData ∅ StateReady)
                | _ :: _ => fetchMany (mkRangeData ∅ StateFetching) rm
                              (give_Parents req) sched
                end;
              Some (mkNode (<[ident rm := rd]> (node_data n1))
                           (Add (node_ranges n1) rm),
                    inr (state rd))
          end
      end
  end.

(** [getRangeData] *)
Definition getRangeData (n : Node) (pbi : pbIdent)
  : error + (rangeIdent * RangeData) :=
  match pbi with
  | None => inl (Status InvalidArgument "missing: range")
  | Some _ =>
      match parseIdent pbi with
      | inl _ => inl (Status InvalidArgument
               "error parsing range ident: invalid range ident: scope too long")
      | inr id =>
          match node_data n !! id with
          | None => inl (Status InvalidArgument "range not found")
          | Some rd => inr (id, rd)
          end
      end
  end.

Definition set_state (n : Node) (id : rangeIdent) (rd : RangeData)
  (s : StateRemote) : Node :=
  mkNode (<[id := mkRangeData (data rd) s]> (node_data n)) (node_ranges n).

Definition Serve (n : Node) (rang : pbIdent) (force : bool)
  : option (Node * (error + unit)) :=
  match getRangeData n rang with
  | inl e => Some (n, inl e)
  | inr (id, rd) =>
      if bool_decide (state rd <> StateFetched) && negb force
      then Some (n, inl (Status Aborted
             "won't serve ranges not in the FETCHED state without FORCE"))
      else Some (set_state n id rd StateReady, inr ())
  end.

Definition Take (n : Node) (rang : pbIdent) : option (Node * (error + unit)) :=
  match getRangeData n rang with
  | inl e => Some (n, inl e)
  | inr (id, rd) =>
      if bool_decide (state rd <> StateReady)
      then Some (n, inl (Status FailedPrecondition
             "can only take ranges in the READY state"))
      else Some (set_state n id rd StateTaken, inr ())
  end.

Definition Drop (n : Node) (rang : pbIdent) (force : bool)
  : option (Node * (error + unit)) :=
  match getRangeData n rang with
  | inl e => Some (n, inl e)
  | inr (id, rd) =>
      if bool_decide (state rd = StateFetching)
      then Some (n, inl (Status Unimplemented
             "dropping ranges in the FETCHING state is not supported yet"))
      else if bool_decide (state rd <> StateTaken) && negb force
      then Some (n, inl (Status Aborted
             "won't drop ranges not in the TAKEN state without FORCE"))
      else
        rs ← Remove (node_ranges n) id;
        Some (mkNode (delete id (node_data n)) rs, inr ())
  end.

(** [Info]: an entry for each range of the slice, in its order.  Reading the
    state through the nil pointer of a range without data panics. *)
Record RangeInfo := mkRangeInfo {
  info_Scope : string;
  info_Key : Z;
  info_Start : string;
  info_End : string;
  info_State : StateRemote;
  info_Keys : nat;
}.

Fixpoint Info_entries (d : gmap string RangeData) (rs : list RangeMeta)
  : option (list RangeInfo) :=
  match rs with
  | [] => Some []
  | r :: rest =>
      rd ← d !! ident r;
      rest' ← Info_entries d rest;
      let '(scope, key) := Decode (ident r) in
      Some (mkRangeInfo scope key (start r) (end_ r) (state rd) (size (data rd))
              :: rest')
  end.

Definition Info (n : Node) : option (list RangeInfo) :=
  Info_entries (node_data n) (node_ranges n).

(** *** The data plane *)

(** [Dump]; the pairs come out of a Go map, in no order: the answer is the
    map. *)
Definition Dump (n : Node) (rang : pbIdent)
  : error + gmap string string :=
  match rang with
  | None => inl (Status InvalidArgument "missing: range")
  | Some _ =>
      match parseIdent rang with
      | inl _ => inl (Status InvalidArgument
               "error parsing range ident: invalid range ident: scope too long")
      | inr id =>
          match node_data n !! id with
          | None => inl (Status InvalidArgument "range not found")
          | Some rd =>
              if bool_decide (state rd <> StateTaken)
              then inl (Status FailedPrecondition
                     "can only dump ranges in the TAKEN state")
              else inr (data rd)
          end
      end
  end.

Definition Get (n : Node) (k : string) : option (error + string) :=
  if bool_decide (k = "") then Some (inl (Status InvalidArgument "missing: key"))
  else
    match Find (node_ranges n) k with
    | None => Some (inl (Status FailedPrecondition "no valid range"))
    | Some id =>
        rd ← node_data n !! id;
        if bool_decide (state rd <> StateReady)
           && bool_decide (state rd <> StateFetched)
           && bool_decide (state rd <> StateTaken)
        then Some (inl (Status FailedPrecondition
               "can only GET from ranges in the READY, FETCHED, and TAKEN states"))
        else
          match data rd !! k with
          | None => Some (inl (Status NotFound "no such key"))
          | Some v => Some (inr v)
          end
    end.

(** [Put]; a nil value deletes the key. *)
Definition Put (n : Node) (k : string) (value : option string)
  : option (Node * (error + unit)) :=
  if bool_decide (k = "") then Some (n, inl (Status InvalidArgument "missing: key"))
  else
    match Find (node_ranges n) k with
    | None => Some (n, inl (Status FailedPrecondition "no valid range"))
    | Some id =>
        rd ← node_data n !! id;
        if bool_decide (state rd <> StateReady)
        then Some (n, inl (Status FailedPrecondition
               "can only PUT to ranges in the READY state"))
        else
          let d := match value with
                   | None => delete k (data rd)
                   | Some v => <[k := v]> (data rd)
                   end in
          Some (mkNode (<[id := mkRangeData d (state rd)]> (node_data n))
                       (node_ranges n), inr ())
    end.

(** *** Requests, one after the other *)

Inductive request :=
| ReqGive (req : GiveRequest) (sched : list (nat * answer))
| ReqServe (rang : pbIdent) (force : bool)
| ReqTake (rang : pbIdent)
| ReqDrop (rang : pbIdent) (force : bool)
| ReqInfo
| ReqDump (rang : pbIdent)
| ReqGet (k : string)
| ReqPut (k : string) (value : option string).

(** The node that a request leaves, whatever the answer; [None] if the
    handler panics or ends the process. *)
Definition handle (n : Node) (r : request) : option Node :=
  match r with
  | ReqGive req sched => fst <$> Give n req sched
  | ReqServe rang force => fst <$> Serve n rang force
  | ReqTake rang => fst <$> Take n rang
  | ReqDrop rang force => fst <$> Drop n rang force
  | ReqInfo => (fun _ => n) <$> Info n
  | ReqDump rang => Some n
  | ReqGet k => (fun _ => n) <$> Get n k
  | ReqPut k value => fst <$> Put n k value
  end.

Fixpoint handle_all (n : Node) (rs : list request) : option Node :=
  match rs with
  | [] => Some n
  | r :: rest =>
      match handle n r with
      | None => None
      | Some n' => handle_all n' rest
      end
  end.

(** An answer that is not a failed dial. *)
Definition arrives (ia : nat * answer) : bool :=
  match ia.2 with DialFails => false | _ => true end.

(** A key fits a [uint64]. *)
Definition is_uint64 (k : Z) : bool := (0 <=? k)%Z && (k <? 2 ^ 64)%Z.

(** A [Give] whose parents all come with a range and none of whose dials
    fails; keys are [uint64]s. *)
Definition sound_request (r : request) : bool :=
  match r with
  | ReqGive req sched =>
      forallb (fun p => bool_decide (is_Some (pl_Range p))) (give_Parents req)
      && forallb arrives sched
      && is_uint64 (GetKey (from_option pb_Ident None (give_Range req)))
  | _ => true
  end.

(** An identifier that is found again under the scope and the key it
    decodes to. *)
Definition canonical (id : rangeIdent) : Prop :=
  parseIdent (Some (Decode id)) = inr id.

(** The data has a range for each identifier of the slice and for nothing
    else, no identifier is in the slice twice, and each key of the data of a
    range is a key of the range. *)
Definition consistent (n : Node) : Prop :=
  NoDup (ident <$> node_ranges n)
  /\ (forall id, is_Some (node_data n !! id) <-> id ∈ ident <$> node_ranges n)
  /\ (forall rm rd k, rm ∈ node_ranges n -> node_data n !! ident rm = Some rd ->
        is_Some (data rd !! k) -> Contains rm k = true).

End Node.

(* ----------------------------------------------------------------- *)
(** ** package ranje: the rest of the keyspace (keyspace.go)           *)
(* ----------------------------------------------------------------- *)

Module KeyspaceOps.
Import Ranje.

Inductive error :=
| ErrNoSuchRange (id : Ident)
| ErrNotObsolete
| ErrNoChildren (r : ptr)
| ErrNotInKeyspace (r : ptr).

Inductive ret (A : Type) :=
| Ok (a : A)
| Err (e : error).
Arguments Ok {A} a.
Arguments Err {A} e.

Section Keyspace.
(** Go's zero value of [StateLocal], as in [Ranje.NewRange]. *)
Variable zeroState : StateLocal.

(** [New]: one range that covers all keys, in a heap of its own. *)
Definition New : Mem * Keyspace :=
  let '(m, ks, r) := NewRange zeroState [] {| ranges := []; nextIdent := 1 |} in
  (alter (fun x => with_state x Pending) r m,
   {| ranges := [r]; nextIdent := nextIdent ks |}).

(** One turn of the loop of [NewWithSplits]; [rs] are the entries of the
    slice that are set by now.  [None] is the panic of a nil pointer. *)
Definition NewWithSplits_body (splits : list string)
  (st : Mem * Keyspace * list ptr) (i : nat) : option (Mem * Keyspace * list ptr) :=
  let '(m, ks, rs) := st in
  s ← (if bool_decide (0 < i)%nat
       then p ← rs !! (i - 1)%nat; r ← m !! p; Some (End (meta r))
       else Some ZeroKey);
  let e := if bool_decide (i < length splits)%nat
           then default ZeroKey (splits !! i) else ZeroKey in
  let '(m1, ks1, r) := NewRange zeroState m ks in
  Some (alter (fun x => with_bounds x s e (parents x)) r m1, ks1, rs ++ [r]).

Fixpoint NewWithSplits_loop (splits : list string)
  (st : Mem * Keyspace * list ptr) (indices : list nat)
  : option (Mem * Keyspace * list ptr) :=
  match indices with
  | [] => Some st
  | i :: rest =>
      st' ← NewWithSplits_body splits st i;
      NewWithSplits_loop splits st' rest
  end.

(** [NewWithSplits] *)
Definition NewWithSplits (splits : list string) : option (Mem * Keyspace) :=
  '(m, ks, rs) ← NewWithSplits_loop splits
                   ([], {| ranges := []; nextIdent := 0 |}, [])
                   (seq 0 (length splits + 1));
  Some (m, {| ranges := rs; nextIdent := nextIdent ks |}).

(** What [NewWithSplits] is to build at the index [i]: the ranges are
    numbered from zero, each starts where the one before ends, and the first
    and the last are open. *)
Definition tile (splits : list string) (i : nat) : Range :=
  {| meta := {| MetaIdent := mkIdent "" (Z.of_nat i mod uint64_max);
                Start := match i with
                         | O => ZeroKey
                         | S j => default ZeroKey (splits !! j)
                         end;
                End := default ZeroKey (splits !! i) |};
     state := zeroState; parents := []; children := []; placements := [] |}.

End Keyspace.

(** [RangesByState] *)
Fixpoint RangesByState (m : Mem) (rs : list ptr) (s : StateLocal)
  : option (list ptr) :=
  match rs with
  | [] => Some []
  | p :: rest =>
      r ← m !! p;
      out ← RangesByState m rest s;
      Some (if bool_decide (state r = s) then p :: out else out)
  end.

(** [GetByIdent]: the first range of the keyspace with the identifier. *)
Fixpoint GetByIdent_from (m : Mem) (rs : list ptr) (id : Ident)
  : option (ret ptr) :=
  match rs with
  | [] => Some (Err (ErrNoSuchRange id))
  | p :: rest =>
      r ← m !! p;
      if bool_decide (MetaIdent (meta r) = id) then Some (Ok p)
      else GetByIdent_from m rest id
  end.

Definition GetByIdent (m : Mem) (ks : Keyspace) (id : Ident) : option (ret ptr) :=
  GetByIdent_from m (ranges ks) id.

(** [int(x)] of a [uint64]. *)
Definition to_int (x : Z) : Z :=
  if (x <? 2 ^ 63)%Z then x else (x - 2 ^ 64)%Z.

(** [Get]: by the key of the identifier; [None] is its panic. *)
Fixpoint Get_from (m : Mem) (rs : list ptr) (id : Z) : option ptr :=
  match rs with
  | [] => None
  | p :: rest =>
      r ← m !! p;
      if bool_decide (to_int (IdentKey (MetaIdent (meta r))) = id) then Some p
      else Get_from m rest id
  end.

Definition Get (m : Mem) (ks : Keyspace) (id : Z) : option ptr :=
  Get_from m (ranges ks) id.

(** [Len] *)
Definition Len (ks : Keyspace) : nat := length (ranges ks).

(** [index]: the place of a pointer in [ks.ranges]. *)
Fixpoint index_from (rs : list ptr) (r : ptr) (i : nat) : option nat :=
  match rs with
  | [] => None
  | rr :: rest => if bool_decide (r = rr) then Some i else index_from rest r (S i)
  end.

Definition index (ks : Keyspace) (r : ptr) : ret nat :=
  match index_from (ranges ks) r 0 with
  | Some i => Ok i
  | None => Err (ErrNotInKeyspace r)
  end.

(** [Discard]: the entries after the range move down by one and the slice
    is cut by one. *)
Definition Discard (m : Mem) (ks : Keyspace) (rp : ptr)
  : option (Keyspace * ret unit) :=
  r ← m !! rp;
  if bool_decide (state r ≠ Obsolete) then Some (ks, Err ErrNotObsolete)
  else if bool_decide (length (children r) = 0)%nat
    then Some (ks, Err (ErrNoChildren rp))
  else
    match index ks rp with
    | Err e => Some (ks, Err e)
    | Ok i =>
        Some ({| ranges := take (length (ranges ks) - 1)
                             (take i (ranges ks) ++ drop (S i) (ranges ks)
                              ++ drop (length (ranges ks) - 1) (ranges ks));
                 nextIdent := nextIdent ks |}, Ok ())
    end.

End KeyspaceOps.

(* ----------------------------------------------------------------- *)
(** ** package persister/sql: the rows of a range                      *)
(* ----------------------------------------------------------------- *)

Module SqlRows.
Import Api Catalog Sql.

(** The row that [put_range] inserts into the range table for a range, and
    the rows it inserts into the placement table. *)
Definition range_row (r : Range) : RangeRow :=
  mkRangeRow (Ident (Meta r)) (Start (Meta r)) (End (Meta r))
    (RangeState_String (State r)).

Definition placement_rows (r : Range) : list PlacementRow :=
  (fun p => mkPlacementRow (Ident (Meta r)) (NodeID p)
              (PlacementState_String (StateCurrent p))
              (PlacementState_String (StateDesired p))) <$> Placements r.

(** What [GetRanges] is to find for a range after the ranges [rs] have been
    written to an empty database: the links of all the ranges are in the
    link table, so that a link is found at both of its ends, and a placement
    has the three fields that have a column. *)
Definition loaded (rs : list Range) (r : Range) : Range :=
  {| Meta := Meta r; State := State r;
     Parents := fst <$> filter (fun l => snd l = Ident (Meta r)) (concat (links <$> rs));
     Children := snd <$> filter (fun l => fst l = Ident (Meta r)) (concat (links <$> rs));
     Placements := persisted_placement <$> Placements r |}.

End SqlRows.

(* ----------------------------------------------------------------- *)
(** ** package reconciler: what a run is made of                       *)
(* ----------------------------------------------------------------- *)

Module ReconcilerRuns.
Import Reconciler.

(** The calls that have been made are for placements of [E], into [SpGone]
    or into a state that [R] reports. *)
Definition calls_from (ToStatePlacement : StateRemote -> StatePlacement)
  (E : list PBNID) (R : list RangeInfo) (r : run) : Prop :=
  forall p s, (p, s) ∈ calls r ->
    (exists e, e ∈ E /\ Placement e = p)
    /\ (s = SpGone \/ exists ri, ri ∈ R /\ s = ToStatePlacement (State ri)).

(** Each entry of [states] holds a pointer, and the pointers were taken in
    iterations of the two loops. *)
Definition filled (nE nR : nat) (s : states) : Prop :=
  (expected s <> None \/ actual s <> None)
  /\ (forall i, expected s = Some i -> (i < nE)%nat)
  /\ (forall i, actual s = Some i -> (i < nR)%nat).

End ReconcilerRuns.

(* ----------------------------------------------------------------- *)
(** ** package roster: the node as the controller sees it              *)
(* ----------------------------------------------------------------- *)

Module RosterNode.

#[global] Instance Ident_countable : Countable Ranje.Ident :=
  inj_countable' (fun i => (Ranje.Scope i, Ranje.IdentKey i))
                 (fun p => Ranje.mkIdent p.1 p.2)
                 (fun i => match i with Ranje.mkIdent _ _ => eq_refl end).

Section Node.
(** The range of the keyspace, the states and identifiers of the protocol,
    and the three functions on them that the node calls are not among the
    sources. *)
Context {Range pbState pbIdent : Type}.
Variable SameMeta : Range -> Ranje.Ident -> string -> string -> bool.
Variable RemoteStateFromProto : pbState -> Reconciler.StateRemote.
Variable IdentFromProto : pbIdent -> Ranje.Ident.

(** [Info]: what the node is known to hold of a range. *)
Record Info := mkInfo {
  R : Range;
  S : Reconciler.StateRemote;
  K : Z;
}.

Record pbRangeMeta := mkPbRangeMeta {
  pb_Ident : pbIdent;
  pb_Start : string;
  pb_End : string;
}.

(** An entry of the response to a probe; the range may be a nil pointer. *)
Record pbRangeInfo := mkPbRangeInfo {
  info_Range : option pbRangeMeta;
  info_State : pbState;
  info_Keys : Z;
}.

(** The part of [Node] that [Give] and [Probe] work on.  A map is [None]
    while it is nil: reading a nil map finds nothing, writing to it
    panics. *)
Record Node := mkNode {
  host : string;
  port : Z;
  ranges : option (gmap Ranje.Ident Info);
  unexpectedRanges : option (gmap Ranje.Ident pbRangeMeta);
}.

(** [NewNode]: the struct literal names neither map. *)
Definition NewNode (h : string) (p : Z) : Node :=
  {| host := h; port := p; ranges := None; unexpectedRanges := None |}.

Inductive error :=
| ErrAlreadyGiven (h : string) (p : Z) (id : Ranje.Ident)
| ErrProbe.

(** [m[k]] and [m[k] = v] on a map that may be nil; [None] of the second is
    the panic. *)
Definition read {V : Type} (m : option (gmap Ranje.Ident V)) (k : Ranje.Ident)
  : option V := m' ← m; m' !! k.

Definition write {V : Type} (m : option (gmap Ranje.Ident V)) (k : Ranje.Ident)
  (v : V) : option (gmap Ranje.Ident V) := m' ← m; Some (<[k := v]> m').

(** [Give]; [None] is a panic. *)
Definition Give (n : Node) (id : Ranje.Ident) (r : Range)
  : option (Node * option error) :=
  match read (ranges n) id with
  | Some _ => Some (n, Some (ErrAlreadyGiven (host n) (port n) id))
  | None =>
      m ← write (ranges n) id (mkInfo r Reconciler.StateUnknown 0);
      Some (mkNode (host n) (port n) (Some m) (unexpectedRanges n), None)
  end.

(** The body of the loop of [Probe] for one entry of the response. *)
Definition probe_entry (n : Node) (r : pbRangeInfo) : option Node :=
  match info_Range r with
  | None => Some n
  | Some rr =>
      let id := IdentFromProto (pb_Ident rr) in
      match read (ranges n) id with
      | None =>
          u ← write (unexpectedRanges n) id rr;
          Some (mkNode (host n) (port n) (ranges n) (Some u))
      | Some rrr =>
          if negb (SameMeta (R rrr) id (pb_Start rr) (pb_End rr)) then Some n
          else
            m ← write (ranges n) id
                  (mkInfo (R rrr) (RemoteStateFromProto (info_State r)) (info_Keys r));
            Some (mkNode (host n) (port n) (Some m) (unexpectedRanges n))
      end
  end.

Fixpoint probe_entries (n : Node) (rs : list pbRangeInfo) : option Node :=
  match rs with
  | [] => Some n
  | r :: rest => n' ← probe_entry n r; probe_entries n' rest
  end.

(** [Probe]; [res] is the answer to the [Info] call, [None] when the call
    fails. *)
Definition Probe (n : Node) (res : option (list pbRangeInfo))
  : option (Node * option error) :=
  match res with
  | None => Some (n, Some ErrProbe)
  | Some rs => n' ← probe_entries n rs; Some (n', None)
  end.

(** What a probe keeps of a node whose maps exist: the ranges it has been
    given, each with the range it was given for; and what it notes as
    unexpected is none of them. *)
Definition kept (n n' : Node) : Prop :=
  host n' = host n /\ port n' = port n
  /\ exists m m' u u',
       ranges n = Some m /\ ranges n' = Some m'
       /\ unexpectedRanges n = Some u /\ unexpectedRanges n' = Some u'
       /\ dom m' = dom m
       /\ (forall id i i', m !! id = Some i -> m' !! id = Some i' -> R i' = R i)
       /\ (forall id, id ∈ dom u' -> id ∈ dom u \/ id ∉ dom m).

End Node.

End RosterNode.

(* ----------------------------------------------------------------- *)
(** ** package actuator/util: the parents of a range (parents.go)      *)
(* ----------------------------------------------------------------- *)

Module Util.
Import Api Catalog.

(** [pb.Placement] and [pb.Parent].  The state of a placement is the one
    the catalog calls [StateCurrent]; its conversion to the protocol is not
    among the sources and the state is kept as it is. *)
Record pbPlacement := mkPbPlacement {
  pl_Node : string;
  pl_State : PlacementState;
}.

Record Parent := mkParent {
  par_Range : Api.Meta;
  par_Placements : list pbPlacement;
}.

(** The roster, as [pbPlacement] reads it: the address of each node that
    [NodeByIdent] finds. *)
Abbreviation Roster := (gmap string string) (only parsing).

(** [pbPlacement] *)
Definition pbPlacement_of (rost : Roster) (r : Range) : Parent :=
  {| par_Range := Meta r;
     par_Placements :=
       (fun p => {| pl_Node := default "" (rost !! NodeID p);
                    pl_State := StateCurrent p |}) <$> Placements r |}.

(** [ks.Get(rID)], which is not among the sources: the range with the
    identifier, or an error. *)
Fixpoint Get (ks : list Range) (rID : RangeID) : option Range :=
  match ks with
  | [] => None
  | r :: rest => if bool_decide (Ident (Meta r) = rID) then Some r else Get rest rID
  end.

(** What a call leaves: the parents collected and the identifiers seen, or
    a panic.  [OutOfFuel] is not an outcome of the program: the recursion is
    cut at a depth that is given, and [GetParents] gives one that is never
    reached. *)
Inductive outcome :=
| Done (parents : list Parent) (seen : gset Z)
| Panic (rID : RangeID)
| OutOfFuel.

(** [for _, rID := range rang.Parents], over the recursive call. *)
Fixpoint addParents_loop (call : Range -> list Parent -> gset Z -> outcome)
  (ks : list Range) (rIDs : list RangeID) (parents : list Parent) (seen : gset Z)
  : outcome :=
  match rIDs with
  | [] => Done parents seen
  | rID :: rest =>
      match Get ks rID with
      | None => Panic rID
      | Some r =>
          match call r parents seen with
          | Done parents' seen' => addParents_loop call ks rest parents' seen'
          | o => o
          end
      end
  end.

(** [addParents] *)
Fixpoint addParents (depth : nat) (ks : list Range) (rost : Roster) (rang : Range)
  (parents : list Parent) (seen : gset Z) : outcome :=
  match depth with
  | O => OutOfFuel
  | S d =>
      if bool_decide (Ident (Meta rang) ∈ seen) then Done parents seen
      else
        addParents_loop (addParents d ks rost) ks (Parents rang)
          (parents ++ [pbPlacement_of rost rang])
          ({[Ident (Meta rang)]} ∪ seen)
  end.

(** [GetParents] *)
Definition GetParents (ks : list Range) (rost : Roster) (rang : Range) : outcome :=
  addParents (length ks + 2) ks rost rang [] ∅.

(** One range is a parent of another, by their identifiers, and the
    ancestors of a range: the range and the parents of its ancestors. *)
Definition parent_of (ks : list Range) (a b : RangeID) : Prop :=
  exists r, Get ks a = Some r /\ b ∈ Parents r.

Definition ancestor (ks : list Range) (a b : RangeID) : Prop :=
  rtc (parent_of ks) a b.

(** What a call has added when it returns: the ranges [N], each found in the
    keyspace and not seen before, each an ancestor of one of the roots of the
    call, and each with all its parents seen by now. *)
Definition collected (ks : list Range) (rost : Roster) (roots : RangeID -> Prop)
  (parents : list Parent) (seen : gset Z) (N : list Range)
  (parents' : list Parent) (seen' : gset Z) : Prop :=
  parents' = parents ++ (pbPlacement_of rost <$> N)
  /\ seen' = list_to_set ((fun n => Ident (Meta n)) <$> N) ∪ seen
  /\ NoDup ((fun n => Ident (Meta n)) <$> N)
  /\ (forall n, n ∈ N ->
        (Ident (Meta n) ∉ seen) /\ Get ks (Ident (Meta n)) = Some n
        /\ exists a, roots a /\ ancestor ks a (Ident (Meta n)))
  /\ (forall n b, n ∈ N -> b ∈ Parents n -> b ∈ seen').

(** What a call of [addParents] at depth [d] does, for a range of the
    keyspace and with more depth than there are identifiers not yet seen. *)
Definition call_ok (ks : list Range) (rost : Roster) (d : nat) : Prop :=
  forall r P S,
    Get ks (Ident (Meta r)) = Some r ->
    size ((list_to_set ((fun r => Ident (Meta r)) <$> ks) : gset Z) ∖ S) < d ->
    match addParents d ks rost r P S with
    | Done P' S' =>
        exists N, collected ks rost (eq (Ident (Meta r))) P S N P' S'
                  /\ Ident (Meta r) ∈ S'
                  /\ (Ident (Meta r) ∉ S -> head N = Some r)
    | Panic b =>
        exists a, ancestor ks (Ident (Meta r)) a /\ parent_of ks a b /\ Get ks b = None
    | OutOfFuel => False
    end.

End Util.

(* ----------------------------------------------------------------- *)
(** ** package mock: the actuator of the tests                         *)
(* ----------------------------------------------------------------- *)

Module Mock.
Import Api.

(** The type of the actions is not among the sources: the four constants
    that the package names, and [Other] for any other value of the type. *)
Inductive Action := Give | Serve | Take | Drop | Other (n : nat).

#[global] Instance Action_eq_dec : EqDecision Action.
Proof. solve_decision. Defined.

#[global] Instance Action_countable : Countable Action :=
  inj_countable'
    (fun a => match a with
              | Give => 0 | Serve => 1 | Take => 2 | Drop => 3
              | Other n => 4 + n
              end)%nat
    (fun n => match n with
              | 0 => Give | 1 => Serve | 2 => Take | 3 => Drop
              | S (S (S (S n))) => Other n
              end)%nat
    (fun a => match a with Give | Serve | Take | Drop | Other _ => eq_refl end).

(** [Command]; the identifier of a range is a number here, only its
    equality matters. *)
Record Command := mkCommand {
  rID : Z;
  nID : string;
  act : Action;
}.

#[global] Instance Command_eq_dec : EqDecision Command.
Proof. solve_decision. Defined.

#[global] Instance Command_countable : Countable Command :=
  inj_countable' (fun c => (rID c, nID c, act c))
                 (fun t => mkCommand t.1.1 t.1.2 t.2)
                 (fun c => match c with mkCommand _ _ _ => eq_refl end).

Record Inject := mkInject {
  success : bool;
  ns : RemoteState;
}.

(** The actuator.  The map holds pointers to hooks; a pointer is an index
    into [hooks], where the hooks live. *)
Record Actuator := mkActuator {
  injects : gmap Command nat;
  hooks : list Inject;
  strict : bool;
  commands : list Command;
  unexpected : list Command;
}.

Inductive error :=
| ErrNoHook (c : Command)
| ErrInjected.

(** [New], [Reset], [Unexpected] *)
Definition New (strict : bool) : Actuator := mkActuator ∅ [] strict [] [].

Definition Reset (a : Actuator) : Actuator :=
  mkActuator (injects a) (hooks a) (strict a) [] [].

Definition Unexpected (a : Actuator) : list Command := unexpected a.

(** [defaults] and [mustDefault]; [None] is the panic for an action that
    has no default. *)
Definition mustDefault (action : Action) : option RemoteState :=
  match action with
  | Give => Some NsInactive
  | Serve => Some NsActive
  | Take => Some NsInactive
  | Drop => Some NsNotFound
  | Other _ => None
  end.

(** [cmd], for the range and the node of the placement it is called with.
    [None] is a panic: that of [mustDefault], or reading through a pointer
    that holds no hook. *)
Definition cmd (a : Actuator) (action : Action) (r : Z) (n : string)
  : option (Actuator * (RemoteState * option error)) :=
  let c := mkCommand r n action in
  let a1 := mkActuator (injects a) (hooks a) (strict a) (commands a ++ [c])
              (unexpected a) in
  match injects a !! c with
  | None =>
      if strict a
      then Some (mkActuator (injects a) (hooks a) (strict a) (commands a ++ [c])
                   (unexpected a ++ [c]),
                 (NsUnknown, Some (ErrNoHook c)))
      else s ← mustDefault action; Some (a1, (s, None))
  | Some ptr =>
      exp ← hooks a !! ptr;
      if success exp then Some (a1, (ns exp, None))
      else Some (a1, (NsUnknown, Some ErrInjected))
  end.

(** [Inject]: a new hook that succeeds with [NsUnknown], and the pointer to
    it. *)
Definition Inject_hook (a : Actuator) (n : string) (r : Z) (action : Action)
  : Actuator * nat :=
  let c := mkCommand r n action in
  (mkActuator (<[c := length (hooks a)]> (injects a))
     (hooks a ++ [mkInject true NsUnknown]) (strict a) (commands a) (unexpected a),
   length (hooks a)).

(** The methods of a hook, through its pointer. *)
Definition on_hook (f : Inject -> Inject) (a : Actuator) (ij : nat) : Actuator :=
  mkActuator (injects a) (alter f ij (hooks a)) (strict a) (commands a)
    (unexpected a).

Definition Success (a : Actuator) (ij : nat) : Actuator :=
  on_hook (fun h => mkInject true (ns h)) a ij.

Definition Failure (a : Actuator) (ij : nat) : Actuator :=
  on_hook (fun h => mkInject false (ns h)) a ij.

Definition Response (a : Actuator) (ij : nat) (s : RemoteState) : Actuator :=
  on_hook (fun h => mkInject (success h) s) a ij.

(** [Unject]: the map is walked in some order, and the first entry that
    holds the pointer is deleted; [None] is the panic when there is none. *)
Definition Unject (a : Actuator) (ij : nat) : option Actuator :=
  match filter (fun kv => kv.2 = ij) (map_to_list (injects a)) with
  | (k, _) :: _ =>
      Some (mkActuator (delete k (injects a)) (hooks a) (strict a) (commands a)
              (unexpected a))
  | [] => None
  end.

(** Commands one after the other. *)
Fixpoint cmds (a : Actuator) (l : list Command) : option Actuator :=
  match l with
  | [] => Some a
  | c :: rest => '(a', _) ← cmd a (act c) (rID c) (nID c); cmds a' rest
  end.

(** Each pointer of the map points at a hook. *)
Definition hooked (a : Actuator) : Prop :=
  forall c p, injects a !! c = Some p -> (p < length (hooks a))%nat.

(** No two commands share a hook. *)
Definition unshared (a : Actuator) : Prop :=
  forall c1 c2 p,
    injects a !! c1 = Some p -> injects a !! c2 = Some p -> c1 = c2.

(** What a test does with an actuator, and a run of such steps. *)
Inductive op :=
| DoInject (n : string) (r : Z) (action : Action)
| DoUnject (ij : nat)
| DoSuccess (ij : nat)
| DoFailure (ij : nat)
| DoResponse (ij : nat) (s : RemoteState)
| DoCmd (action : Action) (r : Z) (n : string)
| DoReset.

Definition do (a : Actuator) (o : op) : option Actuator :=
  match o with
  | DoInject n r action => Some (Inject_hook a n r action).1
  | DoUnject ij => Unject a ij
  | DoSuccess ij => Some (Success a ij)
  | DoFailure ij => Some (Failure a ij)
  | DoResponse ij s => Some (Response a ij s)
  | DoCmd action r n => fst <$> cmd a action r n
  | DoReset => Some (Reset a)
  end.

Fixpoint run (a : Actuator) (l : list op) : option Actuator :=
  match l with
  | [] => Some a
  | o :: rest => a' ← do a o; run a' rest
  end.

(** The commands that [cmd] answers without a panic: those with a hook,
    any in strict mode, and else those whose action has a default. *)
Definition answered (a : Actuator) (c : Command) : Prop :=
  injects a !! c = None -> strict a = false -> is_Some (mustDefault (act c)).

(** The commands of a list that have no hook. *)
Definition unhooked (a : Actuator) (l : list Command) : list Command :=
  filter (fun c => injects a !! c = None) l.

End Mock.

(* ----------------------------------------------------------------- *)
(** ** Catalogs, stores and probes of the examples                     *)
(* ----------------------------------------------------------------- *)

(** The keyspace of one range over all keys, ready, held by [aaa] and being
    handed to [bbb], whose placement is still pending. *)
Definition moving_range : Ranje.Range :=
  {| Ranje.meta := {| Ranje.MetaIdent := Ranje.mkIdent "" 1;
                      Ranje.Start := Ranje.ZeroKey; Ranje.End := Ranje.ZeroKey |};
     Ranje.state := Ranje.Ready; Ranje.parents := []; Ranje.children := [];
     Ranje.placements := [Durable.mkDurablePlacement "aaa" Durable.SpReady;
                          Durable.mkDurablePlacement "bbb" Durable.SpPending] |}.

Definition store_ok : Ranje.Range -> option string := fun _ => None.

(** Two adjacent ready ranges, and a store that takes range 1 and refuses
    range 2. *)
Definition left_range : Ranje.Range :=
  {| Ranje.meta := {| Ranje.MetaIdent := Ranje.mkIdent "" 1;
                      Ranje.Start := Ranje.ZeroKey; Ranje.End := "ggg" |};
     Ranje.state := Ranje.Ready; Ranje.parents := []; Ranje.children := [];
     Ranje.placements := [Durable.mkDurablePlacement "aaa" Durable.SpReady] |}.

Definition right_range : Ranje.Range :=
  {| Ranje.meta := {| Ranje.MetaIdent := Ranje.mkIdent "" 2;
                      Ranje.Start := "ggg"; Ranje.End := Ranje.ZeroKey |};
     Ranje.state := Ranje.Ready; Ranje.parents := []; Ranje.children := [];
     Ranje.placements := [Durable.mkDurablePlacement "bbb" Durable.SpReady] |}.

Definition store_refusing_2 : Ranje.Range -> option string :=
  fun r => if bool_decide (Ranje.IdentKey (Ranje.MetaIdent (Ranje.meta r)) = 2%Z)
           then Some "store unavailable" else None.

(** The keyspace after one split: range 1, subsuming, with the children 2
    and 3, each of which names 1 as its parent. *)
Definition after_split : list Catalog.Range :=
  [ {| Catalog.Meta := Api.mkMeta 1 "" ""; Catalog.State := Api.RsSubsuming;
       Catalog.Parents := []; Catalog.Children := [2%Z; 3%Z];
       Catalog.Placements :=
         [Catalog.bare_placement "aaa" Api.PsActive Api.PsActive] |};
    {| Catalog.Meta := Api.mkMeta 2 "" "ccc"; Catalog.State := Api.RsActive;
       Catalog.Parents := [1%Z]; Catalog.Children := [];
       Catalog.Placements :=
         [Catalog.bare_placement "aaa" Api.PsPending Api.PsPending] |};
    {| Catalog.Meta := Api.mkMeta 3 "ccc" ""; Catalog.State := Api.RsActive;
       Catalog.Parents := [1%Z]; Catalog.Children := [];
       Catalog.Placements :=
         [Catalog.bare_placement "aaa" Api.PsPending Api.PsPending] |} ].

(** A node that is to hold the current placement of range 1, ready, and the
    next placement of range 2, still pending; the placements live at the
    addresses 0 and 1.  The node is probed and reports range 1 as ready:
    range 2 has not been conveyed to it yet. *)
Definition held_by_aaa : string -> list Reconciler.PBNID :=
  fun _ => [Reconciler.mkPBNID 1 0 0; Reconciler.mkPBNID 2 1 1].

Definition probe_of_aaa : Reconciler.NodeInfo :=
  Reconciler.mkNodeInfo "aaa" false [Reconciler.mkRangeInfo 1 Reconciler.StateReady].

(** The catalog of one range that covers every key, and the roster of two
    nodes with what they report. *)
Definition one_range (ps : list Catalog.Placement) : list Catalog.Range :=
  [Orchestrator.with_Placements (Orchestrator.new_range 1 "" "" []) ps].

Definition two_nodes (aaa bbb : gmap Z Api.RemoteState)
  : gmap string Orchestrator.Node :=
  <["aaa" := Orchestrator.mkNode aaa false]>
    (<["bbb" := Orchestrator.mkNode bbb false]> ∅).

(** A placement on [nID] that replaces the one on [src], in a state and
    with a desired state. *)
Definition placed (nID src : string) (cur des : Api.PlacementState)
  : Catalog.Placement :=
  Orchestrator.set_desired
    (Orchestrator.set_current (Orchestrator.new_placement nID src) cur) des.

(** A cluster that has just been started: the range has no placement yet,
    and the nodes hold nothing. *)
Definition fresh_cluster : Orchestrator.World :=
  Orchestrator.mkWorld (one_range []) (two_nodes ∅ ∅) [] ∅ [] [].

(** The operator has asked for the join of two ranges that do not exist,
    and waits on channel 5; and the same cluster one tick later. *)
Definition join_refused : Orchestrator.World :=
  Orchestrator.mkWorld (one_range []) (two_nodes ∅ ∅) [] ∅
    [Orchestrator.mkOpJoin 7 8 "" (Some 5%nat)] [].

Definition join_refused_ticked : Orchestrator.World :=
  Orchestrator.mkWorld
    (one_range [placed "aaa" "" Api.PsPending Api.PsInactive]) (two_nodes ∅ ∅) [] ∅ []
    [Orchestrator.EnterJoin 7 8;
     Orchestrator.Send 5 (Orchestrator.ErrJoinLeft 7); Orchestrator.Close 5;
     Orchestrator.EnterRange 1; Orchestrator.Wanted 1 "aaa" Api.PsInactive].

(** A roster of three nodes with what they report. *)
Definition three_nodes (aaa bbb ccc : gmap Z Api.RemoteState)
  : gmap string Orchestrator.Node :=
  <["aaa" := Orchestrator.mkNode aaa false]>
    (<["bbb" := Orchestrator.mkNode bbb false]>
       (<["ccc" := Orchestrator.mkNode ccc false]> ∅)).

(** The join of the orchestrator's tests: the ranges 1 and 2 meet at [ggg]
    and are active on [aaa] and [bbb].  The operator has asked for their
    join on [ccc] and waits on channel 4; and for the join of two ranges
    that do not exist, waiting on channel 5. *)
Definition two_ranges (p1 p2 : list Catalog.Placement) : list Catalog.Range :=
  [Orchestrator.with_Placements (Orchestrator.new_range 1 "" "ggg" []) p1;
   Orchestrator.with_Placements (Orchestrator.new_range 2 "ggg" "" []) p2].

Definition joins_requested : Orchestrator.World :=
  Orchestrator.mkWorld
    (two_ranges [placed "aaa" "" Api.PsActive Api.PsActive]
                [placed "bbb" "" Api.PsActive Api.PsActive])
    (three_nodes {[1%Z := Api.NsActive]} {[2%Z := Api.NsActive]} ∅)
    [] ∅
    [Orchestrator.mkOpJoin 1 2 "ccc" (Some 4%nat);
     Orchestrator.mkOpJoin 7 8 "" (Some 5%nat)] [].

(** The same cluster one tick later: the ranges 1 and 2 are subsuming, the
    range 3 that joins them has a placement on [ccc], and that placement has
    been told to prepare. *)
Definition joins_ticked : Orchestrator.World :=
  Orchestrator.mkWorld
    [ {| Catalog.Meta := Api.mkMeta 1 "" "ggg"; Catalog.State := Api.RsSubsuming;
         Catalog.Parents := []; Catalog.Children := [3%Z];
         Catalog.Placements := [placed "aaa" "" Api.PsActive Api.PsActive] |};
      {| Catalog.Meta := Api.mkMeta 2 "ggg" ""; Catalog.State := Api.RsSubsuming;
         Catalog.Parents := []; Catalog.Children := [3%Z];
         Catalog.Placements := [placed "bbb" "" Api.PsActive Api.PsActive] |};
      {| Catalog.Meta := Api.mkMeta 3 "" ""; Catalog.State := Api.RsActive;
         Catalog.Parents := [1%Z; 2%Z]; Catalog.Children := [];
         Catalog.Placements := [placed "ccc" "" Api.PsPending Api.PsInactive] |} ]
    (three_nodes {[1%Z := Api.NsActive]} {[2%Z := Api.NsActive]} ∅)
    [] ∅ []
    [Orchestrator.EnterJoin 1 2; Orchestrator.CloseOnReady 4 3 "ccc";
     Orchestrator.EnterJoin 7 8;
     Orchestrator.Send 5 (Orchestrator.ErrJoinLeft 7); Orchestrator.Close 5;
     Orchestrator.EnterRange 1; Orchestrator.EnterRange 2; Orchestrator.EnterRange 3;
     Orchestrator.Wanted 3 "ccc" Api.PsInactive].

(** The range is placed on [aaa] and a move to [bbb] is asked for.  Node
    [aaa] reports the range as activating and then as active; node [bbb]
    reports it as prepared and then as active, which it has not been told
    to be. *)
Definition premature_reports : list Modelled.input :=
  [ Modelled.DoTick;
    Modelled.Observe "aaa" 1 Api.NsInactive;
    Modelled.DoTick;
    Modelled.Move (Orchestrator.mkOpMove 1 "aaa" "bbb" None);
    Modelled.Observe "aaa" 1 Api.NsActivating;
    Modelled.DoTick;
    Modelled.Observe "bbb" 1 Api.NsInactive;
    Modelled.DoTick;
    Modelled.Observe "aaa" 1 Api.NsActive;
    Modelled.Observe "bbb" 1 Api.NsActive;
    Modelled.DoTick ].


(** The range of a fresh cluster is placed on [aaa] and then moved to
    [bbb], every node response being let in only when it is due. *)
Definition handing_over : list Modelled.input :=
  [ Modelled.DoTick;
    Modelled.Observe "aaa" 1 Api.NsInactive;
    Modelled.DoTick;
    Modelled.DoTick;
    Modelled.Observe "aaa" 1 Api.NsActivating;
    Modelled.DoTick;
    Modelled.Observe "aaa" 1 Api.NsActive;
    Modelled.DoTick;
    Modelled.Move (Orchestrator.mkOpMove 1 "aaa" "bbb" None);
    Modelled.DoTick;
    Modelled.Observe "bbb" 1 Api.NsInactive;
    Modelled.DoTick;
    Modelled.DoTick;
    Modelled.Observe "aaa" 1 Api.NsInactive;
    Modelled.DoTick;
    Modelled.DoTick;
    Modelled.Observe "bbb" 1 Api.NsActive;
    Modelled.DoTick ].

(** Range 1 is active on [aaa].  It is split at [ccc]; the left half is
    active on [bbb], the right half still activating on [ccc], when the left
    half is split again at [bbb].  Every node response is one that its node
    has been told to give. *)
Definition range_on_aaa : Orchestrator.World :=
  Orchestrator.mkWorld (one_range [placed "aaa" "" Api.PsActive Api.PsActive])
    (three_nodes {[1%Z := Api.NsActive]} ∅ ∅) [] ∅ [] [].

Definition second_split_early : list Modelled.input :=
  [ Modelled.SplitAt (Orchestrator.mkOpSplit 1 "ccc" "bbb" "ccc" None);
    Modelled.DoTick;
    Modelled.DoTick;
    Modelled.Observe "bbb" 2 Api.NsInactive;
    Modelled.Observe "ccc" 3 Api.NsInactive;
    Modelled.DoTick;
    Modelled.DoTick;
    Modelled.Observe "aaa" 1 Api.NsInactive;
    Modelled.DoTick;
    Modelled.DoTick;
    Modelled.Observe "bbb" 2 Api.NsActive;
    Modelled.Observe "ccc" 3 Api.NsActivating;
    Modelled.DoTick;
    Modelled.SplitAt (Orchestrator.mkOpSplit 2 "bbb" "aaa" "aaa" None);
    Modelled.DoTick;
    Modelled.DoTick;
    Modelled.Observe "aaa" 4 Api.NsInactive;
    Modelled.Observe "aaa" 5 Api.NsInactive;
    Modelled.DoTick;
    Modelled.DoTick;
    Modelled.Observe "bbb" 2 Api.NsInactive;
    Modelled.DoTick;
    Modelled.DoTick;
    Modelled.Observe "aaa" 4 Api.NsActive;
    Modelled.Observe "bbb" 2 Api.NsActive;
    Modelled.DoTick ].


(** A move from [aaa] to [bbb] under way: the placement on [aaa] is active,
    its replacement on [bbb] is prepared; and the same one tick later, the
    placement on [aaa] having been told to deactivate. *)
Definition move_under_way (des : Api.PlacementState) (tr : list Orchestrator.Event)
  : Orchestrator.World :=
  Orchestrator.mkWorld
    (one_range [placed "aaa" "" Api.PsActive des;
                placed "bbb" "aaa" Api.PsInactive Api.PsInactive])
    (two_nodes {[1%Z := Api.NsActive]} {[1%Z := Api.NsInactive]}) [] ∅ [] tr.

(** Range 1 is active on [aaa], and the operator has asked for it to be
    moved to [bbb]. *)
Definition move_requested : Orchestrator.World :=
  Orchestrator.mkWorld
    (one_range [placed "aaa" "" Api.PsActive Api.PsActive])
    (two_nodes {[1%Z := Api.NsActive]} ∅)
    [Orchestrator.mkOpMove 1 "" "bbb" None] ∅ [] [].

(** The destination of the move reports the range active while the source
    is still active. *)
Definition destination_reports_active : list Modelled.input :=
  [ Modelled.DoTick;
    Modelled.Observe "bbb" 1 Api.NsActive;
    Modelled.DoTick ].

(** A split of range 1 at [ccc] in flight.  The children 2 and 3 have been
    prepared on [bbb] and [ccc]. *)
Definition the_split : Orchestrator.Operation :=
  Orchestrator.mkOperation [1%Z] [2%Z; 3%Z].

Definition left_child : Catalog.Range :=
  {| Catalog.Meta := Api.mkMeta 2 "" "ccc"; Catalog.State := Api.RsActive;
     Catalog.Parents := [1%Z]; Catalog.Children := [];
     Catalog.Placements :=
       [Catalog.bare_placement "bbb" Api.PsInactive Api.PsInactive] |}.

Definition split_world (parent : Api.PlacementState)
  (aaa bbb : Api.RemoteState) : Orchestrator.World :=
  Orchestrator.mkWorld
    [ {| Catalog.Meta := Api.mkMeta 1 "" ""; Catalog.State := Api.RsSubsuming;
         Catalog.Parents := []; Catalog.Children := [2%Z; 3%Z];
         Catalog.Placements := [Catalog.bare_placement "aaa" parent parent] |};
      left_child;
      {| Catalog.Meta := Api.mkMeta 3 "ccc" ""; Catalog.State := Api.RsActive;
         Catalog.Parents := [1%Z]; Catalog.Children := [];
         Catalog.Placements :=
           [Catalog.bare_placement "ccc" Api.PsInactive Api.PsInactive] |} ]
    (<["aaa" := Orchestrator.mkNode (<[1%Z := aaa]> ∅) false]>
       (<["bbb" := Orchestrator.mkNode (<[2%Z := bbb]> ∅) false]>
          (<["ccc" := Orchestrator.mkNode (<[3%Z := Api.NsInactive]> ∅) false]> ∅)))
    [] ∅ [] [].

(** The parent has been deactivated; the node of the left child reports the
    range inactive. *)
Definition parent_inactive : Orchestrator.World :=
  split_world Api.PsInactive Api.NsInactive Api.NsInactive.

(** The parent is still active, and the node of the left child reports the
    range as activating. *)
Definition parent_active : Orchestrator.World :=
  split_world Api.PsActive Api.NsActive Api.NsActivating.

(** The world in which the placement of the left child has been told to
    activate. *)
Definition left_child_wanted (w : Orchestrator.World) : Orchestrator.World :=
  Orchestrator.Want w 1 0 Api.PsActive.

(** Range 1 is being moved from [aaa] to [bbb] when both nodes are lost. *)
Definition lost_nodes : Orchestrator.World :=
  Orchestrator.mkWorld
    [ {| Catalog.Meta := Api.mkMeta 1 "" ""; Catalog.State := Api.RsActive;
         Catalog.Parents := []; Catalog.Children := [];
         Catalog.Placements :=
           [Catalog.bare_placement "aaa" Api.PsActive Api.PsActive;
            Orchestrator.new_placement "bbb" "aaa"] |} ]
    ∅ [] ∅ [] [].

Definition placements_of (w : option Orchestrator.World)
  : option (list (list (string * Api.PlacementState))) :=
  (fun w => (fun r => (fun p => (Catalog.NodeID p, Catalog.StateCurrent p))
                        <$> Catalog.Placements r) <$> Orchestrator.ks w) <$> w.

(** The same range two ticks later: both placements are dropped. *)
Definition both_dropped : Orchestrator.World :=
  Orchestrator.mkWorld
    [ {| Catalog.Meta := Api.mkMeta 1 "" ""; Catalog.State := Api.RsActive;
         Catalog.Parents := []; Catalog.Children := [];
         Catalog.Placements :=
           [Catalog.bare_placement "aaa" Api.PsDropped Api.PsActive;
            Orchestrator.set_current (Orchestrator.new_placement "bbb" "aaa")
              Api.PsDropped] |} ]
    ∅ [] ∅ [] [Orchestrator.EnterRange 1; Orchestrator.EnterRange 1].

(** Range 1 is active on [aaa], and the operator has asked for it to be
    split at [ccc] and waits on channel 9; and the two ranges of the join
    above, with the one request to join them on [ccc]. *)
Definition split_requested : Orchestrator.World :=
  Orchestrator.mkWorld
    (one_range [placed "aaa" "" Api.PsActive Api.PsActive])
    (three_nodes {[1%Z := Api.NsActive]} ∅ ∅)
    [] {[1%Z := Orchestrator.mkOpSplit 1 "ccc" "" "" (Some 9%nat)]} [] [].

Definition join_requested : Orchestrator.World :=
  Orchestrator.mkWorld
    (two_ranges [placed "aaa" "" Api.PsActive Api.PsActive]
                [placed "bbb" "" Api.PsActive Api.PsActive])
    (three_nodes {[1%Z := Api.NsActive]} {[2%Z := Api.NsActive]} ∅)
    [] ∅ [Orchestrator.mkOpJoin 1 2 "ccc" (Some 9%nat)] [].

(* ----------------------------------------------------------------- *)
(** ** package orchestrator: the helpers of its tests, and three tests *)
(* ----------------------------------------------------------------- *)

Module OrchestratorTest.
Import Api Catalog Orchestrator.

(** [orch.ks.LogString()] and [orch.rost.TestString()] are not among the
    sources.  The strings they are compared with in the tests show what
    they print: of a range its identifier, its bounds and its state, and of
    each of its placements the node, the state and the node it is
    replacing; of a node the ranges it reports, each with its state. *)
Definition LogString (w : World)
  : list (Api.Meta * RangeState * list (Api.NodeID * PlacementState * Api.NodeID)) :=
  (fun r => (Meta r, State r,
             (fun p => (NodeID p, StateCurrent p, IsReplacing p)) <$> Placements r))
    <$> ks w.

Definition TestString (w : World) : gmap string (gmap Z RemoteState) :=
  node_ranges <$> rost w.

Section Run.
(** The limit of the actuator for [Drop], and the hooks injected into the
    mock actuator: what the nodes answer. *)
Variable dropLimit : option nat.

(** [tickWait]: the record of the mock actuator is emptied, the
    orchestrator ticks, then the actuator; [None] is a panic of the tick.
    The commands are those of this tick. *)
Definition tickWait (respond : Actuator.Respond) (w : World)
  : option (World * list Actuator.Command) :=
  w1 ← Orchestrator.Tick Modelled.MinPlacements Modelled.Candidate
         Modelled.MayActivate Modelled.MayDeactivate Modelled.MayDrop Modelled.Put
         Modelled.SplitCheck Modelled.JoinCheck Modelled.Operations
         Modelled.Complete w;
  Some (Actuator.Tick dropLimit respond w1).

(** How a helper ends: it returns, it fails the test ([t.Fatal]), or a tick
    has panicked. *)
Inductive outcome :=
| Returns (w : World)
| Fatal
| Panics.

(** [tickUntilStable].  [left] counts the turns of the loop that are left
    before [ticks] is over 50; [ksPrev] is [None] for the empty string it
    starts with. *)
Fixpoint tickUntilStable_loop (left : nat) (respond : Actuator.Respond) (w : World)
  (ksPrev : option (list (Api.Meta * RangeState
                          * list (Api.NodeID * PlacementState * Api.NodeID))))
  (stable : nat) : outcome :=
  match left with
  | O => Fatal
  | S left' =>
      match tickWait respond w with
      | None => Panics
      | Some (w1, cmds) =>
          let ks := LogString w1 in
          let changed := bool_decide (Some ks <> ksPrev) || bool_decide (cmds <> []) in
          let ksPrev1 := if changed then Some ks else ksPrev in
          let stable1 := if changed then 0%nat else S stable in
          if bool_decide (2 <= stable1)%nat then Returns w1
          else tickUntilStable_loop left' respond w1 ksPrev1 stable1
      end
  end.

Definition tickUntilStable (respond : Actuator.Respond) (w : World) : outcome :=
  tickUntilStable_loop 51 respond w None 0.

(** [tickUntil] *)
Fixpoint tickUntil_loop (left : nat) (respond : Actuator.Respond) (w : World)
  (callback : World -> bool) : outcome :=
  match left with
  | O => Fatal
  | S left' =>
      match tickWait respond w with
      | None => Panics
      | Some (w1, _) =>
          if callback w1 then Returns w1
          else tickUntil_loop left' respond w1 callback
      end
  end.

Definition tickUntil (respond : Actuator.Respond) (w : World)
  (callback : World -> bool) : outcome :=
  tickUntil_loop 51 respond w callback.

(** The keyspace and the roster have the printed form given. *)
Definition printed
  (ks : list (Api.Meta * RangeState * list (Api.NodeID * PlacementState * Api.NodeID)))
  (ro : gmap string (gmap Z RemoteState)) (w : World) : bool :=
  bool_decide (LogString w = ks) && bool_decide (TestString w = ro).

(** [mustGetPlacement] followed by [p.Failed(action)]. *)
Definition placement_Failed (w : World) (rID : RangeID) (nID : Api.NodeID)
  (a : Action) : bool :=
  match GetRange w rID with
  | Some ri =>
      match r ← ks w !! ri;
            head (filter (fun p => NodeID p = nID) (Placements r)) with
      | Some p => Failed p a
      | None => false
      end
  | None => false
  end.

(** A run of [tickWait]s, each followed by what the test requires of the
    commands, the keyspace and the roster; [None] when a requirement is not
    met. *)
Fixpoint expect (respond : Actuator.Respond) (w : World)
  (script : list (list Actuator.Command
                  * list (Api.Meta * RangeState
                          * list (Api.NodeID * PlacementState * Api.NodeID))
                  * gmap string (gmap Z RemoteState)))
  : option World :=
  match script with
  | [] => Some w
  | (cmds, ks, ro) :: rest =>
      '(w1, sent) ← tickWait respond w;
      if bool_decide (sent = cmds) && printed ks ro w1
      then expect respond w1 rest
      else None
  end.

(** [requireStable]: two more ticks print the same keyspace and roster. *)
Definition requireStable (respond : Actuator.Respond) (w : World) : bool :=
  match tickWait respond w with
  | Some (w1, _) =>
      printed (LogString w) (TestString w) w1
      && match tickWait respond w1 with
         | Some (w2, _) => printed (LogString w) (TestString w) w2
         | None => false
         end
  | None => false
  end.

(** [TestMoveFailure_PrepareDropRange]: whether the test passes.  Its
    [Take] is the action [Deactivate]. *)
Definition TestMoveFailure_PrepareDropRange : bool :=
  let respond := Actuator.failing Deactivate "aaa" in
  let ro (bbb : gmap Z RemoteState) : gmap string (gmap Z RemoteState) :=
    {["aaa" := {[1%Z := NsActive]}; "bbb" := bbb]} in
  let both (s : PlacementState) :=
    [(mkMeta 1 "" "", RsActive, [("aaa", PsActive, ""); ("bbb", s, "aaa")])] in
  let take := ([Actuator.mkCommand Deactivate 1 "aaa"], both PsInactive,
               ro {[1%Z := NsInactive]}) in
  match expect respond move_requested
          [ ([Actuator.mkCommand Prepare 1 "bbb"], both PsPending,
             ro {[1%Z := NsInactive]});
            ([], both PsInactive, ro {[1%Z := NsInactive]});
            take; take; take ] with
  | Some w1 =>
      placement_Failed w1 1 "aaa" Deactivate
      && match expect respond w1
                 [ ([Actuator.mkCommand Drop 1 "bbb"], both PsInactive, ro ∅);
                   ([], both PsDropped, ro ∅);
                   ([], [(mkMeta 1 "" "", RsActive, [("aaa", PsActive, "")])], ro ∅) ]
         with
         | Some w2 => requireStable respond w2
         | None => false
         end
  | None => false
  end.

(** [TestMoveFailure_DropRange]: whether the test passes.  The hook that
    fails the drop is set to succeed before the last part. *)
Definition TestMoveFailure_DropRange : bool :=
  let ks := [(mkMeta 1 "" "", RsActive,
              [("aaa", PsInactive, ""); ("bbb", PsActive, "aaa")])] in
  let ro : gmap string (gmap Z RemoteState) :=
    {["aaa" := {[1%Z := NsInactive]}; "bbb" := {[1%Z := NsActive]}]} in
  match tickUntil (Actuator.failing Drop "aaa") move_requested (printed ks ro) with
  | Returns w1 =>
      match expect (Actuator.failing Drop "aaa") w1
              (replicate 5 ([Actuator.mkCommand Drop 1 "aaa"], ks, ro)) with
      | Some w2 =>
          match tickUntilStable Actuator.always_ok w2 with
          | Returns w3 =>
              printed [(mkMeta 1 "" "", RsActive, [("bbb", PsActive, "")])]
                {["aaa" := ∅; "bbb" := {[1%Z := NsActive]}]} w3
          | _ => false
          end
      | None => false
      end
  | _ => false
  end.

(** [TestSplitFailure_DropRange_Short] *)
Definition TestSplitFailure_DropRange_Short : bool :=
  match tickUntilStable (Actuator.failing Drop "aaa") split_requested with
  | Returns w =>
      printed [(mkMeta 1 "" "", RsSubsuming, [("aaa", PsInactive, "")]);
               (mkMeta 2 "" "ccc", RsActive, [("bbb", PsActive, "")]);
               (mkMeta 3 "ccc" "", RsActive, [("bbb", PsActive, "")])]
        {["aaa" := {[1%Z := NsInactive]};
          "bbb" := {[2%Z := NsActive; 3%Z := NsActive]}; "ccc" := ∅]} w
      && placement_Failed w 1 "aaa" Drop
  | _ => false
  end.

(** [TestJoinFailure_DropRange_Short] *)
Definition TestJoinFailure_DropRange_Short : bool :=
  match tickUntilStable (Actuator.failing Drop "aaa") join_requested with
  | Returns w =>
      printed [(mkMeta 1 "" "ggg", RsSubsuming, [("aaa", PsInactive, "")]);
               (mkMeta 2 "ggg" "", RsSubsuming, []);
               (mkMeta 3 "" "", RsActive, [("ccc", PsActive, "")])]
        {["aaa" := {[1%Z := NsInactive]}; "bbb" := ∅;
          "ccc" := {[3%Z := NsActive]}]} w
      && placement_Failed w 1 "aaa" Drop
  | _ => false
  end.

End Run.

End OrchestratorTest.

(** *** The key-value node *)

(** A node with one empty range that is ready. *)
Definition one_ready_range : Node.Node :=
  Node.mkNode {[ "r" := Node.mkRangeData ∅ Node.StateReady ]} [Node.mkRangeMeta "r" "" ""].

(** Requests to a new node: two ranges are given, the second with the first
    as its parent. *)
Definition some_requests : list Node.request :=
  [ Node.ReqGive (Node.mkGiveRequest (Some (Node.mkPbRangeMeta (Some ("", 1%Z)) "" "m")) []) [];
    Node.ReqPut "a" (Some "1");
    Node.ReqGive (Node.mkGiveRequest (Some (Node.mkPbRangeMeta (Some ("", 2%Z)) "m" ""))
               [Node.mkPbPlacement (Some (Node.mkPbRangeMeta (Some ("", 1%Z)) "" "m")) "host:1"])
            [(0%nat, Node.Dumps [("a", "1"); ("x", "2")])];
    Node.ReqTake (Some ("", 1%Z));
    Node.ReqGet "a";
    Node.ReqInfo;
    Node.ReqDrop (Some ("", 1%Z)) false;
    Node.ReqServe (Some ("", 2%Z)) false;
    Node.ReqPut "z" None ].

(** A node whose one range has been taken. *)
Definition one_taken_range : Node.Node :=
  Node.mkNode {[ "r" +:+ Node.zeros 31 +:+ Node.PutUint64 0
            := Node.mkRangeData {[ "k" := "v" ]} Node.StateTaken ]}
         [Node.mkRangeMeta ("r" +:+ Node.zeros 31 +:+ Node.PutUint64 0) "" ""].

(** *** The keyspace after a split *)

(** A heap in which the range at 0 is obsolete, with the two ranges it was
    split into. *)
Definition split_done : list Ranje.Range :=
  [Ranje.mkRange (Ranje.mkMeta (Ranje.mkIdent "" 1) "" "") Ranje.Obsolete
     [] [1; 2]%nat [];
   Ranje.mkRange (Ranje.mkMeta (Ranje.mkIdent "" 2) "" "m") Ranje.Ready
     [0%nat] [] [];
   Ranje.mkRange (Ranje.mkMeta (Ranje.mkIdent "" 3) "m" "") Ranje.Ready
     [0%nat] [] []].

(** *** The SQL persister *)

(** The keyspace after a split as the package's test writes it: the link is
    recorded at the parent only. *)
Definition split_by_children : list Catalog.Range :=
  [ {| Catalog.Meta := Api.mkMeta 1 "" ""; Catalog.State := Api.RsSubsuming;
       Catalog.Parents := []; Catalog.Children := [2%Z; 3%Z];
       Catalog.Placements :=
         [Catalog.bare_placement "aaa" Api.PsActive Api.PsActive] |};
    {| Catalog.Meta := Api.mkMeta 2 "" "ccc"; Catalog.State := Api.RsActive;
       Catalog.Parents := []; Catalog.Children := [];
       Catalog.Placements :=
         [Catalog.bare_placement "aaa" Api.PsPending Api.PsPending] |};
    {| Catalog.Meta := Api.mkMeta 3 "ccc" ""; Catalog.State := Api.RsActive;
       Catalog.Parents := []; Catalog.Children := [];
       Catalog.Placements :=
         [Catalog.bare_placement "bbb" Api.PsPending Api.PsPending] |} ].

(** *** Moves and drains *)

(** Range 1 is active on [aaa]; the operator has asked for it to be moved
    away from [zzz], where it is not, and waits on channel 3. *)
Definition move_from_elsewhere : Orchestrator.World :=
  Orchestrator.mkWorld
    (one_range [placed "aaa" "" Api.PsActive Api.PsActive])
    (two_nodes {[1%Z := Api.NsActive]} ∅)
    [Orchestrator.mkOpMove 1 "zzz" "bbb" (Some 3%nat)] ∅ [] [].

(** Range 1 is active on [aaa], which wants to be drained. *)
Definition draining : Orchestrator.World :=
  Orchestrator.mkWorld
    (one_range [placed "aaa" "" Api.PsActive Api.PsActive])
    (<["aaa" := Orchestrator.mkNode {[1%Z := Api.NsActive]} true]> ∅)
    [] ∅ [] [].

(** *** Parents *)

(** Ranges 1 and 2 have been joined into 3, which has been split into 4
    and 5. *)
Definition joined_then_split : list Catalog.Range :=
  [ Orchestrator.new_range 1 "" "m" [];
    Orchestrator.new_range 2 "m" "" [];
    Orchestrator.new_range 3 "" "" [1%Z; 2%Z];
    Orchestrator.new_range 4 "" "g" [3%Z];
    Orchestrator.new_range 5 "g" "" [3%Z] ].

(* ================================================================= *)
(** * Part II: theorems                                                *)
(* ================================================================= *)

(* ----------------------------------------------------------------- *)
(** ** The durable placement                                           *)
(* ----------------------------------------------------------------- *)

Section DurableFacts.
Import Durable.
Variable Put : DurablePlacement -> option string.

(** A rejected transition never reaches the store and leaves the placement
    as it was. *)
Lemma ToState_rejected_unchanged p new p' old' new' :
  ToState Put p new = Returned p' (Some (ErrInvalidTransition old' new')) ->
  p' = p.
Proof.
  unfold ToState. repeat case_decide; try discriminate.
  destruct p as [n s]; simpl.
  destruct s, new; simpl; intros Hr; try discriminate Hr;
    try (inversion Hr; reflexivity);
    try (destruct (Put _); discriminate Hr).
Qed.

(** When the write fails the [State] field is put back and an error is
    returned. *)
Lemma ToState_put_failure_restores_State p new p' cause :
  ToState Put p new = Returned p' (Some (ErrPersisting cause)) ->
  State p' = State p.
Proof.
  unfold ToState. repeat case_decide; try discriminate.
  destruct (transition p (State p) new) as [p1 [|]|]; try discriminate.
  destruct (Put _); try discriminate.
  intros Hr; inversion Hr; reflexivity.
Qed.

(** Apart from the step from [SpTaken] into [SpDropped], a call that reports
    an error leaves the whole placement as it was. *)
Lemma ToState_error_unchanged_unless_dropping p new p' e :
  ToState Put p new = Returned p' (Some e) ->
  ~ (State p = SpTaken /\ new = SpDropped) ->
  p' = p.
Proof.
  unfold ToState. repeat case_decide; try (intros Hr; inversion Hr; reflexivity).
  destruct p as [n s]; simpl in *.
  destruct s, new; simpl; intros Hr Hn;
    try (inversion Hr; reflexivity);
    try discriminate Hr;
    try (destruct (Put _); inversion Hr; reflexivity).
  exfalso; apply Hn; split; reflexivity.
Qed.

End DurableFacts.

(** C7 (failing input).  A placement on node [aaa] in [SpTaken] is asked to
    enter [SpDropped] while the store refuses the write.  The call reports
    the persistence error and restores the state, but the node id, cleared
    before the write was attempted, stays empty: the placement in memory is
    not what it was before the call. *)
Theorem ToState_failed_drop_loses_NodeID :
  let Put := fun _ : Durable.DurablePlacement => Some "store unavailable" in
  let p := Durable.mkDurablePlacement "aaa" Durable.SpTaken in
  Durable.ToState Put p Durable.SpDropped
    = Durable.Returned (Durable.mkDurablePlacement "" Durable.SpTaken)
        (Some (Durable.ErrPersisting "store unavailable"))
  /\ Durable.after (Durable.ToState Put p Durable.SpDropped) <> p.
Proof.
  split; [reflexivity | discriminate].
Qed.

(* ----------------------------------------------------------------- *)
(** ** The keyspace: split                                             *)
(* ----------------------------------------------------------------- *)

Section ListFacts.
Context {A : Type}.

Lemma alter_at_end (f : A -> A) (l : list A) (x : A) :
  alter f (length l) (l ++ [x]) = l ++ [f x].
Proof.
  rewrite alter_app_r_alt by lia. rewrite Nat.sub_diag. reflexivity.
Qed.

Lemma alter_insert_same (f : A -> A) (l : list A) (i : nat) (x : A) :
  alter f i (<[i := x]> l) = <[i := f x]> l.
Proof.
  revert i; induction l as [|y l IH]; intros [|i]; simpl; try reflexivity.
  f_equal. apply IH.
Qed.

Lemma alter_insert_other (f : A -> A) (l : list A) (i j : nat) (x : A) :
  i <> j -> alter f i (<[j := x]> l) = <[j := x]> (alter f i l).
Proof.
  revert i j; induction l as [|y l IH]; intros [|i] [|j] Hne; simpl;
    try reflexivity; try congruence.
  f_equal. apply IH. congruence.
Qed.

End ListFacts.

Lemma ltb_irrefl (a : string) : String.ltb a a = false.
Proof.
  unfold String.ltb.
  pose proof (String.compare_antisym a a) as E.
  destruct (String.compare a a); simpl in E; try discriminate E; reflexivity.
Qed.

Lemma leb_ne_ltb (a b : string) :
  String.leb a b = true -> a <> b -> String.ltb a b = true.
Proof.
  unfold String.leb, String.ltb.
  destruct (String.compare a b) eqn:E; intros Hle Hne; try reflexivity.
  - apply String.compare_eq_iff in E. contradiction.
  - discriminate.
Qed.

Lemma ltb_leb (a b : string) : String.ltb a b = true -> String.leb a b = true.
Proof.
  unfold String.leb, String.ltb. destruct (String.compare a b); congruence.
Qed.

Lemma ltb_ne (a b : string) : String.ltb a b = true -> a <> b.
Proof. intros H Heq. subst b. rewrite ltb_irrefl in H. discriminate. Qed.

Section SplitFacts.
Import Ranje.
Variable Put : Range -> option string.
Variable zeroState : StateLocal.

(** The key tests of [DoSplit], taken together, say that the key lies
    strictly inside the range. *)
Lemma split_key_tests r k :
  k <> ZeroKey ->
  (Contains r k = true /\ k <> Start (meta r)) <-> strictly_inside r k.
Proof.
  intros Hk. unfold Contains, strictly_inside, key_lt.
  rewrite andb_true_iff, !orb_true_iff, !bool_decide_eq_true.
  split.
  - intros [[Hs He] Hne]. split; [|exact He].
    destruct Hs as [Hs|Hs]; [left; exact Hs|right].
    apply leb_ne_ltb; [exact Hs|congruence].
  - intros [Hs He]. split; [split; [|exact He]|].
    + destruct Hs as [Hs|Hs]; [left; exact Hs|right; apply ltb_leb, Hs].
    + destruct Hs as [Hs|Hs]; [unfold ZeroKey in *; congruence|].
      intros Heq. apply ltb_ne in Hs. congruence.
Qed.

Lemma DoSplit_success m ks rp k r :
  m !! rp = Some r ->
  split_pre Put r k ->
  DoSplit (Range_ToState Put) zeroState m ks rp k
    = Some (split_result zeroState m ks rp r k, Ok ()).
Proof.
  intros Hr (Hk & Hst & Hch & Hin & Hput).
  apply split_key_tests in Hin as [Hc Hne]; [|exact Hk].
  unfold DoSplit. rewrite Hr. simpl.
  rewrite bool_decide_eq_false_2 by exact Hk.
  rewrite bool_decide_eq_false_2 by (intros Hx; apply Hx, Hst).
  rewrite Hch. simpl.
  rewrite Hc. simpl.
  rewrite bool_decide_eq_false_2 by exact Hne.
  unfold Range_ToState. rewrite Hst. simpl. rewrite Hput.
  unfold NewRange, split_result, append_range. simpl.
  assert (Hlt : (rp < length m)%nat) by (eapply lookup_lt_Some; exact Hr).
  set (m1 := <[rp := with_state r Splitting]> m).
  assert (Hl1 : length m1 = length m) by apply length_insert.
  rewrite (alter_at_end _ m1).
  match goal with |- context [alter _ (length ?l) (?l ++ [_])] => set (m3 := l) end.
  rewrite (alter_at_end _ m3).
  assert (Hl3 : length m3 = S (length m))
    by (subst m3; rewrite length_app, Hl1; simpl; lia).
  rewrite Hl3, Hl1. subst m3.
  rewrite alter_app_l by (rewrite length_app, Hl1; simpl; lia).
  rewrite alter_app_l by (rewrite Hl1; lia).
  subst m1. rewrite alter_insert_same.
  rewrite <- !app_assoc. reflexivity.
Qed.

Lemma DoSplit_failure m ks rp k r :
  m !! rp = Some r ->
  ~ split_pre Put r k ->
  exists e, DoSplit (Range_ToState Put) zeroState m ks rp k = Some (m, ks, Err e).
Proof.
  intros Hr Hn. unfold DoSplit. rewrite Hr. simpl.
  case_bool_decide as Hk; [eauto|].
  case_bool_decide as Hst; [eauto|].
  case_bool_decide as Hch; [eauto|].
  destruct (Contains r k) eqn:Hc; simpl; [|eauto].
  case_bool_decide as Hne; [eauto|].
  assert (Hst' : state r = Ready) by (destruct (decide (state r = Ready)); [assumption|contradiction]).
  assert (Hch' : children r = []) by (destruct (children r); [reflexivity|simpl in Hch; lia]).
  unfold Range_ToState. rewrite Hst'. simpl.
  destruct (Put (with_state r Splitting)) eqn:Hput.
  - rewrite list_insert_id by exact Hr. eauto.
  - exfalso. apply Hn. repeat split; try assumption;
      apply (split_key_tests r k Hk); split; assumption.
Qed.

#[local] Instance split_pre_dec r k : Decision (split_pre Put r k).
Proof. unfold split_pre, strictly_inside, key_lt. apply _. Defined.

Lemma DoSplit_success_inv m ks rp k r m' ks' :
  m !! rp = Some r ->
  DoSplit (Range_ToState Put) zeroState m ks rp k = Some (m', ks', Ok ()) ->
  split_pre Put r k.
Proof.
  intros Hr Hs. destruct (decide (split_pre Put r k)) as [Hp|Hn]; [exact Hp|].
  destruct (DoSplit_failure m ks rp k r Hr Hn) as [e He].
  rewrite He in Hs. discriminate.
Qed.

End SplitFacts.

(** C4 (as amended).  [DoSplit] on the range [r] at address [rp] succeeds
    exactly when the key is not the zero key, [r] is [Ready], has no
    children, the key lies strictly between its bounds, and the store takes
    the new state; the placements of [r] are not looked at.  On success the
    parent is [Splitting] and has exactly two children, new ranges at the end
    of the keyspace with the intervals [start, k) and [k, end) and the
    parent as their only parent.  On failure heap and keyspace are what they
    were. *)
Theorem DoSplit_contract (Put : Ranje.Range -> option string)
  (zeroState : Ranje.StateLocal) (m : list Ranje.Range) (ks : Ranje.Keyspace)
  (rp : nat) (k : Ranje.Key) (r : Ranje.Range) :
  m !! rp = Some r ->
  (Ranje.split_pre Put r k ->
     Ranje.DoSplit (Ranje.Range_ToState Put) zeroState m ks rp k
       = Some (Ranje.split_result zeroState m ks rp r k, Ranje.Ok ()))
  /\ (forall m' ks',
        Ranje.DoSplit (Ranje.Range_ToState Put) zeroState m ks rp k
          = Some (m', ks', Ranje.Ok ()) ->
        Ranje.split_pre Put r k)
  /\ (~ Ranje.split_pre Put r k ->
      exists e, Ranje.DoSplit (Ranje.Range_ToState Put) zeroState m ks rp k
                  = Some (m, ks, Ranje.Err e)).
Proof.
  intros Hr. split; [|split].
  - apply DoSplit_success, Hr.
  - intros m' ks'. apply DoSplit_success_inv, Hr.
  - apply DoSplit_failure, Hr.
Qed.

Lemma moving_range_split :
  Ranje.DoSplit (Ranje.Range_ToState store_ok) Ranje.Pending [moving_range]
    (Ranje.mkKeyspace [0%nat] 2) 0 "ccc"
  = Some (Ranje.split_result Ranje.Pending [moving_range]
            (Ranje.mkKeyspace [0%nat] 2) 0 moving_range "ccc", Ranje.Ok ()).
Proof. reflexivity. Qed.

Lemma DoSplit_contract_witness :
  Ranje.DoSplit (Ranje.Range_ToState store_ok) Ranje.Pending [moving_range]
    (Ranje.mkKeyspace [0%nat] 2) 0 "ccc"
  = Some (Ranje.split_result Ranje.Pending [moving_range]
            (Ranje.mkKeyspace [0%nat] 2) 0 moving_range "ccc", Ranje.Ok ()).
Proof.
  apply (DoSplit_contract store_ok Ranje.Pending [moving_range]
           (Ranje.mkKeyspace [0%nat] 2) 0%nat "ccc" moving_range).
  - reflexivity.
  - unfold Ranje.split_pre, Ranje.strictly_inside. simpl.
    repeat split; try reflexivity; try (left; reflexivity). discriminate.
Defined.

(** C4 (counterexample).  The split is not held back by the placements: the
    range above is split although one of its two placements is pending. *)
Lemma DoSplit_ignores_placements :
  ~ (forall (Put : Ranje.Range -> option string) zeroState m ks rp k r m' ks',
       m !! rp = Some r ->
       Ranje.DoSplit (Ranje.Range_ToState Put) zeroState m ks rp k
         = Some (m', ks', Ranje.Ok ()) ->
       Ranje.state r = Ranje.Ready
       /\ Forall (fun p => Durable.State p = Durable.SpReady) (Ranje.placements r)
       /\ Ranje.strictly_inside r k).
Proof.
  intros H.
  destruct (H store_ok Ranje.Pending [moving_range] (Ranje.mkKeyspace [0%nat] 2)
              0%nat "ccc" moving_range _ _ eq_refl moving_range_split)
    as (_ & Hall & _).
  apply Forall_cons in Hall as [_ Hall].
  apply Forall_cons in Hall as [Hb _].
  discriminate Hb.
Qed.

(* ----------------------------------------------------------------- *)
(** ** The keyspace: join                                              *)
(* ----------------------------------------------------------------- *)

Section JoinFacts.
Import Ranje.
Variable Put : Range -> option string.
Variable zeroState : StateLocal.

Lemma join_checks_pass m one two r1 r2 :
  m !! one = Some r1 -> m !! two = Some r2 ->
  state r1 = Ready -> children r1 = [] ->
  state r2 = Ready -> children r2 = [] ->
  join_checks m [one; two] = Some None.
Proof.
  intros H1 H2 S1 C1 S2 C2. simpl. rewrite H1, H2. simpl.
  rewrite !bool_decide_eq_false_2; try reflexivity;
    rewrite ?C1, ?C2; simpl; try lia; intros Hx; apply Hx; assumption.
Qed.

(** Joining two different ranges that meet the conditions. *)
Lemma JoinTwo_success m ks one two r1 r2 :
  one <> two ->
  m !! one = Some r1 -> m !! two = Some r2 ->
  join_pre Put r1 r2 ->
  JoinTwo (Range_ToState Put) zeroState m ks one two
    = Some (join_result zeroState m ks one two r1 r2, Ok (length m)).
Proof.
  intros Hne H1 H2 (S1 & C1 & S2 & C2 & Hadj & P1 & P2).
  assert (L1 : (one < length m)%nat) by (eapply lookup_lt_Some; exact H1).
  assert (L2 : (two < length m)%nat) by (eapply lookup_lt_Some; exact H2).
  unfold JoinTwo.
  rewrite (join_checks_pass m one two r1 r2) by assumption. simpl.
  rewrite H1, H2. simpl.
  rewrite bool_decide_eq_false_2 by (intros Hx; apply Hx, Hadj).
  unfold Range_ToState at 1. rewrite S1. simpl. rewrite P1.
  rewrite list_lookup_insert_ne by exact Hne. rewrite H2. simpl.
  unfold Range_ToState at 1. rewrite S2. simpl. rewrite P2. simpl.
  set (m1 := <[two := with_state r2 Joining]> (<[one := with_state r1 Joining]> m)).
  assert (Hl : length m1 = length m) by (subst m1; rewrite !length_insert; reflexivity).
  assert (Ho1 : m1 !! one = Some (with_state r1 Joining)).
  { subst m1. rewrite list_lookup_insert_ne by congruence.
    apply list_lookup_insert_eq. exact L1. }
  assert (Ho2 : m1 !! two = Some (with_state r2 Joining)).
  { subst m1. apply list_lookup_insert_eq. rewrite length_insert. exact L2. }
  rewrite Ho1, Ho2. simpl.
  unfold NewRange, join_result, append_range. simpl.
  rewrite (alter_at_end _ m1). rewrite Hl.
  rewrite (alter_app_l _ m1) by (rewrite Hl; exact L1).
  rewrite alter_app_l by (rewrite length_alter, Hl; exact L2).
  do 3 f_equal.
  subst m1. f_equal.
  rewrite (alter_insert_other _ _ one two) by exact Hne.
  rewrite alter_insert_same.
  rewrite alter_insert_same.
  reflexivity.
Qed.

(** The checks that come before any change: when one of them fails nothing
    has been touched. *)
Lemma JoinTwo_rejected_before_change m ks one two r1 r2 :
  m !! one = Some r1 -> m !! two = Some r2 ->
  ~ (state r1 = Ready /\ children r1 = [] /\ state r2 = Ready /\ children r2 = []
     /\ End (meta r1) = Start (meta r2)) ->
  exists e, JoinTwo (Range_ToState Put) zeroState m ks one two = Some (m, ks, Err e).
Proof.
  intros H1 H2 Hn. unfold JoinTwo.
  assert (N1 : forall r, state r = Ready -> bool_decide (state r <> Ready) = false)
    by (intros r Hs; apply bool_decide_eq_false_2; intros Hx; apply Hx, Hs).
  assert (N2 : forall r, children r = [] ->
                 bool_decide (0 < length (children r))%nat = false)
    by (intros r Hc; rewrite Hc; reflexivity).
  assert (N3 : forall r, children r <> [] ->
                 bool_decide (0 < length (children r))%nat = true)
    by (intros r Hc; apply bool_decide_eq_true_2;
        destruct (children r); [congruence|simpl; lia]).
  destruct (decide (state r1 = Ready)) as [S1|S1];
    [|simpl; rewrite H1; simpl;
      rewrite (bool_decide_eq_true_2 (state r1 <> Ready) S1); simpl; eauto].
  destruct (decide (children r1 = [])) as [C1|C1];
    [|simpl; rewrite H1; simpl; rewrite (N1 r1 S1), (N3 r1 C1); simpl; eauto].
  destruct (decide (state r2 = Ready)) as [S2|S2];
    [|simpl; rewrite H1, H2; simpl; rewrite (N1 r1 S1), (N2 r1 C1);
      rewrite (bool_decide_eq_true_2 (state r2 <> Ready) S2); simpl; eauto].
  destruct (decide (children r2 = [])) as [C2|C2];
    [|simpl; rewrite H1, H2; simpl;
      rewrite (N1 r1 S1), (N2 r1 C1), (N1 r2 S2), (N3 r2 C2); simpl; eauto].
  rewrite (join_checks_pass m one two r1 r2) by assumption. simpl.
  rewrite H1, H2. simpl.
  destruct (decide (End (meta r1) = Start (meta r2))) as [Hadj|Hadj].
  - exfalso. apply Hn. repeat split; assumption.
  - rewrite (bool_decide_eq_true_2 _ Hadj). eauto.
Qed.

(** The store refuses the first range: nothing has been touched. *)
Lemma JoinTwo_first_write_fails m ks one two r1 r2 cause :
  m !! one = Some r1 -> m !! two = Some r2 ->
  state r1 = Ready -> children r1 = [] ->
  state r2 = Ready -> children r2 = [] ->
  End (meta r1) = Start (meta r2) ->
  Put (with_state r1 Joining) = Some cause ->
  JoinTwo (Range_ToState Put) zeroState m ks one two
    = Some (m, ks, Err (ErrPersistingRange cause)).
Proof.
  intros H1 H2 S1 C1 S2 C2 Hadj P1. unfold JoinTwo.
  rewrite (join_checks_pass m one two r1 r2) by assumption. simpl.
  rewrite H1, H2. simpl.
  rewrite bool_decide_eq_false_2 by (intros Hx; apply Hx, Hadj).
  unfold Range_ToState at 1. rewrite S1. simpl. rewrite P1. simpl.
  rewrite list_insert_id by exact H1. reflexivity.
Qed.

(** The store takes the first range and refuses the second: the call fails,
    and the first range stays [Joining]. *)
Lemma JoinTwo_second_write_fails m ks one two r1 r2 cause :
  one <> two ->
  m !! one = Some r1 -> m !! two = Some r2 ->
  state r1 = Ready -> children r1 = [] ->
  state r2 = Ready -> children r2 = [] ->
  End (meta r1) = Start (meta r2) ->
  Put (with_state r1 Joining) = None ->
  Put (with_state r2 Joining) = Some cause ->
  JoinTwo (Range_ToState Put) zeroState m ks one two
    = Some (<[one := with_state r1 Joining]> m, ks, Err (ErrPersistingRange cause)).
Proof.
  intros Hne H1 H2 S1 C1 S2 C2 Hadj P1 P2. unfold JoinTwo.
  rewrite (join_checks_pass m one two r1 r2) by assumption. simpl.
  rewrite H1, H2. simpl.
  rewrite bool_decide_eq_false_2 by (intros Hx; apply Hx, Hadj).
  unfold Range_ToState at 1. rewrite S1. simpl. rewrite P1.
  rewrite list_lookup_insert_ne by exact Hne. rewrite H2. simpl.
  unfold Range_ToState at 1. rewrite S2. simpl. rewrite P2. simpl.
  rewrite (list_insert_id (<[one:=with_state r1 Joining]> m) two r2)
    by (rewrite list_lookup_insert_ne by exact Hne; exact H2).
  reflexivity.
Qed.

End JoinFacts.

(** C5 (failing input).  Joining ranges 1 and 2 while the store refuses the
    second write: [JoinTwo] returns the error, no range has been added, and
    range 1, [Ready] before the call, is [Joining] after it. *)
Theorem JoinTwo_failure_leaves_first_Joining :
  let m := [left_range; right_range] in
  let ks := Ranje.mkKeyspace [0%nat; 1%nat] 3 in
  Ranje.JoinTwo (Ranje.Range_ToState store_refusing_2) Ranje.Pending m ks 0 1
    = Some ([Ranje.with_state left_range Ranje.Joining; right_range], ks,
            Ranje.Err (Ranje.ErrPersistingRange "store unavailable"))
  /\ Ranje.state_at m 0 = Some Ranje.Ready
  /\ (forall m' ks' e,
        Ranje.JoinTwo (Ranje.Range_ToState store_refusing_2) Ranje.Pending m ks 0 1
          = Some (m', ks', Ranje.Err e) ->
        Ranje.state_at m' 0 = Some Ranje.Joining).
Proof.
  repeat split. intros m' ks' e H. vm_compute in H. inversion H. reflexivity.
Qed.

(** The same loss without any failing store: the one range that covers all
    keys ends where it starts, so it passes for adjacent to itself; the first
    pass of the loop takes it to [Joining] and the second pass, on the same
    range, is turned down. *)
Lemma JoinTwo_with_itself :
  let whole :=
    {| Ranje.meta := {| Ranje.MetaIdent := Ranje.mkIdent "" 1;
                        Ranje.Start := Ranje.ZeroKey; Ranje.End := Ranje.ZeroKey |};
       Ranje.state := Ranje.Ready; Ranje.parents := []; Ranje.children := [];
       Ranje.placements := [] |} in
  Ranje.JoinTwo (Ranje.Range_ToState store_ok) Ranje.Pending [whole]
    (Ranje.mkKeyspace [0%nat] 2) 0 0
  = Some ([Ranje.with_state whole Ranje.Joining], Ranje.mkKeyspace [0%nat] 2,
          Ranje.Err (Ranje.ErrInvalidRangeTransition Ranje.Joining Ranje.Joining)).
Proof. reflexivity. Qed.

(* ----------------------------------------------------------------- *)
(** ** The SQL persister                                               *)
(* ----------------------------------------------------------------- *)

Section SqlFacts.
Import Api Catalog Sql.

Lemma insertChild_inr db p c db' :
  insertChild db p c = inr db' ->
  child_table db' = child_table db ++ [(p, c)] /\ (p, c) ∉ child_table db.
Proof.
  unfold insertChild. case_bool_decide as Hin; intros H; inversion H; subst.
  split; [reflexivity|exact Hin].
Qed.

Lemma each_insertChild_acc {A : Type} (g : A -> Z * Z) (l : list A) :
  forall db db' base acc,
    child_table db = base ++ acc -> NoDup acc ->
    each (fun tx x => insertChild tx (fst (g x)) (snd (g x))) db l = inr db' ->
    child_table db' = base ++ acc ++ (g <$> l) /\ NoDup (acc ++ (g <$> l)).
Proof.
  induction l as [|x l IH]; intros db db' base acc Hrows Hnd Hrun; simpl in *.
  - inversion Hrun; subst. rewrite app_nil_r. split; assumption.
  - destruct (insertChild db (fst (g x)) (snd (g x))) as [e|db1] eqn:Hins;
      [discriminate|].
    apply insertChild_inr in Hins as [Hrows1 Hfresh].
    rewrite <- surjective_pairing in Hrows1, Hfresh.
    destruct (IH db1 db' base (acc ++ [g x])) as [Hr Hn].
    + rewrite Hrows1, Hrows, <- app_assoc. reflexivity.
    + apply NoDup_app. split; [exact Hnd|]. split; [|apply NoDup_singleton].
      intros y Hy Hy1. apply list_elem_of_singleton in Hy1. subst y.
      apply Hfresh. rewrite Hrows. apply elem_of_app. right. exact Hy.
    + exact Hrun.
    + rewrite <- !app_assoc in Hr, Hn. simpl in Hr, Hn. split; assumption.
Qed.

Lemma each_insertPlacement_child {A : Type} (g : A -> PlacementRow) (l : list A) :
  forall db db',
    each (fun tx x => insertPlacement tx (g x)) db l = inr db' ->
    child_table db' = child_table db.
Proof.
  induction l as [|x l IH]; intros db db' Hrun; simpl in *.
  - inversion Hrun; reflexivity.
  - destruct (insertPlacement db (g x)) as [e|db1] eqn:Hins; [discriminate|].
    rewrite (IH db1 db' Hrun).
    unfold insertPlacement in Hins. case_bool_decide; inversion Hins; reflexivity.
Qed.

Lemma put_range_acc r db db' base acc :
  child_table db = base ++ acc -> NoDup acc ->
  put_range db r = inr db' ->
  child_table db' = base ++ acc ++ links r /\ NoDup (acc ++ links r).
Proof.
  intros Hrows Hnd. unfold put_range.
  destruct (insertRange _ _) as [e|tx1] eqn:H1; [discriminate|].
  assert (Hc1 : child_table tx1 = child_table db)
    by (unfold insertRange in H1; case_bool_decide; inversion H1; reflexivity).
  destruct (each _ tx1 (Parents r)) as [e|tx2] eqn:H2; [discriminate|].
  destruct (each _ tx2 (Children r)) as [e|tx3] eqn:H3; [discriminate|].
  intros H4.
  apply (each_insertChild_acc (fun p => (p, Ident (Meta r))) (Parents r)
           tx1 tx2 base acc) in H2 as [Hr2 Hn2];
    [|rewrite Hc1; exact Hrows|exact Hnd].
  apply (each_insertChild_acc (fun c => (Ident (Meta r), c)) (Children r)
           tx2 tx3 base (acc ++ ((fun p => (p, Ident (Meta r))) <$> Parents r)))
    in H3 as [Hr3 Hn3];
    [|rewrite Hr2; reflexivity|exact Hn2].
  apply each_insertPlacement_child in H4. rewrite H4.
  unfold links. rewrite <- !app_assoc in Hr3, Hn3. split; assumption.
Qed.

Lemma each_put_range_acc rs :
  forall db db' base acc,
    child_table db = base ++ acc -> NoDup acc ->
    each put_range db rs = inr db' ->
    child_table db' = base ++ acc ++ concat (links <$> rs)
    /\ NoDup (acc ++ concat (links <$> rs)).
Proof.
  induction rs as [|r rs IH]; intros db db' base acc Hrows Hnd Hrun; simpl in *.
  - inversion Hrun; subst. rewrite app_nil_r. split; assumption.
  - destruct (put_range db r) as [e|db1] eqn:Hp; [discriminate|].
    apply (put_range_acc r db db1 base acc Hrows Hnd) in Hp as [Hr1 Hn1].
    destruct (IH db1 db' base (acc ++ links r)) as [Hr Hn];
      [rewrite Hr1; reflexivity|exact Hn1|exact Hrun|].
    rewrite <- !app_assoc in Hr, Hn. split; assumption.
Qed.

(** After a successful [PutRanges] no link row has been written twice. *)
Lemma PutRanges_links_NoDup db rs db' :
  PutRanges db rs = (db', None) -> NoDup (concat (links <$> rs)).
Proof.
  unfold PutRanges. destruct (each put_range db rs) as [e|tx] eqn:Hrun;
    intros H; inversion H; subst.
  destruct (each_put_range_acc rs db db' (child_table db) []) as [_ Hn];
    [rewrite app_nil_r; reflexivity|apply NoDup_nil_2|exact Hrun|].
  exact Hn.
Qed.

Lemma NoDup_concat_disjoint {A B : Type} (f : A -> list B) (l : list A) a b x :
  NoDup (concat (f <$> l)) -> a ∈ l -> b ∈ l -> a <> b ->
  x ∈ f a -> x ∈ f b -> False.
Proof.
  induction l as [|y l IH]; intros Hnd Ha Hb Hne Hxa Hxb.
  - apply not_elem_of_nil in Ha. exact Ha.
  - simpl in Hnd. apply NoDup_app in Hnd as (Hy & Hdisj & Hrest).
    assert (Hin : forall c, c ∈ l -> x ∈ f c -> x ∈ concat (f <$> l)).
    { clear. induction l as [|z l IHl]; intros c Hc Hx.
      - apply not_elem_of_nil in Hc. contradiction.
      - simpl. apply elem_of_app.
        apply elem_of_cons in Hc as [->|Hc]; [left; exact Hx|right; eapply IHl; eauto]. }
    apply elem_of_cons in Ha as [->|Ha]; apply elem_of_cons in Hb as [->|Hb].
    + congruence.
    + apply (Hdisj x Hxa). apply (Hin b Hb Hxb).
    + apply (Hdisj x Hxb). apply (Hin a Ha Hxa).
    + apply IH; assumption.
Qed.

(** A link that is recorded at both of its ends, as a child of the parent
    and as a parent of the child, is inserted twice, and the second insert
    violates the primary key of the link table: [PutRanges] fails and
    nothing is written. *)
Lemma PutRanges_two_sided_link_fails db rs rp rc :
  rp ∈ rs -> rc ∈ rs ->
  Ident (Meta rc) ∈ Children rp ->
  Ident (Meta rp) ∈ Parents rc ->
  exists e, PutRanges db rs = (db, Some e).
Proof.
  intros Hp Hc Hchild Hparent.
  destruct (PutRanges db rs) as [db' [e|]] eqn:Hput.
  - unfold PutRanges in Hput. destruct (each put_range db rs); inversion Hput; subst.
    eauto.
  - exfalso. apply PutRanges_links_NoDup in Hput.
    set (x := (Ident (Meta rp), Ident (Meta rc))).
    assert (Hxp : x ∈ (fun c => (Ident (Meta rp), c)) <$> Children rp)
      by (apply list_elem_of_fmap; exists (Ident (Meta rc)); split; [reflexivity|exact Hchild]).
    assert (Hxc : x ∈ (fun p => (p, Ident (Meta rc))) <$> Parents rc)
      by (apply list_elem_of_fmap; exists (Ident (Meta rp)); split; [reflexivity|exact Hparent]).
    destruct (decide (rp = rc)) as [->|Hne].
    + assert (Hl : NoDup (links rc)).
      { clear -Hput Hc. induction rs as [|y l IH].
        - apply not_elem_of_nil in Hc. contradiction.
        - simpl in Hput. apply NoDup_app in Hput as (Hy & _ & Hrest).
          apply elem_of_cons in Hc as [->|Hc]; [exact Hy|apply IH; assumption]. }
      unfold links in Hl. apply NoDup_app in Hl as (_ & Hdisj & _).
      apply (Hdisj x Hxc Hxp).
    + apply (NoDup_concat_disjoint links rs rp rc x Hput Hp Hc Hne);
        unfold links; apply elem_of_app; [right|left]; assumption.
Qed.

End SqlFacts.

(** C6 (failing input).  Persisting the keyspace after a split into a fresh
    database fails on the link from 1 to 2, which range 1 has written as its
    child and range 2 writes again as its parent; the transaction is rolled
    back and loading returns no range at all. *)
Theorem PutRanges_after_split_fails :
  Sql.PutRanges Sql.empty_db after_split
    = (Sql.empty_db, Some (Sql.UniqueChild 1 2))
  /\ Sql.reload after_split = ([], Some (Sql.UniqueChild 1 2))
  /\ fst (Sql.reload after_split) <> after_split.
Proof.
  split; [reflexivity|]. split; [reflexivity|]. discriminate.
Qed.

(** One range without links or placements survives the round trip, as the
    package's own test expects; persisting it a second time into the same
    database does not, the statements being plain inserts. *)
Lemma PutRanges_single_range :
  let r := {| Catalog.Meta := Api.mkMeta 1234 "" ""; Catalog.State := Api.RsActive;
              Catalog.Parents := []; Catalog.Children := [];
              Catalog.Placements := [] |} in
  Sql.reload [r] = ([r], None)
  /\ snd (Sql.PutRanges (fst (Sql.PutRanges Sql.empty_db [r])) [r])
       = Some (Sql.UniqueRange 1234).
Proof. split; reflexivity. Qed.

(* ----------------------------------------------------------------- *)
(** ** The reconciler                                                  *)
(* ----------------------------------------------------------------- *)

Section ReconcilerFacts.
Import Reconciler.
Variable ToStatePlacement : StateRemote -> StatePlacement.
Variable PlacementToState : list StatePlacement -> nat -> StatePlacement -> list StatePlacement.
Variable sem : LoopVar.

(** The decision taken for a pair without a report, on the entry its
    [expected] pointer leads to: that entry's placement goes to [SpGone]
    when the entry is at position 0 and its placement is not pending, and
    nothing is done otherwise. *)
Lemma reconcile_unreported E R pr r ie e st :
  expected pr = Some ie -> actual pr = None ->
  deref sem E ie = Some e -> heap r !! Placement e = Some st ->
  reconcile ToStatePlacement PlacementToState sem E R pr r
  = Some (if decide (Position e = 0%nat /\ st <> SpPending)
          then mkRun (PlacementToState (heap r) (Placement e) SpGone)
                 (calls r ++ [(Placement e, SpGone)])
          else r).
Proof.
  intros He Ha Hd Hh. unfold reconcile. rewrite He, Ha, Hd. simpl.
  case_bool_decide as Hpos.
  - rewrite Hh. simpl. case_bool_decide as Hst.
    + rewrite decide_True by (split; assumption). reflexivity.
    + rewrite decide_False; [reflexivity|]. intros [_ Hx]. contradiction.
  - rewrite decide_False; [reflexivity|]. intros [Hx _]. contradiction.
Qed.

End ReconcilerFacts.

(** C10 (failing input).  With one loop variable for the whole loop, both
    entries of [states] point at the entry of range 2.  The pair of range 1,
    which has a report, then compares the state of range 2's placement with
    the state reported for range 1 and moves the pending, unreported, next
    placement of range 2 to [SpReady]. *)
Theorem nodeInfo_changes_pending_next_placement :
  Reconciler.nodeInfo Reconciler.ToStatePlacement_by_name
    Reconciler.PlacementToState_always held_by_aaa Reconciler.PerLoop
    [Reconciler.SpReady; Reconciler.SpPending] probe_of_aaa
  = Some (Reconciler.mkRun [Reconciler.SpReady; Reconciler.SpReady]
            [(1%nat, Reconciler.SpReady)]).
Proof. vm_compute. reflexivity. Qed.

(** With a variable of its own in each iteration the same probe changes
    nothing. *)
Lemma nodeInfo_per_iteration_leaves_pending :
  Reconciler.nodeInfo Reconciler.ToStatePlacement_by_name
    Reconciler.PlacementToState_always held_by_aaa Reconciler.PerIteration
    [Reconciler.SpReady; Reconciler.SpPending] probe_of_aaa
  = Some (Reconciler.mkRun [Reconciler.SpReady; Reconciler.SpPending] []).
Proof. vm_compute. reflexivity. Qed.

(** A second probe: the node is to hold the current placements of ranges 1
    and 2, both ready, and reports range 2 only.  With one loop variable the
    placement that goes to [SpGone] is the one of range 2, which was
    reported; the missing one of range 1 is left as it is. *)
Lemma nodeInfo_marks_the_reported_placement :
  let held := fun _ : string =>
    [Reconciler.mkPBNID 1 0 0; Reconciler.mkPBNID 2 1 0] in
  let probe := Reconciler.mkNodeInfo "aaa" false
    [Reconciler.mkRangeInfo 2 Reconciler.StateReady] in
  Reconciler.nodeInfo Reconciler.ToStatePlacement_by_name
    Reconciler.PlacementToState_always held Reconciler.PerLoop
    [Reconciler.SpReady; Reconciler.SpReady] probe
  = Some (Reconciler.mkRun [Reconciler.SpReady; Reconciler.SpGone]
            [(1%nat, Reconciler.SpGone)])
  /\ Reconciler.nodeInfo Reconciler.ToStatePlacement_by_name
       Reconciler.PlacementToState_always held Reconciler.PerIteration
       [Reconciler.SpReady; Reconciler.SpReady] probe
     = Some (Reconciler.mkRun [Reconciler.SpGone; Reconciler.SpReady]
               [(0%nat, Reconciler.SpGone)]).
Proof. split; vm_compute; reflexivity. Qed.

(* ----------------------------------------------------------------- *)
(** ** The orchestrator: the placement tick                            *)
(* ----------------------------------------------------------------- *)

Section PlacementTick.
Import Api Catalog Orchestrator.
Variable MayActivate MayDeactivate MayDrop :
  option Operation -> list Range -> Placement -> Range -> bool.
Variable Put : RangeID -> Placement -> bool.

Abbreviation tickPlacement := (tickPlacement MayActivate MayDeactivate MayDrop Put).
Abbreviation tickPlacement_switch :=
  (tickPlacement_switch MayActivate MayDeactivate MayDrop Put).
Abbreviation wanted_by_switch :=
  (wanted_by_switch MayActivate MayDeactivate MayDrop).

Lemma placement_at_on_placement f w ri pi r p :
  ks w !! ri = Some r -> Placements r !! pi = Some p ->
  placement_at (on_placement f w ri pi) ri pi = Some (f (Ident (Meta r)) p).
Proof.
  intros Hr Hp. unfold placement_at, on_placement, with_ks. cbn [ks].
  rewrite list_lookup_alter_eq, Hr. cbn [fmap option_fmap option_map mbind option_bind].
  unfold with_Placements. cbn [Placements Meta].
  rewrite list_lookup_alter_eq, Hp. reflexivity.
Qed.

Lemma placement_at_with_opMoves w ms ri pi :
  placement_at (with_opMoves w ms) ri pi = placement_at w ri pi.
Proof. reflexivity. Qed.

Lemma cleaned_StateCurrent r p : StateCurrent (cleaned r p) = StateCurrent p.
Proof. unfold cleaned. destruct (_ && _); reflexivity. Qed.

Lemma cleaned_StateDesired r p : StateDesired (cleaned r p) = StateDesired p.
Proof. unfold cleaned. destruct (_ && _); reflexivity. Qed.

Lemma cleaned_NodeID r p : NodeID (cleaned r p) = NodeID p.
Proof. unfold cleaned. destruct (_ && _); reflexivity. Qed.


Lemma ks_on_placement f w ri pi r p :
  ks w !! ri = Some r -> Placements r !! pi = Some p ->
  ks (on_placement f w ri pi) = put_placement (ks w) ri pi r (f (Ident (Meta r)) p).
Proof.
  intros Hr Hp. unfold on_placement, put_placement, with_ks. cbn [ks].
  apply list_eq. intros j. destruct (decide (j = ri)) as [->|Hne].
  - rewrite list_lookup_alter_eq, Hr.
    rewrite list_lookup_insert_eq by (eapply lookup_lt_Some, Hr).
    cbn [fmap option_fmap option_map]. f_equal. unfold with_Placements. f_equal.
    apply list_eq. intros i. destruct (decide (i = pi)) as [->|Hni].
    + rewrite list_lookup_alter_eq, Hp.
      rewrite list_lookup_insert_eq by (eapply lookup_lt_Some, Hp). reflexivity.
    + rewrite list_lookup_alter_ne, list_lookup_insert_ne by congruence. reflexivity.
  - rewrite list_lookup_alter_ne, list_lookup_insert_ne by congruence. reflexivity.
Qed.

Lemma put_placement_lookup rs ri pi r q :
  (ri < length rs)%nat ->
  put_placement rs ri pi r q !! ri = Some (with_Placements r (<[pi := q]> (Placements r))).
Proof. intros H. apply list_lookup_insert_eq, H. Qed.

Lemma put_placement_twice rs ri pi r q q' :
  put_placement (put_placement rs ri pi r q) ri pi
    (with_Placements r (<[pi := q]> (Placements r))) q'
  = put_placement rs ri pi r q'.
Proof.
  unfold put_placement. rewrite list_insert_insert_eq. f_equal.
  unfold with_Placements. cbn [Placements Meta State Parents Children].
  f_equal. apply list_insert_insert_eq.
Qed.

(** The world [tickPlacement] hands to its switch: the placement is the
    cleaned one, and nothing else in the catalog, the roster or the trace
    has changed. *)
Lemma head_of_tickPlacement w ri pi r p n :
  ks w !! ri = Some r -> Placements r !! pi = Some p ->
  let w2 := note_drain (clean_annotation w ri pi r) (Ident (Meta r)) p n in
  ks w2 = put_placement (ks w) ri pi r (cleaned r p)
  /\ rost w2 = rost w /\ trace w2 = trace w
  /\ opSplits w2 = opSplits w /\ opJoins w2 = opJoins w.
Proof.
  intros Hr Hp w2.
  assert (Hk : ks w2 = ks (clean_annotation w ri pi r)).
  { subst w2. unfold note_drain. destruct n as [nd|]; [destruct (node_wantDrain nd)|];
      reflexivity. }
  assert (Hrest : rost w2 = rost w /\ trace w2 = trace w
                  /\ opSplits w2 = opSplits w /\ opJoins w2 = opJoins w).
  { subst w2. unfold note_drain. destruct n as [nd|]; [destruct (node_wantDrain nd)|];
      repeat split; reflexivity. }
  split; [|exact Hrest].
  rewrite Hk. unfold clean_annotation.
  apply (ks_on_placement (fun _ => cleaned r) w ri pi r p Hr Hp).
Qed.

Lemma placement_at_put rs ro ms ss js tr ri pi r q p :
  (ri < length rs)%nat -> Placements r !! pi = Some p ->
  placement_at (mkWorld (put_placement rs ri pi r q) ro ms ss js tr) ri pi = Some q.
Proof.
  intros Hri Hp. unfold placement_at. cbn [ks].
  rewrite put_placement_lookup by exact Hri. cbn [mbind option_bind].
  unfold with_Placements. cbn [Placements].
  apply list_lookup_insert_eq. eapply lookup_lt_Some, Hp.
Qed.

Lemma placement_at_ks w ri pi r q p :
  (ri < length (ks w))%nat -> Placements r !! pi = Some p ->
  forall w', ks w' = put_placement (ks w) ri pi r q ->
  placement_at w' ri pi = Some q.
Proof.
  intros Hri Hp w' Hk. unfold placement_at. rewrite Hk.
  rewrite put_placement_lookup by exact Hri. cbn [mbind option_bind].
  unfold with_Placements. cbn [Placements].
  apply list_lookup_insert_eq. eapply lookup_lt_Some, Hp.
Qed.

(** A missing placement becomes dropped on its tick, whether or not its node
    is known to the roster: the transition is written to the catalog, no
    desired state is set, nothing is sent anywhere, and the placement is not
    yet destroyed. *)
Lemma tickPlacement_missing w ri pi op r p :
  ks w !! ri = Some r -> Placements r !! pi = Some p ->
  StateCurrent p = PsMissing ->
  Put (Ident (Meta r)) (set_current (cleaned r p) PsDropped) = true ->
  exists w',
    tickPlacement w ri pi op = Some (w', false)
    /\ placement_at w' ri pi = Some (set_current (cleaned r p) PsDropped)
    /\ trace w' = trace w /\ rost w' = rost w.
Proof.
  intros Hr Hp Hs Hput. unfold Orchestrator.tickPlacement. rewrite Hr. simpl.
  rewrite Hp. simpl. rewrite Hs.
  rewrite (bool_decide_eq_false_2 (PsMissing <> PsMissing)) by (intros Hx; apply Hx; reflexivity).
  rewrite andb_false_r. simpl.
  destruct (head_of_tickPlacement w ri pi r p (rost w !! NodeID p) Hr Hp)
    as (Hk & Hro & Htr & _).
  set (w2 := note_drain _ _ _ _) in *.
  assert (Hri : (ri < length (ks w))%nat) by (eapply lookup_lt_Some, Hr).
  unfold Orchestrator.tickPlacement_switch.
  rewrite cleaned_StateCurrent, Hs.
  eexists. split; [reflexivity|]. split; [|split; assumption].
  unfold PlacementToState.
  rewrite (placement_at_on_placement (place_to_state Put PsDropped) w2 ri pi
             (with_Placements r (<[pi := cleaned r p]> (Placements r))) (cleaned r p)).
  - unfold place_to_state. simpl.
    rewrite cleaned_StateCurrent, Hs. simpl. rewrite Hput. reflexivity.
  - rewrite Hk. apply put_placement_lookup, Hri.
  - simpl. apply list_lookup_insert_eq. eapply lookup_lt_Some, Hp.
Qed.

(** A dropped placement is marked for destruction on its tick. *)
Lemma tickPlacement_dropped w ri pi op r p :
  ks w !! ri = Some r -> Placements r !! pi = Some p ->
  StateCurrent p = PsDropped ->
  exists w', tickPlacement w ri pi op = Some (w', true)
             /\ trace w' = trace w /\ rost w' = rost w.
Proof.
  intros Hr Hp Hs. unfold Orchestrator.tickPlacement. rewrite Hr. simpl.
  rewrite Hp. simpl. rewrite Hs.
  rewrite (bool_decide_eq_false_2 (PsDropped <> PsDropped)) by (intros Hx; apply Hx; reflexivity).
  rewrite andb_false_r. simpl.
  destruct (head_of_tickPlacement w ri pi r p (rost w !! NodeID p) Hr Hp)
    as (Hk & Hro & Htr & _).
  unfold Orchestrator.tickPlacement_switch.
  rewrite cleaned_StateCurrent, Hs.
  eexists. split; [reflexivity|]. split; assumption.
Qed.

(** *** What a tick of a placement adds to the trace *)

Lemma new_events_app w w' es :
  trace w' = trace w ++ es -> new_events w w' = es.
Proof. intros H. unfold new_events. rewrite H. apply drop_app_length. Qed.

Lemma new_events_same w w' : trace w' = trace w -> new_events w w' = [].
Proof. intros H. unfold new_events. rewrite H. apply drop_all. Qed.

Lemma trace_PlacementToState w ri pi new :
  trace (PlacementToState Put w ri pi new) = trace w.
Proof. reflexivity. Qed.

Lemma trace_Want w ri pi s r c :
  ks w !! ri = Some r -> placement_at w ri pi = Some c ->
  trace (Want w ri pi s) = trace w ++ [Wanted (Ident (Meta r)) (NodeID c) s].
Proof. intros Hr Hc. unfold Want. rewrite Hr, Hc. reflexivity. Qed.

Lemma switch_events w ri pi op r c n w' d :
  ks w !! ri = Some r -> placement_at w ri pi = Some c ->
  tickPlacement_switch w ri pi op (Ident (Meta r)) c n = Some (w', d) ->
  new_events w w' = []
  \/ exists s, new_events w w' = [Wanted (Ident (Meta r)) (NodeID c) s]
               /\ wanted_by_switch op w ri pi c
                    (n ≫= fun nd => node_ranges nd !! Ident (Meta r)) s.
Proof.
  intros Hr Hc. unfold Orchestrator.tickPlacement_switch.
  pose proof (fun s => trace_Want w ri pi s r c Hr Hc) as HW.
  destruct (StateCurrent c) eqn:Hs; try discriminate.
  - (* pending *)
    destruct n as [nd|]; [simpl|discriminate].
    destruct (node_ranges nd !! Ident (Meta r)) as [[]|] eqn:Hn; simpl;
      intros H; inversion H; subst; clear H;
      try (left; apply new_events_same; reflexivity);
      right; exists PsInactive;
      (split; [apply new_events_app, HW|apply want_prepare; [exact Hs|tauto]]).
  - (* inactive *)
    destruct n as [nd|]; [simpl|discriminate].
    destruct (node_ranges nd !! Ident (Meta r)) as [[]|] eqn:Hn; simpl.
    all: repeat match goal with
           | |- context [if Failed ?p ?a then _ else _] => destruct (Failed p a)
           | |- context [if gate ?g ?o ?x ?i ?j then _ else _] =>
               destruct (gate g o x i j) eqn:?
           end.
    all: intros H; inversion H; subst; clear H.
    all: try (left; apply new_events_same; reflexivity).
    all: right.
    + exists PsActive. split; [apply new_events_app, HW|].
      apply want_activate; first [assumption|reflexivity].
    + exists PsDropped. split; [apply new_events_app, HW|].
      apply want_drop; first [assumption|reflexivity].
    + exists PsActive. split; [apply new_events_app, HW|].
      apply want_activate_again; first [assumption|reflexivity].
    + exists PsDropped. split; [apply new_events_app, HW|].
      apply want_drop_again; first [assumption|reflexivity].
  - (* active *)
    destruct n as [nd|]; [simpl|discriminate].
    destruct (node_ranges nd !! Ident (Meta r)) as [[]|] eqn:Hn; simpl.
    all: repeat match goal with
           | |- context [if gate ?g ?o ?x ?i ?j then _ else _] =>
               destruct (gate g o x i j) eqn:?
           end.
    all: intros H; inversion H; subst; clear H.
    all: try (left; apply new_events_same; reflexivity).
    all: right; exists PsInactive; (split; [apply new_events_app, HW|]).
    + apply want_deactivate; first [assumption|reflexivity].
    + apply want_deactivate_again; first [assumption|reflexivity].
  - (* missing *)
    intros H; inversion H; subst. left. apply new_events_same. reflexivity.
  - (* dropped *)
    intros H; inversion H; subst. left. apply new_events_same. reflexivity.
Qed.

(** The same for [tickPlacement]: whatever it writes as a desired state, it
    writes for the reasons listed, the gates being asked about the catalog
    in which the placement has been cleaned. *)
Lemma tickPlacement_events w ri pi op r p w' d :
  ks w !! ri = Some r -> Placements r !! pi = Some p ->
  tickPlacement w ri pi op = Some (w', d) ->
  new_events w w' = []
  \/ exists s w2,
       new_events w w' = [Wanted (Ident (Meta r)) (NodeID p) s]
       /\ ks w2 = put_placement (ks w) ri pi r (cleaned r p)
       /\ wanted_by_switch op w2 ri pi (cleaned r p)
            (remote (rost w) (NodeID p) (Ident (Meta r))) s.
Proof.
  intros Hr Hp. unfold Orchestrator.tickPlacement. rewrite Hr. simpl.
  rewrite Hp. simpl.
  destruct (_ && _ && _).
  - intros H; inversion H; subst. left. apply new_events_same. reflexivity.
  - destruct (head_of_tickPlacement w ri pi r p (rost w !! NodeID p) Hr Hp)
      as (Hk & Hro & Htr & _).
    set (w2 := note_drain _ _ _ _) in *.
    assert (Hri : (ri < length (ks w))%nat) by (eapply lookup_lt_Some, Hr).
    intros H.
    assert (Hr2 : ks w2 !! ri
                  = Some (with_Placements r (<[pi := cleaned r p]> (Placements r))))
      by (rewrite Hk; apply put_placement_lookup, Hri).
    assert (Hc2 : placement_at w2 ri pi = Some (cleaned r p))
      by (eapply placement_at_ks; eassumption).
    destruct (switch_events w2 ri pi op _ (cleaned r p) _ w' d Hr2 Hc2 H)
      as [He|(s & He & Hw)].
    + left. unfold new_events in *. rewrite <- Htr. exact He.
    + right. exists s, w2. split; [|split; [exact Hk|]].
      * unfold new_events in *. rewrite <- Htr, He.
        unfold with_Placements. simpl. rewrite cleaned_NodeID. reflexivity.
      * unfold remote. exact Hw.
Qed.

End PlacementTick.

(* ----------------------------------------------------------------- *)
(** ** The orchestrator: destroying placements                         *)
(* ----------------------------------------------------------------- *)

(** One index is removed as intended. *)
Lemma destroy_all_one (i : nat) (ps : list Catalog.Placement) :
  (i < length ps)%nat ->
  Orchestrator.destroy_all [i] ps = Some (delete i ps).
Proof.
  intros Hi. simpl. unfold Orchestrator.remove_at.
  rewrite bool_decide_eq_true_2 by exact Hi. simpl. f_equal.
  revert i Hi. induction ps as [|p ps IH]; intros [|i] Hi; simpl in *;
    try lia; try reflexivity.
  f_equal. apply IH. lia.
Qed.

(** Two indices: the second is used on the slice the first removal has left,
    where everything behind the first index has moved down by one. *)
Lemma destroy_all_two (p0 p1 p2 : Catalog.Placement) :
  Orchestrator.destroy_all [0; 1]%nat [p0; p1] = None
  /\ Orchestrator.destroy_all [0; 1]%nat [p0; p1; p2] = Some [p1].
Proof. split; reflexivity. Qed.

(** C9 (failing input).  The first tick finds both placements missing, the
    second takes both to dropped, and the third, which is to destroy them,
    panics: the index of the second placement is no index of the slice any
    more once the first has been removed.  Neither placement is destroyed.
    The loop over the placements panics whatever the gates and the store
    are. *)
Theorem Tick_two_dropped_placements_panics :
  placements_of (Modelled.ticks 1 lost_nodes)
    = Some [[("aaa", Api.PsMissing); ("bbb", Api.PsMissing)]]
  /\ Modelled.ticks 2 lost_nodes = Some both_dropped
  /\ placements_of (Some both_dropped)
     = Some [[("aaa", Api.PsDropped); ("bbb", Api.PsDropped)]]
  /\ (forall MayActivate MayDeactivate MayDrop Put op,
        Orchestrator.tickRange_placements MayActivate MayDeactivate MayDrop Put
          both_dropped 0 op = None)
  /\ Modelled.ticks 3 lost_nodes = None.
Proof.
  repeat split; intros; vm_compute; reflexivity.
Qed.

(** With a third placement behind the two dropped ones the tick does not
    panic: it destroys the first dropped placement and the active one, and
    the second dropped placement stays. *)
Lemma tickRange_destroys_the_wrong_placement :
  let w := Orchestrator.mkWorld
    [ {| Catalog.Meta := Api.mkMeta 1 "" ""; Catalog.State := Api.RsActive;
         Catalog.Parents := []; Catalog.Children := [];
         Catalog.Placements :=
           [Catalog.bare_placement "aaa" Api.PsDropped Api.PsDropped;
            Catalog.bare_placement "bbb" Api.PsDropped Api.PsDropped;
            Catalog.bare_placement "ccc" Api.PsActive Api.PsActive] |} ]
    (<["ccc" := Orchestrator.mkNode (<[1%Z := Api.NsActive]> ∅) false]> ∅)
    [] ∅ [] [] in
  placements_of (Modelled.tickRange w 0 None) = Some [[("bbb", Api.PsDropped)]].
Proof. vm_compute. reflexivity. Qed.

(** A single dropped placement is destroyed, as in the orchestrator's test
    of a missing placement: missing, dropped, gone. *)
Lemma Tick_missing_dropped_destroyed :
  let w := Orchestrator.mkWorld
    [ {| Catalog.Meta := Api.mkMeta 1 "" ""; Catalog.State := Api.RsActive;
         Catalog.Parents := []; Catalog.Children := [];
         Catalog.Placements :=
           [Catalog.bare_placement "aaa" Api.PsMissing Api.PsActive] |} ]
    (<["aaa" := Orchestrator.mkNode ∅ false]> ∅) [] ∅ [] [] in
  placements_of (Modelled.ticks 1 w) = Some [[("aaa", Api.PsDropped)]]
  /\ placements_of (Modelled.ticks 2 w) = Some [[]].
Proof. split; vm_compute; reflexivity. Qed.

(* ----------------------------------------------------------------- *)
(** ** The orchestrator: the gates of an operation                     *)
(* ----------------------------------------------------------------- *)

Section GateFacts.
Import Api Catalog Orchestrator.

Lemma all_placements_true P ids rs :
  Modelled.all_placements P (Modelled.ranges_of ids rs) = true ->
  all_states (fun s => P s = true) ids rs.
Proof.
  unfold Modelled.all_placements, Modelled.ranges_of, all_states.
  intros H r q Hr Hid Hq.
  rewrite forallb_forall in H.
  assert (Hin : In r (filter (fun r => Ident (Meta r) ∈ ids) rs)).
  { apply list_elem_of_In. apply list_elem_of_filter. split; assumption. }
  specialize (H r Hin). rewrite forallb_forall in H.
  apply H. apply list_elem_of_In. exact Hq.
Qed.

(** The gates written down from the spec are as specified. *)
Lemma Modelled_activates_as_specified : activates_as_specified Modelled.MayActivate.
Proof.
  intros op rs p r. simpl.
  rewrite andb_true_iff, bool_decide_eq_true. intros [Hid Hall].
  split; [exact Hid|]. apply all_placements_true in Hall. exact Hall.
Qed.

Lemma Modelled_drops_as_specified : drops_as_specified Modelled.MayDrop.
Proof.
  intros op rs p r. simpl.
  rewrite andb_true_iff, bool_decide_eq_true. intros [Hid Hall].
  split; [exact Hid|]. apply all_placements_true in Hall.
  intros r0 p0 H1 H2 H3. specialize (Hall r0 p0 H1 H2 H3). simpl in Hall.
  apply bool_decide_eq_true in Hall. exact Hall.
Qed.

(** The states of the placements of a catalog are those of the catalog in
    which one placement has lost its annotation. *)
Lemma all_states_put P ids rs ri pi r p q :
  rs !! ri = Some r -> Placements r !! pi = Some p ->
  StateCurrent q = StateCurrent p ->
  all_states P ids (put_placement rs ri pi r q) -> all_states P ids rs.
Proof.
  intros Hr Hp Hq H r0 p0 Hr0 Hid Hp0.
  assert (Hri : (ri < length rs)%nat) by (eapply lookup_lt_Some, Hr).
  assert (Hpi : (pi < length (Placements r))%nat) by (eapply lookup_lt_Some, Hp).
  apply list_elem_of_lookup in Hr0 as [j Hj].
  apply list_elem_of_lookup in Hp0 as [i Hi].
  destruct (decide (j = ri)) as [->|Hne].
  - assert (r0 = r) by congruence. subst r0.
    set (r' := with_Placements r (<[pi := q]> (Placements r))).
    assert (Hr' : r' ∈ put_placement rs ri pi r q).
    { apply list_elem_of_lookup. exists ri. apply list_lookup_insert_eq, Hri. }
    destruct (decide (i = pi)) as [->|Hni].
    + assert (p0 = p) by congruence. subst p0. rewrite <- Hq.
      apply (H r' q Hr' Hid). apply list_elem_of_lookup. exists pi.
      apply list_lookup_insert_eq, Hpi.
    + apply (H r' p0 Hr' Hid). apply list_elem_of_lookup. exists i.
      unfold r', with_Placements. simpl.
      rewrite list_lookup_insert_ne by congruence. exact Hi.
  - apply (H r0 p0); [|exact Hid|apply list_elem_of_lookup; eauto].
    apply list_elem_of_lookup. exists j. unfold put_placement.
    rewrite list_lookup_insert_ne by congruence. exact Hj.
Qed.

Variable MayActivate MayDeactivate MayDrop :
  option Operation -> list Range -> Placement -> Range -> bool.
Variable Put : RangeID -> Placement -> bool.

(** What a gate that is as specified has said when it let a placement
    through, asked in the course of [tickPlacement]. *)
Lemma gate_MayActivate op w w2 ri pi r p :
  activates_as_specified MayActivate ->
  ks w !! ri = Some r -> Placements r !! pi = Some p ->
  ks w2 = put_placement (ks w) ri pi r (cleaned r p) ->
  gate MayActivate (Some op) w2 ri pi = true ->
  Ident (Meta r) ∈ op_children op /\ parents_inactive_or_further op (ks w).
Proof.
  intros Hspec Hr Hp Hk. unfold gate, placement_at. rewrite Hk.
  rewrite put_placement_lookup by (eapply lookup_lt_Some, Hr). simpl.
  rewrite list_lookup_insert_eq by (eapply lookup_lt_Some, Hp).
  intros Hg. apply Hspec in Hg as [Hid Hall]. split; [exact Hid|].
  exact (all_states_put _ _ (ks w) ri pi r p (cleaned r p) Hr Hp
           (cleaned_StateCurrent r p) Hall).
Qed.

Lemma gate_MayDrop op w w2 ri pi r p :
  drops_as_specified MayDrop ->
  ks w !! ri = Some r -> Placements r !! pi = Some p ->
  ks w2 = put_placement (ks w) ri pi r (cleaned r p) ->
  gate MayDrop (Some op) w2 ri pi = true ->
  Ident (Meta r) ∈ op_parents op /\ children_active op (ks w).
Proof.
  intros Hspec Hr Hp Hk. unfold gate, placement_at. rewrite Hk.
  rewrite put_placement_lookup by (eapply lookup_lt_Some, Hr). simpl.
  rewrite list_lookup_insert_eq by (eapply lookup_lt_Some, Hp).
  intros Hg. apply Hspec in Hg as [Hid Hall]. split; [exact Hid|].
  exact (all_states_put _ _ (ks w) ri pi r p (cleaned r p) Hr Hp
           (cleaned_StateCurrent r p) Hall).
Qed.

End GateFacts.

(** C2 (as amended).  In the tick of a placement that belongs to an
    operation in flight, the gates being as the spec has them, the placement
    is directed to activate either because its node reports it activating,
    in which case no gate is asked, or because its node reports it inactive
    and the gate lets it through: its range is a child of the operation and
    every placement of every parent range is inactive or further.  It is
    directed to drop either because its node reports it dropping, or because
    its node reports it inactive, its range is a parent of the operation and
    every placement of every child range is active. *)
Theorem tickPlacement_gated
  (MayActivate MayDeactivate MayDrop :
     option Orchestrator.Operation -> list Catalog.Range -> Catalog.Placement ->
     Catalog.Range -> bool)
  (Put : Api.RangeID -> Catalog.Placement -> bool)
  (op : Orchestrator.Operation) (w w' : Orchestrator.World)
  (ri pi : nat) (r : Catalog.Range) (p : Catalog.Placement) (d : bool) :
  Orchestrator.activates_as_specified MayActivate ->
  Orchestrator.drops_as_specified MayDrop ->
  Orchestrator.ks w !! ri = Some r -> Catalog.Placements r !! pi = Some p ->
  Orchestrator.tickPlacement MayActivate MayDeactivate MayDrop Put w ri pi (Some op)
    = Some (w', d) ->
  (Orchestrator.directed w w' r p Api.PsActive ->
     Orchestrator.remote (Orchestrator.rost w) (Catalog.NodeID p)
       (Api.Ident (Catalog.Meta r)) = Some Api.NsActivating
     \/ (Orchestrator.remote (Orchestrator.rost w) (Catalog.NodeID p)
           (Api.Ident (Catalog.Meta r)) = Some Api.NsInactive
         /\ Api.Ident (Catalog.Meta r) ∈ Orchestrator.op_children op
         /\ Orchestrator.parents_inactive_or_further op (Orchestrator.ks w)))
  /\ (Orchestrator.directed w w' r p Api.PsDropped ->
      Orchestrator.remote (Orchestrator.rost w) (Catalog.NodeID p)
        (Api.Ident (Catalog.Meta r)) = Some Api.NsDropping
      \/ (Orchestrator.remote (Orchestrator.rost w) (Catalog.NodeID p)
            (Api.Ident (Catalog.Meta r)) = Some Api.NsInactive
          /\ Api.Ident (Catalog.Meta r) ∈ Orchestrator.op_parents op
          /\ Orchestrator.children_active op (Orchestrator.ks w))).
Proof.
  intros HA HD Hr Hp Ht. unfold Orchestrator.directed.
  destruct (tickPlacement_events _ _ _ _ w ri pi (Some op) r p w' d Hr Hp Ht)
    as [He|(s & w2 & He & Hk & Hw)]; rewrite He.
  - split; intros H; apply not_elem_of_nil in H; contradiction.
  - split; intros H; apply list_elem_of_singleton in H; inversion H; subst s;
      inversion Hw; subst.
    + right. split; [assumption|].
      eapply gate_MayActivate; eassumption.
    + left. assumption.
    + right. split; [assumption|].
      eapply gate_MayDrop; eassumption.
    + left. assumption.
Qed.

(** In both worlds the tick of the left child's placement tells it to
    activate, whatever the gates are in the second. *)
Lemma left_child_told_to_activate :
  Modelled.tickPlacement parent_inactive 1 0 (Some the_split)
    = Some (left_child_wanted parent_inactive, false)
  /\ (forall MayActivate MayDeactivate MayDrop Put,
        Orchestrator.tickPlacement MayActivate MayDeactivate MayDrop Put
          parent_active 1 0 (Some the_split)
          = Some (left_child_wanted parent_active, false))
  /\ (forall w, w = parent_inactive \/ w = parent_active ->
        Orchestrator.directed w (left_child_wanted w) left_child
          (Catalog.bare_placement "bbb" Api.PsInactive Api.PsInactive) Api.PsActive).
Proof.
  split; [|split].
  - vm_compute. reflexivity.
  - intros. vm_compute. reflexivity.
  - intros w [->| ->]; unfold Orchestrator.directed; vm_compute;
      apply list_elem_of_here.
Qed.

Lemma tickPlacement_gated_witness :
  (Orchestrator.directed parent_inactive (left_child_wanted parent_inactive)
     left_child (Catalog.bare_placement "bbb" Api.PsInactive Api.PsInactive)
     Api.PsActive ->
   Orchestrator.remote (Orchestrator.rost parent_inactive) "bbb" 2
     = Some Api.NsActivating
   \/ (Orchestrator.remote (Orchestrator.rost parent_inactive) "bbb" 2
         = Some Api.NsInactive
       /\ 2%Z ∈ Orchestrator.op_children the_split
       /\ Orchestrator.parents_inactive_or_further the_split
            (Orchestrator.ks parent_inactive)))
  /\ (Orchestrator.directed parent_inactive (left_child_wanted parent_inactive)
        left_child (Catalog.bare_placement "bbb" Api.PsInactive Api.PsInactive)
        Api.PsDropped ->
      Orchestrator.remote (Orchestrator.rost parent_inactive) "bbb" 2
        = Some Api.NsDropping
      \/ (Orchestrator.remote (Orchestrator.rost parent_inactive) "bbb" 2
            = Some Api.NsInactive
          /\ 2%Z ∈ Orchestrator.op_parents the_split
          /\ Orchestrator.children_active the_split
               (Orchestrator.ks parent_inactive))).
Proof.
  apply (tickPlacement_gated Modelled.MayActivate Modelled.MayDeactivate
           Modelled.MayDrop Modelled.Put the_split parent_inactive
           (left_child_wanted parent_inactive) 1 0 left_child
           (Catalog.bare_placement "bbb" Api.PsInactive Api.PsInactive) false).
  - exact Modelled_activates_as_specified.
  - exact Modelled_drops_as_specified.
  - reflexivity.
  - reflexivity.
  - vm_compute. reflexivity.
Defined.

(** C2 (counterexample).  The parent placement on [aaa] is active and the
    node of the left child reports the range as activating: the tick of the
    child's placement directs it to activate once more, and asks no gate.
    No choice of gates makes the orderings hold of every tick. *)
Lemma activation_is_repeated_ungated :
  ~ (exists MayActivate MayDeactivate MayDrop Put,
       forall op w w' ri pi r p d,
         Orchestrator.ks w !! ri = Some r -> Catalog.Placements r !! pi = Some p ->
         Orchestrator.tickPlacement MayActivate MayDeactivate MayDrop Put
           w ri pi (Some op) = Some (w', d) ->
         (Orchestrator.directed w w' r p Api.PsActive ->
          Api.Ident (Catalog.Meta r) ∈ Orchestrator.op_children op ->
          Orchestrator.parents_inactive_or_further op (Orchestrator.ks w))
         /\ (Orchestrator.directed w w' r p Api.PsDropped ->
             Api.Ident (Catalog.Meta r) ∈ Orchestrator.op_parents op ->
             Orchestrator.children_active op (Orchestrator.ks w))).
Proof.
  intros (MA & MD & MDr & Put & H).
  destruct left_child_told_to_activate as (_ & Ht & Hd).
  destruct (H the_split parent_active (left_child_wanted parent_active) 1%nat 0%nat
              left_child (Catalog.bare_placement "bbb" Api.PsInactive Api.PsInactive)
              false eq_refl eq_refl (Ht MA MD MDr Put))
    as [Hact _].
  specialize (Hact (Hd _ (or_intror eq_refl))).
  assert (Hc : 2%Z ∈ Orchestrator.op_children the_split)
    by (simpl; apply list_elem_of_here).
  specialize (Hact Hc).
  specialize (Hact _ (Catalog.bare_placement "aaa" Api.PsActive Api.PsActive)
                (list_elem_of_here _ _)).
  simpl in Hact.
  specialize (Hact (list_elem_of_here _ _) (list_elem_of_here _ _)).
  discriminate Hact.
Qed.

(* ----------------------------------------------------------------- *)
(** ** The orchestrator: placements that are active                    *)
(* ----------------------------------------------------------------- *)

Section CountFacts.
Import Api Catalog Orchestrator.
Variable P : Placement -> bool.

Lemma count_cons p ps :
  count P (p :: ps) = ((if P p then 1 else 0) + count P ps)%nat.
Proof.
  unfold count. rewrite filter_cons.
  destruct (P p); case_decide; simpl; congruence.
Qed.

Lemma count_app ps qs : count P (ps ++ qs) = (count P ps + count P qs)%nat.
Proof. unfold count. rewrite filter_app, length_app. reflexivity. Qed.

(** A method call on one placement that does not make it count. *)
Lemma count_alter f i ps :
  (forall p, ps !! i = Some p -> P (f p) = true -> P p = true) ->
  (count P (alter f i ps) <= count P ps)%nat.
Proof.
  revert i. induction ps as [|q ps IH]; intros [|i] H; simpl; try lia.
  - rewrite !count_cons. specialize (H q eq_refl).
    destruct (P (f q)); [rewrite H by reflexivity|]; destruct (P q); lia.
  - rewrite !count_cons. apply Nat.add_le_mono_l. exact (IH i H).
Qed.

Lemma count_remove i ps :
  (count P (take i ps ++ drop (S i) ps) <= count P ps)%nat.
Proof.
  revert i. induction ps as [|q ps IH]; intros [|i]; simpl; try lia.
  - rewrite drop_0, count_cons. lia.
  - rewrite !count_cons. specialize (IH i). lia.
Qed.

Lemma count_destroy_all l ps ps' :
  destroy_all l ps = Some ps' -> (count P ps' <= count P ps)%nat.
Proof.
  revert ps. induction l as [|i l IH]; intros ps; simpl.
  - intros H; inversion H; subst. lia.
  - unfold remove_at. case_bool_decide; simpl; [|discriminate].
    intros Hd. apply IH in Hd. pose proof (count_remove i ps). lia.
Qed.

(** Counting by a property that holds of no more placements. *)
Lemma count_mono (P' : Placement -> bool) ps :
  (forall p, P' p = true -> P p = true) -> (count P' ps <= count P ps)%nat.
Proof.
  intros H. induction ps as [|q ps IH]; [reflexivity|].
  unfold count in *. rewrite !filter_cons.
  specialize (H q). destruct (P' q); repeat case_decide; simpl; try lia; try congruence.
  exfalso. auto.
Qed.

End CountFacts.

Ltac fold_fmap :=
  repeat match goal with
    | |- context [list_fmap ?A ?B ?f ?l] => change (list_fmap A B f l) with (f <$> l)
    end.

Section ActiveFacts.
Import Api Catalog Orchestrator.
Variable ro : gmap string Node.

Lemma new_placement_not_reported rID nID src :
  active_or_reported ro rID (new_placement nID src) = false.
Proof. reflexivity. Qed.

Lemma reported_count_append r q :
  active_or_reported ro (Ident (Meta r)) q = false ->
  reported_count ro (with_Placements r (Placements r ++ [q])) = reported_count ro r.
Proof.
  intros H. unfold reported_count. simpl. rewrite count_app, count_cons, H.
  unfold count. simpl. lia.
Qed.

Lemma no_more_active_refl rs : no_more_active ro rs rs.
Proof.
  split; [lia|]. split.
  - intros i r H. exists r. split; [exact H|]. split; [reflexivity|lia].
  - intros i r Hi H. apply lookup_lt_Some in H. lia.
Qed.

Lemma no_more_active_trans rs1 rs2 rs3 :
  no_more_active ro rs1 rs2 -> no_more_active ro rs2 rs3 ->
  no_more_active ro rs1 rs3.
Proof.
  intros (L1 & O1 & N1) (L2 & O2 & N2). split; [lia|]. split.
  - intros i r H. destruct (O1 i r H) as (r2 & H2 & M2 & C2).
    destruct (O2 i r2 H2) as (r3 & H3 & M3 & C3).
    exists r3. split; [exact H3|]. split; [congruence|lia].
  - intros i r3 Hi H3.
    destruct (rs2 !! i) as [r2|] eqn:H2.
    + destruct (O2 i r2 H2) as (r3' & H3' & M3 & C3).
      assert (r3' = r3) by congruence. subst r3'.
      specialize (N1 i r2 Hi H2). lia.
    + apply lookup_ge_None in H2. apply (N2 i r3); [lia|exact H3].
Qed.

Lemma no_more_active_alter f ri rs :
  (forall r, rs !! ri = Some r ->
     Meta (f r) = Meta r /\ (reported_count ro (f r) <= reported_count ro r)%nat) ->
  no_more_active ro rs (alter f ri rs).
Proof.
  intros H. split; [rewrite length_alter; lia|]. split.
  - intros i r Hr. destruct (decide (i = ri)) as [->|Hne].
    + exists (f r). rewrite list_lookup_alter_eq, Hr. split; [reflexivity|].
      apply H, Hr.
    + exists r. rewrite list_lookup_alter_ne by congruence.
      split; [exact Hr|]. split; [reflexivity|lia].
  - intros i r Hi Hr. apply lookup_lt_Some in Hr. rewrite length_alter in Hr. lia.
Qed.

Lemma no_more_active_insert ri r r' rs :
  rs !! ri = Some r -> Meta r' = Meta r ->
  (reported_count ro r' <= reported_count ro r)%nat ->
  no_more_active ro rs (<[ri := r']> rs).
Proof.
  intros Hr HM HC. split; [rewrite length_insert; lia|]. split.
  - intros i r0 Hr0. destruct (decide (i = ri)) as [->|Hne].
    + exists r'. rewrite list_lookup_insert_eq by (eapply lookup_lt_Some, Hr).
      assert (r0 = r) by congruence. subst r0. auto.
    + exists r0. rewrite list_lookup_insert_ne by congruence.
      split; [exact Hr0|]. split; [reflexivity|lia].
  - intros i r0 Hi Hr0. apply lookup_lt_Some in Hr0. rewrite length_insert in Hr0. lia.
Qed.

Lemma no_more_active_app rs extra :
  Forall (fun r => reported_count ro r = 0%nat) extra ->
  no_more_active ro rs (rs ++ extra).
Proof.
  intros H. split; [rewrite length_app; lia|]. split.
  - intros i r Hr. exists r. rewrite lookup_app_l by (eapply lookup_lt_Some, Hr).
    split; [exact Hr|]. split; [reflexivity|lia].
  - intros i r Hi Hr. rewrite lookup_app_r in Hr by exact Hi.
    rewrite Forall_lookup in H. eapply H, Hr.
Qed.

Lemma no_more_active_fmap f rs :
  (forall r, Meta (f r) = Meta r
             /\ (reported_count ro (f r) <= reported_count ro r)%nat) ->
  no_more_active ro rs (f <$> rs).
Proof.
  intros H. split; [rewrite length_fmap; lia|]. split.
  - intros i r Hr. exists (f r). rewrite list_lookup_fmap, Hr.
    split; [reflexivity|]. apply H.
  - intros i r Hi Hr. apply lookup_lt_Some in Hr. rewrite length_fmap in Hr. lia.
Qed.

(** Key by key, a catalog with no more active placements counts no more. *)
Lemma no_more_active_sum rs rs' k :
  no_more_active ro rs rs' ->
  (count_active_or_reported ro rs' k <= count_active_or_reported ro rs k)%nat.
Proof.
  unfold count_active_or_reported.
  revert rs'. induction rs as [|r rs IH]; intros rs' (L & O & N).
  - simpl. clear L O. induction rs' as [|r' rs' IH']; [reflexivity|].
    simpl. rewrite (N 0%nat r') by first [simpl; lia|reflexivity].
    assert (IHn : (sum_list ((fun r => if covers r k then reported_count ro r else 0%nat)
                               <$> rs') <= 0)%nat).
    { apply IH'. intros i r0 Hi Hr0. apply (N (S i) r0); [simpl; lia|exact Hr0]. }
    fold_fmap. destruct (covers r' k); lia.
  - destruct rs' as [|r' rs']; [simpl in L; lia|].
    destruct (O 0%nat r eq_refl) as (r0 & H0 & M0 & C0).
    simpl in H0. inversion H0; subst r0. simpl.
    assert (Hc : covers r' k = covers r k) by (unfold covers; rewrite M0; reflexivity).
    rewrite Hc.
    assert (IHn : (sum_list ((fun r => if covers r k then reported_count ro r else 0%nat)
                               <$> rs')
                   <= sum_list ((fun r => if covers r k then reported_count ro r else 0%nat)
                               <$> rs))%nat).
    { apply IH. split; [simpl in L; lia|]. split.
      - intros i r1 H1. apply (O (S i) r1 H1).
      - intros i r1 Hi H1. apply (N (S i) r1); [simpl; lia|exact H1]. }
    fold_fmap. destruct (covers r k); lia.
Qed.

(** The active placements are among those counted. *)
Lemma count_active_le rs k :
  (count_active rs k <= count_active_or_reported ro rs k)%nat.
Proof.
  unfold count_active, count_active_or_reported.
  induction rs as [|r rs IH]; [reflexivity|]. simpl. fold_fmap.
  assert (H : (count is_active (Placements r) <= reported_count ro r)%nat).
  { apply count_mono. intros p Hp. unfold active_or_reported. rewrite Hp. reflexivity. }
  destruct (covers r k); lia.
Qed.

End ActiveFacts.

Section CalmFacts.
Import Api Catalog Orchestrator.

Lemma calmer_refl w : calmer w w.
Proof. split; [reflexivity|apply no_more_active_refl]. Qed.

Lemma calmer_trans w1 w2 w3 : calmer w1 w2 -> calmer w2 w3 -> calmer w1 w3.
Proof.
  intros [R1 N1] [R2 N2]. split; [congruence|].
  rewrite R1 in N2. eapply no_more_active_trans; eassumption.
Qed.

Lemma calmer_same w w' : ks w' = ks w -> rost w' = rost w -> calmer w w'.
Proof. intros Hk Hr. split; [exact Hr|]. rewrite Hk. apply no_more_active_refl. Qed.

Lemma calmer_with_ks w rs :
  no_more_active (rost w) (ks w) rs -> calmer w (with_ks w rs).
Proof. intros H. split; [reflexivity|exact H]. Qed.

Lemma calmer_emit w w' es : calmer w w' -> calmer w (emit w' es).
Proof. intros [R N]. split; assumption. Qed.

(** A method call on a placement that does not make it count. *)
Lemma calmer_on_placement f w ri pi :
  (forall r p, ks w !! ri = Some r -> Placements r !! pi = Some p ->
     active_or_reported (rost w) (Ident (Meta r)) (f (Ident (Meta r)) p) = true ->
     active_or_reported (rost w) (Ident (Meta r)) p = true) ->
  calmer w (on_placement f w ri pi).
Proof.
  intros H. apply calmer_with_ks, no_more_active_alter.
  intros r Hr. split; [reflexivity|].
  unfold reported_count. simpl. apply count_alter. intros p Hp. apply (H r p Hr Hp).
Qed.

Lemma calmer_Want w ri pi s : calmer w (Want w ri pi s).
Proof.
  unfold Want. destruct (ks w !! ri); [|apply calmer_refl].
  destruct (placement_at w ri pi); [|apply calmer_refl].
  apply calmer_emit, calmer_on_placement. intros r0 p0 _ _ H. exact H.
Qed.

Lemma calmer_NewPlacement w ri nID : calmer w (NewPlacement w ri nID).
Proof.
  apply calmer_with_ks, no_more_active_alter. intros r _.
  split; [reflexivity|]. rewrite reported_count_append; [lia|reflexivity].
Qed.

Lemma calmer_NewReplacement w ri dest src cb : calmer w (NewReplacement w ri dest src cb).
Proof.
  assert (H : calmer w (with_ks w (alter (fun r => with_Placements r
                 (Placements r ++ [new_placement dest src])) ri (ks w)))).
  { apply calmer_with_ks, no_more_active_alter. intros r _.
    split; [reflexivity|]. rewrite reported_count_append; [lia|reflexivity]. }
  unfold NewReplacement. destruct cb; [destruct (ks w !! ri)|]; exact H.
Qed.

Lemma calmer_fail w w' ch e : calmer w w' -> calmer w (fail w' ch e).
Proof. intros H. unfold fail. destruct ch; [apply calmer_emit|]; exact H. Qed.

Variable MinPlacements : Range -> nat.
Variable Candidate :
  gmap string Node -> list Range -> option Range -> Api.NodeID -> option Api.NodeID.
Variable MayActivate MayDeactivate MayDrop :
  option Operation -> list Range -> Placement -> Range -> bool.
Variable Put : RangeID -> Placement -> bool.
Variable SplitCheck : list Range -> Range -> Key -> bool.
Variable JoinCheck : list Range -> Range -> Range -> bool.
Variable Operations : list Range -> option (list Operation).
Variable Complete : Operation -> list Range -> bool.

(** A transition of a placement counts no more placements, unless it is to
    active or to inactive; then the placement must have counted before, or
    its node must not report the range active. *)
Lemma calmer_PlacementToState w ri pi new :
  (forall r p, ks w !! ri = Some r -> Placements r !! pi = Some p ->
     active_or_reported (rost w) (Ident (Meta r)) (set_current p new) = true ->
     active_or_reported (rost w) (Ident (Meta r)) p = true) ->
  calmer w (PlacementToState Put w ri pi new).
Proof.
  intros H. apply calmer_on_placement. intros r p Hr Hp.
  unfold place_to_state. destruct (_ && _); [apply (H r p Hr Hp)|tauto].
Qed.

Lemma calmer_to_missing w ri pi : calmer w (PlacementToState Put w ri pi PsMissing).
Proof. apply calmer_PlacementToState. intros r p _ _ H. discriminate H. Qed.

Lemma calmer_to_dropped w ri pi : calmer w (PlacementToState Put w ri pi PsDropped).
Proof. apply calmer_PlacementToState. intros r p _ _ H. discriminate H. Qed.

Lemma calmer_switch w ri pi op r c n w' d :
  ks w !! ri = Some r -> placement_at w ri pi = Some c ->
  n = rost w !! NodeID c ->
  tickPlacement_switch MayActivate MayDeactivate MayDrop Put
    w ri pi op (Ident (Meta r)) c n = Some (w', d) ->
  calmer w w'.
Proof.
  intros Hr Hc Hn. unfold tickPlacement_switch.
  assert (Hpos : forall r0 p0, ks w !! ri = Some r0 -> Placements r0 !! pi = Some p0 ->
                   r0 = r /\ p0 = c).
  { intros r0 p0 H1 H2. unfold placement_at in Hc. rewrite Hr in Hc. simpl in Hc.
    split; congruence. }
  assert (Hact : StateCurrent c = PsActive ->
                 forall new, calmer w (PlacementToState Put w ri pi new)).
  { intros Hs new. apply calmer_PlacementToState. intros r0 p0 H1 H2 _.
    destruct (Hpos r0 p0 H1 H2) as [-> ->].
    unfold active_or_reported, is_active. rewrite Hs. reflexivity. }
  destruct (StateCurrent c) eqn:Hs; try discriminate.
  - (* pending *)
    destruct n as [nd|]; [simpl|discriminate].
    destruct (node_ranges nd !! Ident (Meta r)) as [[]|] eqn:Hrem; simpl;
      intros H; inversion H; subst w' d; clear H;
      try apply calmer_Want; try apply calmer_to_missing.
    + apply calmer_PlacementToState. intros r0 p0 H1 H2.
      destruct (Hpos r0 p0 H1 H2) as [-> ->].
      unfold active_or_reported, is_active, remote. simpl.
      rewrite <- Hn. simpl. rewrite Hrem. simpl. discriminate.
  - (* inactive *)
    destruct n as [nd|]; [simpl|discriminate].
    destruct (node_ranges nd !! Ident (Meta r)) as [[]|] eqn:Hrem; simpl.
    all: repeat match goal with
           | |- context [if Failed ?p ?a then _ else _] => destruct (Failed p a)
           | |- context [if gate ?g ?o ?x ?i ?j then _ else _] =>
               destruct (gate g o x i j)
           end.
    all: intros H; inversion H; subst w' d; clear H.
    all: try apply calmer_Want; try apply calmer_to_missing;
         try apply calmer_to_dropped; try apply calmer_refl.
    apply calmer_PlacementToState. intros r0 p0 H1 H2 _.
    destruct (Hpos r0 p0 H1 H2) as [-> ->].
    unfold active_or_reported, is_active, remote.
    rewrite <- Hn. simpl. rewrite Hrem, Hs. reflexivity.
  - (* active *)
    destruct n as [nd|]; [simpl|discriminate].
    destruct (node_ranges nd !! Ident (Meta r)) as [[]|] eqn:Hrem; simpl.
    all: repeat match goal with
           | |- context [if gate ?g ?o ?x ?i ?j then _ else _] =>
               destruct (gate g o x i j)
           end.
    all: intros H; inversion H; subst w' d; clear H.
    all: try apply calmer_Want; try apply calmer_refl; apply (Hact eq_refl).
  - intros H; inversion H; subst. apply calmer_to_dropped.
  - intros H; inversion H; subst. apply calmer_refl.
Qed.


Lemma calmer_tickPlacement w ri pi op w' d :
  tickPlacement MayActivate MayDeactivate MayDrop Put w ri pi op = Some (w', d) ->
  calmer w w'.
Proof.
  unfold tickPlacement.
  destruct (ks w !! ri) as [r|] eqn:Hr; [simpl|discriminate].
  destruct (Placements r !! pi) as [p|] eqn:Hp; [simpl|discriminate].
  destruct (_ && _ && _).
  - intros H; inversion H; subst. apply calmer_to_missing.
  - destruct (head_of_tickPlacement w ri pi r p (rost w !! NodeID p) Hr Hp)
      as (Hk & Hro & _).
    set (w2 := note_drain _ _ _ _) in *.
    assert (Hri : (ri < length (ks w))%nat) by (eapply lookup_lt_Some, Hr).
    assert (H2 : calmer w w2).
    { split; [exact Hro|]. rewrite Hk. unfold put_placement.
      apply (no_more_active_insert _ ri r); [exact Hr|reflexivity|].
      unfold reported_count. simpl.
      rewrite list_insert_alter.
      apply count_alter. intros p0 Hp0.
      unfold active_or_reported, is_active.
      rewrite cleaned_StateCurrent, cleaned_NodeID.
      assert (p0 = p) by congruence. subst p0. tauto. }
    intros H. eapply calmer_trans; [exact H2|].
    eapply (calmer_switch w2 ri pi op
              (with_Placements r (<[pi := cleaned r p]> (Placements r)))
              (cleaned r p)); [| |
        |exact H].
    + rewrite Hk. apply put_placement_lookup, Hri.
    + eapply placement_at_ks; eassumption.
    + rewrite Hro, cleaned_NodeID. reflexivity.
Qed.

Lemma calmer_tick_placements ri op indices :
  forall w toDestroy w' toDestroy',
    tick_placements MayActivate MayDeactivate MayDrop Put w ri op indices toDestroy
      = Some (w', toDestroy') ->
    calmer w w'.
Proof.
  induction indices as [|i rest IH]; intros w td w' td'; simpl.
  - intros H; inversion H; subst. apply calmer_refl.
  - destruct (tickPlacement _ _ _ _ w ri i op) as [[w1 d]|] eqn:Ht; [simpl|discriminate].
    intros H. apply IH in H. apply calmer_tickPlacement in Ht.
    eapply calmer_trans; eassumption.
Qed.

Lemma calmer_tickRange_placements w ri op w' :
  tickRange_placements MayActivate MayDeactivate MayDrop Put w ri op = Some w' ->
  calmer w w'.
Proof.
  unfold tickRange_placements.
  destruct (ks w !! ri) as [r|]; [simpl|discriminate].
  destruct (tick_placements _ _ _ _ w ri op _ _) as [[w1 td]|] eqn:Ht; [simpl|discriminate].
  apply calmer_tick_placements in Ht.
  destruct (ks w1 !! ri) as [r1|] eqn:Hr1; [simpl|discriminate].
  destruct (destroy_all td (Placements r1)) as [ps|] eqn:Hd; [simpl|discriminate].
  intros H; inversion H; subst w'. eapply calmer_trans; [exact Ht|].
  apply calmer_with_ks. apply (no_more_active_insert _ ri r1); [exact Hr1|reflexivity|].
  unfold reported_count. simpl. eapply count_destroy_all, Hd.
Qed.

Lemma calmer_doMove w ri opMove w' e :
  doMove Candidate w ri opMove = (w', e) -> calmer w w'.
Proof.
  unfold doMove.
  repeat match goal with
    | |- context [match ?x with _ => _ end] => destruct x
    end; intros H; inversion H; subst; try apply calmer_refl.
  apply calmer_NewReplacement.
Qed.

Lemma calmer_Split w ri k w' iL iR :
  Split SplitCheck w ri k = Some (w', iL, iR) -> calmer w w'.
Proof.
  unfold Split. destruct (ks w !! ri) as [r|] eqn:Hr; [simpl|discriminate].
  destruct (SplitCheck _ _ _); [|discriminate].
  intros H; inversion H; subst. apply calmer_with_ks.
  eapply no_more_active_trans; [|apply no_more_active_app; repeat constructor].
  apply (no_more_active_insert _ ri r); [exact Hr|reflexivity|].
  unfold reported_count. simpl. lia.
Qed.

Lemma calmer_tickRange_active w ri w' goon :
  tickRange_active MinPlacements Candidate SplitCheck w ri = (w', goon) ->
  calmer w w'.
Proof.
  unfold tickRange_active.
  destruct (ks w !! ri) as [r|];
    [|intros H; inversion H; subst; apply calmer_refl].
  set (placed := if bool_decide _ then _ else _).
  assert (Hplaced : forall w1, placed = Some w1 -> calmer w w1).
  { subst placed. intros w1. case_bool_decide.
    - destruct (Candidate _ _ _ _); [|discriminate].
      intros Hx; inversion Hx; subst. apply calmer_NewPlacement.
    - intros Hx; inversion Hx; subst. apply calmer_refl. }
  destruct placed as [w1|];
    [|intros H; inversion H; subst; apply calmer_refl].
  specialize (Hplaced w1 eq_refl).
  set (moved := match take_move _ _ with Some _ => _ | None => _ end).
  assert (Hmoved : forall w2, moved = inl w2 \/ moved = inr w2 -> calmer w1 w2).
  { subst moved. intros w2.
    destruct (take_move _ _) as [[opMove rest]|].
    - destruct (doMove _ _ _ _) as [w3 [err|]] eqn:Hm;
        apply calmer_doMove in Hm;
        assert (Hm' : calmer w1 w3) by exact Hm;
        intros [H|H]; inversion H; subst;
        first [exact Hm'|apply calmer_fail, Hm'].
    - intros [H|H]; inversion H; subst. apply calmer_refl. }
  destruct moved as [w2|w2].
  - intros H; inversion H; subst. eapply calmer_trans; [exact Hplaced|].
    apply Hmoved. tauto.
  - assert (H12 : calmer w w2).
    { eapply calmer_trans; [exact Hplaced|]. apply Hmoved. tauto. }
    destruct (opSplits w2 !! Ident (Meta r)) as [os|];
      [|intros H; inversion H; subst; exact H12].
    set (w3 := with_opSplits w2 _).
    assert (H13 : calmer w w3) by exact H12.
    destruct (Candidate (rost w3) (ks w3) None (split_Left os)) as [n|];
      [|intros H; inversion H; subst; apply calmer_fail, H13].
    destruct (Candidate (rost w3) (ks w3) None (split_Right os)) as [n0|];
      [|intros H; inversion H; subst; apply calmer_fail, H13].
    destruct (Split _ w3 ri (split_Key os)) as [[[w4 iL] iR]|] eqn:Hsp;
      [|intros H; inversion H; subst; apply calmer_fail, H13].
    apply calmer_Split in Hsp.
    assert (H15 : calmer w (NewPlacement (NewPlacement w4 iL n) iR n0)).
    { eapply calmer_trans; [exact H13|]. eapply calmer_trans; [exact Hsp|].
      eapply calmer_trans; apply calmer_NewPlacement. }
    intros H; inversion H; subst.
    destruct (split_Err os); [apply calmer_emit|]; exact H15.
Qed.

Lemma calmer_tickRange w ri op w' :
  tickRange MinPlacements Candidate MayActivate MayDeactivate MayDrop Put SplitCheck
    w ri op = Some w' ->
  calmer w w'.
Proof.
  unfold tickRange. destruct (ks w !! ri) as [r|]; [simpl|discriminate].
  set (w0 := emit w _).
  assert (H0 : calmer w w0) by (apply calmer_emit, calmer_refl).
  assert (Hgo : forall w1 goon,
            calmer w w1 ->
            (if goon : bool
             then tickRange_placements MayActivate MayDeactivate MayDrop Put w1 ri op
             else Some w1) = Some w' -> calmer w w').
  { intros w1 [|] H1 H.
    - apply calmer_tickRange_placements in H. eapply calmer_trans; eassumption.
    - inversion H; subst. exact H1. }
  destruct (State r); simpl; try discriminate.
  - destruct (tickRange_active _ _ _ w0 ri) as [w1 goon] eqn:Ha.
    apply calmer_tickRange_active in Ha.
    intros H. apply (Hgo w1 goon); [exact (calmer_trans _ _ _ H0 Ha)|exact H].
  - apply (Hgo w0 true H0).
  - apply (Hgo w0 true H0).
Qed.


Lemma calmer_JoinTwo w i1 i2 w' i3 :
  JoinTwo JoinCheck w i1 i2 = Some (w', i3) -> calmer w w'.
Proof.
  unfold JoinTwo. destruct (ks w !! i1) as [r1|]; [simpl|discriminate].
  destruct (ks w !! i2) as [r2|]; [simpl|discriminate].
  destruct (JoinCheck _ _ _); [|discriminate].
  intros H; inversion H; subst. apply calmer_with_ks.
  eapply no_more_active_trans; [|apply no_more_active_app; repeat constructor].
  eapply no_more_active_trans; apply no_more_active_alter; intros r _;
    (split; [reflexivity|unfold reported_count; simpl; lia]).
Qed.

Lemma calmer_apply_join w opJoin :
  calmer w (apply_join Candidate JoinCheck w opJoin).
Proof.
  unfold apply_join.
  set (w0 := emit w _).
  assert (H0 : calmer w w0) by (apply calmer_emit, calmer_refl).
  destruct (GetRange w0 (join_Left opJoin)) as [i1|]; [|apply calmer_fail, H0].
  destruct (GetRange w0 (join_Right opJoin)) as [i2|]; [|apply calmer_fail, H0].
  destruct (Candidate _ _ _ _) as [nID|]; [|apply calmer_fail, H0].
  destruct (JoinTwo _ w0 i1 i2) as [[w1 i3]|] eqn:Hj; [|apply calmer_fail, H0].
  apply calmer_JoinTwo in Hj.
  assert (H2 : calmer w (NewPlacement w1 i3 nID)).
  { eapply calmer_trans; [exact H0|]. eapply calmer_trans; [exact Hj|].
    apply calmer_NewPlacement. }
  destruct (join_Err opJoin); [|exact H2].
  destruct (ks _ !! i3); [apply calmer_emit|]; exact H2.
Qed.

Lemma calmer_apply_joins w : calmer w (apply_joins Candidate JoinCheck w).
Proof.
  unfold apply_joins.
  assert (H : forall js w0, calmer w0 (foldl (apply_join Candidate JoinCheck) w0 js)).
  { induction js as [|j js IH]; intros w0; simpl; [apply calmer_refl|].
    eapply calmer_trans; [apply calmer_apply_join|apply IH]. }
  exact (H (opJoins w) w).
Qed.

Lemma calmer_CheckComplete w op : calmer w (CheckComplete Complete w op).
Proof.
  unfold CheckComplete. destruct (Complete _ _); [|apply calmer_refl].
  apply calmer_with_ks, no_more_active_fmap. intros r.
  case_bool_decide; (split; [reflexivity|unfold reported_count; simpl; lia]).
Qed.

Abbreviation tickRange' :=
  (tickRange MinPlacements Candidate MayActivate MayDeactivate MayDrop Put SplitCheck).

Lemma calmer_tick_ranges_of op ris :
  forall w visited w' visited',
    tick_ranges_of MinPlacements Candidate MayActivate MayDeactivate MayDrop Put
      SplitCheck w op ris visited = Some (w', visited') ->
    calmer w w'.
Proof.
  induction ris as [|ri rest IH]; intros w v w' v'; simpl.
  - intros H; inversion H; subst. apply calmer_refl.
  - destruct (ks w !! ri) as [r|]; [simpl|discriminate].
    destruct (tickRange' w ri (Some op)) as [w1|] eqn:Ht; [simpl|discriminate].
    intros H. apply IH in H. apply calmer_tickRange in Ht.
    exact (calmer_trans _ _ _ Ht H).
Qed.

Lemma calmer_tick_operations ops :
  forall w visited w' visited',
    tick_operations MinPlacements Candidate MayActivate MayDeactivate MayDrop Put
      SplitCheck Complete w ops visited = Some (w', visited') ->
    calmer w w'.
Proof.
  induction ops as [|op rest IH]; intros w v w' v'; simpl.
  - intros H; inversion H; subst. apply calmer_refl.
  - destruct (tick_ranges_of _ _ _ _ _ _ _ _ _ _ _) as [[w2 v2]|] eqn:Ht;
      [simpl|discriminate].
    intros H. apply IH in H. apply calmer_tick_ranges_of in Ht.
    exact (calmer_trans _ _ _ (calmer_CheckComplete w op) (calmer_trans _ _ _ Ht H)).
Qed.

Lemma calmer_tick_remaining ris visited :
  forall w w',
    tick_remaining MinPlacements Candidate MayActivate MayDeactivate MayDrop Put
      SplitCheck w ris visited = Some w' ->
    calmer w w'.
Proof.
  induction ris as [|ri rest IH]; intros w w'; simpl.
  - intros H; inversion H; subst. apply calmer_refl.
  - destruct (ks w !! ri) as [r|]; [simpl|discriminate].
    case_bool_decide; [apply IH|]. case_bool_decide; [apply IH|].
    destruct (tickRange' w ri None) as [w1|] eqn:Ht; [simpl|discriminate].
    intros Hx. apply IH in Hx. apply calmer_tickRange in Ht.
    exact (calmer_trans _ _ _ Ht Hx).
Qed.

Lemma calmer_tick_rest rs w w' :
  tick_rest MinPlacements Candidate MayActivate MayDeactivate MayDrop Put
    SplitCheck Operations Complete rs w = Some w' ->
  calmer w w'.
Proof.
  unfold tick_rest.
  destruct (Operations (ks w)) as [ops|].
  - destruct (tick_operations _ _ _ _ _ _ _ _ w ops ∅) as [[w1 v]|] eqn:Ho;
      [simpl|discriminate].
    intros H. apply calmer_tick_remaining in H. apply calmer_tick_operations in Ho.
    exact (calmer_trans _ _ _ Ho H).
  - simpl. apply calmer_tick_remaining.
Qed.

(** A tick leaves the roster as it is, and a catalog with no more
    placements that are active or reported active. *)
Lemma calmer_Tick w w' :
  Tick MinPlacements Candidate MayActivate MayDeactivate MayDrop Put
    SplitCheck JoinCheck Operations Complete w = Some w' ->
  calmer w w'.
Proof.
  unfold Tick. intros H. apply calmer_tick_rest in H.
  exact (calmer_trans _ _ _ (calmer_apply_joins w) H).
Qed.

End CalmFacts.

(** An operator request changes neither the catalog nor the roster. *)
Lemma calmer_requests w m os oj :
  Orchestrator.calmer w (Orchestrator.request_move w m)
  /\ Orchestrator.calmer w (Orchestrator.request_split w os)
  /\ Orchestrator.calmer w (Orchestrator.request_join w oj).
Proof. split; [|split]; exact (calmer_refl w). Qed.

(** A node response other than active makes no placement count. *)
Lemma observe_not_active w nID rID s k :
  s <> Api.NsActive ->
  (Orchestrator.count_active_or_reported
     (Orchestrator.rost (Orchestrator.observe w nID rID s)) (Orchestrator.ks w) k
   <= Orchestrator.count_active_or_reported
        (Orchestrator.rost w) (Orchestrator.ks w) k)%nat.
Proof.
  intros Hs. unfold Orchestrator.count_active_or_reported.
  set (ro' := Orchestrator.rost (Orchestrator.observe w nID rID s)).
  assert (H : forall r, (Orchestrator.reported_count ro' r
                         <= Orchestrator.reported_count (Orchestrator.rost w) r)%nat).
  { intros r. apply count_mono. intros p. unfold Orchestrator.active_or_reported.
    destruct (Orchestrator.is_active p); [reflexivity|]. simpl.
    rewrite !andb_true_iff, !bool_decide_eq_true. intros [H1 H2]. split; [exact H1|].
    revert H2. unfold Orchestrator.remote, ro', Orchestrator.observe. simpl.
    destruct (decide (Catalog.NodeID p = nID)) as [->|Hne].
    - rewrite lookup_alter_eq.
      destruct (Orchestrator.rost w !! nID) as [nd|]; simpl; [|discriminate].
      destruct (decide (Api.Ident (Catalog.Meta r) = rID)) as [->|Hr].
      + rewrite lookup_insert_eq. congruence.
      + rewrite lookup_insert_ne by congruence. tauto.
    - rewrite lookup_alter_ne by congruence. tauto. }
  clearbody ro'.
  induction (Orchestrator.ks w) as [|r rs IH]; [reflexivity|]. simpl. fold_fmap.
  specialize (H r). destruct (Orchestrator.covers r k); lia.
Qed.

(** A tick never raises, for any key, the number of placements covering the
    key that are active or that are inactive on a node whose last observed
    response reports the range active: whatever the gates are, a placement
    becomes active in a tick only where its node has reported the range
    active. *)
Lemma Tick_no_more_active_or_reported
  (MinPlacements : Catalog.Range -> nat)
  (Candidate : gmap string Orchestrator.Node -> list Catalog.Range ->
               option Catalog.Range -> string -> option string)
  (MayActivate MayDeactivate MayDrop :
     option Orchestrator.Operation -> list Catalog.Range -> Catalog.Placement ->
     Catalog.Range -> bool)
  (Put : Api.RangeID -> Catalog.Placement -> bool)
  (SplitCheck : list Catalog.Range -> Catalog.Range -> string -> bool)
  (JoinCheck : list Catalog.Range -> Catalog.Range -> Catalog.Range -> bool)
  (Operations : list Catalog.Range -> option (list Orchestrator.Operation))
  (Complete : Orchestrator.Operation -> list Catalog.Range -> bool)
  (w w' : Orchestrator.World) :
  Orchestrator.Tick MinPlacements Candidate MayActivate MayDeactivate MayDrop Put
    SplitCheck JoinCheck Operations Complete w = Some w' ->
  (forall k,
     (Orchestrator.count_active_or_reported
        (Orchestrator.rost w') (Orchestrator.ks w') k
      <= Orchestrator.count_active_or_reported
           (Orchestrator.rost w) (Orchestrator.ks w) k)%nat)
  /\ ((forall k,
         (Orchestrator.count_active_or_reported
            (Orchestrator.rost w) (Orchestrator.ks w) k <= 1)%nat) ->
      Orchestrator.at_most_one_active w').
Proof.
  intros Ht. apply calmer_Tick in Ht. destruct Ht as [Hro Hno].
  assert (H : forall k,
            (Orchestrator.count_active_or_reported
               (Orchestrator.rost w') (Orchestrator.ks w') k
             <= Orchestrator.count_active_or_reported
                  (Orchestrator.rost w) (Orchestrator.ks w) k)%nat).
  { intros k. rewrite Hro. apply no_more_active_sum, Hno. }
  split; [exact H|].
  intros H1 k. specialize (H k). specialize (H1 k).
  pose proof (count_active_le (Orchestrator.rost w') (Orchestrator.ks w') k). lia.
Qed.

(* ----------------------------------------------------------------- *)
(** ** The orchestrator: placements that serve, in every state reached *)
(* ----------------------------------------------------------------- *)

Section AllFacts.
Context {A : Type}.
Variable P : A -> bool.

Lemma forallb_spec (l : list A) :
  forallb P l = true <-> forall i x, l !! i = Some x -> P x = true.
Proof.
  induction l as [|a l IH]; simpl.
  - split; [intros _ i x H; discriminate H|reflexivity].
  - rewrite andb_true_iff, IH. split.
    + intros [Ha Hl] [|i] x H; simpl in H; [congruence|eapply Hl, H].
    + intros H. split; [apply (H 0%nat a eq_refl)|].
      intros i x Hx. apply (H (S i) x Hx).
Qed.

Lemma forallb_alter f i (l : list A) :
  (forall x, l !! i = Some x -> P x = true -> P (f x) = true) ->
  forallb P l = true -> forallb P (alter f i l) = true.
Proof.
  rewrite !forallb_spec. intros H Hl j y.
  destruct (decide (j = i)) as [->|Hne].
  - rewrite list_lookup_alter_eq. destruct (l !! i) as [x|] eqn:Hx; [simpl|discriminate].
    intros Hy. inversion Hy; subst y. apply (H x eq_refl), (Hl i x Hx).
  - rewrite list_lookup_alter_ne by congruence. apply Hl.
Qed.

Lemma forallb_remove i (l : list A) :
  forallb P l = true -> forallb P (take i l ++ drop (S i) l) = true.
Proof.
  rewrite forallb_app. intros H. apply andb_true_iff. split.
  - rewrite <- (take_drop i l), forallb_app in H.
    apply andb_true_iff in H. tauto.
  - rewrite <- (take_drop (S i) l), forallb_app in H.
    apply andb_true_iff in H. tauto.
Qed.

End AllFacts.

Section ServingFacts.
Import Api Catalog Orchestrator Serving.
Variable ro : gmap string Node.

Lemma forallb_destroy_all (P : Placement -> bool) l ps ps' :
  destroy_all l ps = Some ps' -> forallb P ps = true -> forallb P ps' = true.
Proof.
  revert ps. induction l as [|i l IH]; intros ps; simpl.
  - intros H; inversion H; subst. tauto.
  - unfold remove_at. case_bool_decide; simpl; [|discriminate].
    intros Hd Hp. apply (IH _ Hd), forallb_remove, Hp.
Qed.

(** A method call on one placement makes at most that one count. *)
Lemma count_alter_one (P : Placement -> bool) f i ps p :
  ps !! i = Some p ->
  (count P (alter f i ps) <= count P ps + (if P p then 0 else 1))%nat.
Proof.
  revert i. induction ps as [|q ps IH]; intros [|i] H; try discriminate H.
  - injection H as ->. change (alter f 0%nat (p :: ps)) with (f p :: ps).
    rewrite !count_cons. destruct (P (f p)), (P p); lia.
  - change (alter f (S i) (q :: ps)) with (q :: alter f i ps).
    rewrite !count_cons. specialize (IH i H). lia.
Qed.

Lemma directed_active_cleaned r p :
  directed_active (cleaned r p) = directed_active p.
Proof.
  unfold directed_active, is_active.
  rewrite cleaned_StateCurrent, cleaned_StateDesired. reflexivity.
Qed.

Lemma not_ahead_cleaned rID r p :
  not_ahead ro rID (cleaned r p) = not_ahead ro rID p.
Proof.
  unfold not_ahead.
  rewrite cleaned_StateCurrent, cleaned_StateDesired, cleaned_NodeID. reflexivity.
Qed.

Lemma active_is_directed p : is_active p = true -> directed_active p = true.
Proof. unfold directed_active. intros ->. reflexivity. Qed.

Lemma new_placement_calm rID nID src :
  not_ahead ro rID (new_placement nID src) = true
  /\ directed_active (new_placement nID src) = false.
Proof. split; reflexivity. Qed.

Lemma range_in_step_append r q :
  not_ahead ro (Ident (Meta r)) q = true ->
  range_in_step ro r = true ->
  range_in_step ro (with_Placements r (Placements r ++ [q])) = true.
Proof.
  unfold range_in_step. simpl. rewrite forallb_app. simpl.
  intros -> ->. reflexivity.
Qed.

Lemma serving_append r q :
  directed_active q = false ->
  serving (with_Placements r (Placements r ++ [q])) = serving r.
Proof.
  intros H. unfold serving. simpl. rewrite count_app, count_cons, H.
  unfold count. simpl. lia.
Qed.

Lemma benign_refl rs : benign ro rs rs.
Proof.
  split; [lia|]. split.
  - intros i r H. exists r. split; [exact H|]. split; [reflexivity|].
    intros Hs. split; [exact Hs|lia].
  - intros i r Hi H. apply lookup_lt_Some in H. lia.
Qed.

Lemma benign_trans rs1 rs2 rs3 :
  benign ro rs1 rs2 -> benign ro rs2 rs3 -> benign ro rs1 rs3.
Proof.
  intros (L1 & O1 & N1) (L2 & O2 & N2). split; [lia|]. split.
  - intros i r H. destruct (O1 i r H) as (r2 & H2 & M2 & C2).
    destruct (O2 i r2 H2) as (r3 & H3 & M3 & C3).
    exists r3. split; [exact H3|]. split; [congruence|].
    intros Hs. destruct (C2 Hs) as [S2 K2]. destruct (C3 S2) as [S3 K3].
    split; [exact S3|lia].
  - intros i r3 Hi H3.
    destruct (rs2 !! i) as [r2|] eqn:H2.
    + destruct (O2 i r2 H2) as (r3' & H3' & M3 & C3).
      assert (r3' = r3) by congruence. subst r3'.
      destruct (N1 i r2 Hi H2) as [S2 K2]. destruct (C3 S2) as [S3 K3].
      split; [exact S3|lia].
    + apply lookup_ge_None in H2. apply (N2 i r3); [lia|exact H3].
Qed.

Lemma benign_alter f ri rs :
  (forall r, rs !! ri = Some r ->
     Meta (f r) = Meta r
     /\ (range_in_step ro r = true ->
         range_in_step ro (f r) = true /\ (serving (f r) <= serving r)%nat)) ->
  benign ro rs (alter f ri rs).
Proof.
  intros H. split; [rewrite length_alter; lia|]. split.
  - intros i r Hr. destruct (decide (i = ri)) as [->|Hne].
    + exists (f r). rewrite list_lookup_alter_eq, Hr. split; [reflexivity|].
      apply H, Hr.
    + exists r. rewrite list_lookup_alter_ne by congruence.
      split; [exact Hr|]. split; [reflexivity|]. intros Hs. split; [exact Hs|lia].
  - intros i r Hi Hr. apply lookup_lt_Some in Hr. rewrite length_alter in Hr. lia.
Qed.

Lemma benign_insert ri r r' rs :
  rs !! ri = Some r -> Meta r' = Meta r ->
  (range_in_step ro r = true ->
   range_in_step ro r' = true /\ (serving r' <= serving r)%nat) ->
  benign ro rs (<[ri := r']> rs).
Proof.
  intros Hr HM HC. split; [rewrite length_insert; lia|]. split.
  - intros i r0 Hr0. destruct (decide (i = ri)) as [->|Hne].
    + exists r'. rewrite list_lookup_insert_eq by (eapply lookup_lt_Some, Hr).
      assert (r0 = r) by congruence. subst r0. auto.
    + exists r0. rewrite list_lookup_insert_ne by congruence.
      split; [exact Hr0|]. split; [reflexivity|]. intros Hs. split; [exact Hs|lia].
  - intros i r0 Hi Hr0. apply lookup_lt_Some in Hr0. rewrite length_insert in Hr0. lia.
Qed.

Lemma benign_app rs extra :
  Forall (fun r => range_in_step ro r = true /\ serving r = 0%nat) extra ->
  benign ro rs (rs ++ extra).
Proof.
  intros H. split; [rewrite length_app; lia|]. split.
  - intros i r Hr. exists r. rewrite lookup_app_l by (eapply lookup_lt_Some, Hr).
    split; [exact Hr|]. split; [reflexivity|]. intros Hs. split; [exact Hs|lia].
  - intros i r Hi Hr. rewrite lookup_app_r in Hr by exact Hi.
    rewrite Forall_lookup in H. eapply H, Hr.
Qed.

Lemma benign_fmap f rs :
  (forall r, Meta (f r) = Meta r
             /\ (range_in_step ro r = true ->
                 range_in_step ro (f r) = true /\ (serving (f r) <= serving r)%nat)) ->
  benign ro rs (f <$> rs).
Proof.
  intros H. split; [rewrite length_fmap; lia|]. split.
  - intros i r Hr. exists (f r). rewrite list_lookup_fmap, Hr.
    split; [reflexivity|]. apply H.
  - intros i r Hi Hr. apply lookup_lt_Some in Hr. rewrite length_fmap in Hr. lia.
Qed.

(** No node is ahead in a catalog that is benign against one in which none
    was. *)
Lemma benign_in_step rs rs' :
  benign ro rs rs' ->
  forallb (range_in_step ro) rs = true -> forallb (range_in_step ro) rs' = true.
Proof.
  intros (L & O & N). rewrite !forallb_spec. intros H i r' Hr'.
  destruct (rs !! i) as [r|] eqn:Hr.
  - destruct (O i r Hr) as (r0 & H0 & _ & C0).
    assert (r0 = r') by congruence. subst r0. apply C0, (H i r Hr).
  - apply lookup_ge_None in Hr. apply (N i r' Hr Hr').
Qed.

(** Key by key, it counts no more placements that serve. *)
Lemma benign_sum rs rs' k :
  forallb (range_in_step ro) rs = true ->
  benign ro rs rs' ->
  (count_serving rs' k <= count_serving rs k)%nat.
Proof.
  unfold count_serving.
  revert rs'. induction rs as [|r rs IH]; intros rs' Hin (L & O & N).
  - simpl. clear L O. induction rs' as [|r' rs' IH']; [reflexivity|].
    simpl. destruct (N 0%nat r') as [_ ->]; [simpl; lia|reflexivity|].
    assert (IHn : (sum_list ((fun r => if covers r k then serving r else 0%nat)
                               <$> rs') <= 0)%nat).
    { apply IH'. intros i r0 Hi Hr0. apply (N (S i) r0); [simpl; lia|exact Hr0]. }
    fold_fmap. destruct (covers r' k); lia.
  - destruct rs' as [|r' rs']; [simpl in L; lia|].
    simpl in Hin. apply andb_true_iff in Hin. destruct Hin as [Hr Hin].
    destruct (O 0%nat r eq_refl) as (r0 & H0 & M0 & C0).
    simpl in H0. inversion H0; subst r0. simpl.
    destruct (C0 Hr) as [_ K0].
    assert (Hc : covers r' k = covers r k) by (unfold covers; rewrite M0; reflexivity).
    rewrite Hc.
    assert (IHn : (sum_list ((fun r => if covers r k then serving r else 0%nat) <$> rs')
                   <= sum_list ((fun r => if covers r k then serving r else 0%nat)
                               <$> rs))%nat).
    { apply IH; [exact Hin|]. split; [simpl in L; lia|]. split.
      - intros i r1 H1. apply (O (S i) r1 H1).
      - intros i r1 Hi H1. apply (N (S i) r1); [simpl; lia|exact H1]. }
    fold_fmap. destruct (covers r k); lia.
Qed.

(** One range of the catalog changed, with at most [d] more placements that
    serve: the keys it covers count at most [d] more, the others no more. *)
Lemma count_serving_alter f ri rs r d k :
  rs !! ri = Some r -> Meta (f r) = Meta r ->
  (serving (f r) <= serving r + d)%nat ->
  (count_serving (alter f ri rs) k
   <= count_serving rs k + (if covers r k then d else 0))%nat.
Proof.
  unfold count_serving. intros Hr HM Hs.
  assert (Hc : covers (f r) k = covers r k) by (unfold covers; rewrite HM; reflexivity).
  revert ri Hr. induction rs as [|r0 rs IH]; intros [|ri] Hr; simpl in *;
    try discriminate.
  - inversion Hr; subst r0. fold_fmap. rewrite Hc. destruct (covers r k); lia.
  - specialize (IH ri Hr). fold_fmap.
    change (list_alter f ri rs) with (alter f ri rs).
    destruct (covers r0 k); lia.
Qed.

(** The active placements are among those that serve. *)
Lemma count_active_le_serving rs k : (count_active rs k <= count_serving rs k)%nat.
Proof.
  unfold count_active, count_serving.
  induction rs as [|r rs IH]; [reflexivity|]. simpl. fold_fmap.
  assert (H : (count is_active (Placements r) <= serving r)%nat).
  { apply count_mono. exact active_is_directed. }
  destruct (covers r k); lia.
Qed.

Lemma count_serving_le_all rs k : (count_serving rs k <= sum_list (serving <$> rs))%nat.
Proof.
  unfold count_serving. induction rs as [|r rs IH]; [reflexivity|]. simpl. fold_fmap.
  destruct (covers r k); lia.
Qed.

End ServingFacts.

Section SteadyFacts.
Import Api Catalog Orchestrator Serving.

Lemma in_step_spec w :
  in_step w = true
  <-> forall i r, ks w !! i = Some r -> range_in_step (rost w) r = true.
Proof. apply forallb_spec. Qed.

Lemma steady_refl w : steady w w.
Proof. split; [reflexivity|tauto]. Qed.

Lemma steady_trans w1 w2 w3 : steady w1 w2 -> steady w2 w3 -> steady w1 w3.
Proof. intros [R1 S1] [R2 S2]. split; [congruence|tauto]. Qed.

Lemma steady_same w w' : ks w' = ks w -> rost w' = rost w -> steady w w'.
Proof.
  intros Hk Hr. split; [exact Hr|]. unfold safe, in_step. rewrite Hk, Hr. tauto.
Qed.

Lemma steady_benign w w' :
  rost w' = rost w -> benign (rost w) (ks w) (ks w') -> steady w w'.
Proof.
  intros Hr Hb. split; [exact Hr|]. intros [Hin Hk]. split.
  - unfold in_step. rewrite Hr. eapply benign_in_step; eassumption.
  - intros k. pose proof (benign_sum (rost w) _ _ k Hin Hb). specialize (Hk k). lia.
Qed.

Lemma steady_with_ks w rs : benign (rost w) (ks w) rs -> steady w (with_ks w rs).
Proof. intros H. apply steady_benign; [reflexivity|exact H]. Qed.

Lemma steady_emit w w' es : steady w w' -> steady w (emit w' es).
Proof. intros H. eapply steady_trans; [exact H|]. apply steady_same; reflexivity. Qed.

Lemma steady_fail w w' ch e : steady w w' -> steady w (fail w' ch e).
Proof. intros H. unfold fail. destruct ch; [apply steady_emit|]; exact H. Qed.

(** A method call on a placement that leaves its node in step and does not
    make the placement serve. *)
Lemma steady_on_placement f w ri pi :
  (forall r p, ks w !! ri = Some r -> Placements r !! pi = Some p ->
     not_ahead (rost w) (Ident (Meta r)) p = true ->
     not_ahead (rost w) (Ident (Meta r)) (f (Ident (Meta r)) p) = true
     /\ (directed_active (f (Ident (Meta r)) p) = true -> directed_active p = true)) ->
  steady w (on_placement f w ri pi).
Proof.
  intros H. apply steady_with_ks, benign_alter.
  intros r Hr. split; [reflexivity|]. unfold range_in_step, serving. simpl.
  intros Hin. split.
  - apply forallb_alter; [|exact Hin]. intros p Hp Hn. apply (H r p Hr Hp Hn).
  - apply count_alter. intros p Hp. apply (H r p Hr Hp).
    rewrite forallb_spec in Hin. apply (Hin pi p Hp).
Qed.

(** A desired state other than active is written onto a placement that is
    not inactive, or whose node does not report the range as activating or
    active. *)
Lemma steady_Want w ri pi s :
  s <> PsActive ->
  (forall r p, ks w !! ri = Some r -> Placements r !! pi = Some p ->
     StateCurrent p <> PsInactive
     \/ (remote (rost w) (NodeID p) (Ident (Meta r)) <> Some NsActive
         /\ remote (rost w) (NodeID p) (Ident (Meta r)) <> Some NsActivating)) ->
  steady w (Want w ri pi s).
Proof.
  intros Hs H. unfold Want. destruct (ks w !! ri) as [r|] eqn:Hr; [|apply steady_refl].
  destruct (placement_at w ri pi); [|apply steady_refl].
  apply steady_emit, steady_on_placement. intros r0 p0 Hr0 Hp0 _.
  rewrite Hr in Hr0. split.
  - unfold not_ahead. simpl.
    destruct (H r0 p0 Hr0 Hp0) as [Hn|[H1 H2]].
    + rewrite (bool_decide_eq_false_2 _ Hn). reflexivity.
    + rewrite (bool_decide_eq_false_2 _ H1), (bool_decide_eq_false_2 _ H2).
      rewrite andb_false_r. reflexivity.
  - unfold directed_active, is_active. simpl.
    rewrite (bool_decide_eq_false_2 _ Hs). simpl. rewrite orb_false_r.
    intros ->. reflexivity.
Qed.

(** The desired state active is written again onto an inactive placement
    whose node reports the range as activating. *)
Lemma steady_Want_again w ri pi :
  (forall r p, ks w !! ri = Some r -> Placements r !! pi = Some p ->
     StateCurrent p = PsInactive
     /\ remote (rost w) (NodeID p) (Ident (Meta r)) = Some NsActivating) ->
  steady w (Want w ri pi PsActive).
Proof.
  intros H. unfold Want. destruct (ks w !! ri) as [r|] eqn:Hr; [|apply steady_refl].
  destruct (placement_at w ri pi); [|apply steady_refl].
  apply steady_emit, steady_on_placement. intros r0 p0 Hr0 Hp0 Hn.
  rewrite Hr in Hr0. destruct (H r0 p0 Hr0 Hp0) as [Hs Hrem]. split.
  - unfold not_ahead. simpl. rewrite orb_true_r. reflexivity.
  - intros _. revert Hn. unfold not_ahead, directed_active.
    rewrite Hrem, Hs. simpl. intros ->. apply orb_true_r.
Qed.

End SteadyFacts.

Section GatedFacts.
Import Api Catalog Orchestrator Serving.
Variable MinPlacements : Range -> nat.
Variable Candidate :
  gmap string Node -> list Range -> option Range -> Api.NodeID -> option Api.NodeID.
Variable MayActivate MayDeactivate MayDrop :
  option Operation -> list Range -> Placement -> Range -> bool.
Variable Put : RangeID -> Placement -> bool.
Variable SplitCheck : list Range -> Range -> Key -> bool.
Variable JoinCheck : list Range -> Range -> Range -> bool.
Variable Operations : list Range -> option (list Operation).
Variable Complete : Operation -> list Range -> bool.
Hypothesis MayActivate_exclusive : exclusive MayActivate.

(** The desired state active is written onto a placement that the gate has
    let through: the gate being exclusive, no key is covered twice. *)
Lemma steady_Want_gated w ri pi op :
  gate MayActivate op w ri pi = true -> steady w (Want w ri pi PsActive).
Proof.
  unfold gate, Want, placement_at.
  destruct (ks w !! ri) as [r|] eqn:Hr; [simpl|discriminate].
  destruct (Placements r !! pi) as [c|] eqn:Hc; [|discriminate].
  intros Hg. apply steady_emit. split; [reflexivity|]. intros [Hin Hk]. split.
  - revert Hin. unfold in_step, on_placement. cbn [ks rost with_ks].
    apply forallb_alter. intros r0 Hr0. unfold range_in_step. simpl.
    apply forallb_alter. intros p _ _. unfold not_ahead. simpl. apply orb_true_r.
  - intros k. unfold on_placement. cbn [ks with_ks].
    pose proof (count_serving_alter
                  (fun r0 => with_Placements r0
                     (alter (fun p => set_desired p PsActive) pi (Placements r0)))
                  ri (ks w) r (if directed_active c then 0 else 1)%nat k Hr eq_refl) as Ha.
    assert (Hs : (serving (with_Placements r
                    (alter (fun p => set_desired p PsActive) pi (Placements r)))
                  <= serving r + (if directed_active c then 0 else 1))%nat).
    { unfold serving. simpl. apply count_alter_one, Hc. }
    specialize (Ha Hs). specialize (Hk k).
    destruct (covers r k) eqn:Hcov; [|lia].
    pose proof (MayActivate_exclusive op (ks w) r c k
                  (list_elem_of_lookup_2 _ _ _ Hr) (list_elem_of_lookup_2 _ _ _ Hc)
                  Hg Hcov) as He.
    destruct (directed_active c); lia.
Qed.

(** A transition of a placement that leaves its node in step and does not
    make the placement serve. *)
Lemma steady_PlacementToState w ri pi new :
  (forall r p, ks w !! ri = Some r -> Placements r !! pi = Some p ->
     not_ahead (rost w) (Ident (Meta r)) p = true ->
     not_ahead (rost w) (Ident (Meta r)) (set_current p new) = true
     /\ (directed_active (set_current p new) = true -> directed_active p = true)) ->
  steady w (PlacementToState Put w ri pi new).
Proof.
  intros H. apply steady_on_placement. intros r p Hr Hp Hn.
  unfold place_to_state. destruct (_ && _); [apply (H r p Hr Hp Hn)|tauto].
Qed.

Lemma steady_to_missing w ri pi : steady w (PlacementToState Put w ri pi PsMissing).
Proof.
  apply steady_PlacementToState. intros r p _ _ _. split; [reflexivity|].
  unfold directed_active, is_active. simpl.
  destruct (bool_decide (StateDesired p = PsActive)); discriminate.
Qed.

Lemma steady_to_dropped w ri pi : steady w (PlacementToState Put w ri pi PsDropped).
Proof.
  apply steady_PlacementToState. intros r p _ _ _. split; [reflexivity|].
  unfold directed_active, is_active. simpl.
  destruct (bool_decide (StateDesired p = PsActive)); discriminate.
Qed.

(** A pending or an active placement becomes inactive when its node reports
    the range inactive, an inactive one active when its node reports the
    range active: the node was not ahead, so the placement had been told. *)
Lemma steady_to_inactive w ri pi :
  (forall r p, ks w !! ri = Some r -> Placements r !! pi = Some p ->
     (StateCurrent p = PsPending \/ StateCurrent p = PsActive)
     /\ remote (rost w) (NodeID p) (Ident (Meta r)) = Some NsInactive) ->
  steady w (PlacementToState Put w ri pi PsInactive).
Proof.
  intros H. apply steady_PlacementToState. intros r p Hr Hp _.
  destruct (H r p Hr Hp) as [Hs Hrem]. split.
  - unfold not_ahead. simpl. rewrite Hrem. reflexivity.
  - unfold directed_active, is_active. simpl.
    destruct Hs as [-> | ->]; simpl; [|reflexivity].
    rewrite andb_true_r. tauto.
Qed.

Lemma steady_to_active w ri pi :
  (forall r p, ks w !! ri = Some r -> Placements r !! pi = Some p ->
     StateCurrent p = PsInactive
     /\ remote (rost w) (NodeID p) (Ident (Meta r)) = Some NsActive) ->
  steady w (PlacementToState Put w ri pi PsActive).
Proof.
  intros H. apply steady_PlacementToState. intros r p Hr Hp Hn.
  destruct (H r p Hr Hp) as [Hs Hrem]. split; [reflexivity|].
  intros _. revert Hn. unfold not_ahead, directed_active.
  rewrite Hrem, Hs. simpl. intros ->. apply orb_true_r.
Qed.

Lemma steady_switch w ri pi op r c n w' d :
  ks w !! ri = Some r -> placement_at w ri pi = Some c ->
  n = rost w !! NodeID c ->
  tickPlacement_switch MayActivate MayDeactivate MayDrop Put
    w ri pi op (Ident (Meta r)) c n = Some (w', d) ->
  steady w w'.
Proof.
  intros Hr Hc Hn. unfold tickPlacement_switch.
  assert (Hpos : forall r0 p0, ks w !! ri = Some r0 -> Placements r0 !! pi = Some p0 ->
                   r0 = r /\ p0 = c).
  { intros r0 p0 H1 H2. unfold placement_at in Hc. rewrite Hr in Hc. simpl in Hc.
    split; congruence. }
  assert (Hrem : remote (rost w) (NodeID c) (Ident (Meta r))
                 = nd ← n; node_ranges nd !! Ident (Meta r)).
  { unfold remote. rewrite <- Hn. reflexivity. }
  assert (Hcalm : forall s, s <> PsActive ->
            StateCurrent c <> PsInactive
            \/ (remote (rost w) (NodeID c) (Ident (Meta r)) <> Some NsActive
                /\ remote (rost w) (NodeID c) (Ident (Meta r)) <> Some NsActivating) ->
            steady w (Want w ri pi s)).
  { intros s Hs H. apply steady_Want; [exact Hs|]. intros r0 p0 H1 H2.
    destruct (Hpos r0 p0 H1 H2) as [-> ->]. exact H. }
  assert (Hina : (StateCurrent c = PsPending \/ StateCurrent c = PsActive) ->
            remote (rost w) (NodeID c) (Ident (Meta r)) = Some NsInactive ->
            steady w (PlacementToState Put w ri pi PsInactive)).
  { intros H1 H2. apply steady_to_inactive. intros r0 p0 H3 H4.
    destruct (Hpos r0 p0 H3 H4) as [-> ->]. tauto. }
  destruct (StateCurrent c) eqn:Hs; try discriminate.
  - (* pending *)
    destruct n as [nd|]; [simpl|discriminate]. simpl in Hrem.
    destruct (node_ranges nd !! Ident (Meta r)) as [[]|] eqn:Hnr; simpl;
      intros H; inversion H; subst w' d; clear H;
      try apply steady_to_missing;
      try (apply Hcalm; [discriminate|left; discriminate]).
    apply Hina; [tauto|exact Hrem].
  - (* inactive *)
    destruct n as [nd|]; [simpl|discriminate]. simpl in Hrem.
    destruct (node_ranges nd !! Ident (Meta r)) as [[]|] eqn:Hnr; simpl.
    all: repeat match goal with
           | |- context [if Failed ?p ?a then _ else _] => destruct (Failed p a)
           | |- context [if gate ?g ?o ?x ?i ?j then _ else _] =>
               destruct (gate g o x i j) eqn:?
           end.
    all: intros H; inversion H; subst w' d; clear H.
    all: try apply steady_to_missing; try apply steady_to_dropped;
         try apply steady_refl.
    all: try (eapply steady_Want_gated; eassumption).
    all: try (apply Hcalm; [discriminate|right; rewrite Hrem; split; discriminate]).
    all: first [apply steady_to_active|apply steady_Want_again];
      intros r0 p0 H1 H2; destruct (Hpos r0 p0 H1 H2) as [-> ->]; tauto.
  - (* active *)
    destruct n as [nd|]; [simpl|discriminate]. simpl in Hrem.
    destruct (node_ranges nd !! Ident (Meta r)) as [[]|] eqn:Hnr; simpl.
    all: repeat match goal with
           | |- context [if gate ?g ?o ?x ?i ?j then _ else _] =>
               destruct (gate g o x i j)
           end.
    all: intros H; inversion H; subst w' d; clear H.
    all: try apply steady_to_missing; try apply steady_refl.
    all: try (apply Hcalm; [discriminate|left; discriminate]).
    apply Hina; [tauto|exact Hrem].
  - intros H; inversion H; subst. apply steady_to_dropped.
  - intros H; inversion H; subst. apply steady_refl.
Qed.

Lemma steady_tickPlacement w ri pi op w' d :
  tickPlacement MayActivate MayDeactivate MayDrop Put w ri pi op = Some (w', d) ->
  steady w w'.
Proof.
  unfold tickPlacement.
  destruct (ks w !! ri) as [r|] eqn:Hr; [simpl|discriminate].
  destruct (Placements r !! pi) as [p|] eqn:Hp; [simpl|discriminate].
  destruct (_ && _ && _).
  - intros H; inversion H; subst. apply steady_to_missing.
  - destruct (head_of_tickPlacement w ri pi r p (rost w !! NodeID p) Hr Hp)
      as (Hk & Hro & _).
    set (w2 := note_drain _ _ _ _) in *.
    assert (Hri : (ri < length (ks w))%nat) by (eapply lookup_lt_Some, Hr).
    assert (H2 : steady w w2).
    { apply steady_benign; [exact Hro|]. rewrite Hk. unfold put_placement.
      apply (benign_insert _ ri r); [exact Hr|reflexivity|].
      unfold range_in_step, serving. simpl.
      rewrite list_insert_alter. intros Hin. split.
      - apply forallb_alter; [|exact Hin]. intros p0 Hp0.
        assert (p0 = p) by congruence. subst p0.
        rewrite not_ahead_cleaned. tauto.
      - apply count_alter. intros p0 Hp0.
        assert (p0 = p) by congruence. subst p0.
        rewrite directed_active_cleaned. tauto. }
    intros H. eapply steady_trans; [exact H2|].
    eapply (steady_switch w2 ri pi op
              (with_Placements r (<[pi := cleaned r p]> (Placements r)))
              (cleaned r p)); [| |
        |exact H].
    + rewrite Hk. apply put_placement_lookup, Hri.
    + eapply placement_at_ks; eassumption.
    + rewrite Hro, cleaned_NodeID. reflexivity.
Qed.

Lemma steady_tick_placements ri op indices :
  forall w toDestroy w' toDestroy',
    tick_placements MayActivate MayDeactivate MayDrop Put w ri op indices toDestroy
      = Some (w', toDestroy') ->
    steady w w'.
Proof.
  induction indices as [|i rest IH]; intros w td w' td'; simpl.
  - intros H; inversion H; subst. apply steady_refl.
  - destruct (tickPlacement _ _ _ _ w ri i op) as [[w1 d]|] eqn:Ht; [simpl|discriminate].
    intros H. apply IH in H. apply steady_tickPlacement in Ht.
    eapply steady_trans; eassumption.
Qed.

Lemma steady_tickRange_placements w ri op w' :
  tickRange_placements MayActivate MayDeactivate MayDrop Put w ri op = Some w' ->
  steady w w'.
Proof.
  unfold tickRange_placements.
  destruct (ks w !! ri) as [r|]; [simpl|discriminate].
  destruct (tick_placements _ _ _ _ w ri op _ _) as [[w1 td]|] eqn:Ht; [simpl|discriminate].
  apply steady_tick_placements in Ht.
  destruct (ks w1 !! ri) as [r1|] eqn:Hr1; [simpl|discriminate].
  destruct (destroy_all td (Placements r1)) as [ps|] eqn:Hd; [simpl|discriminate].
  intros H; inversion H; subst w'. eapply steady_trans; [exact Ht|].
  apply steady_with_ks. apply (benign_insert _ ri r1); [exact Hr1|reflexivity|].
  unfold range_in_step, serving. simpl. intros Hin. split.
  - eapply forallb_destroy_all; eassumption.
  - eapply count_destroy_all, Hd.
Qed.

Lemma steady_NewPlacement w ri nID : steady w (NewPlacement w ri nID).
Proof.
  apply steady_with_ks, benign_alter. intros r _.
  split; [reflexivity|]. intros Hin. split.
  - apply range_in_step_append; [reflexivity|exact Hin].
  - rewrite serving_append; [lia|reflexivity].
Qed.

Lemma steady_NewReplacement w ri dest src cb : steady w (NewReplacement w ri dest src cb).
Proof.
  assert (H : steady w (with_ks w (alter (fun r => with_Placements r
                 (Placements r ++ [new_placement dest src])) ri (ks w)))).
  { apply steady_with_ks, benign_alter. intros r _.
    split; [reflexivity|]. intros Hin. split.
    - apply range_in_step_append; [reflexivity|exact Hin].
    - rewrite serving_append; [lia|reflexivity]. }
  unfold NewReplacement. destruct cb; [destruct (ks w !! ri)|]; exact H.
Qed.

Lemma steady_doMove w ri opMove w' e :
  doMove Candidate w ri opMove = (w', e) -> steady w w'.
Proof.
  unfold doMove.
  repeat match goal with
    | |- context [match ?x with _ => _ end] => destruct x
    end; intros H; inversion H; subst; try apply steady_refl.
  apply steady_NewReplacement.
Qed.

Lemma steady_Split w ri k w' iL iR :
  Split SplitCheck w ri k = Some (w', iL, iR) -> steady w w'.
Proof.
  unfold Split. destruct (ks w !! ri) as [r|] eqn:Hr; [simpl|discriminate].
  destruct (SplitCheck _ _ _); [|discriminate].
  intros H; inversion H; subst. apply steady_with_ks.
  eapply benign_trans;
    [|apply benign_app; repeat constructor].
  apply (benign_insert _ ri r); [exact Hr|reflexivity|].
  unfold range_in_step, serving. simpl. intros Hin. split; [exact Hin|lia].
Qed.

Lemma steady_tickRange_active w ri w' goon :
  tickRange_active MinPlacements Candidate SplitCheck w ri = (w', goon) ->
  steady w w'.
Proof.
  unfold tickRange_active.
  destruct (ks w !! ri) as [r|];
    [|intros H; inversion H; subst; apply steady_refl].
  set (placed := if bool_decide _ then _ else _).
  assert (Hplaced : forall w1, placed = Some w1 -> steady w w1).
  { subst placed. intros w1. case_bool_decide.
    - destruct (Candidate _ _ _ _); [|discriminate].
      intros Hx; inversion Hx; subst. apply steady_NewPlacement.
    - intros Hx; inversion Hx; subst. apply steady_refl. }
  destruct placed as [w1|];
    [|intros H; inversion H; subst; apply steady_refl].
  specialize (Hplaced w1 eq_refl).
  set (moved := match take_move _ _ with Some _ => _ | None => _ end).
  assert (Hmoved : forall w2, moved = inl w2 \/ moved = inr w2 -> steady w1 w2).
  { subst moved. intros w2.
    destruct (take_move _ _) as [[opMove rest]|].
    - destruct (doMove _ _ _ _) as [w3 [err|]] eqn:Hm;
        apply steady_doMove in Hm;
        assert (Hm' : steady w1 w3) by exact Hm;
        intros [H|H]; inversion H; subst;
        first [exact Hm'|apply steady_fail, Hm'].
    - intros [H|H]; inversion H; subst. apply steady_refl. }
  destruct moved as [w2|w2].
  - intros H; inversion H; subst. eapply steady_trans; [exact Hplaced|].
    apply Hmoved. tauto.
  - assert (H12 : steady w w2).
    { eapply steady_trans; [exact Hplaced|]. apply Hmoved. tauto. }
    destruct (opSplits w2 !! Ident (Meta r)) as [os|];
      [|intros H; inversion H; subst; exact H12].
    set (w3 := with_opSplits w2 _).
    assert (H13 : steady w w3) by exact H12.
    destruct (Candidate (rost w3) (ks w3) None (split_Left os)) as [n|];
      [|intros H; inversion H; subst; apply steady_fail, H13].
    destruct (Candidate (rost w3) (ks w3) None (split_Right os)) as [n0|];
      [|intros H; inversion H; subst; apply steady_fail, H13].
    destruct (Split _ w3 ri (split_Key os)) as [[[w4 iL] iR]|] eqn:Hsp;
      [|intros H; inversion H; subst; apply steady_fail, H13].
    apply steady_Split in Hsp.
    assert (H15 : steady w (NewPlacement (NewPlacement w4 iL n) iR n0)).
    { eapply steady_trans; [exact H13|]. eapply steady_trans; [exact Hsp|].
      eapply steady_trans; apply steady_NewPlacement. }
    intros H; inversion H; subst.
    destruct (split_Err os); [apply steady_emit|]; exact H15.
Qed.

Lemma steady_tickRange w ri op w' :
  tickRange MinPlacements Candidate MayActivate MayDeactivate MayDrop Put SplitCheck
    w ri op = Some w' ->
  steady w w'.
Proof.
  unfold tickRange. destruct (ks w !! ri) as [r|]; [simpl|discriminate].
  set (w0 := emit w _).
  assert (H0 : steady w w0) by (apply steady_emit, steady_refl).
  assert (Hgo : forall w1 goon,
            steady w w1 ->
            (if goon : bool
             then tickRange_placements MayActivate MayDeactivate MayDrop Put w1 ri op
             else Some w1) = Some w' -> steady w w').
  { intros w1 [|] H1 H.
    - apply steady_tickRange_placements in H. eapply steady_trans; eassumption.
    - inversion H; subst. exact H1. }
  destruct (State r); simpl; try discriminate.
  - destruct (tickRange_active _ _ _ w0 ri) as [w1 goon] eqn:Ha.
    apply steady_tickRange_active in Ha.
    intros H. apply (Hgo w1 goon); [exact (steady_trans _ _ _ H0 Ha)|exact H].
  - apply (Hgo w0 true H0).
  - apply (Hgo w0 true H0).
Qed.

Lemma steady_JoinTwo w i1 i2 w' i3 :
  JoinTwo JoinCheck w i1 i2 = Some (w', i3) -> steady w w'.
Proof.
  unfold JoinTwo. destruct (ks w !! i1) as [r1|]; [simpl|discriminate].
  destruct (ks w !! i2) as [r2|]; [simpl|discriminate].
  destruct (JoinCheck _ _ _); [|discriminate].
  intros H; inversion H; subst. apply steady_with_ks.
  eapply benign_trans; [|apply benign_app; repeat constructor].
  eapply benign_trans; apply benign_alter; intros r _;
    (split; [reflexivity|]); unfold range_in_step, serving; simpl;
    intros Hin; (split; [exact Hin|lia]).
Qed.

Lemma steady_apply_join w opJoin :
  steady w (apply_join Candidate JoinCheck w opJoin).
Proof.
  unfold apply_join.
  set (w0 := emit w _).
  assert (H0 : steady w w0) by (apply steady_emit, steady_refl).
  destruct (GetRange w0 (join_Left opJoin)) as [i1|]; [|apply steady_fail, H0].
  destruct (GetRange w0 (join_Right opJoin)) as [i2|]; [|apply steady_fail, H0].
  destruct (Candidate _ _ _ _) as [nID|]; [|apply steady_fail, H0].
  destruct (JoinTwo _ w0 i1 i2) as [[w1 i3]|] eqn:Hj; [|apply steady_fail, H0].
  apply steady_JoinTwo in Hj.
  assert (H2 : steady w (NewPlacement w1 i3 nID)).
  { eapply steady_trans; [exact H0|]. eapply steady_trans; [exact Hj|].
    apply steady_NewPlacement. }
  destruct (join_Err opJoin); [|exact H2].
  destruct (ks _ !! i3); [apply steady_emit|]; exact H2.
Qed.

Lemma steady_apply_joins w : steady w (apply_joins Candidate JoinCheck w).
Proof.
  unfold apply_joins.
  assert (H : forall js w0, steady w0 (foldl (apply_join Candidate JoinCheck) w0 js)).
  { induction js as [|j js IH]; intros w0; simpl; [apply steady_refl|].
    eapply steady_trans; [apply steady_apply_join|apply IH]. }
  eapply steady_trans; [exact (H (opJoins w) w)|]. apply steady_same; reflexivity.
Qed.

Lemma steady_CheckComplete w op : steady w (CheckComplete Complete w op).
Proof.
  unfold CheckComplete. destruct (Complete _ _); [|apply steady_refl].
  apply steady_with_ks, benign_fmap. intros r.
  case_bool_decide; (split; [reflexivity|]); unfold range_in_step, serving; simpl;
    intros Hin; (split; [exact Hin|lia]).
Qed.

Lemma steady_tick_ranges_of op ris :
  forall w visited w' visited',
    tick_ranges_of MinPlacements Candidate MayActivate MayDeactivate MayDrop Put
      SplitCheck w op ris visited = Some (w', visited') ->
    steady w w'.
Proof.
  induction ris as [|ri rest IH]; intros w v w' v'; simpl.
  - intros H; inversion H; subst. apply steady_refl.
  - destruct (ks w !! ri) as [r|]; [simpl|discriminate].
    destruct (tickRange MinPlacements Candidate MayActivate MayDeactivate MayDrop Put
                SplitCheck w ri (Some op)) as [w1|] eqn:Ht; [simpl|discriminate].
    intros H. apply IH in H. apply steady_tickRange in Ht.
    exact (steady_trans _ _ _ Ht H).
Qed.

Lemma steady_tick_operations ops :
  forall w visited w' visited',
    tick_operations MinPlacements Candidate MayActivate MayDeactivate MayDrop Put
      SplitCheck Complete w ops visited = Some (w', visited') ->
    steady w w'.
Proof.
  induction ops as [|op rest IH]; intros w v w' v'; simpl.
  - intros H; inversion H; subst. apply steady_refl.
  - destruct (tick_ranges_of _ _ _ _ _ _ _ _ _ _ _) as [[w2 v2]|] eqn:Ht;
      [simpl|discriminate].
    intros H. apply IH in H. apply steady_tick_ranges_of in Ht.
    exact (steady_trans _ _ _ (steady_CheckComplete w op) (steady_trans _ _ _ Ht H)).
Qed.

Lemma steady_tick_remaining ris visited :
  forall w w',
    tick_remaining MinPlacements Candidate MayActivate MayDeactivate MayDrop Put
      SplitCheck w ris visited = Some w' ->
    steady w w'.
Proof.
  induction ris as [|ri rest IH]; intros w w'; simpl.
  - intros H; inversion H; subst. apply steady_refl.
  - destruct (ks w !! ri) as [r|]; [simpl|discriminate].
    case_bool_decide; [apply IH|]. case_bool_decide; [apply IH|].
    destruct (tickRange MinPlacements Candidate MayActivate MayDeactivate MayDrop Put
                SplitCheck w ri None) as [w1|] eqn:Ht; [simpl|discriminate].
    intros Hx. apply IH in Hx. apply steady_tickRange in Ht.
    exact (steady_trans _ _ _ Ht Hx).
Qed.

Lemma steady_tick_rest rs w w' :
  tick_rest MinPlacements Candidate MayActivate MayDeactivate MayDrop Put
    SplitCheck Operations Complete rs w = Some w' ->
  steady w w'.
Proof.
  unfold tick_rest.
  destruct (Operations (ks w)) as [ops|].
  - destruct (tick_operations _ _ _ _ _ _ _ _ w ops ∅) as [[w1 v]|] eqn:Ho;
      [simpl|discriminate].
    intros H. apply steady_tick_remaining in H. apply steady_tick_operations in Ho.
    exact (steady_trans _ _ _ Ho H).
  - simpl. apply steady_tick_remaining.
Qed.

(** A tick keeps the invariant. *)
Lemma steady_Tick w w' :
  Tick MinPlacements Candidate MayActivate MayDeactivate MayDrop Put
    SplitCheck JoinCheck Operations Complete w = Some w' ->
  steady w w'.
Proof.
  unfold Tick. intros H. apply steady_tick_rest in H.
  exact (steady_trans _ _ _ (steady_apply_joins w) H).
Qed.

(** So does every input that is let in. *)
Lemma safe_step w i w' :
  step (Tick MinPlacements Candidate MayActivate MayDeactivate MayDrop Put
          SplitCheck JoinCheck Operations Complete) w i = Some w' ->
  safe w -> safe w'.
Proof.
  destruct i as [|m|os|oj|nID rID s]; simpl.
  - intros H. apply steady_Tick in H. apply H.
  - intros H; inversion H; subst. exact (fun S => S).
  - intros H; inversion H; subst. exact (fun S => S).
  - intros H; inversion H; subst. exact (fun S => S).
  - destruct (in_step (observe w nID rID s)) eqn:Hin; [|discriminate].
    intros H; inversion H; subst. intros [_ Hk]. split; [exact Hin|exact Hk].
Qed.

Lemma safe_run inputs :
  forall w w',
    run (Tick MinPlacements Candidate MayActivate MayDeactivate MayDrop Put
           SplitCheck JoinCheck Operations Complete) inputs w = Some w' ->
    safe w -> safe w'.
Proof.
  induction inputs as [|i rest IH]; intros w w'; simpl.
  - intros H; inversion H; subst. tauto.
  - destruct (step _ w i) as [w1|] eqn:Hs; [simpl|discriminate].
    intros H Hw. apply (IH w1 w' H). eapply safe_step; eassumption.
Qed.

End GatedFacts.



Lemma safe_at_most_one_active w :
  Serving.safe w -> Orchestrator.at_most_one_active w.
Proof.
  intros [_ Hk] k. specialize (Hk k).
  pose proof (count_active_le_serving (Orchestrator.ks w) k). lia.
Qed.






(** The same with the gates of the spec, from a move under way: the
    destination reports the range active while the source is active, and
    the next tick has both placements active. *)
Example destination_active_too_early :
  exists w,
    Modelled.run Modelled.MayActivate Modelled.MayDeactivate Modelled.MayDrop
      destination_reports_active (move_under_way Api.PsActive []) = Some w
    /\ Orchestrator.count_active (Orchestrator.ks (move_under_way Api.PsActive [])) "k"
       = 1%nat
    /\ Orchestrator.count_active (Orchestrator.ks w) "k" = 2%nat.
Proof. eexists. split; [vm_compute; reflexivity|split; vm_compute; reflexivity]. Qed.

(** With the exclusive gate a move goes through as well: the range of a
    fresh cluster is placed on [aaa] and handed over to [bbb]. *)
Example handing_over_exclusive :
  (fun w => Orchestrator.ks w)
    <$> Serving.run Serving.exclusive_Tick handing_over fresh_cluster
  = Some (one_range [placed "aaa" "" Api.PsInactive Api.PsInactive;
                     placed "bbb" "aaa" Api.PsActive Api.PsActive]).
Proof. vm_compute. reflexivity. Qed.

(** The responses of the counterexample are not let in: when node [bbb]
    reports the range active, its placement has not been told to become
    active. *)
Example premature_reports_not_in_step :
  exists w,
    Modelled.run Modelled.MayActivate Modelled.MayDeactivate Modelled.MayDrop
      (take 9 premature_reports) fresh_cluster = Some w
    /\ premature_reports !! 9%nat = Some (Modelled.Observe "bbb" 1 Api.NsActive)
    /\ Serving.in_step (Orchestrator.observe w "bbb" 1 Api.NsActive) = false
    /\ Serving.run Modelled.Tick premature_reports fresh_cluster = None.
Proof. eexists. split; [vm_compute; reflexivity|]. repeat split; vm_compute; reflexivity. Qed.

(** The gate as section 4.4 of the spec words it is not exclusive.  A range
    is split, and its left half is split again while the right half is still
    activating: the first split is not complete, so the left half is at once
    a child of the first operation and the parent of the second.  It is
    deactivated for the second, and its own children are told to activate;
    then the gate lets it through again for the first, whose parent is
    inactive.  Every response is one the node has been told to give, and
    the key [a] ends up covered by two active placements. *)
Example second_split_both_active :
  Serving.in_step range_on_aaa = true
  /\ Orchestrator.count_active (Orchestrator.ks range_on_aaa) "a" = 1%nat
  /\ exists w,
       Serving.run Modelled.Tick second_split_early range_on_aaa = Some w
       /\ Orchestrator.count_active (Orchestrator.ks w) "a" = 2%nat.
Proof.
  split; [vm_compute; reflexivity|]. split; [vm_compute; reflexivity|].
  eexists. split; vm_compute; reflexivity.
Qed.

Lemma spec_gate_not_exclusive : ~ Serving.exclusive Modelled.MayActivate.
Proof.
  intros Hex.
  destruct second_split_both_active as (Hin & _ & w & Hrun & Hw).
  assert (Hs : Serving.safe range_on_aaa).
  { split; [exact Hin|]. intros k.
    eapply Nat.le_trans; [apply count_serving_le_all|]. vm_compute. lia. }
  pose proof (safe_run Modelled.MinPlacements Modelled.Candidate
                Modelled.MayActivate Modelled.MayDeactivate Modelled.MayDrop
                Modelled.Put Modelled.SplitCheck Modelled.JoinCheck
                Modelled.Operations Modelled.Complete Hex _ _ _ Hrun Hs) as Hs'.
  pose proof (safe_at_most_one_active w Hs' "a") as H. rewrite Hw in H. lia.
Qed.

(* ----------------------------------------------------------------- *)
(** ** The orchestrator: the order of a tick                           *)
(* ----------------------------------------------------------------- *)

Section TraceFacts.
Import Api Catalog Orchestrator.
Variable P : Event -> bool.




Lemma grows_emit w w' es :
  grows P w w' -> Forall (fun e => P e = true) es -> grows P w (emit w' es).
Proof.
  intros (e1 & H1 & F1) F. exists (e1 ++ es). split.
  - simpl. rewrite H1, app_assoc. reflexivity.
  - apply Forall_app. split; assumption.
Qed.

Lemma grows_new_events w w' :
  grows P w w' ->
  trace w' = trace w ++ new_events w w'
  /\ Forall (fun e => P e = true) (new_events w w').
Proof.
  intros (es & H & F). unfold new_events. rewrite H, drop_app_length. tauto.
Qed.

Lemma grows_fail w w' ch e :
  P (Send 0 e) = true -> P (Close 0) = true ->
  (forall c, P (Send c e) = P (Send 0 e)) -> (forall c, P (Close c) = P (Close 0)) ->
  grows P w w' -> grows P w (fail w' ch e).
Proof.
  intros HS HC HS' HC' H. unfold fail. destruct ch as [c|]; [|exact H].
  apply grows_emit; [exact H|]. repeat constructor; congruence.
Qed.

End TraceFacts.

Section OrderFacts.
Import Api Catalog Orchestrator.
Variable MinPlacements : Range -> nat.
Variable Candidate :
  gmap string Node -> list Range -> option Range -> Api.NodeID -> option Api.NodeID.
Variable MayActivate MayDeactivate MayDrop :
  option Operation -> list Range -> Placement -> Range -> bool.
Variable Put : RangeID -> Placement -> bool.
Variable SplitCheck : list Range -> Range -> Key -> bool.
Variable JoinCheck : list Range -> Range -> Range -> bool.
Variable Operations : list Range -> option (list Operation).
Variable Complete : Operation -> list Range -> bool.


Lemma join_fail w w' ch e : grows of_join w w' -> grows of_join w (fail w' ch e).
Proof. apply grows_fail; reflexivity. Qed.













Abbreviation tickRange' :=
  (tickRange MinPlacements Candidate MayActivate MayDeactivate MayDrop Put SplitCheck).






End OrderFacts.

(** *** The loop over the joins *)

Section JoinLoopFacts.
Import Api Catalog Orchestrator.
Variable Candidate :
  gmap string Node -> list Range -> option Range -> Api.NodeID -> option Api.NodeID.
Variable JoinCheck : list Range -> Range -> Range -> bool.

Lemma join_NewPlacement w ri nID :
  trace (NewPlacement w ri nID) = trace w
  /\ opMoves (NewPlacement w ri nID) = opMoves w
  /\ opSplits (NewPlacement w ri nID) = opSplits w.
Proof. repeat split. Qed.












End JoinLoopFacts.



(** The two joins of the example.  The first is accepted: when the loop is
    done the ranges 1 and 2 are subsuming and the range 3 is there with its
    placement on [ccc], and the rest of the same tick enters the three
    ranges and tells that placement to prepare, as the first tick of the
    join in the orchestrator's tests has it.  The second is rejected. *)
Example joins_of_the_example :
  Modelled.Tick joins_requested = Some joins_ticked
  /\ Orchestrator.join_error Modelled.Candidate Modelled.JoinCheck joins_requested
       (Orchestrator.mkOpJoin 1 2 "ccc" (Some 4%nat)) = None
  /\ Orchestrator.ks (Orchestrator.apply_joins Modelled.Candidate Modelled.JoinCheck
                        joins_requested)
     = [ {| Catalog.Meta := Api.mkMeta 1 "" "ggg"; Catalog.State := Api.RsSubsuming;
            Catalog.Parents := []; Catalog.Children := [3%Z];
            Catalog.Placements := [placed "aaa" "" Api.PsActive Api.PsActive] |};
         {| Catalog.Meta := Api.mkMeta 2 "ggg" ""; Catalog.State := Api.RsSubsuming;
            Catalog.Parents := []; Catalog.Children := [3%Z];
            Catalog.Placements := [placed "bbb" "" Api.PsActive Api.PsActive] |};
         {| Catalog.Meta := Api.mkMeta 3 "" ""; Catalog.State := Api.RsActive;
            Catalog.Parents := [1%Z; 2%Z]; Catalog.Children := [];
            Catalog.Placements := [Orchestrator.new_placement "ccc" ""] |} ]
  /\ Orchestrator.join_error Modelled.Candidate Modelled.JoinCheck
       (Orchestrator.apply_join Modelled.Candidate Modelled.JoinCheck joins_requested
          (Orchestrator.mkOpJoin 1 2 "ccc" (Some 4%nat)))
       (Orchestrator.mkOpJoin 7 8 "" (Some 5%nat))
     = Some (Orchestrator.ErrJoinLeft 7).
Proof. repeat split; vm_compute; reflexivity. Qed.

(** The refused join of the example: the error goes to channel 5, which is
    closed, before the range is entered. *)
Example join_refused_trace :
  Modelled.Tick join_refused = Some join_refused_ticked
  /\ Orchestrator.join_error Modelled.Candidate Modelled.JoinCheck join_refused
       (Orchestrator.mkOpJoin 7 8 "" (Some 5%nat))
     = Some (Orchestrator.ErrJoinLeft 7).
Proof. split; vm_compute; reflexivity. Qed.

(* ----------------------------------------------------------------- *)
(** ** The actuator: how often an action is attempted                  *)
(* ----------------------------------------------------------------- *)

Section ActuatorFacts.
Import Api Catalog Orchestrator Actuator.
Variable dropLimit : option nat.
Variable respond : Respond.
Variable rID : RangeID.










End ActuatorFacts.

Section GivingUp.
Import Api Catalog Orchestrator.
Variable MayActivate MayDeactivate MayDrop :
  option Operation -> list Range -> Placement -> Range -> bool.
Variable Put : RangeID -> Placement -> bool.






End GivingUp.

Section FailedFacts.
Import Api Catalog Orchestrator Actuator.



End FailedFacts.




(** The limit for drops that the tests of the orchestrator allow.
    [TestMoveFailure_DropRange] sees five drops fail and the sixth succeed;
    the tests of a split and of a join with a failing drop expect the
    cluster to come to rest, with the placement failed for [Drop], within
    the fifty ticks of [tickUntilStable].  The three pass together for the
    limits from 6 to 43, and for no other limit below 50; without a limit
    the first passes and the other two fail. *)
Example drop_limit_of_the_tests :
  (fun d => OrchestratorTest.TestMoveFailure_DropRange (Some d)
            && OrchestratorTest.TestSplitFailure_DropRange_Short (Some d)
            && OrchestratorTest.TestJoinFailure_DropRange_Short (Some d))
    <$> seq 0 50
  = replicate 6 false ++ replicate 38 true ++ replicate 6 false
  /\ OrchestratorTest.TestMoveFailure_DropRange None = true
  /\ (fun d => OrchestratorTest.TestMoveFailure_DropRange (Some d)) <$> seq 0 8
     = replicate 6 false ++ replicate 2 true
  /\ (fun d => OrchestratorTest.TestMoveFailure_PrepareDropRange (Some d)) <$> seq 1 8
     = replicate 8 true.
Proof. repeat split; vm_compute; reflexivity. Qed.

(** The move of the tests when [Prepare] or [Activate] fails on the
    destination: the command is sent three times, and the new placement
    is destroyed. *)
Example move_prepare_fails :
  (fun '(w, cs) => (placements_of (Some w), cs))
    <$> Actuator.rounds None (Actuator.failing Api.Prepare "bbb") 6 move_requested
  = Some (Some [[("aaa", Api.PsActive)]],
          replicate 3 (Actuator.mkCommand Api.Prepare 1 "bbb")).
Proof. vm_compute. reflexivity. Qed.

Example move_activate_fails :
  (fun '(w, cs) =>
     (placements_of (Some w),
      length (filter (fun c => Actuator.cmd_action c = Api.Activate
                               /\ Actuator.cmd_node c = "bbb") cs)))
    <$> Actuator.rounds None (Actuator.failing Api.Activate "bbb") 12 move_requested
  = Some (Some [[("aaa", Api.PsActive)]], 3%nat).
Proof. vm_compute. reflexivity. Qed.

(* ----------------------------------------------------------------- *)
(** ** The durable placement over many calls                           *)
(* ----------------------------------------------------------------- *)

Section DurableCallsFacts.
Import Durable DurableCalls.

(** What one call keeps: it enters neither [SpUnknown] nor [SpFetchFailed],
    it leaves a dropped placement alone, and a placement that it drops has
    lost its node. *)
Lemma ToState_keeps Put p new :
  let p' := after (ToState Put p new) in
  (State p' = SpUnknown -> State p = SpUnknown)
  /\ (State p' = SpFetchFailed -> State p = SpFetchFailed)
  /\ (State p = SpDropped -> p' = p)
  /\ (State p <> SpDropped -> State p' = SpDropped -> NodeID p' = "").
Proof.
  destruct p as [n s]. unfold ToState. simpl.
  destruct new, s; simpl; repeat case_decide; try discriminate; simpl;
    try (destruct (Put _); simpl);
    (split; [|split; [|split]]); intros; try discriminate; try congruence;
    try reflexivity.
Qed.

Lemma ToStates_keeps calls :
  forall p,
    let p' := after (ToStates p calls) in
    (State p' = SpUnknown -> State p = SpUnknown)
    /\ (State p' = SpFetchFailed -> State p = SpFetchFailed)
    /\ (State p = SpDropped -> p' = p)
    /\ (State p <> SpDropped -> State p' = SpDropped -> NodeID p' = "").
Proof.
  induction calls as [|[new Put] calls IH]; intros p; simpl.
  - repeat split; intros; congruence.
  - pose proof (ToState_keeps Put p new) as (H1 & H2 & H3 & H4).
    destruct (ToState Put p new) as [p1 e|p1 msg] eqn:E; simpl in *.
    + destruct (IH p1) as (I1 & I2 & I3 & I4).
      split; [|split; [|split]].
      * intros H. apply H1, I1, H.
      * intros H. apply H2, I2, H.
      * intros H. rewrite (H3 H) in *. apply I3, H.
      * intros Hn Hd. destruct (decide (State p1 = SpDropped)) as [Hp1|Hp1].
        -- rewrite (I3 Hp1). apply H4; assumption.
        -- apply I4; assumption.
    + split; [exact H1|]. split; [exact H2|]. split; [exact H3|exact H4].
Qed.

End DurableCallsFacts.

(** A placement made by [NewPlacement] is pending, and whatever calls of
    [ToState] follow, with whatever answers of the store, it is never in
    [SpUnknown] or in [SpFetchFailed]; once it is dropped it has no node and
    no call changes it any more. *)
Theorem new_placement_states (next next' : option Durable.DurablePlacement)
  (nodeID : string) (p : Durable.DurablePlacement)
  (calls more : list (Durable.StatePlacement
                      * (Durable.DurablePlacement -> option string))) :
  DurableCalls.NewPlacement next nodeID = (next', inr p) ->
  let p' := Durable.after (DurableCalls.ToStates p calls) in
  Durable.State p' <> Durable.SpUnknown
  /\ Durable.State p' <> Durable.SpFetchFailed
  /\ (Durable.State p' = Durable.SpDropped ->
      Durable.NodeID p' = ""
      /\ Durable.after (DurableCalls.ToStates p' more) = p').
Proof.
  intros HN p'. unfold DurableCalls.NewPlacement in HN.
  destruct next; [discriminate|]. injection HN as _ <-.
  pose proof (ToStates_keeps calls (Durable.mkDurablePlacement nodeID Durable.SpPending))
    as (H1 & H2 & _ & H4).
  fold p' in H1, H2, H4. simpl in *.
  split; [intros H; discriminate (H1 H)|].
  split; [intros H; discriminate (H2 H)|].
  intros Hd. split; [apply H4; [discriminate|exact Hd]|].
  destruct (ToStates_keeps more p') as (_ & _ & H3 & _). apply H3, Hd.
Qed.

Lemma new_placement_states_witness :
  let p' := Durable.after
              (DurableCalls.ToStates (Durable.mkDurablePlacement "aaa" Durable.SpPending)
                 [(Durable.SpReady, fun _ => None);
                  (Durable.SpTaken, fun _ => None);
                  (Durable.SpDropped, fun _ => None)]) in
  Durable.State p' <> Durable.SpUnknown
  /\ Durable.State p' <> Durable.SpFetchFailed
  /\ (Durable.State p' = Durable.SpDropped ->
      Durable.NodeID p' = ""
      /\ Durable.after (DurableCalls.ToStates p' [(Durable.SpReady, fun _ => None)]) = p').
Proof.
  apply (new_placement_states None
           (Some (Durable.mkDurablePlacement "aaa" Durable.SpPending)) "aaa").
  reflexivity.
Defined.

(* ----------------------------------------------------------------- *)
(** ** The node of the key-value example                               *)
(* ----------------------------------------------------------------- *)

Section NodeFacts.
Import Node.

Lemma length_zeros n : String.length (zeros n) = n.
Proof. induction n; simpl; congruence. Qed.

Lemma append_cons c (a b : string) :
  String.append (String c a) b = String c (String.append a b).
Proof. reflexivity. Qed.

Lemma append_empty (b : string) : String.append "" b = b.
Proof. reflexivity. Qed.

Lemma length_append (a b : string) :
  String.length (String.append a b) = (String.length a + String.length b)%nat.
Proof. induction a; rewrite ?append_cons, ?append_empty; simpl; congruence. Qed.

Lemma append_assoc (a b c : string) :
  String.append (String.append a b) c = String.append a (String.append b c).
Proof. induction a; rewrite ?append_cons, ?append_empty; simpl; congruence. Qed.

Lemma take_bytes_append (a b : string) :
  take_bytes (String.length a) (String.append a b) = a.
Proof.
  induction a; rewrite ?append_cons, ?append_empty; simpl;
    [destruct b|]; congruence.
Qed.

Lemma drop_bytes_append (a b : string) :
  drop_bytes (String.length a) (String.append a b) = b.
Proof. induction a; rewrite ?append_cons, ?append_empty; simpl; congruence. Qed.

Lemma TrimRight_zeros n : TrimRight_NUL (zeros n) = "".
Proof. induction n; simpl; [|rewrite IHn]; reflexivity. Qed.

Lemma TrimRight_append_zeros s n :
  TrimRight_NUL (String.append s (zeros n)) = TrimRight_NUL s.
Proof.
  induction s as [|c s IH]; rewrite ?append_cons, ?append_empty; simpl.
  - apply TrimRight_zeros.
  - rewrite IH. reflexivity.
Qed.

Lemma of_byte_of v : of_byte (byte_of v) = Z.land v 255.
Proof.
  unfold of_byte, byte_of.
  assert (0 <= Z.land v 255 < 256)%Z.
  { change 255%Z with (Z.ones 8). rewrite Z.land_ones by lia.
    change (2 ^ 8)%Z with 256%Z. apply Z.mod_pos_bound. lia. }
  rewrite Ascii.N_ascii_embedding by lia. lia.
Qed.

Lemma byte_of_bit v k n :
  (0 <= k)%Z -> (0 <= n)%Z ->
  Z.testbit (Z.shiftl (Z.land (Z.shiftr v k) 255) k) n
  = Z.testbit v n && (k <=? n)%Z && (n <? k + 8)%Z.
Proof.
  intros Hk Hn. change 255%Z with (Z.ones 8).
  rewrite Z.shiftl_spec, Z.land_spec, Z.testbit_ones by lia.
  destruct (Z.leb_spec k n).
  - rewrite Z.shiftr_spec by lia. replace (n - k + k)%Z with n by lia.
    destruct (Z.leb_spec 0 (n - k)); [|lia].
    destruct (Z.ltb_spec (n - k) 8), (Z.ltb_spec n (k + 8)); try lia;
      destruct (Z.testbit v n); reflexivity.
  - rewrite (Z.testbit_neg_r _ (n - k)) by lia.
    destruct (Z.testbit v n); reflexivity.
Qed.

Lemma Uint64_PutUint64 v :
  (0 <= v < 2 ^ 64)%Z -> Uint64 (PutUint64 v) = v.
Proof.
  intros Hv. unfold Uint64, PutUint64, at_byte. simpl.
  rewrite !of_byte_of.
  rewrite <- (Z.shiftl_0_r (Z.land v 255)).
  rewrite <- (Z.shiftr_0_r v) at 1.
  apply Z.bits_inj'. intros n Hn.
  rewrite !Z.lor_spec, !byte_of_bit by lia.
  assert (Hb : (64 <= n)%Z -> Z.testbit v n = false).
  { intros Hge. destruct (Z.eq_dec v 0) as [->|]; [apply Z.bits_0|].
    apply Z.bits_above_log2; [lia|].
    apply Z.lt_le_trans with 64%Z; [|lia].
    apply Z.log2_lt_pow2; lia. }
  destruct (Z.testbit v n) eqn:Eb; simpl; [|reflexivity].
  assert (Hlt : (n < 64)%Z).
  { destruct (Z_lt_le_dec n 64) as [Hlt|Hge]; [exact Hlt|].
    discriminate (Hb Hge). }
  assert (Hc : (n < 8 \/ 8 <= n < 16 \/ 16 <= n < 24 \/ 24 <= n < 32 \/
                32 <= n < 40 \/ 40 <= n < 48 \/ 48 <= n < 56 \/ 56 <= n)%Z) by lia.
  repeat (destruct Hc as [Hc|Hc]);
    repeat match goal with
    | |- context [(?a <=? ?b)%Z] =>
        first [ rewrite (proj2 (Z.leb_le a b)) by lia
              | rewrite (proj2 (Z.leb_gt a b)) by lia ]
    | |- context [(?a <? ?b)%Z] =>
        first [ rewrite (proj2 (Z.ltb_lt a b)) by lia
              | rewrite (proj2 (Z.ltb_ge a b)) by lia ]
    end; reflexivity.
Qed.

Lemma length_PutUint64 v : String.length (PutUint64 v) = 8%nat.
Proof. reflexivity. Qed.

Lemma parseIdent_Some scope key :
  (String.length scope <= 32)%nat ->
  parseIdent (Some (scope, key))
  = inr (String.append (String.append scope (zeros (32 - String.length scope)))
                       (PutUint64 key)).
Proof.
  intros H. unfold parseIdent, GetScope, GetKey. simpl.
  case_bool_decide as Hd; [lia|]. rewrite append_assoc. reflexivity.
Qed.

Lemma Decode_parseIdent scope key id :
  (0 <= key < 2 ^ 64)%Z ->
  parseIdent (Some (scope, key)) = inr id ->
  String.length id = 40%nat /\ Decode id = (TrimRight_NUL scope, key).
Proof.
  intros Hk Hp.
  assert (Hl : (String.length scope <= 32)%nat).
  { unfold parseIdent, GetScope in Hp. simpl in Hp.
    case_bool_decide as Hd; [discriminate|lia]. }
  rewrite parseIdent_Some in Hp by exact Hl. injection Hp as <-.
  assert (Hlen : String.length
            (String.append scope (zeros (32 - String.length scope))) = 32%nat).
  { rewrite length_append, length_zeros. lia. }
  split.
  - rewrite length_append, Hlen. reflexivity.
  - unfold Decode. rewrite <- Hlen at 1 3.
    rewrite take_bytes_append, drop_bytes_append, TrimRight_append_zeros.
    rewrite Uint64_PutUint64 by exact Hk. reflexivity.
Qed.

Lemma zeros_add a b : zeros (a + b) = String.append (zeros a) (zeros b).
Proof. induction a; simpl; [reflexivity|]. rewrite IHa. reflexivity. Qed.

Lemma TrimRight_pad s :
  (String.length (TrimRight_NUL s) <= String.length s)%nat
  /\ s = String.append (TrimRight_NUL s)
           (zeros (String.length s - String.length (TrimRight_NUL s))).
Proof.
  induction s as [|c s [IHl IHe]]; simpl; [split; reflexivity|].
  destruct (bool_decide (TrimRight_NUL s = "")) eqn:Et; simpl.
  - apply bool_decide_eq_true in Et. rewrite Et in *. simpl in *.
    case_bool_decide as Hc; simpl.
    + split; [lia|]. rewrite append_empty. subst c.
      rewrite append_empty, Nat.sub_0_r in IHe. rewrite <- IHe. reflexivity.
    + split; [lia|]. rewrite append_cons, append_empty.
      rewrite append_empty in IHe. rewrite <- IHe. reflexivity.
  - split; [lia|]. rewrite append_cons. rewrite <- IHe. reflexivity.
Qed.

Lemma pad_TrimRight s :
  (String.length s <= 32)%nat ->
  String.append s (zeros (32 - String.length s))
  = String.append (TrimRight_NUL s)
      (zeros (32 - String.length (TrimRight_NUL s))).
Proof.
  intros Hl. destruct (TrimRight_pad s) as [Hle He].
  rewrite He at 1. rewrite append_assoc, <- zeros_add. f_equal. f_equal. lia.
Qed.

Lemma parseIdent_TrimRight scope key :
  (String.length scope <= 32)%nat ->
  parseIdent (Some (TrimRight_NUL scope, key)) = parseIdent (Some (scope, key)).
Proof.
  intros Hl. destruct (TrimRight_pad scope) as [Hle _].
  rewrite !parseIdent_Some by lia. rewrite <- pad_TrimRight by exact Hl.
  reflexivity.
Qed.

Lemma TrimRight_idem s : TrimRight_NUL (TrimRight_NUL s) = TrimRight_NUL s.
Proof.
  destruct (TrimRight_pad s) as [_ He].
  rewrite He at 2. rewrite TrimRight_append_zeros. reflexivity.
Qed.

Lemma parseIdent_canonical pbid id :
  is_uint64 (GetKey pbid) = true ->
  parseIdent pbid = inr id -> canonical id.
Proof.
  intros Hk Hp. unfold canonical.
  assert (Hp' : parseIdent (Some (GetScope pbid, GetKey pbid)) = inr id)
    by exact Hp.
  assert (Hl : (String.length (GetScope pbid) <= 32)%nat).
  { unfold parseIdent in Hp. case_bool_decide as Hd; [discriminate|lia]. }
  unfold is_uint64 in Hk. apply andb_prop in Hk. destruct Hk as [H0 H1].
  apply Z.leb_le in H0. apply Z.ltb_lt in H1.
  destruct (Decode_parseIdent _ _ _ (conj H0 H1) Hp') as [_ ->].
  rewrite parseIdent_TrimRight by exact Hl. exact Hp'.
Qed.

Lemma index_of_None id rs :
  index_of id rs = None <-> id ∉ (ident <$> rs).
Proof.
  induction rs as [|r rs IH]; simpl.
  - split; [intros _; apply not_elem_of_nil|reflexivity].
  - rewrite not_elem_of_cons. case_bool_decide as Hd.
    + split; [discriminate|]. intros [Hn _]. congruence.
    + destruct (index_of id rs); simpl.
      * split; [discriminate|]. intros [_ Hn]. apply IH in Hn. discriminate.
      * split; [|reflexivity]. intros _. split; [congruence|]. apply IH. reflexivity.
Qed.

Lemma index_of_Some id rs i :
  index_of id rs = Some i ->
  exists l1 r l2, rs = l1 ++ r :: l2 /\ length l1 = i /\ ident r = id
                  /\ id ∉ (ident <$> l1).
Proof.
  revert i. induction rs as [|r rs IH]; simpl; intros i H; [discriminate|].
  case_bool_decide as Hd.
  - injection H as <-. exists [], r, rs. repeat split; [exact Hd|apply not_elem_of_nil].
  - destruct (index_of id rs) as [j|]; [|discriminate]. injection H as <-.
    destruct (IH j eq_refl) as (l1 & r' & l2 & -> & Hl & Hr & Hn).
    exists (r :: l1), r', l2. repeat split; [simpl; congruence|exact Hr|].
    simpl. rewrite not_elem_of_cons. split; [congruence|exact Hn].
Qed.

Lemma Remove_Some rs id i :
  index_of id rs = Some i ->
  exists l1 r l2 rs', rs = l1 ++ r :: l2 /\ ident r = id /\ (id ∉ ident <$> l1)
    /\ Remove rs id = Some rs'
    /\ (l2 = [] /\ rs' = l1 \/ exists l2' z, l2 = l2' ++ [z] /\ rs' = l1 ++ z :: l2').
Proof.
  intros H. destruct (index_of_Some _ _ _ H) as (l1 & r & l2 & Hrs & Hl & Hr & Hn).
  destruct l2 as [|z l2 _] using rev_ind.
  - exists l1, r, [], l1. repeat split; [exact Hrs|exact Hr|exact Hn| |left; split; reflexivity].
    unfold Remove. rewrite H. subst rs. simpl. rewrite last_snoc. simpl. f_equal.
    rewrite <- Hl.
    rewrite insert_app_r_alt by lia. rewrite Nat.sub_diag. simpl.
    rewrite length_app. simpl.
    replace (length l1 + 1 - 1)%nat with (length l1) by lia.
    rewrite take_app_length. reflexivity.
  - exists l1, r, (l2 ++ [z]), (l1 ++ z :: l2).
    repeat split; [exact Hrs|exact Hr|exact Hn| |right; exists l2, z; split; reflexivity].
    unfold Remove. rewrite H. subst rs. simpl.
    replace (l1 ++ r :: l2 ++ [z]) with ((l1 ++ r :: l2) ++ [z])
      by (rewrite <- app_assoc; reflexivity).
    rewrite last_snoc. simpl. f_equal. rewrite <- Hl.
    rewrite <- app_assoc. simpl.
    rewrite insert_app_r_alt by lia. rewrite Nat.sub_diag. simpl.
    rewrite !length_app. simpl. rewrite length_app. simpl.
    replace (length l1 + S (length l2 + 1) - 1)%nat
      with (length l1 + S (length l2))%nat by lia.
    rewrite take_app_add' by reflexivity. f_equal.
    simpl. f_equal. rewrite take_app_length. reflexivity.
Qed.

Lemma Remove_cases rs id :
  match Remove rs id with
  | Some rs' => exists r, ident r = id /\ rs ≡ₚ r :: rs'
  | None => id ∉ (ident <$> rs)
  end.
Proof.
  destruct (index_of id rs) as [i|] eqn:E.
  - destruct (Remove_Some _ _ _ E)
      as (l1 & r & l2 & rs' & -> & Hr & _ & -> & [[-> ->]|(l2' & z & -> & ->)]).
    + exists r. split; [exact Hr|]. rewrite Permutation_app_comm. reflexivity.
    + exists r. split; [exact Hr|].
      rewrite <- !Permutation_middle. apply perm_skip.
      rewrite app_nil_r. reflexivity.
  - unfold Remove. rewrite E. simpl. apply index_of_None. exact E.
Qed.

Lemma Remove_fresh_last rs r :
  ident r ∉ (ident <$> rs) -> Remove (Add rs r) (ident r) = Some rs.
Proof.
  intros Hn. unfold Add.
  assert (E : index_of (ident r) (rs ++ [r]) = Some (length rs)).
  { induction rs as [|r0 rs IH]; simpl.
    - rewrite bool_decide_eq_true_2 by reflexivity. reflexivity.
    - simpl in Hn. rewrite not_elem_of_cons in Hn. destruct Hn as [Hne Hn].
      rewrite bool_decide_eq_false_2 by congruence.
      rewrite (IH Hn). reflexivity. }
  unfold Remove. rewrite E. simpl. rewrite last_snoc. simpl. f_equal.
  rewrite length_app. simpl.
  replace (length rs + 1 - 1)%nat with (length rs) by lia.
  rewrite insert_app_r_alt by lia. rewrite Nat.sub_diag. simpl.
  apply take_app_length.
Qed.

Lemma Find_Some rs k id :
  Find rs k = Some id ->
  exists rm, rm ∈ rs /\ ident rm = id /\ Contains rm k = true.
Proof.
  unfold Find. intros H.
  destruct (head (filter (fun rm => Contains rm k = true) rs)) as [rm|] eqn:E;
    [|discriminate].
  injection H as <-. exists rm.
  apply head_Some_elem_of in E. apply list_elem_of_filter in E.
  destruct E as [Hc Hin]. repeat split; assumption.
Qed.

Lemma ident_unique rs rm rm' :
  NoDup (ident <$> rs) -> rm ∈ rs -> rm' ∈ rs -> ident rm = ident rm' ->
  rm = rm'.
Proof.
  induction rs as [|r rs IH]; simpl; intros Hnd H1 H2 He.
  - apply elem_of_nil in H1. destruct H1.
  - apply NoDup_cons in Hnd. destruct Hnd as [Hn Hnd].
    apply elem_of_cons in H1. apply elem_of_cons in H2.
    destruct H1 as [->|H1], H2 as [->|H2].
    + reflexivity.
    + exfalso. apply Hn. rewrite He. apply list_elem_of_fmap_2. exact H2.
    + exfalso. apply Hn. rewrite <- He. apply list_elem_of_fmap_2. exact H1.
    + apply IH; assumption.
Qed.

Lemma load_pairs_keys dest pairs d k :
  is_Some (load_pairs dest pairs d !! k) ->
  is_Some (d !! k) \/ Contains dest k = true.
Proof.
  unfold load_pairs. revert d.
  induction pairs as [|[k0 v0] pairs IH]; simpl; intros d H; [left; exact H|].
  apply IH in H. destruct H as [H|H]; [|right; exact H].
  destruct (Contains dest k0) eqn:E; [|left; exact H].
  destruct (decide (k0 = k)) as [->|Hne]; [right; exact E|].
  rewrite lookup_insert_ne in H by exact Hne. left; exact H.
Qed.

Lemma fetchOne_keys d dest addr src a d' e k :
  fetchOne d dest addr src a = Some (d', e) ->
  is_Some (d' !! k) -> is_Some (d !! k) \/ Contains dest k = true.
Proof.
  unfold fetchOne. intros H Hk.
  case_bool_decide as Ha; [injection H as <- <-; left; exact Hk|].
  destruct a; [discriminate| |]; injection H as <- <-.
  - left; exact Hk.
  - apply load_pairs_keys in Hk. exact Hk.
Qed.

Lemma fetch_all_keys dest parents rms sched d failed d' failed' k :
  fetch_all dest parents rms sched d failed = Some (d', failed') ->
  is_Some (d' !! k) -> is_Some (d !! k) \/ Contains dest k = true.
Proof.
  revert d failed.
  induction sched as [|[i a] sched IH]; simpl; intros d failed H Hk.
  - injection H as <- <-. left; exact Hk.
  - destruct (parents !! i) as [p|]; [|exact (IH _ _ H Hk)].
    destruct (rms !! i) as [src|]; [|exact (IH _ _ H Hk)].
    destruct (fetchOne d dest (pl_Node p) src a) as [[d1 e]|] eqn:E; [|discriminate].
    destruct (IH _ _ H Hk) as [H1|H1]; [|right; exact H1].
    exact (fetchOne_keys _ _ _ _ _ _ _ _ E H1).
Qed.

Lemma fetch_all_Some dest parents rms sched d failed :
  forallb arrives sched = true ->
  is_Some (fetch_all dest parents rms sched d failed).
Proof.
  revert d failed.
  induction sched as [|[i a] sched IH]; simpl; intros d failed H; [eexists; reflexivity|].
  apply andb_prop in H. destruct H as [Ha H].
  destruct (parents !! i) as [p|]; [|apply IH, H].
  destruct (rms !! i) as [src|]; [|apply IH, H].
  unfold fetchOne. case_bool_decide as Hd; [apply IH, H|].
  destruct a; [discriminate|apply IH, H|apply IH, H].
Qed.

Lemma parse_parents_Some parents :
  forallb (fun p => bool_decide (is_Some (pl_Range p))) parents = true ->
  is_Some (parse_parents parents).
Proof.
  induction parents as [|p parents IH]; simpl; intros H; [eexists; reflexivity|].
  apply andb_prop in H. destruct H as [Hp H].
  apply bool_decide_eq_true in Hp. destruct Hp as [r ->].
  destruct (parseRangeMeta r); [eexists; reflexivity|].
  destruct (IH H) as [[x|] ->]; eexists; reflexivity.
Qed.

Lemma fetchMany_Some dest parents sched :
  forallb (fun p => bool_decide (is_Some (pl_Range p))) parents = true ->
  forallb arrives sched = true ->
  exists rd, fetchMany (mkRangeData ∅ StateFetching) dest parents sched = Some rd
    /\ (forall k, is_Some (data rd !! k) -> Contains dest k = true)
    /\ (state rd = StateFetched \/ state rd = StateFetchFailed).
Proof.
  intros Hp Hs. unfold fetchMany.
  destruct (parse_parents_Some _ Hp) as [[rms|] ->]; simpl.
  - destruct (fetch_all_Some dest parents rms sched ∅ false Hs) as [[d f] E].
    rewrite E. eexists. split; [reflexivity|]. simpl. split.
    + intros k Hk. destruct (fetch_all_keys _ _ _ _ _ _ _ _ _ E Hk) as [H|H];
        [|exact H].
      rewrite lookup_empty in H. destruct H; discriminate.
    + destruct f; [right|left]; reflexivity.
  - eexists. split; [reflexivity|]. simpl. split; [|right; reflexivity].
    intros k Hk. rewrite lookup_empty in Hk. destruct Hk; discriminate.
Qed.

Lemma consistent_New : consistent New.
Proof.
  unfold consistent, New, NewRanges. simpl. repeat split.
  - apply NoDup_nil_2.
  - intros H. rewrite lookup_empty in H. destruct H; discriminate.
  - intros H. apply elem_of_nil in H. destruct H.
  - intros rm rd k H. apply elem_of_nil in H. destruct H.
Qed.

Lemma consistent_remove n id rs' :
  consistent n -> Remove (node_ranges n) id = Some rs' ->
  consistent (mkNode (delete id (node_data n)) rs') /\ id ∉ (ident <$> rs').
Proof.
  intros (Hnd & Hdom & Hkeys) HR.
  pose proof (Remove_cases (node_ranges n) id) as HC. rewrite HR in HC.
  destruct HC as (r & Hr & HP).
  assert (HP' : ident <$> node_ranges n ≡ₚ id :: (ident <$> rs')).
  { rewrite HP. simpl. rewrite Hr. reflexivity. }
  rewrite HP' in Hnd. apply NoDup_cons in Hnd. destruct Hnd as [Hn Hnd].
  split; [|exact Hn].
  unfold consistent. simpl. repeat split.
  - exact Hnd.
  - intros H. destruct (decide (id0 = id)) as [->|Hne].
    + rewrite lookup_delete_eq in H. destruct H; discriminate.
    + rewrite lookup_delete_ne in H by congruence. apply Hdom in H.
      rewrite HP' in H. apply elem_of_cons in H. destruct H; [contradiction|assumption].
  - intros H. destruct (decide (id0 = id)) as [->|Hne]; [contradiction|].
    rewrite lookup_delete_ne by congruence. apply Hdom. rewrite HP'.
    apply elem_of_cons. right; exact H.
  - intros rm rd k Hin Hd Hk.
    assert (Hne : ident rm <> id).
    { intros <-. apply Hn. apply list_elem_of_fmap_2. exact Hin. }
    rewrite lookup_delete_ne in Hd by congruence.
    apply (Hkeys rm rd k); [|exact Hd|exact Hk].
    rewrite HP. apply elem_of_cons. right; exact Hin.
Qed.

Lemma consistent_add n rm rd :
  consistent n -> ident rm ∉ (ident <$> node_ranges n) ->
  (forall k, is_Some (data rd !! k) -> Contains rm k = true) ->
  consistent (mkNode (<[ident rm := rd]> (node_data n)) (Add (node_ranges n) rm)).
Proof.
  intros (Hnd & Hdom & Hkeys) Hn Hk. unfold consistent, Add. simpl.
  rewrite fmap_app. simpl. repeat split.
  - apply NoDup_app. repeat split; [exact Hnd| |apply NoDup_singleton].
    intros x Hx Hx'. apply list_elem_of_singleton in Hx'. subst x. contradiction.
  - intros H. apply elem_of_app. destruct (decide (id = ident rm)) as [->|Hne].
    + right. apply list_elem_of_singleton. reflexivity.
    + rewrite lookup_insert_ne in H by congruence. left. apply Hdom, H.
  - intros H. apply elem_of_app in H. destruct (decide (id = ident rm)) as [->|Hne].
    + rewrite lookup_insert_eq. eexists; reflexivity.
    + rewrite lookup_insert_ne by congruence. apply Hdom.
      destruct H as [H|H]; [exact H|].
      apply list_elem_of_singleton in H. contradiction.
  - intros r0 rd0 k Hin Hd Hk0. apply elem_of_app in Hin. destruct Hin as [Hin|Hin].
    + assert (Hne : ident r0 <> ident rm).
      { intros He. apply Hn. rewrite <- He. apply list_elem_of_fmap_2. exact Hin. }
      rewrite lookup_insert_ne in Hd by congruence.
      exact (Hkeys r0 rd0 k Hin Hd Hk0).
    + apply list_elem_of_singleton in Hin. subst r0.
      rewrite lookup_insert_eq in Hd. injection Hd as <-. apply Hk, Hk0.
Qed.

Lemma consistent_update n id rd rd' :
  consistent n -> node_data n !! id = Some rd ->
  (forall rm k, rm ∈ node_ranges n -> ident rm = id ->
     is_Some (data rd' !! k) -> Contains rm k = true) ->
  consistent (mkNode (<[id := rd']> (node_data n)) (node_ranges n)).
Proof.
  intros (Hnd & Hdom & Hkeys) Hd Hk. unfold consistent. simpl. repeat split.
  - exact Hnd.
  - intros H. destruct (decide (id0 = id)) as [->|Hne].
    + apply Hdom. eexists; exact Hd.
    + rewrite lookup_insert_ne in H by congruence. apply Hdom, H.
  - intros H. destruct (decide (id0 = id)) as [->|Hne].
    + rewrite lookup_insert_eq. eexists; reflexivity.
    + rewrite lookup_insert_ne by congruence. apply Hdom, H.
  - intros rm rd0 k Hin Hd0 Hk0. destruct (decide (ident rm = id)) as [He|Hne].
    + rewrite <- He, lookup_insert_eq in Hd0. injection Hd0 as <-.
      exact (Hk rm k Hin He Hk0).
    + rewrite lookup_insert_ne in Hd0 by congruence.
      exact (Hkeys rm rd0 k Hin Hd0 Hk0).
Qed.

Lemma consistent_set_state n id rd s :
  consistent n -> node_data n !! id = Some rd ->
  consistent (set_state n id rd s).
Proof.
  intros Hc Hd. unfold set_state. apply (consistent_update n id rd); [exact Hc|exact Hd|].
  simpl. intros rm k Hin <- Hk. destruct Hc as (_ & _ & Hkeys).
  exact (Hkeys rm rd k Hin Hd Hk).
Qed.

Lemma getRangeData_inr n pbi id rd :
  getRangeData n pbi = inr (id, rd) -> node_data n !! id = Some rd.
Proof.
  unfold getRangeData. destruct pbi as [p|]; [|discriminate].
  destruct (parseIdent (Some p)) as [e|id']; [discriminate|].
  destruct (node_data n !! id') as [rd'|] eqn:E; [|discriminate].
  intros H. injection H as <- <-. exact E.
Qed.

Lemma Give_consistent n req sched :
  consistent n -> sound_request (ReqGive req sched) = true ->
  exists n' r, Give n req sched = Some (n', r) /\ consistent n'.
Proof.
  intros Hc Hs. simpl in Hs. apply andb_prop in Hs. destruct Hs as [Hs _].
  apply andb_prop in Hs. destruct Hs as [Hp Hs].
  unfold Give. destruct (give_Range req) as [r|]; [|eexists _, _; split; [reflexivity|exact Hc]].
  destruct (parseRangeMeta r) as [e|rm]; [eexists _, _; split; [reflexivity|exact Hc]|].
  assert (Hrd : exists rd,
    match give_Parents req with
    | [] => Some (mkRangeData ∅ StateReady)
    | _ :: _ => fetchMany (mkRangeData ∅ StateFetching) rm (give_Parents req) sched
    end = Some rd /\ (forall k, is_Some (data rd !! k) -> Contains rm k = true)).
  { destruct (give_Parents req) as [|p ps] eqn:E.
    - eexists. split; [reflexivity|]. simpl. intros k Hk.
      rewrite lookup_empty in Hk. destruct Hk; discriminate.
    - rewrite <- E in *. destruct (fetchMany_Some rm _ _ Hp Hs) as (rd & -> & Hk & _).
      exists rd. split; [reflexivity|exact Hk]. }
  destruct Hrd as (rd & Erd & Hk).
  destruct (node_data n !! ident rm) as [rd0|] eqn:Ed.
  - case_bool_decide as Hst.
    + pose proof (Remove_cases (node_ranges n) (ident rm)) as HC.
      destruct (Remove (node_ranges n) (ident rm)) as [rs'|] eqn:ER.
      * simpl. rewrite Erd. simpl. eexists _, _. split; [reflexivity|].
        destruct (consistent_remove n (ident rm) rs' Hc ER) as [Hc' Hn].
        exact (consistent_add _ rm rd Hc' Hn Hk).
      * exfalso. apply HC. destruct Hc as (_ & Hdom & _). apply Hdom.
        eexists; exact Ed.
    + simpl. eexists _, _. split; [reflexivity|exact Hc].
  - simpl. rewrite Erd. simpl. eexists _, _. split; [reflexivity|].
    apply consistent_add; [exact Hc| |exact Hk].
    destruct Hc as (_ & Hdom & _). intros Hin. apply Hdom in Hin.
    rewrite Ed in Hin. destruct Hin; discriminate.
Qed.

Lemma Serve_consistent n rang force :
  consistent n -> exists n' r, Serve n rang force = Some (n', r) /\ consistent n'.
Proof.
  intros Hc. unfold Serve.
  destruct (getRangeData n rang) as [e|[id rd]] eqn:E;
    [eexists _, _; split; [reflexivity|exact Hc]|].
  destruct (_ && _); eexists _, _; (split; [reflexivity|]); [exact Hc|].
  apply consistent_set_state; [exact Hc|]. exact (getRangeData_inr _ _ _ _ E).
Qed.

Lemma Take_consistent n rang :
  consistent n -> exists n' r, Take n rang = Some (n', r) /\ consistent n'.
Proof.
  intros Hc. unfold Take.
  destruct (getRangeData n rang) as [e|[id rd]] eqn:E;
    [eexists _, _; split; [reflexivity|exact Hc]|].
  destruct (bool_decide _); eexists _, _; (split; [reflexivity|]); [exact Hc|].
  apply consistent_set_state; [exact Hc|]. exact (getRangeData_inr _ _ _ _ E).
Qed.

Lemma Drop_consistent n rang force :
  consistent n -> exists n' r, Drop n rang force = Some (n', r) /\ consistent n'.
Proof.
  intros Hc. unfold Drop.
  destruct (getRangeData n rang) as [e|[id rd]] eqn:E;
    [eexists _, _; split; [reflexivity|exact Hc]|].
  destruct (bool_decide _); [eexists _, _; split; [reflexivity|exact Hc]|].
  destruct (_ && _); [eexists _, _; split; [reflexivity|exact Hc]|].
  pose proof (Remove_cases (node_ranges n) id) as HC.
  destruct (Remove (node_ranges n) id) as [rs'|] eqn:ER.
  - simpl. eexists _, _. split; [reflexivity|].
    exact (proj1 (consistent_remove n id rs' Hc ER)).
  - exfalso. apply HC. destruct Hc as (_ & Hdom & _). apply Hdom.
    eexists. exact (getRangeData_inr _ _ _ _ E).
Qed.

Lemma Info_entries_Some d rs :
  (forall id, id ∈ (ident <$> rs) -> is_Some (d !! id)) ->
  exists infos, Info_entries d rs = Some infos /\ length infos = length rs.
Proof.
  induction rs as [|r rs IH]; simpl; intros H; [eexists; split; reflexivity|].
  destruct (H (ident r)) as [rd ->]; [apply elem_of_cons; left; reflexivity|].
  simpl. destruct IH as (infos & -> & Hl).
  { intros id Hin. apply H. apply elem_of_cons. right; exact Hin. }
  simpl. destruct (Decode (ident r)) as [scope key]. eexists. split; [reflexivity|].
  simpl. congruence.
Qed.

Lemma Get_consistent n k : consistent n -> is_Some (Get n k).
Proof.
  intros (_ & Hdom & _). unfold Get.
  case_bool_decide as Hk; [eexists; reflexivity|].
  destruct (Find (node_ranges n) k) as [id|] eqn:EF; [|eexists; reflexivity].
  destruct (Find_Some _ _ _ EF) as (rm & Hin & Hid & _).
  destruct (proj2 (Hdom id)) as [rd ->].
  { rewrite <- Hid. apply list_elem_of_fmap_2. exact Hin. }
  simpl. destruct (_ && _); [eexists; reflexivity|].
  destruct (data rd !! k); eexists; reflexivity.
Qed.

Lemma Put_consistent n k value :
  consistent n -> exists n' r, Put n k value = Some (n', r) /\ consistent n'.
Proof.
  intros Hc. pose proof Hc as (Hnd & Hdom & Hkeys). unfold Put.
  case_bool_decide as Hk; [eexists _, _; split; [reflexivity|exact Hc]|].
  destruct (Find (node_ranges n) k) as [id|] eqn:EF;
    [|eexists _, _; split; [reflexivity|exact Hc]].
  destruct (Find_Some _ _ _ EF) as (rm & Hin & Hid & Hck).
  destruct (proj2 (Hdom id)) as [rd Hd].
  { rewrite <- Hid. apply list_elem_of_fmap_2. exact Hin. }
  rewrite Hd. simpl.
  destruct (bool_decide _); eexists _, _; (split; [reflexivity|]); [exact Hc|].
  apply (consistent_update n id rd); [exact Hc|exact Hd|].
  simpl. intros rm' k' Hin' Hid' Hk'.
  assert (rm' = rm) as ->.
  { apply (ident_unique (node_ranges n)); [exact Hnd|exact Hin'|exact Hin|congruence]. }
  destruct (decide (k' = k)) as [->|Hne]; [exact Hck|].
  apply (Hkeys rm rd k' Hin); [rewrite Hid; exact Hd|].
  destruct value as [v|].
  - rewrite lookup_insert_ne in Hk' by congruence. exact Hk'.
  - rewrite lookup_delete_ne in Hk' by congruence. exact Hk'.
Qed.

Lemma handle_consistent n r :
  consistent n -> sound_request r = true ->
  exists n', handle n r = Some n' /\ consistent n'.
Proof.
  intros Hc Hs. destruct r; simpl.
  - destruct (Give_consistent n req sched Hc Hs) as (n' & r & -> & Hc').
    exists n'. split; [reflexivity|exact Hc'].
  - destruct (Serve_consistent n rang force Hc) as (n' & r & -> & Hc').
    exists n'. split; [reflexivity|exact Hc'].
  - destruct (Take_consistent n rang Hc) as (n' & r & -> & Hc').
    exists n'. split; [reflexivity|exact Hc'].
  - destruct (Drop_consistent n rang force Hc) as (n' & r & -> & Hc').
    exists n'. split; [reflexivity|exact Hc'].
  - unfold Info. destruct (Info_entries_Some (node_data n) (node_ranges n)) as (i & -> & _).
    { intros id. apply (proj1 (proj2 Hc)). }
    exists n. split; [reflexivity|exact Hc].
  - exists n. split; [reflexivity|exact Hc].
  - destruct (Get_consistent n k Hc) as [r ->].
    exists n. split; [reflexivity|exact Hc].
  - destruct (Put_consistent n k value Hc) as (n' & r & -> & Hc').
    exists n'. split; [reflexivity|exact Hc'].
Qed.

Lemma handle_all_consistent n rs :
  consistent n -> forallb sound_request rs = true ->
  exists n', handle_all n rs = Some n' /\ consistent n'.
Proof.
  revert n. induction rs as [|r rs IH]; simpl; intros n Hc Hs.
  - exists n. split; [reflexivity|exact Hc].
  - apply andb_prop in Hs. destruct Hs as [Hr Hs].
    destruct (handle_consistent n r Hc Hr) as (n' & -> & Hc').
    exact (IH n' Hc' Hs).
Qed.

Lemma Remove_elem rs id rs' rm :
  Remove rs id = Some rs' -> rm ∈ rs' -> rm ∈ rs.
Proof.
  intros HR Hin. pose proof (Remove_cases rs id) as HC. rewrite HR in HC.
  destruct HC as (r & _ & HP). rewrite HP. apply elem_of_cons. right; exact Hin.
Qed.

Lemma handle_ranges n r n' rm :
  handle n r = Some n' -> sound_request r = true ->
  rm ∈ node_ranges n' -> rm ∈ node_ranges n \/ canonical (ident rm).
Proof.
  intros H Hs Hin. destruct r; simpl in H.
  - unfold Give in H. simpl in Hs. apply andb_prop in Hs. destruct Hs as [_ Hk].
    destruct (give_Range req) as [r|]; simpl in *;
      [|injection H as <-; left; exact Hin].
    destruct (parseRangeMeta r) as [e|rm0] eqn:EP; simpl in *;
      [injection H as <-; left; exact Hin|].
    assert (Hcan : canonical (ident rm0)).
    { unfold parseRangeMeta in EP.
      destruct (parseIdent (pb_Ident r)) as [e|id] eqn:EI; [discriminate|].
      injection EP as <-. simpl. exact (parseIdent_canonical _ _ Hk EI). }
    destruct (node_data n !! ident rm0) as [rd0|].
    + destruct (bool_decide (state rd0 = StateFetchFailed)); simpl in H.
      * destruct (Remove (node_ranges n) (ident rm0)) as [rs'|] eqn:ER;
          simpl in H; [|discriminate].
        destruct (match give_Parents req with [] => _ | _ => _ end);
          simpl in H; [|discriminate].
        injection H as <-. simpl in Hin. unfold Add in Hin.
        apply elem_of_app in Hin. destruct Hin as [Hin|Hin].
        -- left. exact (Remove_elem _ _ _ _ ER Hin).
        -- apply list_elem_of_singleton in Hin. subst rm. right; exact Hcan.
      * injection H as <-. left; exact Hin.
    + simpl in H.
      destruct (match give_Parents req with [] => _ | _ => _ end);
        simpl in H; [|discriminate].
      injection H as <-. simpl in Hin. unfold Add in Hin.
      apply elem_of_app in Hin. destruct Hin as [Hin|Hin]; [left; exact Hin|].
      apply list_elem_of_singleton in Hin. subst rm. right; exact Hcan.
  - unfold Serve in H. destruct (getRangeData n rang) as [e|[id rd]];
      [injection H as <-; left; exact Hin|].
    destruct (_ && _); injection H as <-; left; exact Hin.
  - unfold Take in H. destruct (getRangeData n rang) as [e|[id rd]];
      [injection H as <-; left; exact Hin|].
    destruct (bool_decide _); injection H as <-; left; exact Hin.
  - unfold Drop in H. destruct (getRangeData n rang) as [e|[id rd]];
      [injection H as <-; left; exact Hin|].
    destruct (bool_decide _); [injection H as <-; left; exact Hin|].
    destruct (_ && _); [injection H as <-; left; exact Hin|].
    destruct (Remove (node_ranges n) id) as [rs'|] eqn:ER; simpl in H; [|discriminate].
    injection H as <-. left. exact (Remove_elem _ _ _ _ ER Hin).
  - destruct (Info n); simpl in H; [|discriminate]. injection H as <-. left; exact Hin.
  - injection H as <-. left; exact Hin.
  - destruct (Get n k); simpl in H; [|discriminate]. injection H as <-. left; exact Hin.
  - unfold Put in H. destruct (bool_decide (k = ""));
      [injection H as <-; left; exact Hin|].
    destruct (Find (node_ranges n) k); [|injection H as <-; left; exact Hin].
    destruct (node_data n !! s) as [rd|]; simpl in H; [|discriminate].
    destruct (bool_decide _); injection H as <-; left; exact Hin.
Qed.

Lemma handle_all_canonical n rs n' :
  handle_all n rs = Some n' -> forallb sound_request rs = true ->
  (forall rm, rm ∈ node_ranges n -> canonical (ident rm)) ->
  forall rm, rm ∈ node_ranges n' -> canonical (ident rm).
Proof.
  revert n. induction rs as [|r rs IH]; simpl; intros n H Hs Hc.
  - injection H as <-. exact Hc.
  - apply andb_prop in Hs. destruct Hs as [Hr Hs].
    destruct (handle n r) as [n1|] eqn:E; [|discriminate].
    apply (IH n1 H Hs). intros rm Hin.
    destruct (handle_ranges _ _ _ _ E Hr Hin) as [H1|H1]; [apply Hc, H1|exact H1].
Qed.

Lemma Info_entries_elem d rs infos i :
  Info_entries d rs = Some infos -> i ∈ infos ->
  exists r rd, r ∈ rs /\ d !! ident r = Some rd
    /\ i = mkRangeInfo (Decode (ident r)).1 (Decode (ident r)).2
             (start r) (end_ r) (state rd) (size (data rd)).
Proof.
  revert infos. induction rs as [|r rs IH]; simpl; intros infos H Hin.
  - injection H as <-. apply elem_of_nil in Hin. destruct Hin.
  - destruct (d !! ident r) as [rd|] eqn:Ed; simpl in H; [|discriminate].
    destruct (Info_entries d rs) as [rest|]; simpl in H; [|discriminate].
    destruct (Decode (ident r)) as [scope key] eqn:ED.
    injection H as <-. apply elem_of_cons in Hin. destruct Hin as [->|Hin].
    + exists r, rd. split; [apply elem_of_cons; left; reflexivity|].
      split; [exact Ed|]. reflexivity.
    + destruct (IH rest eq_refl Hin) as (r' & rd' & Hr & Hd & Hi).
      exists r', rd'. split; [apply elem_of_cons; right; exact Hr|].
      split; [exact Hd|exact Hi].
Qed.

End NodeFacts.

(** Decoding an identifier that [parseIdent] built gives the key back, and
    the scope without the zero bytes at its end; the identifier is 40 bytes
    long. *)
Theorem Decode_after_parseIdent (scope : string) (key : Z) (id : string) :
  (0 <= key < 2 ^ 64)%Z ->
  Node.parseIdent (Some (scope, key)) = inr id ->
  String.length id = 40%nat /\ Node.Decode id = (Node.TrimRight_NUL scope, key).
Proof. apply Decode_parseIdent. Qed.

Lemma Decode_after_parseIdent_witness :
  String.length ("users" +:+ Node.zeros 27 +:+ Node.PutUint64 258) = 40%nat
  /\ Node.Decode ("users" +:+ Node.zeros 27 +:+ Node.PutUint64 258) = ("users", 258%Z).
Proof.
  apply (Decode_after_parseIdent "users" 258); [lia|reflexivity].
Defined.

(** Two scopes of at most 32 bytes and two keys give the same identifier
    exactly when the keys are the same and the scopes differ at most in the
    zero bytes at their ends. *)
Theorem parseIdent_same_ident (s1 s2 : string) (k1 k2 : Z) :
  (String.length s1 <= 32)%nat -> (String.length s2 <= 32)%nat ->
  (0 <= k1 < 2 ^ 64)%Z -> (0 <= k2 < 2 ^ 64)%Z ->
  Node.parseIdent (Some (s1, k1)) = Node.parseIdent (Some (s2, k2))
  <-> Node.TrimRight_NUL s1 = Node.TrimRight_NUL s2 /\ k1 = k2.
Proof.
  intros H1 H2 Hk1 Hk2. split.
  - intros He.
    pose proof (parseIdent_Some s1 k1 H1) as E1.
    pose proof (parseIdent_Some s2 k2 H2) as E2.
    destruct (Decode_parseIdent _ _ _ Hk1 E1) as [_ D1].
    destruct (Decode_parseIdent _ _ _ Hk2 E2) as [_ D2].
    rewrite E1, E2 in He. injection He as He. rewrite He in D1.
    rewrite D1 in D2. injection D2 as -> ->. split; reflexivity.
  - intros [Hs ->].
    rewrite <- (parseIdent_TrimRight s1) by exact H1.
    rewrite <- (parseIdent_TrimRight s2) by exact H2.
    rewrite Hs. reflexivity.
Qed.

Lemma parseIdent_same_ident_witness :
  Node.parseIdent (Some ("a", 7%Z)) = Node.parseIdent (Some ("a" +:+ Node.zeros 2, 7%Z))
  <-> Node.TrimRight_NUL "a" = Node.TrimRight_NUL ("a" +:+ Node.zeros 2) /\ 7%Z = 7%Z.
Proof.
  apply (parseIdent_same_ident "a" ("a" +:+ Node.zeros 2) 7 7);
    first [simpl; lia|lia].
Defined.

(** [Remove] takes one range with the identifier out of the slice and
    keeps the others, in some order; it panics exactly when no range of the
    slice has the identifier. *)
Theorem Remove_takes_one_out (rs : list Node.RangeMeta) (id : string) :
  match Node.Remove rs id with
  | Some rs' => exists r, Node.ident r = id /\ rs ≡ₚ r :: rs'
  | None => id ∉ (Node.ident <$> rs)
  end.
Proof. exact (Remove_cases rs id). Qed.

(** From a new node no sequence of requests makes a handler panic, if each
    parent of a [Give] comes with a range and no dial fails; the node stays
    consistent: the data and the slice hold the same identifiers, each once,
    and each stored key lies in its range. *)
Theorem handlers_never_panic (rs : list Node.request) :
  forallb Node.sound_request rs = true ->
  exists n, Node.handle_all Node.New rs = Some n /\ Node.consistent n.
Proof. intros Hs. exact (handle_all_consistent Node.New rs consistent_New Hs). Qed.

Lemma handlers_never_panic_witness :
  exists n, Node.handle_all Node.New some_requests = Some n /\ Node.consistent n.
Proof. apply (handlers_never_panic some_requests). vm_compute. reflexivity. Defined.

(** After a [Put] that succeeds, a [Get] of the key answers with the value,
    or with NotFound if the value was nil; the answer for another key is
    what it was. *)
Theorem Put_then_Get (n n' : Node.Node) (k : string) (value : option string) :
  Node.Put n k value = Some (n', inr ()) ->
  Node.Get n' k = Some (match value with
                   | Some v => inr v
                   | None => inl (Node.Status Node.NotFound "no such key")
                   end)
  /\ forall k', k' <> k -> Node.Get n' k' = Node.Get n k'.
Proof.
  unfold Node.Put. case_bool_decide as Hk; [discriminate|].
  destruct (Node.Find (Node.node_ranges n) k) as [id|] eqn:EF; [|discriminate].
  destruct (Node.node_data n !! id) as [rd|] eqn:Ed; simpl; [|discriminate].
  case_bool_decide as Hst; [discriminate|].
  assert (Hr : Node.state rd = Node.StateReady) by (destruct (Node.state rd); congruence).
  intros H. injection H as <-. split.
  - unfold Node.Get. simpl. rewrite bool_decide_eq_false_2 by exact Hk.
    rewrite EF, lookup_insert_eq. simpl. rewrite Hr. simpl.
    destruct value as [v|]; [rewrite lookup_insert_eq|rewrite lookup_delete_eq];
      reflexivity.
  - intros k' Hne. unfold Node.Get. simpl.
    destruct (bool_decide (k' = "")); [reflexivity|].
    destruct (Node.Find (Node.node_ranges n) k') as [id'|]; [|reflexivity].
    destruct (decide (id' = id)) as [->|Hid].
    + rewrite lookup_insert_eq, Ed. simpl.
      destruct (_ && _); [reflexivity|].
      destruct value as [v|];
        [rewrite lookup_insert_ne by congruence
        |rewrite lookup_delete_ne by congruence]; reflexivity.
    + rewrite lookup_insert_ne by congruence. reflexivity.
Qed.

Lemma Put_then_Get_witness :
  let n' := Node.mkNode {[ "r" := Node.mkRangeData {[ "k" := "v" ]} Node.StateReady ]}
                   [Node.mkRangeMeta "r" "" ""] in
  Node.Get n' "k" = Some (inr "v")
  /\ forall k', k' <> "k" -> Node.Get n' k' = Node.Get one_ready_range k'.
Proof.
  intros n'. apply (Put_then_Get one_ready_range n' "k" (Some "v")).
  vm_compute. reflexivity.
Defined.

(** A [Put] does not change what a [Dump] answers: a range that can be
    dumped is not written to. *)
Theorem Dump_unchanged_by_Put (n n' : Node.Node) (rang : option (string * Z))
  (d : gmap string string) (k : string) (value : option string)
  (r : Node.error + unit) :
  Node.Dump n rang = inr d ->
  Node.Put n k value = Some (n', r) ->
  Node.Dump n' rang = inr d.
Proof.
  intros HD HP. unfold Node.Put in HP.
  destruct (bool_decide (k = "")); [injection HP as <- <-; exact HD|].
  destruct (Node.Find (Node.node_ranges n) k) as [id|]; [|injection HP as <- <-; exact HD].
  destruct (Node.node_data n !! id) as [rd|] eqn:Ed; simpl in HP; [|discriminate].
  case_bool_decide as Hst; [injection HP as <- <-; exact HD|].
  injection HP as <- <-. unfold Node.Dump in *. simpl.
  destruct rang as [p|]; [|discriminate].
  destruct (Node.parseIdent (Some p)) as [e|id']; [discriminate|].
  destruct (decide (id' = id)) as [->|Hne].
  - rewrite Ed in HD. rewrite lookup_insert_eq. simpl.
    case_bool_decide as Ht; [discriminate|]. congruence.
  - rewrite lookup_insert_ne by congruence. exact HD.
Qed.

Lemma Dump_unchanged_by_Put_witness :
  Node.Dump one_taken_range (Some ("r", 0%Z)) = inr {[ "k" := "v" ]}.
Proof.
  apply (Dump_unchanged_by_Put one_taken_range one_taken_range (Some ("r", 0%Z))
           {[ "k" := "v" ]} "k" (Some "w")
           (inl (Node.Status Node.FailedPrecondition
                   "can only PUT to ranges in the READY state")));
    vm_compute; reflexivity.
Defined.

(** A range that a consistent node does not hold, given without parents,
    is ready at once; taking it and dropping it leaves the node as it was
    before the range was given. *)
Theorem Give_Take_Drop_restores (n : Node.Node) (scope : string) (key : Z)
  (s e : string) (id : string) (sched : list (nat * Node.answer)) :
  Node.consistent n ->
  Node.parseIdent (Some (scope, key)) = inr id ->
  Node.node_data n !! id = None ->
  exists n1 n2,
    Node.Give n (Node.mkGiveRequest (Some (Node.mkPbRangeMeta (Some (scope, key)) s e)) [])
         sched = Some (n1, inr Node.StateReady)
    /\ Node.Take n1 (Some (scope, key)) = Some (n2, inr ())
    /\ Node.Drop n2 (Some (scope, key)) false = Some (n, inr ()).
Proof.
  intros (Hnd & Hdom & _) Hp Hd.
  assert (Hn : id ∉ (Node.ident <$> Node.node_ranges n)).
  { intros Hin. apply Hdom in Hin. rewrite Hd in Hin. destruct Hin; discriminate. }
  eexists _, _. split; [|split].
  - unfold Node.Give, Node.parseRangeMeta. simpl. rewrite Hp. simpl. rewrite Hd. reflexivity.
  - unfold Node.Take, Node.getRangeData. rewrite Hp. simpl. rewrite lookup_insert_eq. simpl.
    reflexivity.
  - unfold Node.Drop, Node.getRangeData. rewrite Hp. simpl. unfold Node.set_state. simpl.
    rewrite lookup_insert_eq. simpl.
    pose proof (Remove_fresh_last (Node.node_ranges n) (Node.mkRangeMeta id s e) Hn)
      as HR. simpl in HR. rewrite HR. simpl. do 2 f_equal. destruct n as [dn rn]. simpl in *. f_equal.
    rewrite insert_insert_eq, delete_insert_eq. apply delete_id. exact Hd.
Qed.

Lemma Give_Take_Drop_restores_witness :
  exists n1 n2,
    Node.Give Node.New (Node.mkGiveRequest (Some (Node.mkPbRangeMeta (Some ("s", 3%Z)) "a" "b")) [])
         [] = Some (n1, inr Node.StateReady)
    /\ Node.Take n1 (Some ("s", 3%Z)) = Some (n2, inr ())
    /\ Node.Drop n2 (Some ("s", 3%Z)) false = Some (Node.New, inr ()).
Proof.
  apply (Give_Take_Drop_restores Node.New "s" 3 "a" "b"
           ("s" +:+ Node.zeros 31 +:+ Node.PutUint64 3) []).
  - exact consistent_New.
  - reflexivity.
  - reflexivity.
Defined.

(** Each entry that [Info] lists can be addressed: with the scope and the
    key of the entry the node finds the data of a range, in the state and
    with the number of keys that the entry gives. *)
Theorem Info_entries_addressable (rs : list Node.request) (n : Node.Node)
  (infos : list Node.RangeInfo) (i : Node.RangeInfo) :
  forallb Node.sound_request rs = true ->
  Node.handle_all Node.New rs = Some n ->
  Node.Info n = Some infos -> i ∈ infos ->
  exists id rd,
    Node.getRangeData n (Some (Node.info_Scope i, Node.info_Key i)) = inr (id, rd)
    /\ Node.state rd = Node.info_State i /\ size (Node.data rd) = Node.info_Keys i.
Proof.
  intros Hs Hn HI Hin.
  destruct (Info_entries_elem _ _ _ _ HI Hin) as (r & rd & Hr & Hd & ->).
  assert (Hc : Node.canonical (Node.ident r)).
  { apply (handle_all_canonical Node.New rs n Hn Hs); [|exact Hr].
    intros rm Hrm. apply elem_of_nil in Hrm. destruct Hrm. }
  exists (Node.ident r), rd. unfold Node.canonical in Hc.
  destruct (Node.Decode (Node.ident r)) as [s k]. cbn [Node.info_Scope Node.info_Key Node.info_State Node.info_Keys fst snd].
  unfold Node.getRangeData. rewrite Hc, Hd. repeat split.
Qed.

Lemma Info_entries_addressable_witness :
  exists id rd,
    Node.getRangeData
      (Node.mkNode {[ Node.zeros 32 +:+ Node.PutUint64 1 := Node.mkRangeData {[ "a" := "1" ]} Node.StateReady ]}
              [Node.mkRangeMeta (Node.zeros 32 +:+ Node.PutUint64 1) "" "m"])
      (Some ("", 1%Z)) = inr (id, rd)
    /\ Node.state rd = Node.StateReady /\ size (Node.data rd) = 1%nat.
Proof.
  apply (Info_entries_addressable (take 2 some_requests) _
           [Node.mkRangeInfo "" 1 "" "m" Node.StateReady 1]
           (Node.mkRangeInfo "" 1 "" "m" Node.StateReady 1)).
  - vm_compute. reflexivity.
  - vm_compute. reflexivity.
  - vm_compute. reflexivity.
  - apply elem_of_cons. left. reflexivity.
Defined.

(* ----------------------------------------------------------------- *)
(** ** The keyspace: new keyspaces, lookup and discard                 *)
(* ----------------------------------------------------------------- *)

Section KeyspaceOpsFacts.
Import Ranje KeyspaceOps.
Variable zeroState : StateLocal.

Lemma incr64_of_nat j :
  incr64 (Z.of_nat j mod uint64_max) = (Z.of_nat (S j) mod uint64_max)%Z.
Proof.
  unfold incr64, uint64_max. rewrite Z.add_mod_idemp_l by lia.
  f_equal. lia.
Qed.

Lemma NewWithSplits_body_tile splits j :
  NewWithSplits_body zeroState splits
    (tile zeroState splits <$> seq 0 j,
     {| ranges := []; nextIdent := (Z.of_nat j mod uint64_max)%Z |}, seq 0 j) j
  = Some (tile zeroState splits <$> seq 0 (S j),
          {| ranges := []; nextIdent := (Z.of_nat (S j) mod uint64_max)%Z |},
          seq 0 (S j)).
Proof.
  unfold NewWithSplits_body.
  assert (Hs : (if bool_decide (0 < j)%nat
                then p ← seq 0 j !! (j - 1)%nat;
                     r ← (tile zeroState splits <$> seq 0 j) !! p;
                     Some (End (meta r))
                else Some ZeroKey)
               = Some (match j with
                       | O => ZeroKey
                       | S i => default ZeroKey (splits !! i)
                       end)).
  { destruct j as [|i]; [reflexivity|].
    rewrite bool_decide_eq_true_2 by lia.
    replace (S i - 1)%nat with i by lia.
    rewrite lookup_seq_lt by lia. cbn [mbind option_bind Nat.add].
    rewrite list_lookup_fmap, lookup_seq_lt by lia. reflexivity. }
  rewrite Hs. clear Hs. cbn [mbind option_bind]. unfold NewRange. cbn [nextIdent ranges].
  rewrite incr64_of_nat. rewrite seq_S, fmap_app. cbn [Nat.add].
  rewrite length_fmap, length_seq.
  f_equal. f_equal. f_equal.
  rewrite alter_app_r_alt by (rewrite length_fmap, length_seq; lia).
  f_equal. rewrite length_fmap, length_seq, Nat.sub_diag.
  cbn [alter list_alter fmap list_fmap].
  unfold tile, with_bounds. cbn [meta MetaIdent state parents children placements].
  f_equal. f_equal. f_equal.
  case_bool_decide as Hd.
  - reflexivity.
  - unfold Key. rewrite (lookup_ge_None_2 splits j) by lia. reflexivity.
Qed.

Lemma NewWithSplits_loop_tile splits len j :
  NewWithSplits_loop zeroState splits
    (tile zeroState splits <$> seq 0 j,
     {| ranges := []; nextIdent := (Z.of_nat j mod uint64_max)%Z |}, seq 0 j)
    (seq j len)
  = Some (tile zeroState splits <$> seq 0 (j + len),
          {| ranges := []; nextIdent := (Z.of_nat (j + len) mod uint64_max)%Z |},
          seq 0 (j + len)).
Proof.
  revert j. induction len as [|len IH]; intros j.
  - simpl. rewrite Nat.add_0_r. reflexivity.
  - cbn [seq NewWithSplits_loop]. rewrite NewWithSplits_body_tile.
    cbn [mbind option_bind]. rewrite IH.
    replace (S j + len)%nat with (j + S len)%nat by lia. reflexivity.
Qed.

Lemma NewWithSplits_closed splits :
  NewWithSplits zeroState splits
  = Some (tile zeroState splits <$> seq 0 (S (length splits)),
          {| ranges := seq 0 (S (length splits));
             nextIdent := (Z.of_nat (S (length splits)) mod uint64_max)%Z |}).
Proof.
  unfold NewWithSplits.
  pose proof (NewWithSplits_loop_tile splits (length splits + 1) 0) as H.
  simpl in H. change ((Z.of_nat 0 mod uint64_max)%Z) with 0%Z in H.
  rewrite H. simpl. replace (length splits + 1)%nat with (S (length splits)) by lia.
  reflexivity.
Qed.

Lemma of_nat_mod_small i : (Z.of_nat i < uint64_max)%Z -> (Z.of_nat i mod uint64_max = Z.of_nat i)%Z.
Proof. intros H. apply Z.mod_small. lia. Qed.

Lemma GetByIdent_from_tiles splits n a len i :
  (Z.of_nat n <= uint64_max)%Z -> (a + len <= n)%nat ->
  GetByIdent_from (tile zeroState splits <$> seq 0 n) (seq a len)
    (mkIdent "" (Z.of_nat i))
  = Some (if bool_decide (a <= i < a + len)%nat then Ok i
          else Err (ErrNoSuchRange (mkIdent "" (Z.of_nat i)))).
Proof.
  intros Hn. revert a. induction len as [|len IH]; intros a Hle; simpl.
  - rewrite bool_decide_eq_false_2 by lia. reflexivity.
  - rewrite list_lookup_fmap, lookup_seq_lt by lia. simpl.
    rewrite of_nat_mod_small by lia.
    case_bool_decide as Hd.
    + injection Hd as Hd. apply Nat2Z.inj in Hd. subst i.
      rewrite bool_decide_eq_true_2 by lia. reflexivity.
    + rewrite IH by lia.
      assert (a <> i) by (intros ->; apply Hd; reflexivity).
      destruct (decide (a <= i < a + S len)%nat).
      * rewrite !bool_decide_eq_true_2 by lia. reflexivity.
      * rewrite !bool_decide_eq_false_2 by lia. reflexivity.
Qed.

Lemma index_from_Some rs r i0 i :
  index_from rs r i0 = Some i ->
  (i0 <= i)%nat /\ rs !! (i - i0)%nat = Some r
  /\ r ∉ take (i - i0) rs.
Proof.
  revert i0. induction rs as [|rr rs IH]; simpl; intros i0 H; [discriminate|].
  case_bool_decide as Hd.
  - injection H as <-. subst rr. rewrite Nat.sub_diag. simpl.
    split; [lia|]. split; [reflexivity|apply not_elem_of_nil].
  - apply IH in H. destruct H as (Hle & Hl & Hn).
    split; [lia|]. replace (i - i0)%nat with (S (i - S i0)) by lia. simpl.
    split; [exact Hl|]. apply not_elem_of_cons. split; assumption.
Qed.

Lemma index_from_None rs r i0 :
  index_from rs r i0 = None <-> r ∉ rs.
Proof.
  revert i0. induction rs as [|rr rs IH]; simpl; intros i0.
  - split; [intros _; apply not_elem_of_nil|reflexivity].
  - rewrite not_elem_of_cons. case_bool_decide as Hd.
    + split; [discriminate|]. intros [Hn _]. contradiction.
    + rewrite IH. split; [intros Hn; split; assumption|intros [_ Hn]; exact Hn].
Qed.

Lemma copy_down {A} (l : list A) i :
  (i < length l)%nat ->
  take (length l - 1) (take i l ++ drop (S i) l ++ drop (length l - 1) l)
  = delete i l.
Proof.
  intros Hi. rewrite app_assoc.
  rewrite take_app_length'; [rewrite delete_take_drop; reflexivity|].
  rewrite length_app, length_take, length_drop. lia.
Qed.

Lemma filter_ne_absent (l : list nat) r :
  r ∉ l -> filter (fun q => q <> r) l = l.
Proof.
  induction l as [|x l IH]; intros Hn; [reflexivity|].
  apply not_elem_of_cons in Hn. destruct Hn as [Hx Hn].
  rewrite filter_cons_True by congruence. f_equal. apply IH, Hn.
Qed.

Lemma delete_NoDup_filter (l : list nat) i r :
  NoDup l -> l !! i = Some r ->
  delete i l = filter (fun q => q <> r) l.
Proof.
  revert i. induction l as [|x l IH]; intros i Hnd Hl; [discriminate|].
  apply NoDup_cons in Hnd. destruct Hnd as [Hx Hnd].
  destruct i as [|i]; simpl in *.
  - injection Hl as ->. rewrite filter_cons_False by (intros H; apply H; reflexivity).
    symmetry. apply filter_ne_absent, Hx.
  - rewrite filter_cons_True.
    + f_equal. apply IH; assumption.
    + intros ->. apply Hx. apply list_elem_of_lookup. exists i. exact Hl.
Qed.

End KeyspaceOpsFacts.

(** [NewWithSplits] builds one range more than there are splits, numbered
    from zero in a keyspace whose next identifier follows; each range ends
    at its split and starts where the range before it ends, the first and
    the last being open.  The splits are taken as they come, sorted or
    not. *)
Theorem NewWithSplits_tiles (zeroState : Ranje.StateLocal) (splits : list string) :
  KeyspaceOps.NewWithSplits zeroState splits
  = Some (KeyspaceOps.tile zeroState splits <$> seq 0 (S (length splits)),
          {| Ranje.ranges := seq 0 (S (length splits));
             Ranje.nextIdent := (Z.of_nat (S (length splits)) mod Ranje.uint64_max)%Z |}).
Proof. apply NewWithSplits_closed. Qed.

(** In the keyspace that [NewWithSplits] builds, [GetByIdent] finds the
    range at the index [i] under the identifier [i], and no range under a
    number above the number of splits. *)
Theorem GetByIdent_after_NewWithSplits (zeroState : Ranje.StateLocal)
  (splits : list string) (m : list Ranje.Range) (ks : Ranje.Keyspace) (i : nat) :
  (Z.of_nat (S (length splits)) <= Ranje.uint64_max)%Z ->
  KeyspaceOps.NewWithSplits zeroState splits = Some (m, ks) ->
  KeyspaceOps.GetByIdent m ks (Ranje.mkIdent "" (Z.of_nat i))
  = Some (if bool_decide (i <= length splits)%nat then KeyspaceOps.Ok i
          else KeyspaceOps.Err
                 (KeyspaceOps.ErrNoSuchRange (Ranje.mkIdent "" (Z.of_nat i)))).
Proof.
  intros Hn H. rewrite NewWithSplits_closed in H.
  assert (Hm : m = KeyspaceOps.tile zeroState splits <$> seq 0 (S (length splits)))
    by congruence.
  assert (Hk : Ranje.ranges ks = seq 0 (S (length splits)))
    by (injection H as _ <-; reflexivity).
  unfold KeyspaceOps.GetByIdent. rewrite Hm, Hk.
  rewrite GetByIdent_from_tiles by first [exact Hn|lia].
  destruct (decide (i <= length splits)%nat).
  - rewrite !bool_decide_eq_true_2 by lia. reflexivity.
  - rewrite !bool_decide_eq_false_2 by lia. reflexivity.
Qed.

Lemma GetByIdent_after_NewWithSplits_witness :
  KeyspaceOps.GetByIdent
    (KeyspaceOps.tile Ranje.Pending ["g"; "p"] <$> [0; 1; 2]%nat)
    {| Ranje.ranges := [0; 1; 2]%nat; Ranje.nextIdent := 3 |}
    (Ranje.mkIdent "" 2)
  = Some (KeyspaceOps.Ok 2%nat).
Proof.
  apply (GetByIdent_after_NewWithSplits Ranje.Pending ["g"; "p"] _ _ 2).
  - vm_compute. discriminate.
  - reflexivity.
Defined.

(** [Discard] takes an obsolete range with children out of a keyspace that
    lists no range twice, and leaves the other ranges in their order; for
    any other range it returns an error and the keyspace is as it was.  It
    panics only for a pointer to no range. *)
Theorem Discard_cases (m : list Ranje.Range) (ks : Ranje.Keyspace) (rp : nat) :
  NoDup (Ranje.ranges ks) ->
  match KeyspaceOps.Discard m ks rp with
  | None => m !! rp = None
  | Some (ks', KeyspaceOps.Ok _) =>
      (exists r, m !! rp = Some r /\ Ranje.state r = Ranje.Obsolete
                 /\ Ranje.children r <> [])
      /\ rp ∈ Ranje.ranges ks
      /\ Ranje.ranges ks' = filter (fun q => q <> rp) (Ranje.ranges ks)
      /\ Ranje.nextIdent ks' = Ranje.nextIdent ks
      /\ KeyspaceOps.Len ks' = (KeyspaceOps.Len ks - 1)%nat
  | Some (ks', KeyspaceOps.Err _) =>
      ks' = ks
      /\ exists r, m !! rp = Some r
           /\ (Ranje.state r <> Ranje.Obsolete \/ Ranje.children r = []
               \/ rp ∉ Ranje.ranges ks)
  end.
Proof.
  intros Hnd. unfold KeyspaceOps.Discard.
  destruct (m !! rp) as [r|] eqn:Er; simpl; [|reflexivity].
  case_bool_decide as Hst.
  { split; [reflexivity|]. exists r. split; [reflexivity|]. left; exact Hst. }
  case_bool_decide as Hch.
  { split; [reflexivity|]. exists r. split; [reflexivity|]. right; left.
    destruct (Ranje.children r); [reflexivity|discriminate]. }
  unfold KeyspaceOps.index.
  destruct (KeyspaceOps.index_from (Ranje.ranges ks) rp 0) as [i|] eqn:Ei.
  - apply index_from_Some in Ei. destruct Ei as (_ & Hl & _).
    rewrite Nat.sub_0_r in Hl.
    assert (Hi : (i < length (Ranje.ranges ks))%nat)
      by (apply lookup_lt_is_Some; eexists; exact Hl).
    cbn [Ranje.ranges Ranje.nextIdent]. rewrite copy_down by exact Hi.
    split; [|split; [|split; [|split]]].
    + exists r. split; [reflexivity|]. split; [exact Hst|].
      intros E. apply Hch. rewrite E. reflexivity.
    + apply list_elem_of_lookup. exists i. exact Hl.
    + apply delete_NoDup_filter; assumption.
    + reflexivity.
    + unfold KeyspaceOps.Len. cbn [Ranje.ranges]. rewrite length_delete by (eexists; exact Hl).
      lia.
  - split; [reflexivity|]. exists r. split; [reflexivity|]. right; right.
    apply (index_from_None _ _ 0). exact Ei.
Qed.

Lemma Discard_cases_witness :
  match KeyspaceOps.Discard split_done (Ranje.mkKeyspace [0; 1; 2]%nat 4) 0%nat with
  | None => split_done !! 0%nat = None
  | Some (ks', KeyspaceOps.Ok _) =>
      (exists r, split_done !! 0%nat = Some r /\ Ranje.state r = Ranje.Obsolete
                 /\ Ranje.children r <> [])
      /\ 0%nat ∈ [0; 1; 2]%nat
      /\ Ranje.ranges ks' = filter (fun q => q <> 0%nat) [0; 1; 2]%nat
      /\ Ranje.nextIdent ks' = 4%Z
      /\ KeyspaceOps.Len ks' = 2%nat
  | Some (ks', KeyspaceOps.Err _) =>
      ks' = Ranje.mkKeyspace [0; 1; 2]%nat 4
      /\ exists r, split_done !! 0%nat = Some r
           /\ (Ranje.state r <> Ranje.Obsolete \/ Ranje.children r = []
               \/ 0%nat ∉ [0; 1; 2]%nat)
  end.
Proof.
  apply (Discard_cases split_done (Ranje.mkKeyspace [0; 1; 2]%nat 4) 0%nat).
  apply (bool_decide_eq_true_1 (NoDup _)). vm_compute. reflexivity.
Defined.

Section KeyspaceGetFacts.
Import Ranje KeyspaceOps.

Lemma to_int_inj (x y : Z) :
  (0 <= x < 2 ^ 64)%Z -> (0 <= y < 2 ^ 64)%Z -> to_int x = to_int y -> x = y.
Proof.
  unfold to_int. intros Hx Hy.
  destruct (Z.ltb_spec x (2 ^ 63)); destruct (Z.ltb_spec y (2 ^ 63)); lia.
Qed.

Lemma Get_from_GetByIdent_from (m : Mem) (rs : list ptr) (k : Z) :
  (0 <= k < 2 ^ 64)%Z ->
  Forall (fun p => exists r, m !! p = Some r /\
                     Scope (MetaIdent (meta r)) = "" /\
                     (0 <= IdentKey (MetaIdent (meta r)) < 2 ^ 64)%Z) rs ->
  match GetByIdent_from m rs (mkIdent "" k) with
  | Some (Ok p) => Get_from m rs (to_int k) = Some p
  | Some (Err _) => Get_from m rs (to_int k) = None
  | None => False
  end.
Proof.
  intros Hk. induction 1 as [|p rs (r & Hp & Hs & Hr) _ IH]; [reflexivity|].
  cbn [GetByIdent_from Get_from]. rewrite Hp. cbn [mbind option_bind].
  destruct (MetaIdent (meta r)) as [sc key] eqn:Hid. simpl in Hs, Hr. subst sc.
  destruct (decide (key = k)) as [->|Hne].
  - rewrite !bool_decide_eq_true_2 by reflexivity. reflexivity.
  - rewrite !bool_decide_eq_false_2.
    + exact IH.
    + intros E. apply Hne. apply to_int_inj; assumption.
    + congruence.
Qed.

End KeyspaceGetFacts.
(** In a keyspace whose ranges all have the empty scope, [Get] with the
    key of an identifier as an [int] finds the range that [GetByIdent]
    finds for the identifier, and panics where [GetByIdent] returns its
    error. *)
Theorem Get_agrees_with_GetByIdent (m : Ranje.Mem) (ks : Ranje.Keyspace) (k : Z) :
  (0 <= k < 2 ^ 64)%Z ->
  Forall (fun p => exists r, m !! p = Some r /\
                     Ranje.Scope (Ranje.MetaIdent (Ranje.meta r)) = "" /\
                     (0 <= Ranje.IdentKey (Ranje.MetaIdent (Ranje.meta r)) < 2 ^ 64)%Z)
         (Ranje.ranges ks) ->
  match KeyspaceOps.GetByIdent m ks (Ranje.mkIdent "" k) with
  | Some (KeyspaceOps.Ok p) => KeyspaceOps.Get m ks (KeyspaceOps.to_int k) = Some p
  | Some (KeyspaceOps.Err _) => KeyspaceOps.Get m ks (KeyspaceOps.to_int k) = None
  | None => False
  end.
Proof.
  intros Hk Hall. exact (Get_from_GetByIdent_from m (Ranje.ranges ks) k Hk Hall).
Qed.

Lemma Get_agrees_with_GetByIdent_witness :
  let m := split_done in
  let ks := Ranje.mkKeyspace [0; 1; 2]%nat 4 in
  match KeyspaceOps.GetByIdent m ks (Ranje.mkIdent "" 2) with
  | Some (KeyspaceOps.Ok p) => KeyspaceOps.Get m ks (KeyspaceOps.to_int 2) = Some p
  | Some (KeyspaceOps.Err _) => KeyspaceOps.Get m ks (KeyspaceOps.to_int 2) = None
  | None => False
  end.
Proof.
  intros m ks. apply (Get_agrees_with_GetByIdent m ks 2); [lia|].
  repeat constructor; eexists; (split; [reflexivity|]); simpl; (split; [reflexivity|lia]).
Defined.

(* ----------------------------------------------------------------- *)
(** ** The SQL persister: what is stored and what is loaded            *)
(* ----------------------------------------------------------------- *)

Section SqlTableFacts.
Import Api Catalog Sql SqlRows.

Lemma each_insertChild_tables {A : Type} (f : DB -> A -> error + DB) (l : list A) :
  (forall db x db', f db x = inr db' ->
     range_table db' = range_table db /\ placement_table db' = placement_table db) ->
  forall db db', each f db l = inr db' ->
     range_table db' = range_table db /\ placement_table db' = placement_table db.
Proof.
  intros Hf. induction l as [|x l IH]; intros db db' H; simpl in H.
  - injection H as <-. split; reflexivity.
  - destruct (f db x) as [e|db1] eqn:E; [discriminate|].
    destruct (Hf _ _ _ E) as [H1 H2]. destruct (IH _ _ H) as [H3 H4].
    split; congruence.
Qed.

Lemma insertChild_tables db p c db' :
  insertChild db p c = inr db' ->
  range_table db' = range_table db /\ placement_table db' = placement_table db.
Proof.
  unfold insertChild. case_bool_decide as Hd; intros H; inversion H; split; reflexivity.
Qed.

Lemma each_insertPlacement_tables (id : Z) (ps : list Placement) :
  forall db db',
    each (fun tx p => insertPlacement tx
                        (mkPlacementRow id (NodeID p)
                           (PlacementState_String (StateCurrent p))
                           (PlacementState_String (StateDesired p)))) db ps = inr db' ->
    range_table db' = range_table db
    /\ placement_table db'
       = placement_table db
         ++ ((fun p => mkPlacementRow id (NodeID p)
                         (PlacementState_String (StateCurrent p))
                         (PlacementState_String (StateDesired p))) <$> ps).
Proof.
  induction ps as [|p ps IH]; intros db db' H; simpl in H.
  - injection H as <-. rewrite app_nil_r. split; reflexivity.
  - destruct (insertPlacement db _) as [e|db1] eqn:E; [discriminate|].
    destruct (IH _ _ H) as [H1 H2]. unfold insertPlacement in E.
    case_bool_decide as Hd; [discriminate|]. injection E as <-. simpl in *.
    split; [exact H1|]. rewrite H2, <- app_assoc. reflexivity.
Qed.

Lemma put_range_tables db r db' :
  put_range db r = inr db' ->
  (Ident (Meta r) ∉ row_id <$> range_table db)
  /\ range_table db' = range_table db ++ [range_row r]
  /\ placement_table db' = placement_table db ++ placement_rows r.
Proof.
  unfold put_range.
  destruct (insertRange _ _) as [e|tx1] eqn:H1; [discriminate|].
  destruct (each _ tx1 (Parents r)) as [e|tx2] eqn:H2; [discriminate|].
  destruct (each _ tx2 (Children r)) as [e|tx3] eqn:H3; [discriminate|].
  intros H4.
  unfold insertRange in H1. case_bool_decide as Hin; [discriminate|].
  injection H1 as <-. simpl in *.
  apply each_insertChild_tables in H2;
    [|intros ? ? ?; apply insertChild_tables].
  apply each_insertChild_tables in H3;
    [|intros ? ? ?; apply insertChild_tables].
  apply each_insertPlacement_tables in H4.
  simpl in *. destruct H2 as [A2 B2], H3 as [A3 B3], H4 as [A4 B4].
  split; [exact Hin|]. split.
  - rewrite A4, A3, A2. reflexivity.
  - rewrite B4, B3, B2. reflexivity.
Qed.

Lemma each_put_range_tables rs :
  forall db db', each put_range db rs = inr db' ->
    range_table db' = range_table db ++ (range_row <$> rs)
    /\ placement_table db' = placement_table db ++ concat (placement_rows <$> rs)
    /\ NoDup ((fun r => Ident (Meta r)) <$> rs)
    /\ (forall r, r ∈ rs -> Ident (Meta r) ∉ (row_id <$> range_table db)).
Proof.
  induction rs as [|r rs IH]; intros db db' H; simpl in H.
  - injection H as <-. rewrite !app_nil_r. repeat split; [apply NoDup_nil_2|].
    intros r Hr. apply elem_of_nil in Hr. destruct Hr.
  - destruct (put_range db r) as [e|db1] eqn:E; [discriminate|].
    apply put_range_tables in E. destruct E as (Hn & Hr & Hp).
    destruct (IH _ _ H) as (Hr' & Hp' & Hnd & Hfresh).
    rewrite Hr in Hr', Hfresh. rewrite Hp in Hp'.
    split; [rewrite Hr', <- app_assoc; reflexivity|].
    split; [rewrite Hp', <- app_assoc; reflexivity|].
    split.
    + simpl. apply NoDup_cons. split; [|exact Hnd].
      intros Hin. apply list_elem_of_fmap in Hin. destruct Hin as (r' & He & Hr'in).
      apply (Hfresh r' Hr'in). rewrite fmap_app. apply elem_of_app. right.
      simpl. rewrite He. apply list_elem_of_singleton. reflexivity.
    + intros r' Hin. apply elem_of_cons in Hin. destruct Hin as [->|Hin]; [exact Hn|].
      intros Hx. apply (Hfresh r' Hin). rewrite fmap_app. apply elem_of_app.
      left; exact Hx.
Qed.

Lemma each_put_range_stored rs :
  forall db r, r ∈ rs -> Ident (Meta r) ∈ (row_id <$> range_table db) ->
    exists e, each put_range db rs = inl e.
Proof.
  intros db r Hin Hst.
  destruct (each put_range db rs) as [e|db'] eqn:E; [exists e; reflexivity|].
  exfalso. apply each_put_range_tables in E. destruct E as (_ & _ & _ & Hfresh).
  exact (Hfresh r Hin Hst).
Qed.

Lemma parseRangeState_String s : parseRangeStateString (RangeState_String s) = s.
Proof. destruct s; reflexivity. Qed.

Lemma parsePlacementState_String s :
  parsePlacementStateString (PlacementState_String s) = s.
Proof. destruct s; reflexivity. Qed.

Lemma filter_placement_rows_same r :
  filter (fun row => prow_rangeId row = Ident (Meta r)) (placement_rows r)
  = placement_rows r.
Proof.
  unfold placement_rows. induction (Placements r) as [|p ps IH]; [reflexivity|].
  rewrite fmap_cons, filter_cons_True by reflexivity. f_equal. exact IH.
Qed.

Lemma filter_placement_rows_other r id :
  Ident (Meta r) <> id ->
  filter (fun row => prow_rangeId row = id) (placement_rows r) = [].
Proof.
  intros Hne. unfold placement_rows.
  induction (Placements r) as [|p ps IH]; [reflexivity|].
  rewrite fmap_cons, filter_cons_False by exact Hne. exact IH.
Qed.

Lemma filter_placement_rows rs r :
  NoDup ((fun r => Ident (Meta r)) <$> rs) -> r ∈ rs ->
  filter (fun row => prow_rangeId row = Ident (Meta r))
    (concat (placement_rows <$> rs))
  = placement_rows r.
Proof.
  induction rs as [|x rs IH]; intros Hnd Hin.
  - apply elem_of_nil in Hin. destruct Hin.
  - rewrite fmap_cons in Hnd. apply NoDup_cons in Hnd. destruct Hnd as [Hx Hnd].
    rewrite fmap_cons. simpl concat. rewrite filter_app.
    destruct (decide (Ident (Meta x) = Ident (Meta r))) as [He|Hne].
    + assert (Hout : forall l : list Range,
                Ident (Meta r) ∉ ((fun r => Ident (Meta r)) <$> l) ->
                filter (fun row => prow_rangeId row = Ident (Meta r))
                  (concat (placement_rows <$> l)) = []).
      { clear. induction l as [|y l IHl]; intros Hn; [reflexivity|].
        rewrite fmap_cons in Hn. apply not_elem_of_cons in Hn. destruct Hn as [Hy Hn].
        rewrite fmap_cons. simpl concat. rewrite filter_app.
        rewrite filter_placement_rows_other by congruence. apply IHl, Hn. }
      rewrite Hout by (rewrite <- He; exact Hx). rewrite app_nil_r.
      apply elem_of_cons in Hin. destruct Hin as [->|Hin].
      * apply filter_placement_rows_same.
      * exfalso. apply Hx. rewrite He. apply list_elem_of_fmap. exists r.
        split; [reflexivity|exact Hin].
    + rewrite filter_placement_rows_other by exact Hne. simpl.
      apply IH; [exact Hnd|].
      apply elem_of_cons in Hin. destruct Hin as [->|Hin]; [contradiction|exact Hin].
Qed.

Lemma load_placement_rows r :
  (fun row => bare_placement (prow_nodeId row)
                (parsePlacementStateString (prow_stateCurrent row))
                (parsePlacementStateString (prow_stateDesired row)))
    <$> placement_rows r
  = persisted_placement <$> Placements r.
Proof.
  unfold placement_rows. rewrite <- list_fmap_compose.
  apply list_fmap_ext. intros i p _. simpl.
  rewrite !parsePlacementState_String. reflexivity.
Qed.

Lemma PutRanges_empty_tables rs db :
  PutRanges empty_db rs = (db, None) ->
  db = mkDB (range_row <$> rs) (concat (links <$> rs))
         (concat (placement_rows <$> rs))
  /\ NoDup ((fun r => Ident (Meta r)) <$> rs).
Proof.
  unfold PutRanges. destruct (each put_range empty_db rs) as [e|tx] eqn:E;
    intros H; inversion H; subst.
  destruct (each_put_range_tables rs _ _ E) as (Hr & Hp & Hnd & _).
  destruct (each_put_range_acc rs empty_db db [] []) as [Hc _];
    [reflexivity|apply NoDup_nil_2|exact E|].
  simpl in *. split; [|exact Hnd]. destruct db as [rt ct pt]. simpl in *.
  congruence.
Qed.

Lemma GetRanges_after_PutRanges rs db :
  PutRanges empty_db rs = (db, None) -> GetRanges db = loaded rs <$> rs.
Proof.
  intros H. apply PutRanges_empty_tables in H. destruct H as [-> Hnd].
  unfold GetRanges. simpl. rewrite <- list_fmap_compose.
  apply list_fmap_ext. intros i r Hr. simpl.
  assert (Hin : r ∈ rs) by (apply list_elem_of_lookup; exists i; exact Hr).
  unfold loaded. f_equal.
  - destruct (Meta r); reflexivity.
  - apply parseRangeState_String.
  - unfold GetPlacements. simpl.
    rewrite (filter_placement_rows rs r Hnd Hin). apply load_placement_rows.
Qed.

Lemma elem_of_concat_fmap {A B : Type} (f : A -> list B) (l : list A) a x :
  a ∈ l -> x ∈ f a -> x ∈ concat (f <$> l).
Proof.
  induction l as [|y l IH]; intros Ha Hx.
  - apply elem_of_nil in Ha. destruct Ha.
  - rewrite fmap_cons. simpl. apply elem_of_app.
    apply elem_of_cons in Ha. destruct Ha as [->|Ha]; [left; exact Hx|].
    right. apply IH; assumption.
Qed.

Lemma link_loaded rs rp rc :
  rp ∈ rs -> rc ∈ rs ->
  Ident (Meta rc) ∈ Children rp \/ Ident (Meta rp) ∈ Parents rc ->
  Ident (Meta rc) ∈ Children (loaded rs rp)
  /\ Ident (Meta rp) ∈ Parents (loaded rs rc).
Proof.
  intros Hp Hc Hl.
  assert (Hin : (Ident (Meta rp), Ident (Meta rc)) ∈ concat (links <$> rs)).
  { destruct Hl as [Hl|Hl].
    - apply (elem_of_concat_fmap links rs rp); [exact Hp|].
      unfold links. apply elem_of_app. right. apply list_elem_of_fmap.
      exists (Ident (Meta rc)). split; [reflexivity|exact Hl].
    - apply (elem_of_concat_fmap links rs rc); [exact Hc|].
      unfold links. apply elem_of_app. left. apply list_elem_of_fmap.
      exists (Ident (Meta rp)). split; [reflexivity|exact Hl]. }
  unfold loaded. simpl. split.
  - apply list_elem_of_fmap. exists (Ident (Meta rp), Ident (Meta rc)).
    split; [reflexivity|]. apply list_elem_of_filter. split; [reflexivity|exact Hin].
  - apply list_elem_of_fmap. exists (Ident (Meta rp), Ident (Meta rc)).
    split; [reflexivity|]. apply list_elem_of_filter. split; [reflexivity|exact Hin].
Qed.


End SqlTableFacts.

(** A range that is stored is never written again: [PutRanges] fails for
    every list that holds a range whose identifier is in the range table,
    and the database is as it was. *)
Theorem PutRanges_never_overwrites (db : Sql.DB) (rs : list Catalog.Range)
  (r : Catalog.Range) :
  r ∈ rs ->
  Api.Ident (Catalog.Meta r) ∈ (Sql.row_id <$> Sql.range_table db) ->
  exists e, Sql.PutRanges db rs = (db, Some e).
Proof.
  intros Hin Hst. unfold Sql.PutRanges.
  destruct (each_put_range_stored rs db r Hin Hst) as [e ->].
  exists e. reflexivity.
Qed.

Lemma PutRanges_never_overwrites_witness :
  exists e,
    Sql.PutRanges (fst (Sql.PutRanges Sql.empty_db (take 1 split_by_children)))
      split_by_children
    = (fst (Sql.PutRanges Sql.empty_db (take 1 split_by_children)), Some e).
Proof.
  apply (PutRanges_never_overwrites _ split_by_children
           (Catalog.mkRange (Api.mkMeta 1 "" "") Api.RsSubsuming [] [2%Z; 3%Z]
              [Catalog.bare_placement "aaa" Api.PsActive Api.PsActive])).
  - apply elem_of_cons. left. reflexivity.
  - apply (bool_decide_eq_true_1 (_ ∈ _)). vm_compute. reflexivity.
Defined.

(** Writing the same ranges a second time fails, whatever they are. *)
Theorem PutRanges_twice_fails (db db' : Sql.DB) (rs : list Catalog.Range) :
  rs <> [] ->
  Sql.PutRanges db rs = (db', None) ->
  exists e, Sql.PutRanges db' rs = (db', Some e).
Proof.
  intros Hne H. destruct rs as [|r rs]; [contradiction|].
  unfold Sql.PutRanges in *.
  destruct (Sql.each Sql.put_range db (r :: rs)) as [e|tx] eqn:E;
    inversion H; subst.
  destruct (each_put_range_tables _ _ _ E) as (Hr & _).
  destruct (each_put_range_stored (r :: rs) db' r) as [e ->].
  - apply elem_of_cons. left; reflexivity.
  - rewrite Hr, !fmap_app, fmap_cons. apply elem_of_app. right.
    apply elem_of_cons. left; reflexivity.
  - exists e. reflexivity.
Qed.

Lemma PutRanges_twice_fails_witness :
  exists e,
    Sql.PutRanges (fst (Sql.PutRanges Sql.empty_db split_by_children))
      split_by_children
    = (fst (Sql.PutRanges Sql.empty_db split_by_children), Some e).
Proof.
  apply (PutRanges_twice_fails Sql.empty_db _ split_by_children).
  - discriminate.
  - vm_compute. reflexivity.
Defined.


(** What has been stored and loaded cannot be stored again, in whatever
    database, as soon as one of the ranges is the child of another: the
    loaded ranges carry the link at both ends, and it is inserted twice. *)
Theorem reload_then_PutRanges_fails (rs rs' : list Catalog.Range)
  (rp rc : Catalog.Range) (db : Sql.DB) :
  Sql.reload rs = (rs', None) ->
  rp ∈ rs -> rc ∈ rs ->
  Api.Ident (Catalog.Meta rc) ∈ Catalog.Children rp
  \/ Api.Ident (Catalog.Meta rp) ∈ Catalog.Parents rc ->
  exists e, Sql.PutRanges db rs' = (db, Some e).
Proof.
  intros H Hp Hc Hl. unfold Sql.reload in H.
  destruct (Sql.PutRanges Sql.empty_db rs) as [db0 [e|]] eqn:E; [discriminate|].
  injection H as <-. rewrite (GetRanges_after_PutRanges rs db0 E).
  destruct (link_loaded rs rp rc Hp Hc Hl) as [H1 H2].
  apply (PutRanges_two_sided_link_fails db _ (SqlRows.loaded rs rp) (SqlRows.loaded rs rc)).
  - apply list_elem_of_fmap_2. exact Hp.
  - apply list_elem_of_fmap_2. exact Hc.
  - exact H1.
  - exact H2.
Qed.

Lemma reload_then_PutRanges_fails_witness :
  exists e,
    Sql.PutRanges Sql.empty_db (fst (Sql.reload split_by_children))
    = (Sql.empty_db, Some e).
Proof.
  apply (reload_then_PutRanges_fails split_by_children _
           (Catalog.mkRange (Api.mkMeta 1 "" "") Api.RsSubsuming [] [2%Z; 3%Z]
              [Catalog.bare_placement "aaa" Api.PsActive Api.PsActive])
           (Catalog.mkRange (Api.mkMeta 2 "" "ccc") Api.RsActive [] []
              [Catalog.bare_placement "aaa" Api.PsPending Api.PsPending])
           Sql.empty_db).
  - vm_compute. reflexivity.
  - apply elem_of_cons. left. reflexivity.
  - apply elem_of_cons. right. apply elem_of_cons. left. reflexivity.
  - left. apply elem_of_cons. left. reflexivity.
Defined.

(* ----------------------------------------------------------------- *)
(** ** The reconciler: what a report can change                        *)
(* ----------------------------------------------------------------- *)

Section ReconcilerRunFacts.
Import Reconciler ReconcilerRuns.
Variable ToStatePlacement : StateRemote -> StatePlacement.
Variable PlacementToState : list StatePlacement -> nat -> StatePlacement -> list StatePlacement.
Variable sem : LoopVar.

Lemma deref_elem {A : Type} (l : list A) i x : deref sem l i = Some x -> x ∈ l.
Proof.
  unfold deref. destruct sem; intros H.
  - apply last_Some_elem_of. exact H.
  - apply list_elem_of_lookup. exists i. exact H.
Qed.

Lemma deref_is_Some {A : Type} (l : list A) i :
  (i < length l)%nat -> is_Some (deref sem l i).
Proof.
  intros Hi. unfold deref. destruct sem.
  - apply last_is_Some. intros ->. simpl in Hi. lia.
  - apply lookup_lt_is_Some. exact Hi.
Qed.

Lemma calls_from_call E R r e s :
  calls_from ToStatePlacement E R r -> e ∈ E ->
  (s = SpGone \/ exists ri, ri ∈ R /\ s = ToStatePlacement (State ri)) ->
  calls_from ToStatePlacement E R (call PlacementToState r (Placement e) s).
Proof.
  intros Hc He Hs p s' Hin. unfold call in Hin. simpl in Hin.
  apply elem_of_app in Hin. destruct Hin as [Hin|Hin]; [exact (Hc p s' Hin)|].
  apply list_elem_of_singleton in Hin. injection Hin as -> ->.
  split; [exists e; split; [exact He|reflexivity]|exact Hs].
Qed.

Lemma reconcile_calls E R pr r r' :
  reconcile ToStatePlacement PlacementToState sem E R pr r = Some r' ->
  calls_from ToStatePlacement E R r -> calls_from ToStatePlacement E R r'.
Proof.
  unfold reconcile. intros H Hc.
  destruct (expected pr) as [ie|].
  - destruct (deref sem E ie) as [e|] eqn:Ee; simpl in H; [|discriminate].
    apply deref_elem in Ee.
    destruct (actual pr) as [ia|].
    + destruct (deref sem R ia) as [a|] eqn:Ea; simpl in H; [|discriminate].
      apply deref_elem in Ea.
      destruct (heap r !! Placement e) as [exp|]; simpl in H; [|discriminate].
      case_bool_decide as Hd; injection H as <-; [|exact Hc].
      apply calls_from_call; [exact Hc|exact Ee|]. right. exists a. split; [exact Ea|reflexivity].
    + case_bool_decide as Hp; [|injection H as <-; exact Hc].
      destruct (heap r !! Placement e) as [exp|]; simpl in H; [|discriminate].
      case_bool_decide as Hd; injection H as <-; [|exact Hc].
      apply calls_from_call; [exact Hc|exact Ee|]. left. reflexivity.
  - destruct (actual pr); [|discriminate]. injection H as <-. exact Hc.
Qed.

Lemma reconcile_all_calls E R pairs :
  forall r r',
    reconcile_all ToStatePlacement PlacementToState sem E R pairs r = Some r' ->
    calls_from ToStatePlacement E R r -> calls_from ToStatePlacement E R r'.
Proof.
  induction pairs as [|[k pr] pairs IH]; intros r r' H Hc; simpl in H.
  - injection H as <-. exact Hc.
  - destruct (reconcile _ _ _ E R pr r) as [r1|] eqn:E1; simpl in H; [|discriminate].
    apply (IH r1 r' H). exact (reconcile_calls E R pr r r1 E1 Hc).
Qed.

Lemma collect_expected_filled nR (E : list PBNID) st :
  (forall k v, st !! k = Some v -> filled (length E) nR v) ->
  forall k v, collect_expected E st !! k = Some v -> filled (length E) nR v.
Proof.
  unfold collect_expected.
  assert (Hl : forall ie, ie ∈ imap pair E -> (ie.1 < length E)%nat).
  { intros ie Hin. apply elem_of_lookup_imap in Hin.
    destruct Hin as (i & e & -> & Hi). simpl. apply lookup_lt_Some in Hi. exact Hi. }
  revert Hl st. generalize (length E) as nE. generalize (imap pair E) as l.
  induction l as [|[i e] l IH]; intros nE Hl st Hst k v H; simpl in H.
  - exact (Hst k v H).
  - apply (IH nE) in H; [exact H| |].
    + intros ie Hin. apply Hl. apply elem_of_cons. right; exact Hin.
    + intros k' v' Hk'. simpl in Hk'.
      destruct (decide (k' = Range e)) as [->|Hne].
      * rewrite lookup_insert_eq in Hk'. injection Hk' as <-.
        assert (Hi : (i < nE)%nat) by (apply (Hl (i, e)); apply elem_of_cons; left; reflexivity).
        split; [left; discriminate|]. simpl.
        split; [intros j Hj; injection Hj as <-; exact Hi|].
        intros j Hj. destruct (st !! Range e) as [v0|] eqn:E0; simpl in Hj.
        -- destruct (Hst _ _ E0) as (_ & _ & Ha). apply Ha, Hj.
        -- discriminate.
      * rewrite lookup_insert_ne in Hk' by congruence. exact (Hst k' v' Hk').
Qed.

Lemma collect_actual_filled nE (R : list RangeInfo) st :
  (forall k v, st !! k = Some v -> filled nE (length R) v) ->
  forall k v, collect_actual R st !! k = Some v -> filled nE (length R) v.
Proof.
  unfold collect_actual.
  assert (Hl : forall ir, ir ∈ imap pair R -> (ir.1 < length R)%nat).
  { intros ir Hin. apply elem_of_lookup_imap in Hin.
    destruct Hin as (i & e & -> & Hi). simpl. apply lookup_lt_Some in Hi. exact Hi. }
  revert Hl st. generalize (length R) as nR. generalize (imap pair R) as l.
  induction l as [|[i e] l IH]; intros nR Hl st Hst k v H; simpl in H.
  - exact (Hst k v H).
  - apply (IH nR) in H; [exact H| |].
    + intros ir Hin. apply Hl. apply elem_of_cons. right; exact Hin.
    + intros k' v' Hk'. simpl in Hk'.
      destruct (decide (k' = Ident e)) as [->|Hne].
      * rewrite lookup_insert_eq in Hk'. injection Hk' as <-.
        assert (Hi : (i < nR)%nat) by (apply (Hl (i, e)); apply elem_of_cons; left; reflexivity).
        split; [right; discriminate|]. simpl.
        split; [|intros j Hj; injection Hj as <-; exact Hi].
        intros j Hj. destruct (st !! Ident e) as [v0|] eqn:E0; simpl in Hj.
        -- destruct (Hst _ _ E0) as (_ & He & _). apply He, Hj.
        -- discriminate.
      * rewrite lookup_insert_ne in Hk' by congruence. exact (Hst k' v' Hk').
Qed.

Hypothesis PlacementToState_length :
  forall h p s, length (PlacementToState h p s) = length h.

Lemma reconcile_filled E R pr r :
  filled (length E) (length R) pr ->
  (forall e, e ∈ E -> (Placement e < length (heap r))%nat) ->
  exists r', reconcile ToStatePlacement PlacementToState sem E R pr r = Some r'
             /\ length (heap r') = length (heap r).
Proof.
  intros (Hany & HE & HR) Hh. unfold reconcile.
  destruct (expected pr) as [ie|] eqn:Ee.
  - destruct (deref_is_Some E ie (HE ie eq_refl)) as [e He]. rewrite He. simpl.
    pose proof (Hh e (deref_elem _ _ _ He)) as Hp.
    destruct (lookup_lt_is_Some_2 (heap r) (Placement e) Hp) as [exp Hexp].
    destruct (actual pr) as [ia|] eqn:Ea.
    + destruct (deref_is_Some R ia (HR ia eq_refl)) as [a Ha]. rewrite Ha. simpl.
      rewrite Hexp. simpl.
      case_bool_decide as Hd; eexists; (split; [reflexivity|]); [|reflexivity].
      simpl. apply PlacementToState_length.
    + case_bool_decide as Hpos; [|eexists; split; reflexivity].
      rewrite Hexp. simpl.
      case_bool_decide as Hd; eexists; (split; [reflexivity|]); [|reflexivity].
      simpl. apply PlacementToState_length.
  - destruct (actual pr) as [ia|] eqn:Ea; [eexists; split; reflexivity|].
    destruct Hany as [H|H]; contradiction.
Qed.

Lemma reconcile_all_filled E R pairs :
  forall r,
    (forall kp, kp ∈ pairs -> filled (length E) (length R) kp.2) ->
    (forall e, e ∈ E -> (Placement e < length (heap r))%nat) ->
    is_Some (reconcile_all ToStatePlacement PlacementToState sem E R pairs r).
Proof.
  induction pairs as [|[k pr] pairs IH]; intros r Hf Hh; simpl.
  - eexists; reflexivity.
  - destruct (reconcile_filled E R pr r) as (r1 & -> & Hl).
    + apply (Hf (k, pr)). apply elem_of_cons. left; reflexivity.
    + exact Hh.
    + simpl. apply IH.
      * intros kp Hin. apply Hf. apply elem_of_cons. right; exact Hin.
      * intros e He. rewrite Hl. apply Hh, He.
Qed.

Lemma states_filled (E : list PBNID) (R : list RangeInfo) kv :
  kv ∈ map_to_list (collect_actual R (collect_expected E ∅)) ->
  filled (length E) (length R) kv.2.
Proof.
  destruct kv as [k v]. intros Hkv. apply elem_of_map_to_list in Hkv. simpl.
  apply (collect_actual_filled (length E) R
           (collect_expected E ∅)) with (k := k); [|exact Hkv].
  intros k' v' Hk'.
  apply (collect_expected_filled (length R) E ∅) with (k := k'); [|exact Hk'].
  intros k0 v0 H0. rewrite lookup_empty in H0. discriminate.
Qed.

Lemma reconcile_all_states h (E : list PBNID) (R : list RangeInfo) :
  (forall e, e ∈ E -> (Placement e < length h)%nat) ->
  is_Some (reconcile_all ToStatePlacement PlacementToState sem E R
             (map_to_list (collect_actual R (collect_expected E ∅)))
             (mkRun h [])).
Proof.
  intros Hin. apply reconcile_all_filled; [|exact Hin].
  intros kp Hkp. apply states_filled, Hkp.
Qed.

End ReconcilerRunFacts.

(** The reconciler only changes placements that the keyspace lists for the
    node that has reported, and it takes them into [SpGone] or into a state
    that the node reports; a range that the node reports and the keyspace
    does not expect there changes nothing.  This holds for either meaning of
    the loop variables. *)
Theorem nodeInfo_changes_expected_placements
  (ToStatePlacement : Reconciler.StateRemote -> Reconciler.StatePlacement)
  (PlacementToState : list Reconciler.StatePlacement -> nat ->
                      Reconciler.StatePlacement -> list Reconciler.StatePlacement)
  (PlacementsByNodeID : string -> list Reconciler.PBNID)
  (sem : Reconciler.LoopVar)
  (h : list Reconciler.StatePlacement) (nInfo : Reconciler.NodeInfo)
  (r : Reconciler.run) (p : nat) (s : Reconciler.StatePlacement) :
  Reconciler.nodeInfo ToStatePlacement PlacementToState PlacementsByNodeID sem
    h nInfo = Some r ->
  (p, s) ∈ Reconciler.calls r ->
  (exists e, e ∈ PlacementsByNodeID (Reconciler.NodeID nInfo)
             /\ Reconciler.Placement e = p)
  /\ (s = Reconciler.SpGone
      \/ exists ri, ri ∈ Reconciler.Ranges nInfo
                    /\ s = ToStatePlacement (Reconciler.State ri)).
Proof.
  unfold Reconciler.nodeInfo. intros H Hin.
  destruct (_ && _); [discriminate|].
  apply (reconcile_all_calls ToStatePlacement PlacementToState sem) in H.
  - exact (H p s Hin).
  - intros p' s' Hin'. simpl in Hin'. apply elem_of_nil in Hin'. destruct Hin'.
Qed.

Lemma nodeInfo_changes_expected_placements_witness :
  (exists e, e ∈ held_by_aaa "aaa" /\ Reconciler.Placement e = 1%nat)
  /\ (Reconciler.SpReady = Reconciler.SpGone
      \/ exists ri, ri ∈ Reconciler.Ranges probe_of_aaa
                    /\ Reconciler.SpReady
                       = Reconciler.ToStatePlacement_by_name (Reconciler.State ri)).
Proof.
  apply (nodeInfo_changes_expected_placements Reconciler.ToStatePlacement_by_name
           Reconciler.PlacementToState_always held_by_aaa Reconciler.PerLoop
           [Reconciler.SpReady; Reconciler.SpPending] probe_of_aaa
           (Reconciler.mkRun [Reconciler.SpReady; Reconciler.SpReady]
              [(1%nat, Reconciler.SpReady)])).
  - vm_compute. reflexivity.
  - apply elem_of_cons. left. reflexivity.
Defined.

(** If the keyspace keeps its placements where they are and those it lists
    for the node exist, [nodeInfo] panics for one reason only: an expired
    node that reports ranges.  The panic for an entry without expected and
    without actual state is never reached. *)
Theorem nodeInfo_panics_only_when_expired
  (ToStatePlacement : Reconciler.StateRemote -> Reconciler.StatePlacement)
  (PlacementToState : list Reconciler.StatePlacement -> nat ->
                      Reconciler.StatePlacement -> list Reconciler.StatePlacement)
  (PlacementsByNodeID : string -> list Reconciler.PBNID)
  (sem : Reconciler.LoopVar)
  (h : list Reconciler.StatePlacement) (nInfo : Reconciler.NodeInfo) :
  (forall h0 p s, length (PlacementToState h0 p s) = length h0) ->
  (forall e, e ∈ PlacementsByNodeID (Reconciler.NodeID nInfo) ->
             (Reconciler.Placement e < length h)%nat) ->
  Reconciler.nodeInfo ToStatePlacement PlacementToState PlacementsByNodeID sem
    h nInfo = None
  <-> Reconciler.Expired nInfo = true /\ Reconciler.Ranges nInfo <> [].
Proof.
  intros Hlen Hin. unfold Reconciler.nodeInfo.
  pose proof (reconcile_all_states ToStatePlacement PlacementToState sem Hlen h
                (PlacementsByNodeID (Reconciler.NodeID nInfo))
                (Reconciler.Ranges nInfo) Hin) as [r Hs].
  rewrite Hs.
  destruct (Reconciler.Expired nInfo) eqn:Ex; simpl.
  - case_bool_decide as Hr; simpl.
    + split; [discriminate|].
      intros [_ Hn]. destruct (Reconciler.Ranges nInfo); [contradiction|discriminate].
    + split; [intros _; split; [reflexivity|]|reflexivity].
      intros E. apply Hr. rewrite E. reflexivity.
  - split; [discriminate|intros [Hd _]; discriminate].
Qed.

Lemma nodeInfo_panics_only_when_expired_witness :
  Reconciler.nodeInfo Reconciler.ToStatePlacement_by_name
    Reconciler.PlacementToState_always held_by_aaa Reconciler.PerLoop
    [Reconciler.SpReady; Reconciler.SpPending] probe_of_aaa = None
  <-> Reconciler.Expired probe_of_aaa = true /\ Reconciler.Ranges probe_of_aaa <> [].
Proof.
  apply (nodeInfo_panics_only_when_expired Reconciler.ToStatePlacement_by_name
           Reconciler.PlacementToState_always held_by_aaa Reconciler.PerLoop
           [Reconciler.SpReady; Reconciler.SpPending] probe_of_aaa).
  - intros h0 p s. unfold Reconciler.PlacementToState_always. apply length_insert.
  - intros e He. unfold held_by_aaa in He.
    apply elem_of_cons in He. destruct He as [->|He]; [simpl; lia|].
    apply elem_of_cons in He. destruct He as [->|He]; [simpl; lia|].
    apply elem_of_nil in He. destruct He.
Defined.

(* ----------------------------------------------------------------- *)
(** ** The roster's node: nil maps and probes                          *)
(* ----------------------------------------------------------------- *)

Section RosterNodeFacts.
Import RosterNode.
Context {Range pbState pbIdent : Type}.
Variable SameMeta : Range -> Ranje.Ident -> string -> string -> bool.
Variable RemoteStateFromProto : pbState -> Reconciler.StateRemote.
Variable IdentFromProto : pbIdent -> Ranje.Ident.


Lemma probe_entries_nil_maps h p (rs : list (@pbRangeInfo pbState pbIdent)) :
  RosterNode.probe_entries SameMeta RemoteStateFromProto IdentFromProto
    (@NewNode Range pbIdent h p) rs
  = if forallb (fun r => match info_Range r with None => true | Some _ => false end) rs
    then Some (NewNode h p) else None.
Proof.
  induction rs as [|r rs IH]; [reflexivity|].
  cbn [RosterNode.probe_entries forallb]. unfold RosterNode.probe_entry at 1.
  destruct (info_Range r) as [rr|]; [reflexivity|].
  cbn [mbind option_bind andb]. exact IH.
Qed.

Lemma kept_refl (n : @Node Range pbIdent) m u :
  ranges n = Some m -> unexpectedRanges n = Some u -> kept n n.
Proof.
  intros Hm Hu. split; [reflexivity|]. split; [reflexivity|].
  exists m, m, u, u. repeat split; try assumption.
  - intros id i i' H1 H2. congruence.
  - intros id H. left; exact H.
Qed.

Lemma kept_trans (n1 n2 n3 : @Node Range pbIdent) : kept n1 n2 -> kept n2 n3 -> kept n1 n3.
Proof.
  intros (Hh & Hp & m & m' & u & u' & Hm & Hm' & Hu & Hu' & Hd & HR & HU)
         (Hh2 & Hp2 & m2 & m2' & u2 & u2' & Hm2 & Hm2' & Hu2 & Hu2' & Hd2 & HR2 & HU2).
  rewrite Hm' in Hm2. injection Hm2 as <-. rewrite Hu' in Hu2. injection Hu2 as <-.
  split; [congruence|]. split; [congruence|].
  exists m, m2', u, u2'. repeat split; try assumption.
  - rewrite Hd2. exact Hd.
  - intros id i i' H1 H3.
    assert (Hin : id ∈ dom m') by (rewrite Hd; apply elem_of_dom; eexists; exact H1).
    apply elem_of_dom in Hin. destruct Hin as [i2 H2].
    rewrite (HR2 id i2 i' H2 H3). exact (HR id i i2 H1 H2).
  - intros id H. destruct (HU2 id H) as [H1|H1].
    + exact (HU id H1).
    + right. rewrite <- Hd. exact H1.
Qed.

Lemma probe_entry_kept n r m u :
  ranges n = Some m -> unexpectedRanges n = Some u ->
  exists n',
    RosterNode.probe_entry SameMeta RemoteStateFromProto IdentFromProto n r = Some n'
    /\ kept n n'.
Proof.
  intros Hm Hu. unfold RosterNode.probe_entry.
  destruct (info_Range r) as [rr|]; [|exists n; split; [reflexivity|exact (kept_refl n m u Hm Hu)]].
  rewrite Hm, Hu. simpl.
  destruct (m !! IdentFromProto (pb_Ident rr)) as [rrr|] eqn:E.
  - destruct (SameMeta _ _ _ _); simpl;
      [|exists n; split; [reflexivity|exact (kept_refl n m u Hm Hu)]].
    eexists. split; [reflexivity|].
    split; [reflexivity|]. split; [reflexivity|].
    eexists m, _, u, u. simpl. repeat split; try assumption; try reflexivity.
    + rewrite dom_insert_L. apply subseteq_union_1_L, singleton_subseteq_l.
      apply elem_of_dom. eexists; exact E.
    + intros id i i' H1 H2.
      destruct (decide (id = IdentFromProto (pb_Ident rr))) as [->|Hne].
      * rewrite lookup_insert_eq in H2. injection H2 as <-. simpl. congruence.
      * rewrite lookup_insert_ne in H2 by congruence. congruence.
    + intros id H. left; exact H.
  - eexists. split; [reflexivity|].
    split; [reflexivity|]. split; [reflexivity|].
    eexists m, m, u, _. simpl. repeat split; try assumption; try reflexivity.
    + intros id i i' H1 H2. congruence.
    + intros id H. rewrite dom_insert_L in H. apply elem_of_union in H.
      destruct H as [H|H]; [|left; exact H].
      apply elem_of_singleton in H. subst id. right.
      intros Hin. apply elem_of_dom in Hin. destruct Hin as [x Hx]. congruence.
Qed.

Lemma probe_entries_kept rs :
  forall n m u, ranges n = Some m -> unexpectedRanges n = Some u ->
    exists n',
      RosterNode.probe_entries SameMeta RemoteStateFromProto IdentFromProto n rs
      = Some n'
      /\ kept n n'.
Proof.
  induction rs as [|r rs IH]; intros n m u Hm Hu; simpl.
  - exists n. split; [reflexivity|exact (kept_refl n m u Hm Hu)].
  - destruct (probe_entry_kept n r m u Hm Hu) as (n1 & -> & Hk). simpl.
    pose proof Hk as (_ & _ & m0 & m1 & u0 & u1 & _ & Hm1 & _ & Hu1 & _).
    destruct (IH n1 m1 u1 Hm1 Hu1) as (n2 & -> & Hk2).
    exists n2. split; [reflexivity|exact (kept_trans _ _ _ Hk Hk2)].
Qed.

End RosterNodeFacts.

(** A node made by [NewNode] has nil maps: the first [Give] panics, and so
    does the first probe whose answer lists a range. *)
Theorem NewNode_cannot_be_given_or_probed (Range pbState pbIdent : Type)
  (SameMeta : Range -> Ranje.Ident -> string -> string -> bool)
  (RemoteStateFromProto : pbState -> Reconciler.StateRemote)
  (IdentFromProto : pbIdent -> Ranje.Ident) (h : string) (p : Z) :
  (forall id r, RosterNode.Give (@RosterNode.NewNode Range pbIdent h p) id r = None)
  /\ (forall rs,
        RosterNode.Probe SameMeta RemoteStateFromProto IdentFromProto
          (RosterNode.NewNode h p) (Some rs) = None
        <-> Exists (fun r => RosterNode.info_Range r <> None) rs).
Proof.
  split; [reflexivity|]. intros rs. unfold RosterNode.Probe.
  rewrite probe_entries_nil_maps.
  induction rs as [|r rs IH]; simpl.
  - split; [discriminate|]. intros H. inversion H.
  - destruct (RosterNode.info_Range r) as [rr|] eqn:E; simpl.
    + split; [|reflexivity]. intros _. apply Exists_cons_hd. rewrite E. discriminate.
    + rewrite IH. split; [intros H; apply Exists_cons_tl; exact H|].
      intros H. inversion H as [? ? H1|? ? H1]; subst; [congruence|exact H1].
Qed.

(** A probe of a node whose maps exist does not panic; it keeps the ranges
    the node has been given, each with the range it was given for, and
    what it notes as unexpected is none of them. *)
Theorem Probe_keeps_given_ranges (Range pbState pbIdent : Type)
  (SameMeta : Range -> Ranje.Ident -> string -> string -> bool)
  (RemoteStateFromProto : pbState -> Reconciler.StateRemote)
  (IdentFromProto : pbIdent -> Ranje.Ident)
  (n : @RosterNode.Node Range pbIdent)
  (m : gmap Ranje.Ident (@RosterNode.Info Range))
  (u : gmap Ranje.Ident (@RosterNode.pbRangeMeta pbIdent))
  (res : option (list (@RosterNode.pbRangeInfo pbState pbIdent))) :
  RosterNode.ranges n = Some m ->
  RosterNode.unexpectedRanges n = Some u ->
  exists n' e,
    RosterNode.Probe SameMeta RemoteStateFromProto IdentFromProto n res = Some (n', e)
    /\ RosterNode.kept n n'.
Proof.
  intros Hm Hu. destruct res as [rs|]; simpl.
  - destruct (probe_entries_kept SameMeta RemoteStateFromProto IdentFromProto rs n m u Hm Hu)
      as (n' & -> & Hk).
    exists n', None. split; [reflexivity|exact Hk].
  - exists n, (Some RosterNode.ErrProbe). split; [reflexivity|].
    exact (kept_refl n m u Hm Hu).
Qed.

Lemma Probe_keeps_given_ranges_witness :
  let n := RosterNode.mkNode "host" 8000
             (Some {[ Ranje.mkIdent "" 1 := RosterNode.mkInfo tt Reconciler.StateUnknown 0 ]})
             (Some ∅) in
  exists n' e,
    RosterNode.Probe (fun _ _ _ _ => true) (fun s : Reconciler.StateRemote => s)
      (fun i : Ranje.Ident => i) n
      (Some [RosterNode.mkPbRangeInfo
               (Some (RosterNode.mkPbRangeMeta (Ranje.mkIdent "" 1) "" ""))
               Reconciler.StateReady 5;
             RosterNode.mkPbRangeInfo
               (Some (RosterNode.mkPbRangeMeta (Ranje.mkIdent "" 2) "" ""))
               Reconciler.StateReady 7]) = Some (n', e)
    /\ RosterNode.kept n n'.
Proof.
  intros n.
  apply (Probe_keeps_given_ranges unit Reconciler.StateRemote Ranje.Ident
           (fun _ _ _ _ => true) (fun s => s) (fun i => i) n
           {[ Ranje.mkIdent "" 1 := RosterNode.mkInfo tt Reconciler.StateUnknown 0 ]} ∅);
    reflexivity.
Defined.

(* ----------------------------------------------------------------- *)
(** ** The orchestrator: moves, drains and the placements to destroy   *)
(* ----------------------------------------------------------------- *)

Section MoveFacts.
Import Api Catalog Orchestrator.
Variable MinPlacements : Range -> nat.
Variable Candidate :
  gmap string Node -> list Range -> option Range -> Api.NodeID -> option Api.NodeID.
Variable MayActivate MayDeactivate MayDrop :
  option Operation -> list Range -> Placement -> Range -> bool.
Variable Put : RangeID -> Placement -> bool.
Variable SplitCheck : list Range -> Range -> Key -> bool.

Lemma take_move_Some rID ms m rest :
  take_move rID ms = Some (m, rest) ->
  exists l1 l2, ms = l1 ++ m :: l2 /\ rest = l1 ++ l2 /\ move_Range m = rID
                /\ Forall (fun x => move_Range x <> rID) l1.
Proof.
  revert m rest. induction ms as [|x ms IH]; intros m rest H; simpl in H; [discriminate|].
  case_bool_decide as Hd.
  - injection H as <- <-. exists [], ms. repeat split; [exact Hd|constructor].
  - destruct (take_move rID ms) as [[y rest']|]; simpl in H; [|discriminate].
    injection H as <- <-.
    destruct (IH y rest' eq_refl) as (l1 & l2 & -> & -> & Hm & HF).
    exists (x :: l1), l2. repeat split; [exact Hm|]. constructor; assumption.
Qed.

Lemma take_move_None rID ms :
  take_move rID ms = None -> Forall (fun x => move_Range x <> rID) ms.
Proof.
  induction ms as [|x ms IH]; intros H; simpl in H; [constructor|].
  case_bool_decide as Hd; [discriminate|].
  destruct (take_move rID ms) as [[y rest']|]; simpl in H; [discriminate|].
  constructor; [exact Hd|apply IH; reflexivity].
Qed.

Lemma doMove_error w ri m w' e :
  doMove Candidate w ri m = (w', Some e) -> w' = w.
Proof.
  unfold doMove. destruct (ks w !! ri) as [r|]; [|intros H; inversion H].
  destruct (if bool_decide (move_Src m <> "") then _ else _) as [src|];
    [|intros H; inversion H; reflexivity].
  destruct (first_where _ (Placements r)) as [p|]; [intros H; inversion H; reflexivity|].
  destruct (Candidate _ _ _ _); intros H; inversion H; reflexivity.
Qed.

Lemma opMoves_Want w ri pi s : opMoves (Want w ri pi s) = opMoves w.
Proof.
  unfold Want. destruct (ks w !! ri); [|reflexivity].
  destruct (placement_at w ri pi); reflexivity.
Qed.

Lemma opMoves_switch w ri pi op rID p n w' d :
  tickPlacement_switch MayActivate MayDeactivate MayDrop Put w ri pi op rID p n
    = Some (w', d) ->
  opMoves w' = opMoves w.
Proof.
  unfold tickPlacement_switch.
  destruct (StateCurrent p); try discriminate.
  - destruct n as [nd|]; [simpl|discriminate].
    destruct (node_ranges nd !! rID) as [[]|]; simpl;
      intros H; inversion H; subst; rewrite ?opMoves_Want; reflexivity.
  - destruct n as [nd|]; [simpl|discriminate].
    destruct (node_ranges nd !! rID) as [[]|]; simpl;
      repeat match goal with
      | |- context [if ?b then _ else _] => destruct b
      end;
      intros H; inversion H; subst; rewrite ?opMoves_Want; reflexivity.
  - destruct n as [nd|]; [simpl|discriminate].
    destruct (node_ranges nd !! rID) as [[]|]; simpl;
      repeat match goal with
      | |- context [if ?b then _ else _] => destruct b
      end;
      intros H; inversion H; subst; rewrite ?opMoves_Want; reflexivity.
  - intros H; inversion H; reflexivity.
  - intros H; inversion H; reflexivity.
Qed.

End MoveFacts.

Section MoveFacts2.
Import Api Catalog Orchestrator.
Variable Candidate :
  gmap string Node -> list Range -> option Range -> Api.NodeID -> option Api.NodeID.

Lemma doMove_error_same w ri m es ms :
  snd (doMove Candidate (with_opMoves (emit w es) ms) ri m)
  = snd (doMove Candidate w ri m).
Proof.
  unfold doMove. simpl. destruct (ks w !! ri) as [r|]; [|reflexivity].
  destruct (if bool_decide (move_Src m <> "") then _ else _) as [src|]; [|reflexivity].
  destruct (first_where _ (Placements r)) as [p|]; [reflexivity|].
  destruct (Candidate _ _ _ _); reflexivity.
Qed.

Lemma remove_two (ps : list Placement) i j :
  (i < j)%nat -> (j + 1 < length ps)%nat ->
  take j (take i ps ++ drop (S i) ps) ++ drop (S j) (take i ps ++ drop (S i) ps)
  = take i ps ++ take (j - i) (drop (S i) ps) ++ drop (j + 2) ps.
Proof.
  intros Hij Hj.
  assert (Hl : length (take i ps) = i) by (rewrite length_take; lia).
  rewrite take_app_ge by (rewrite Hl; lia).
  rewrite drop_app_ge by (rewrite Hl; lia). rewrite Hl.
  rewrite <- app_assoc. f_equal. f_equal.
  rewrite drop_drop. f_equal. lia.
Qed.

End MoveFacts2.

(** [moveOp] takes the first pending move for the range off the list and
    leaves the others in their order; it answers that there is none exactly
    when no move is for the range. *)
Theorem moveOp_takes_the_first (rID : Z) (ms : list Orchestrator.OpMove) :
  match Orchestrator.take_move rID ms with
  | Some (m, rest) =>
      exists l1 l2, ms = l1 ++ m :: l2 /\ rest = l1 ++ l2
        /\ Orchestrator.move_Range m = rID
        /\ Forall (fun x => Orchestrator.move_Range x <> rID) l1
  | None => Forall (fun x => Orchestrator.move_Range x <> rID) ms
  end.
Proof.
  destruct (Orchestrator.take_move rID ms) as [[m rest]|] eqn:E.
  - exact (take_move_Some rID ms m rest E).
  - exact (take_move_None rID ms E).
Qed.

(** A move that [doMove] rejects ends the tick of its range: the move is
    off the list, its error is sent on its channel, if it has one, and the
    channel closed, and [tickRange] returns.  No placement of the range is
    ticked and no pending split of the range is looked at: the keyspace,
    the roster and the other requests are as they were. *)
Theorem rejected_move_ends_tickRange
  (MinPlacements : Catalog.Range -> nat)
  (Candidate : gmap string Orchestrator.Node -> list Catalog.Range ->
               option Catalog.Range -> string -> option string)
  (MayActivate MayDeactivate MayDrop :
     option Orchestrator.Operation -> list Catalog.Range -> Catalog.Placement ->
     Catalog.Range -> bool)
  (Put : Z -> Catalog.Placement -> bool)
  (SplitCheck : list Catalog.Range -> Catalog.Range -> string -> bool)
  (w : Orchestrator.World) (ri : nat) (op : option Orchestrator.Operation)
  (r : Catalog.Range) (m : Orchestrator.OpMove) (rest : list Orchestrator.OpMove)
  (e : Orchestrator.Error) :
  Orchestrator.ks w !! ri = Some r ->
  Catalog.State r = Api.RsActive ->
  (MinPlacements r <= length (Catalog.Placements r))%nat ->
  Orchestrator.take_move (Api.Ident (Catalog.Meta r)) (Orchestrator.opMoves w)
    = Some (m, rest) ->
  snd (Orchestrator.doMove Candidate w ri m) = Some e ->
  exists w',
    Orchestrator.tickRange MinPlacements Candidate MayActivate MayDeactivate MayDrop
      Put SplitCheck w ri op = Some w'
    /\ Orchestrator.ks w' = Orchestrator.ks w
    /\ Orchestrator.rost w' = Orchestrator.rost w
    /\ Orchestrator.opMoves w' = rest
    /\ Orchestrator.opSplits w' = Orchestrator.opSplits w
    /\ Orchestrator.opJoins w' = Orchestrator.opJoins w
    /\ Orchestrator.trace w'
       = Orchestrator.trace w
         ++ Orchestrator.EnterRange (Api.Ident (Catalog.Meta r))
            :: match Orchestrator.move_Err m with
               | Some ch => [Orchestrator.Send ch e; Orchestrator.Close ch]
               | None => []
               end.
Proof.
  intros Hr Hs Hmin Ht He.
  unfold Orchestrator.tickRange. rewrite Hr. simpl. rewrite Hs.
  unfold Orchestrator.tickRange_active. simpl. rewrite Hr.
  rewrite bool_decide_eq_false_2 by lia. simpl. rewrite Ht.
  pose proof (doMove_error_same Candidate w ri m
                [Orchestrator.EnterRange (Api.Ident (Catalog.Meta r))] rest) as Hsame.
  rewrite He in Hsame.
  destruct (Orchestrator.doMove Candidate _ ri m) as [w2 err] eqn:Ed in Hsame |- *.
  simpl in Hsame. subst err.
  apply doMove_error in Ed. subst w2. simpl.
  eexists. split; [reflexivity|].
  unfold Orchestrator.fail. destruct (Orchestrator.move_Err m) as [ch|]; simpl.
  - repeat split. rewrite <- app_assoc. reflexivity.
  - repeat split.
Qed.

Lemma rejected_move_ends_tickRange_witness :
  exists w',
    Orchestrator.tickRange Modelled.MinPlacements Modelled.Candidate
      Modelled.MayActivate Modelled.MayDeactivate Modelled.MayDrop Modelled.Put
      Modelled.SplitCheck move_from_elsewhere 0 None = Some w'
    /\ Orchestrator.ks w' = Orchestrator.ks move_from_elsewhere
    /\ Orchestrator.rost w' = Orchestrator.rost move_from_elsewhere
    /\ Orchestrator.opMoves w' = []
    /\ Orchestrator.opSplits w' = Orchestrator.opSplits move_from_elsewhere
    /\ Orchestrator.opJoins w' = Orchestrator.opJoins move_from_elsewhere
    /\ Orchestrator.trace w'
       = [Orchestrator.EnterRange 1;
          Orchestrator.Send 3 (Orchestrator.ErrSrcNotFound 1 "zzz");
          Orchestrator.Close 3].
Proof.
  apply (rejected_move_ends_tickRange Modelled.MinPlacements Modelled.Candidate
           Modelled.MayActivate Modelled.MayDeactivate Modelled.MayDrop Modelled.Put
           Modelled.SplitCheck move_from_elsewhere 0 None
           (Orchestrator.with_Placements (Orchestrator.new_range 1 "" "" [])
              [placed "aaa" "" Api.PsActive Api.PsActive])
           (Orchestrator.mkOpMove 1 "zzz" "bbb" (Some 3%nat)) []
           (Orchestrator.ErrSrcNotFound 1 "zzz")).
  - reflexivity.
  - reflexivity.
  - vm_compute. lia.
  - reflexivity.
  - reflexivity.
Defined.

(** Two placements to destroy, at the indices [i < j]: the second index is
    used on the slice that the first removal has left.  The loop panics
    unless there is a placement behind [j]; if there is one, that placement
    is removed and the one at [j] stays. *)
Theorem destroy_all_two_indices (ps : list Catalog.Placement) (i j : nat) :
  (i < j)%nat ->
  Orchestrator.destroy_all [i; j] ps
  = if bool_decide (j + 1 < length ps)%nat
    then Some (take i ps ++ take (j - i) (drop (S i) ps) ++ drop (j + 2) ps)
    else None.
Proof.
  intros Hij. simpl. unfold Orchestrator.remove_at.
  case_bool_decide as Hi; simpl.
  - rewrite length_app, length_take, length_drop.
    case_bool_decide as Hj; case_bool_decide as Hj'; try lia; [|reflexivity].
    simpl. f_equal. apply remove_two; assumption.
  - rewrite bool_decide_eq_false_2 by lia. reflexivity.
Qed.

Lemma destroy_all_two_indices_witness :
  Orchestrator.destroy_all [0; 1]%nat
    [Catalog.bare_placement "aaa" Api.PsDropped Api.PsDropped;
     Catalog.bare_placement "bbb" Api.PsDropped Api.PsDropped;
     Catalog.bare_placement "ccc" Api.PsActive Api.PsActive]
  = Some [Catalog.bare_placement "bbb" Api.PsDropped Api.PsDropped].
Proof.
  apply (destroy_all_two_indices
           [Catalog.bare_placement "aaa" Api.PsDropped Api.PsDropped;
            Catalog.bare_placement "bbb" Api.PsDropped Api.PsDropped;
            Catalog.bare_placement "ccc" Api.PsActive Api.PsActive] 0 1).
  lia.
Defined.

(** A placement on a node that wants to be drained has a move filed for its
    range each time it is ticked, in whatever state it is; the tick of the
    placement does nothing else to the list of moves. *)
Theorem drain_files_a_move_each_tick
  (MayActivate MayDeactivate MayDrop :
     option Orchestrator.Operation -> list Catalog.Range -> Catalog.Placement ->
     Catalog.Range -> bool)
  (Put : Z -> Catalog.Placement -> bool)
  (w w' : Orchestrator.World) (ri pi : nat) (op : option Orchestrator.Operation)
  (r : Catalog.Range) (p : Catalog.Placement) (nd : Orchestrator.Node) (d : bool) :
  Orchestrator.ks w !! ri = Some r ->
  Catalog.Placements r !! pi = Some p ->
  Orchestrator.rost w !! Catalog.NodeID p = Some nd ->
  Orchestrator.node_wantDrain nd = true ->
  Orchestrator.tickPlacement MayActivate MayDeactivate MayDrop Put w ri pi op
    = Some (w', d) ->
  Orchestrator.opMoves w'
  = Orchestrator.opMoves w
    ++ [Orchestrator.mkOpMove (Api.Ident (Catalog.Meta r)) (Catalog.NodeID p) "" None].
Proof.
  intros Hr Hp Hn Hd. unfold Orchestrator.tickPlacement.
  rewrite Hr. simpl. rewrite Hp. simpl. rewrite Hn. simpl.
  intros H. apply opMoves_switch in H. rewrite H.
  unfold Orchestrator.note_drain. rewrite Hd. reflexivity.
Qed.

Lemma drain_files_a_move_each_tick_witness :
  Orchestrator.opMoves
    (from_option fst draining
       (Orchestrator.tickPlacement Modelled.MayActivate Modelled.MayDeactivate
          Modelled.MayDrop Modelled.Put draining 0 0 None))
  = [Orchestrator.mkOpMove 1 "aaa" "" None].
Proof.
  destruct (Orchestrator.tickPlacement Modelled.MayActivate Modelled.MayDeactivate
              Modelled.MayDrop Modelled.Put draining 0 0 None) as [[w' d]|] eqn:E.
  - simpl.
    apply (drain_files_a_move_each_tick Modelled.MayActivate Modelled.MayDeactivate
             Modelled.MayDrop Modelled.Put draining w' 0 0 None
             (Orchestrator.with_Placements (Orchestrator.new_range 1 "" "" [])
                [placed "aaa" "" Api.PsActive Api.PsActive])
             (placed "aaa" "" Api.PsActive Api.PsActive)
             (Orchestrator.mkNode {[1%Z := Api.NsActive]} true) d).
    + reflexivity.
    + reflexivity.
    + reflexivity.
    + reflexivity.
    + exact E.
  - vm_compute in E. discriminate.
Defined.

(* ----------------------------------------------------------------- *)
(** ** The parents of a range                                          *)
(* ----------------------------------------------------------------- *)

Section UtilFacts.
Import Api Catalog Util.
Variable ks : list Range.
Variable rost : gmap string string.

Lemma Get_Some rID r : Get ks rID = Some r -> Ident (Meta r) = rID /\ r ∈ ks.
Proof.
  induction ks as [|x l IH]; simpl; [discriminate|].
  case_bool_decide as Hd.
  - intros H. injection H as <-. split; [exact Hd|apply elem_of_cons; left; reflexivity].
  - intros H. destruct (IH H) as [H1 H2]. split; [exact H1|].
    apply elem_of_cons. right; exact H2.
Qed.

Lemma Get_again rID r : Get ks rID = Some r -> Get ks (Ident (Meta r)) = Some r.
Proof. intros H. destruct (Get_Some rID r H) as [-> _]. exact H. Qed.

Lemma list_to_set_size (l : list Z) : size (list_to_set l : gset Z) <= length l.
Proof.
  induction l as [|x l IH]; [rewrite list_to_set_nil, size_empty; simpl; lia|].
  rewrite list_to_set_cons, size_union_alt, size_singleton. simpl.
  assert (size ((list_to_set l : gset Z) ∖ {[x]}) <= size (list_to_set l : gset Z)).
  { apply subseteq_size. intros y Hy. apply elem_of_difference in Hy. tauto. }
  lia.
Qed.

Lemma idents_size :
  size (list_to_set ((fun r => Ident (Meta r)) <$> ks) : gset Z) <= length ks.
Proof.
  etrans; [apply list_to_set_size|]. rewrite length_fmap. reflexivity.
Qed.

(** The identifiers of the keyspace that have not been seen. *)
Lemma unseen_mono (S S' : gset Z) :
  S ⊆ S' ->
  size ((list_to_set ((fun r => Ident (Meta r)) <$> ks) : gset Z) ∖ S')
  <= size ((list_to_set ((fun r => Ident (Meta r)) <$> ks) : gset Z) ∖ S).
Proof.
  intros H. apply subseteq_size. intros y Hy. apply elem_of_difference in Hy.
  destruct Hy as [H1 H2]. apply elem_of_difference. split; [exact H1|].
  intros Hs. apply H2, H, Hs.
Qed.

Lemma unseen_less (S : gset Z) r :
  r ∈ ks -> Ident (Meta r) ∉ S ->
  size ((list_to_set ((fun r => Ident (Meta r)) <$> ks) : gset Z)
          ∖ ({[Ident (Meta r)]} ∪ S))
  < size ((list_to_set ((fun r => Ident (Meta r)) <$> ks) : gset Z) ∖ S).
Proof.
  intros Hin Hn. apply subset_size. split.
  - intros y Hy. apply elem_of_difference in Hy. destruct Hy as [H1 H2].
    apply elem_of_difference. split; [exact H1|].
    intros Hs. apply H2. apply elem_of_union. right; exact Hs.
  - intros Hsub.
    assert (Hx : Ident (Meta r)
                 ∈ (list_to_set ((fun r => Ident (Meta r)) <$> ks) : gset Z) ∖ S).
    { apply elem_of_difference. split; [|exact Hn].
      apply elem_of_list_to_set. apply list_elem_of_fmap. exists r.
      split; [reflexivity|exact Hin]. }
    apply Hsub in Hx. apply elem_of_difference in Hx. destruct Hx as [_ Hx].
    apply Hx. apply elem_of_union. left. apply elem_of_singleton. reflexivity.
Qed.

End UtilFacts.

Section UtilRuns.
Import Api Catalog Util.
Variable ks : list Range.
Variable rost : gmap string string.

Lemma collected_nil (roots : RangeID -> Prop) P S :
  collected ks rost roots P S [] P S.
Proof.
  unfold collected. split; [|split; [|split; [|split]]].
  - rewrite fmap_nil, app_nil_r. reflexivity.
  - rewrite fmap_nil, list_to_set_nil, union_empty_l_L. reflexivity.
  - rewrite fmap_nil. apply NoDup_nil_2.
  - intros n H. apply elem_of_nil in H. destruct H.
  - intros n b H. apply elem_of_nil in H. destruct H.
Qed.

Lemma collected_seen roots P S N P' S' :
  collected ks rost roots P S N P' S' -> S ⊆ S'.
Proof.
  intros (_ & -> & _). intros y Hy. apply elem_of_union. right; exact Hy.
Qed.

Lemma collected_roots (roots roots' : RangeID -> Prop) P S N P' S' :
  (forall n a, n ∈ N -> roots a -> ancestor ks a (Ident (Meta n)) ->
     exists a', roots' a' /\ ancestor ks a' (Ident (Meta n))) ->
  collected ks rost roots P S N P' S' -> collected ks rost roots' P S N P' S'.
Proof.
  intros Hr (HP & HS & Hnd & Hn & Hc).
  split; [exact HP|]. split; [exact HS|]. split; [exact Hnd|]. split; [|exact Hc].
  intros n H. destruct (Hn n H) as (H1 & H2 & a & Ha & Hanc).
  split; [exact H1|]. split; [exact H2|]. exact (Hr n a H Ha Hanc).
Qed.

Lemma collected_app roots P S N1 P1 S1 N2 P2 S2 :
  collected ks rost roots P S N1 P1 S1 ->
  collected ks rost roots P1 S1 N2 P2 S2 ->
  collected ks rost roots P S (N1 ++ N2) P2 S2.
Proof.
  intros (HP1 & HS1 & Hnd1 & Hn1 & Hc1) (HP2 & HS2 & Hnd2 & Hn2 & Hc2).
  assert (Hsub : S1 ⊆ S2) by (rewrite HS2; intros y Hy; apply elem_of_union; right; exact Hy).
  split; [|split; [|split; [|split]]].
  - rewrite HP2, HP1, fmap_app, <- app_assoc. reflexivity.
  - rewrite HS2, HS1, fmap_app, list_to_set_app_L.
    apply leibniz_equiv. intros y. rewrite !elem_of_union. tauto.
  - rewrite fmap_app. apply NoDup_app. split; [exact Hnd1|]. split; [|exact Hnd2].
    intros x Hx1 Hx2. apply list_elem_of_fmap in Hx2. destruct Hx2 as (n & -> & Hn).
    destruct (Hn2 n Hn) as (Hnot & _). apply Hnot. rewrite HS1.
    apply elem_of_union. left. apply elem_of_list_to_set. exact Hx1.
  - intros n Hn. apply elem_of_app in Hn. destruct Hn as [Hn|Hn].
    + exact (Hn1 n Hn).
    + destruct (Hn2 n Hn) as (Hnot & HG & Hanc). split; [|split; assumption].
      intros Hs. apply Hnot. rewrite HS1. apply elem_of_union. right; exact Hs.
  - intros n b Hn Hb. apply elem_of_app in Hn. destruct Hn as [Hn|Hn].
    + apply Hsub. exact (Hc1 n b Hn Hb).
    + exact (Hc2 n b Hn Hb).
Qed.

Lemma loop_ok d :
  call_ok ks rost d ->
  forall rIDs P S,
    size ((list_to_set ((fun r => Ident (Meta r)) <$> ks) : gset Z) ∖ S) < d ->
    match addParents_loop (addParents d ks rost) ks rIDs P S with
    | Done P' S' =>
        exists N, collected ks rost (fun a => a ∈ rIDs) P S N P' S'
                  /\ (forall a, a ∈ rIDs -> a ∈ S')
    | Panic b =>
        Get ks b = None
        /\ (b ∈ rIDs
            \/ exists a0 a, a0 ∈ rIDs /\ ancestor ks a0 a /\ parent_of ks a b)
    | OutOfFuel => False
    end.
Proof.
  intros Hcall. induction rIDs as [|rID rest IH]; intros P S Hd; simpl.
  - exists []. split; [apply collected_nil|].
    intros a H. apply elem_of_nil in H. destruct H.
  - destruct (Get ks rID) as [r|] eqn:EG.
    + destruct (Get_Some ks rID r EG) as [Hid _]. pose proof (Get_again ks rID r EG) as HG.
      pose proof (Hcall r P S HG Hd) as Hc.
      destruct (addParents d ks rost r P S) as [P1 S1|b|]; [| |exact Hc].
      2: { destruct Hc as (a & Hanc & Hp & Hb). split; [exact Hb|]. right.
           exists rID, a. split; [apply elem_of_cons; left; reflexivity|].
           rewrite <- Hid. split; assumption. }
      destruct Hc as (N1 & Hc1 & Hin1 & _).
      pose proof (collected_seen _ _ _ _ _ _ Hc1) as Hsub.
      assert (Hd1 : size ((list_to_set ((fun r => Ident (Meta r)) <$> ks) : gset Z) ∖ S1) < d).
      { eapply Nat.le_lt_trans; [apply unseen_mono; exact Hsub|exact Hd]. }
      specialize (IH P1 S1 Hd1).
      destruct (addParents_loop (addParents d ks rost) ks rest P1 S1) as [P2 S2|b|];
        [| |exact IH].
      * destruct IH as (N2 & Hc2 & Hin2). exists (N1 ++ N2). split.
        -- apply (collected_app _ P S N1 P1 S1 N2 P2 S2).
           ++ apply (collected_roots (eq (Ident (Meta r)))); [|exact Hc1].
              intros n a _ <- Ha. exists rID. split; [apply elem_of_cons; left; reflexivity|].
              rewrite <- Hid. exact Ha.
           ++ apply (collected_roots (fun a => a ∈ rest)); [|exact Hc2].
              intros n a _ Ha Hanc. exists a. split; [apply elem_of_cons; right; exact Ha|exact Hanc].
        -- intros a Ha. apply elem_of_cons in Ha. destruct Ha as [->|Ha].
           ++ apply (collected_seen _ _ _ _ _ _ Hc2). rewrite <- Hid. exact Hin1.
           ++ apply Hin2, Ha.
      * destruct IH as (Hb & Hor). split; [exact Hb|].
        destruct Hor as [Hor|(a0 & a & Ha0 & Hanc & Hp)].
        -- left. apply elem_of_cons. right; exact Hor.
        -- right. exists a0, a. split; [apply elem_of_cons; right; exact Ha0|].
           split; assumption.
    + split; [exact EG|]. left. apply elem_of_cons. left; reflexivity.
Qed.

Lemma addParents_ok d : call_ok ks rost d.
Proof.
  induction d as [|d IH]; intros r P S HG Hd; [lia|].
  cbn [addParents]. case_bool_decide as Hseen.
  - exists []. split; [apply collected_nil|]. split; [exact Hseen|]. contradiction.
  - destruct (Get_Some ks _ r HG) as [_ Hin].
    assert (Hd1 : size ((list_to_set ((fun r => Ident (Meta r)) <$> ks) : gset Z)
                          ∖ ({[Ident (Meta r)]} ∪ S)) < d).
    { pose proof (unseen_less ks S r Hin Hseen). lia. }
    pose proof (loop_ok d IH (Parents r) (P ++ [pbPlacement_of rost r])
                  ({[Ident (Meta r)]} ∪ S) Hd1) as Hl.
    destruct (addParents_loop (addParents d ks rost) ks (Parents r) _ _)
      as [P' S'|b|]; [| |exact Hl].
    + destruct Hl as (N & (HP & HS & Hnd & Hn & Hc) & Hall).
      assert (Hr' : Ident (Meta r) ∈ S').
      { rewrite HS. apply elem_of_union. right. apply elem_of_union. left.
        apply elem_of_singleton. reflexivity. }
      exists (r :: N). split; [|split; [exact Hr'|intros _; reflexivity]].
      split; [|split; [|split; [|split]]].
      * rewrite HP, fmap_cons, <- app_assoc. reflexivity.
      * rewrite HS, fmap_cons, list_to_set_cons.
        apply leibniz_equiv. intros y. rewrite !elem_of_union. tauto.
      * rewrite fmap_cons. apply NoDup_cons. split; [|exact Hnd].
        intros Hx. apply list_elem_of_fmap in Hx. destruct Hx as (n & He & Hn').
        destruct (Hn n Hn') as (Hnot & _). apply Hnot. rewrite <- He.
        apply elem_of_union. left. apply elem_of_singleton. reflexivity.
      * intros n Hn'. apply elem_of_cons in Hn'. destruct Hn' as [->|Hn'].
        -- split; [exact Hseen|]. split; [exact HG|].
           exists (Ident (Meta r)). split; [reflexivity|apply rtc_refl].
        -- destruct (Hn n Hn') as (Hnot & HGn & a & Ha & Hanc).
           split; [intros Hs; apply Hnot; apply elem_of_union; right; exact Hs|].
           split; [exact HGn|]. exists (Ident (Meta r)). split; [reflexivity|].
           apply rtc_l with a; [|exact Hanc]. exists r. split; [exact HG|exact Ha].
      * intros n b Hn' Hb. apply elem_of_cons in Hn'. destruct Hn' as [->|Hn'].
        -- apply Hall, Hb.
        -- exact (Hc n b Hn' Hb).
    + destruct Hl as (Hb & [Hor|(a0 & a & Ha0 & Hanc & Hp)]).
      * exists (Ident (Meta r)). split; [apply rtc_refl|]. split; [|exact Hb].
        exists r. split; [exact HG|exact Hor].
      * exists a. split; [|split; [exact Hp|exact Hb]].
        apply rtc_l with a0; [|exact Hanc]. exists r. split; [exact HG|exact Ha0].
Qed.

End UtilRuns.

(** [GetParents] of a range of the keyspace returns, whatever the links
    between the ranges are, cycles included: it answers with the range
    first and with each of its ancestors once, as the keyspace holds them,
    or it panics at a parent that the keyspace does not hold, of the range
    or of one of its ancestors. *)
Theorem GetParents_ancestors (ks : list Catalog.Range) (rost : gmap string string)
  (rang : Catalog.Range) :
  Util.Get ks (Api.Ident (Catalog.Meta rang)) = Some rang ->
  match Util.GetParents ks rost rang with
  | Util.Done ps _ =>
      exists N,
        ps = Util.pbPlacement_of rost <$> N
        /\ head N = Some rang
        /\ NoDup ((fun n => Api.Ident (Catalog.Meta n)) <$> N)
        /\ (forall n, n ∈ N -> Util.Get ks (Api.Ident (Catalog.Meta n)) = Some n)
        /\ (forall b, Util.ancestor ks (Api.Ident (Catalog.Meta rang)) b
                      <-> b ∈ (fun n => Api.Ident (Catalog.Meta n)) <$> N)
  | Util.Panic b =>
      exists a, Util.ancestor ks (Api.Ident (Catalog.Meta rang)) a
                /\ Util.parent_of ks a b /\ Util.Get ks b = None
  | Util.OutOfFuel => False
  end.
Proof.
  intros HG. unfold Util.GetParents.
  pose proof (addParents_ok ks rost (length ks + 2) rang [] ∅ HG) as H.
  assert (Hd : size ((list_to_set ((fun r => Api.Ident (Catalog.Meta r)) <$> ks) : gset Z) ∖ ∅)
               < length ks + 2).
  { pose proof (idents_size ks) as Hs.
    eapply Nat.le_lt_trans; [apply subseteq_size|].
    - intros y Hy. apply elem_of_difference in Hy. destruct Hy as [Hy _]. exact Hy.
    - lia. }
  specialize (H Hd).
  destruct (Util.addParents (length ks + 2) ks rost rang [] ∅) as [ps S'|b|];
    [|exact H|exact H].
  destruct H as (N & (HP & HS & Hnd & Hn & Hc) & Hin & Hhead).
  exists N. split; [exact HP|]. split; [apply Hhead, not_elem_of_empty|].
  split; [exact Hnd|]. split; [intros n Hn'; apply (Hn n Hn')|].
  assert (HS' : forall b, b ∈ S' <-> b ∈ (fun n => Api.Ident (Catalog.Meta n)) <$> N).
  { intros b. rewrite HS, elem_of_union, elem_of_list_to_set.
    split; [intros [Hb|Hb]; [exact Hb|]|intros Hb; left; exact Hb].
    apply elem_of_empty in Hb. destruct Hb. }
  intros b. split.
  - intros Hanc. apply HS'. unfold Util.ancestor in Hanc.
    revert b Hanc.
    apply (rtc_ind_r (R := Util.parent_of ks) (fun b => b ∈ S')
             (Api.Ident (Catalog.Meta rang))); [exact Hin|].
    intros y c _ (r & Hr & Hz) Hy. apply HS' in Hy.
    apply list_elem_of_fmap in Hy. destruct Hy as (n & -> & Hn').
    destruct (Hn n Hn') as (_ & HGn & _). rewrite HGn in Hr. injection Hr as <-.
    exact (Hc n c Hn' Hz).
  - intros Hb. apply list_elem_of_fmap in Hb. destruct Hb as (n & -> & Hn').
    destruct (Hn n Hn') as (_ & _ & a & <- & Hanc). exact Hanc.
Qed.

Lemma GetParents_ancestors_witness :
  match Util.GetParents joined_then_split ∅ (Orchestrator.new_range 4 "" "g" [3%Z]) with
  | Util.Done ps _ =>
      exists N,
        ps = Util.pbPlacement_of ∅ <$> N
        /\ head N = Some (Orchestrator.new_range 4 "" "g" [3%Z])
        /\ NoDup ((fun n => Api.Ident (Catalog.Meta n)) <$> N)
        /\ (forall n, n ∈ N ->
              Util.Get joined_then_split (Api.Ident (Catalog.Meta n)) = Some n)
        /\ (forall b, Util.ancestor joined_then_split 4 b
                      <-> b ∈ (fun n => Api.Ident (Catalog.Meta n)) <$> N)
  | Util.Panic b =>
      exists a, Util.ancestor joined_then_split 4 a
                /\ Util.parent_of joined_then_split a b
                /\ Util.Get joined_then_split b = None
  | Util.OutOfFuel => False
  end.
Proof.
  apply (GetParents_ancestors joined_then_split ∅ (Orchestrator.new_range 4 "" "g" [3%Z])).
  reflexivity.
Defined.

(* ----------------------------------------------------------------- *)
(** ** The mock actuator                                               *)
(* ----------------------------------------------------------------- *)

Section MockFacts.
Import Api Mock.

Lemma cmd_answered (a : Actuator) (c : Command) :
  hooked a -> answered a c ->
  exists out,
    cmd a (act c) (rID c) (nID c) =
      Some (mkActuator (injects a) (hooks a) (strict a) (commands a ++ [c])
              (unexpected a ++
                 (if strict a then unhooked a [c] else [])), out).
Proof.
  intros Hh Ha. unfold cmd, unhooked.
  replace (mkCommand (rID c) (nID c) (act c)) with c by (destruct c; reflexivity).
  rewrite filter_cons, filter_nil.
  destruct (injects a !! c) as [p|] eqn:Hc.
  - destruct (decide (Some p = None)) as [Hd|_]; [discriminate Hd|].
    destruct (lookup_lt_is_Some_2 (hooks a) p (Hh c p Hc)) as [h Hp].
    rewrite Hp. simpl.
    assert (Hu : unexpected a ++ (if strict a then [] else []) = unexpected a)
      by (destruct (strict a); apply app_nil_r).
    rewrite Hu. destruct (success h); eexists; reflexivity.
  - destruct (decide (@None nat = None)) as [_|Hd]; [|contradiction].
    destruct (strict a) eqn:Hs.
    + eexists. reflexivity.
    + destruct (Ha Hc Hs) as [s Hm]. rewrite Hm. simpl.
      rewrite app_nil_r. eexists. reflexivity.
Qed.

Lemma cmds_answered (l : list Command) (a : Actuator) :
  hooked a -> Forall (answered a) l ->
  cmds a l =
    Some (mkActuator (injects a) (hooks a) (strict a) (commands a ++ l)
            (unexpected a ++ (if strict a then unhooked a l else []))).
Proof.
  revert a. induction l as [|c l IH]; intros a Hh Hl.
  - simpl. unfold unhooked. rewrite filter_nil.
    assert (Hu : unexpected a ++ (if strict a then [] else []) = unexpected a)
      by (destruct (strict a); apply app_nil_r).
    rewrite Hu, app_nil_r. destruct a; reflexivity.
  - apply Forall_cons in Hl as [Hc Hl].
    destruct (cmd_answered a c Hh Hc) as [out Hout].
    cbn [cmds]. rewrite Hout. cbn [mbind option_bind].
    rewrite IH; [|exact Hh|exact Hl]. cbn [injects hooks strict commands unexpected].
    f_equal. f_equal.
    + rewrite <- app_assoc. reflexivity.
    + rewrite <- app_assoc. f_equal.
      destruct (strict a); [|reflexivity]. unfold unhooked.
      rewrite (filter_cons _ c l), filter_cons, filter_nil.
      destruct (decide (injects a !! c = None)); reflexivity.
Qed.

Lemma only_one (A : Type) (l : list A) (x : A) :
  NoDup l -> x ∈ l -> (forall y, y ∈ l -> y = x) -> l = [x].
Proof.
  intros Hn Hx Hall. destruct l as [|y l]; [inversion Hx|].
  assert (y = x) by (apply Hall; left). subst y.
  destruct l as [|z l]; [reflexivity|].
  assert (z = x) by (apply Hall; right; left). subst z.
  apply NoDup_cons in Hn as [Hn _]. exfalso. apply Hn. left.
Qed.

Lemma holders_fresh (m : gmap Command nat) (c : Command) (p : nat) :
  (forall c' q, m !! c' = Some q -> q <> p) ->
  filter (fun kv => kv.2 = p) (map_to_list (<[c := p]> m)) = [(c, p)].
Proof.
  intros Hf. apply only_one.
  - apply NoDup_filter, NoDup_map_to_list.
  - apply list_elem_of_filter. split; [reflexivity|].
    apply elem_of_map_to_list. apply lookup_insert_eq.
  - intros [c' q] Hin. apply list_elem_of_filter in Hin as [Hq Hin].
    simpl in Hq. subst q. apply elem_of_map_to_list in Hin.
    destruct (decide (c' = c)) as [->|Hne]; [reflexivity|].
    rewrite lookup_insert_ne in Hin by congruence.
    exfalso. exact (Hf c' p Hin eq_refl).
Qed.

Lemma holders_none (m : gmap Command nat) (p : nat) :
  (forall c' q, m !! c' = Some q -> q <> p) ->
  filter (fun kv => kv.2 = p) (map_to_list m) = [].
Proof.
  intros Hf. destruct (filter _ _) as [|[c' q] l] eqn:Hl; [reflexivity|].
  assert (Hin : (c', q) ∈ filter (fun kv : Command * nat => kv.2 = p) (map_to_list m))
    by (rewrite Hl; left).
  apply list_elem_of_filter in Hin as [Hq Hin]. simpl in Hq. subst q.
  apply elem_of_map_to_list in Hin. exfalso. exact (Hf c' p Hin eq_refl).
Qed.

Lemma hooked_older (a : Actuator) :
  hooked a -> forall c' q, injects a !! c' = Some q -> q <> length (hooks a).
Proof. intros Hh c' q Hq. specialize (Hh c' q Hq). lia. Qed.

End MockFacts.
Section MockInvariant.
Import Api Mock.

Lemma cmd_injects (a a' : Actuator) action r n out :
  cmd a action r n = Some (a', out) ->
  injects a' = injects a /\ hooks a' = hooks a.
Proof.
  unfold cmd. intros H.
  destruct (injects a !! _) as [p|].
  - destruct (hooks a !! p) as [h|]; [|discriminate H]. simpl in H.
    destruct (success h); inversion H; subst; split; reflexivity.
  - destruct (strict a).
    + inversion H; subst; split; reflexivity.
    + destruct (mustDefault action); [|discriminate H].
      inversion H; subst; split; reflexivity.
Qed.

Lemma do_keeps (a a' : Actuator) (o : op) :
  do a o = Some a' -> hooked a /\ unshared a -> hooked a' /\ unshared a'.
Proof.
  intros Hdo [Hh Hu]. destruct o; simpl in Hdo.
  - inversion Hdo; subst; clear Hdo. split.
    + intros c p Hc. simpl in *. rewrite length_app. simpl.
      apply lookup_insert_Some in Hc as [[_ <-]|[_ Hc]]; [lia|].
      specialize (Hh c p Hc). lia.
    + intros c1 c2 p H1 H2. simpl in *.
      apply lookup_insert_Some in H1 as [[E1 <-]|[N1 H1]];
        apply lookup_insert_Some in H2 as [[E2 E]|[N2 H2]].
      * congruence.
      * exfalso. exact (hooked_older a Hh c2 _ H2 eq_refl).
      * exfalso. subst p. exact (hooked_older a Hh c1 _ H1 eq_refl).
      * exact (Hu c1 c2 p H1 H2).
  - unfold Unject in Hdo.
    destruct (filter _ _) as [|[k v] l]; [discriminate Hdo|].
    inversion Hdo; subst; clear Hdo. split.
    + intros c p Hc. simpl in *. apply lookup_delete_Some in Hc as [_ Hc].
      exact (Hh c p Hc).
    + intros c1 c2 p H1 H2. simpl in *.
      apply lookup_delete_Some in H1 as [_ H1].
      apply lookup_delete_Some in H2 as [_ H2].
      exact (Hu c1 c2 p H1 H2).
  - inversion Hdo; subst; clear Hdo. split; [|exact Hu].
    intros c p Hc. simpl in *. rewrite length_alter. exact (Hh c p Hc).
  - inversion Hdo; subst; clear Hdo. split; [|exact Hu].
    intros c p Hc. simpl in *. rewrite length_alter. exact (Hh c p Hc).
  - inversion Hdo; subst; clear Hdo. split; [|exact Hu].
    intros c p Hc. simpl in *. rewrite length_alter. exact (Hh c p Hc).
  - destruct (cmd a action r n) as [[a1 out]|] eqn:Hc; [|discriminate Hdo].
    simpl in Hdo. inversion Hdo; subst; clear Hdo.
    destruct (cmd_injects _ _ _ _ _ _ Hc) as [Hi Hk]. split.
    + intros c p Hp. rewrite Hi in Hp. rewrite Hk. exact (Hh c p Hp).
    + intros c1 c2 p H1 H2. rewrite Hi in H1, H2. exact (Hu c1 c2 p H1 H2).
  - inversion Hdo; subst; clear Hdo. split; [exact Hh|exact Hu].
Qed.

Lemma run_keeps (l : list op) (a a' : Actuator) :
  run a l = Some a' -> hooked a /\ unshared a -> hooked a' /\ unshared a'.
Proof.
  revert a. induction l as [|o l IH]; intros a Hrun Ha.
  - inversion Hrun; subst. exact Ha.
  - cbn [run] in Hrun. destruct (do a o) as [a1|] eqn:Hdo; [|discriminate Hrun].
    cbn [mbind option_bind] in Hrun.
    exact (IH a1 Hrun (do_keeps a a1 o Hdo Ha)).
Qed.

Lemma New_hooked (s : bool) : hooked (New s) /\ unshared (New s).
Proof.
  split.
  - intros c p Hc. simpl in Hc. rewrite lookup_empty in Hc. discriminate Hc.
  - intros c1 c2 p Hc. simpl in Hc. rewrite lookup_empty in Hc. discriminate Hc.
Qed.

Lemma cmd_same_answer (a b : Actuator) action r n :
  injects b !! mkCommand r n action = injects a !! mkCommand r n action ->
  (forall p, injects a !! mkCommand r n action = Some p ->
             hooks b !! p = hooks a !! p) ->
  strict b = strict a ->
  snd <$> cmd b action r n = snd <$> cmd a action r n.
Proof.
  intros Hi Hk Hs. unfold cmd. rewrite Hi, Hs.
  destruct (injects a !! _) as [p|].
  - rewrite (Hk p eq_refl). destruct (hooks a !! p) as [h|]; [|reflexivity].
    simpl. destruct (success h); reflexivity.
  - destruct (strict a); [reflexivity|].
    destruct (mustDefault action); reflexivity.
Qed.

End MockInvariant.
(** Every command that [cmd] is called with is logged, in the order of
    the calls, and in strict mode the ones without a hook are logged as
    unexpected as well; hooks and mode stay as they are.  This holds for a
    run of commands that are answered without a panic (each has a hook, or
    the mode is strict, or its action has a default). *)
Theorem cmd_logs_every_command (a : Mock.Actuator) (l : list Mock.Command) :
  Mock.hooked a -> Forall (Mock.answered a) l ->
  exists a',
    Mock.cmds a l = Some a' /\
    Mock.commands a' = Mock.commands a ++ l /\
    Mock.Unexpected a' =
      Mock.Unexpected a ++ (if Mock.strict a then Mock.unhooked a l else []) /\
    Mock.injects a' = Mock.injects a /\
    Mock.hooks a' = Mock.hooks a /\
    Mock.strict a' = Mock.strict a.
Proof.
  intros Hh Hl. eexists. split; [apply cmds_answered; assumption|].
  simpl. unfold Mock.Unexpected. simpl. repeat split; reflexivity.
Qed.

Lemma cmd_logs_every_command_witness :
  let a := (Mock.Inject_hook (Mock.New true) "n1" 1 Mock.Give).1 in
  let l := [Mock.mkCommand 1 "n1" Mock.Give; Mock.mkCommand 2 "n1" (Mock.Other 7)] in
  exists a',
    Mock.cmds a l = Some a' /\
    Mock.commands a' = Mock.commands a ++ l /\
    Mock.Unexpected a' =
      Mock.Unexpected a ++ (if Mock.strict a then Mock.unhooked a l else []) /\
    Mock.injects a' = Mock.injects a /\
    Mock.hooks a' = Mock.hooks a /\
    Mock.strict a' = Mock.strict a.
Proof.
  intros a l. apply (cmd_logs_every_command a l).
  - intros c p Hc. unfold a in Hc. simpl in Hc.
    apply lookup_insert_Some in Hc as [[_ <-]|[_ Hc]]; [simpl; lia|].
    rewrite lookup_empty in Hc. discriminate Hc.
  - repeat constructor; intros _ Hs; discriminate Hs.
Defined.

(** A hook that is injected for a command and then removed leaves the
    command without a hook, also when the command had a hook before: the
    older hook does not come back, and removing the older hook, or the new
    one a second time, panics. *)
Theorem Unject_after_Inject (a : Mock.Actuator) (n : string) (r : Z)
    (action : Mock.Action) :
  Mock.hooked a -> Mock.unshared a ->
  let c := Mock.mkCommand r n action in
  exists a2,
    Mock.Unject (Mock.Inject_hook a n r action).1
      (Mock.Inject_hook a n r action).2 = Some a2 /\
    Mock.injects a2 = delete c (Mock.injects a) /\
    Mock.Unject a2 (Mock.Inject_hook a n r action).2 = None /\
    (forall old, Mock.injects a !! c = Some old -> Mock.Unject a2 old = None).
Proof.
  intros Hh Hu c. unfold Mock.Inject_hook. fold c.
  unfold Mock.Unject at 1.
  cbn [fst snd Mock.injects Mock.hooks Mock.strict Mock.commands Mock.unexpected].
  rewrite (holders_fresh _ c _ (hooked_older a Hh)).
  eexists. split; [reflexivity|].
  cbn [Mock.injects]. rewrite delete_insert_eq.
  split; [reflexivity|]. split.
  - unfold Mock.Unject. cbn [Mock.injects]. rewrite holders_none; [reflexivity|].
    intros c' q Hq. apply lookup_delete_Some in Hq as [_ Hq].
    exact (hooked_older a Hh c' q Hq).
  - intros old Hold. unfold Mock.Unject. cbn [Mock.injects].
    rewrite holders_none; [reflexivity|].
    intros c' q Hq ->. apply lookup_delete_Some in Hq as [Hne Hq].
    apply Hne. exact (Hu c c' old Hold Hq).
Qed.

Lemma Unject_after_Inject_witness :
  let a := (Mock.Inject_hook (Mock.New false) "n1" 1 Mock.Give).1 in
  let c := Mock.mkCommand 1 "n1" Mock.Give in
  exists a2,
    Mock.Unject (Mock.Inject_hook a "n1" 1 Mock.Give).1
      (Mock.Inject_hook a "n1" 1 Mock.Give).2 = Some a2 /\
    Mock.injects a2 = delete c (Mock.injects a) /\
    Mock.Unject a2 (Mock.Inject_hook a "n1" 1 Mock.Give).2 = None /\
    (forall old, Mock.injects a !! c = Some old -> Mock.Unject a2 old = None).
Proof.
  intros a c. apply (Unject_after_Inject a "n1" 1 Mock.Give).
  - intros c' p Hc. unfold a in Hc. simpl in Hc.
    apply lookup_insert_Some in Hc as [[_ <-]|[_ Hc]]; [simpl; lia|].
    rewrite lookup_empty in Hc. discriminate Hc.
  - intros c1 c2 p H1 H2. unfold a in H1, H2. simpl in H1, H2.
    apply lookup_insert_Some in H1 as [[<- _]|[_ H1]];
      [|rewrite lookup_empty in H1; discriminate H1].
    apply lookup_insert_Some in H2 as [[<- _]|[_ H2]];
      [reflexivity|rewrite lookup_empty in H2; discriminate H2].
Defined.

(** A hook answers for its own command, with what was set through its
    pointer after the injection: the state of [Response] while it succeeds,
    the injected error once [Failure] was called.  Every other command
    is answered as before the injection. *)
Theorem hook_answers_its_command (a : Mock.Actuator) (n : string) (r : Z)
    (action : Mock.Action) (s : Api.RemoteState) :
  Mock.hooked a ->
  let a1 := (Mock.Inject_hook a n r action).1 in
  let ij := (Mock.Inject_hook a n r action).2 in
  snd <$> Mock.cmd a1 action r n = Some (Api.NsUnknown, None) /\
  snd <$> Mock.cmd (Mock.Response a1 ij s) action r n = Some (s, None) /\
  snd <$> Mock.cmd (Mock.Failure (Mock.Response a1 ij s) ij) action r n =
    Some (Api.NsUnknown, Some Mock.ErrInjected) /\
  (forall action' r' n',
     Mock.mkCommand r' n' action' <> Mock.mkCommand r n action ->
     snd <$> Mock.cmd (Mock.Failure (Mock.Response a1 ij s) ij) action' r' n' =
       snd <$> Mock.cmd a action' r' n').
Proof.
  intros Hh a1 ij. unfold a1, ij, Mock.Inject_hook. cbn [fst snd].
  split; [|split; [|split]].
  - unfold Mock.cmd. cbn [Mock.injects Mock.hooks].
    rewrite lookup_insert_eq. rewrite lookup_app_r by lia.
    rewrite Nat.sub_diag. reflexivity.
  - unfold Mock.cmd, Mock.Response, Mock.on_hook. cbn [Mock.injects Mock.hooks].
    rewrite lookup_insert_eq. rewrite list_lookup_alter_eq.
    rewrite lookup_app_r by lia. rewrite Nat.sub_diag. reflexivity.
  - unfold Mock.cmd, Mock.Failure, Mock.Response, Mock.on_hook.
    cbn [Mock.injects Mock.hooks].
    rewrite lookup_insert_eq. rewrite !list_lookup_alter_eq.
    rewrite lookup_app_r by lia. rewrite Nat.sub_diag. reflexivity.
  - intros action' r' n' Hne. apply cmd_same_answer.
    + unfold Mock.Failure, Mock.Response, Mock.on_hook. cbn [Mock.injects].
      apply lookup_insert_ne. congruence.
    + intros p Hp. specialize (Hh _ p Hp).
      unfold Mock.Failure, Mock.Response, Mock.on_hook. cbn [Mock.hooks].
      rewrite !list_lookup_alter_ne by lia.
      apply lookup_app_l. exact Hh.
    + reflexivity.
Qed.

Lemma hook_answers_its_command_witness :
  let a := Mock.New true in
  let a1 := (Mock.Inject_hook a "n1" 1 Mock.Give).1 in
  let ij := (Mock.Inject_hook a "n1" 1 Mock.Give).2 in
  snd <$> Mock.cmd a1 Mock.Give 1 "n1" = Some (Api.NsUnknown, None) /\
  snd <$> Mock.cmd (Mock.Response a1 ij Api.NsActive) Mock.Give 1 "n1" =
    Some (Api.NsActive, None) /\
  snd <$> Mock.cmd (Mock.Failure (Mock.Response a1 ij Api.NsActive) ij)
            Mock.Give 1 "n1" =
    Some (Api.NsUnknown, Some Mock.ErrInjected) /\
  (forall action' r' n',
     Mock.mkCommand r' n' action' <> Mock.mkCommand 1 "n1" Mock.Give ->
     snd <$> Mock.cmd (Mock.Failure (Mock.Response a1 ij Api.NsActive) ij)
               action' r' n' =
       snd <$> Mock.cmd a action' r' n').
Proof.
  intros a. apply (hook_answers_its_command a "n1" 1 Mock.Give Api.NsActive).
  intros c p Hc. simpl in Hc. rewrite lookup_empty in Hc. discriminate Hc.
Defined.

(** Whatever a test does with an actuator that [New] made (injecting and
    removing hooks, changing them, sending commands, resetting), each
    pointer of the map of hooks still points at a hook, and no two commands
    share one. *)
Theorem hooks_stay_valid (strict : bool) (l : list Mock.op) (a : Mock.Actuator) :
  Mock.run (Mock.New strict) l = Some a ->
  Mock.hooked a /\ Mock.unshared a.
Proof.
  intros Hrun. exact (run_keeps l _ a Hrun (New_hooked strict)).
Qed.

Lemma hooks_stay_valid_witness :
  let l := [Mock.DoInject "n1" 1 Mock.Give; Mock.DoFailure 0;
            Mock.DoCmd Mock.Give 1 "n1"; Mock.DoInject "n1" 1 Mock.Give;
            Mock.DoUnject 1; Mock.DoReset] in
  let a := from_option id (Mock.New false) (Mock.run (Mock.New false) l) in
  Mock.run (Mock.New false) l = Some a /\ Mock.hooked a /\ Mock.unshared a.
Proof.
  intros l a.
  assert (Hrun : Mock.run (Mock.New false) l = Some a) by (vm_compute; reflexivity).
  split; [exact Hrun|]. exact (hooks_stay_valid false l a Hrun).
Defined.
